(** * co-opt: the numerical core (aspheric ray tracing and PSF synthesis)

    A shallow embedding of [ray-tracing-wasm.c] and [wasm/psf-wasm.c].

    - A C [double] is a primitive binary64 [float]: [+], [-], [*], [/] and
      [sqrt] are the correctly rounded IEEE 754 operations the C code runs,
      comparisons are the IEEE ones ([nan] compares false with everything).
    - A C [int] is a [Z]; the loops of the source are structural recursions
      whose counters follow the source's.
    - The C library's [sin], [cos] and [fmod] are not part of the repository:
      the embedding takes them as a parameter ([Libm]).
    - An array is a [list]; a read or a write outside of it is undefined in C
      and makes the embedded function return [None].
    - The process-wide caches of [psf-wasm.c] are the fields of a record that
      every function of the module threads through. *)

From Stdlib Require Import ZArith List Bool Lia Floats.
Import ListNotations.

Set Warnings "-inexact-float".

Local Open Scope Z_scope.

(* ===================================================================== *)
(** * Doubles, ints and arrays as the C code uses them *)
(* ===================================================================== *)

Module C.

Local Open Scope float_scope.

(** [isfinite(x)] *)
Definition isfinite (x : float) : bool := is_finite x.

(** [fabs(x)] *)
Definition fabs (x : float) : float := abs x.

(** [a != b] on doubles: true as soon as one side is a NaN. *)
Definition neqb (a b : float) : bool := negb (a =? b).

(** [a > b] and [a >= b] on doubles. *)
Definition gtb (a b : float) : bool := b <? a.
Definition geb (a b : float) : bool := b <=? a.

(** [(double) n] for an [int] n. *)
Definition of_int (n : Z) : float :=
  match n with
  | Z0 => 0
  | Zpos _ => of_uint63 (Uint63.of_Z n)
  | Zneg _ => - of_uint63 (Uint63.of_Z (- n))
  end.

Definition INT_MAX : Z := 2147483647.
Definition INT_MIN : Z := -2147483648.

(** The integer part of a double, towards zero ([None] for NaN and the
    infinities). *)
Definition trunc (x : float) : option Z :=
  match Prim2SF x with
  | S754_zero _ => Some 0%Z
  | S754_finite s m e =>
      let a := match e with
               | Zneg k => Z.shiftr (Zpos m) (Zpos k)
               | _ => Z.shiftl (Zpos m) e
               end in
      Some (if s then (- a)%Z else a)
  | _ => None
  end.

(** [(int) x] as WebAssembly's saturating truncation computes it: NaN
    gives 0, a value outside of [int] gives the nearest bound. *)
Definition to_int (x : float) : Z :=
  match trunc x with
  | Some z => Z.max INT_MIN (Z.min INT_MAX z)
  | None => if is_nan x then 0%Z else if x <? 0 then INT_MIN else INT_MAX
  end.

(** [fmax(a, b)] of the C library: the larger argument, and the other
    argument when one is a NaN (on two zeros of opposite sign the C standard
    leaves the choice open; the code calls it on magnitudes only). *)
Definition fmax (a b : float) : float :=
  if is_nan a then b else if is_nan b then a else if a <? b then b else a.

(** [for (int i = lo; i < hi; i++) body] over a state that an
    out-of-bounds access aborts. *)
Fixpoint for_range {S : Type} (n : nat) (i : Z)
         (body : Z -> S -> option S) (s : S) : option S :=
  match n with
  | O => Some s
  | Datatypes.S n' =>
      match body i s with
      | Some s' => for_range n' (i + 1)%Z body s'
      | None => None
      end
  end.

Definition for_loop {S : Type} (lo hi : Z)
           (body : Z -> S -> option S) (s : S) : option S :=
  for_range (Z.to_nat (hi - lo)) lo body s.

(** [a[i]] and [a[i] = v]. *)
Definition rd {A : Type} (a : list A) (i : Z) : option A :=
  if (i <? 0)%Z then None else nth_error a (Z.to_nat i).

Fixpoint upd_nat {A : Type} (a : list A) (i : nat) (v : A) : list A :=
  match a, i with
  | [], _ => []
  | _ :: t, O => v :: t
  | h :: t, Datatypes.S i' => h :: upd_nat t i' v
  end.

Definition wr {A : Type} (a : list A) (i : Z) (v : A) : option (list A) :=
  if (i <? 0)%Z then None
  else if (Z.to_nat i <? length a)%nat then Some (upd_nat a (Z.to_nat i) v)
  else None.

(** Sequencing of steps that an out-of-bounds access aborts. *)
Notation "'do' x <- e ; k" :=
  (match e with Some x => k | None => None end)
  (at level 10, x name, e at level 100, k at level 200).

End C.

(** The C library functions the code calls. *)
Record Libm : Type := MkLibm {
  c_sin : float -> float;
  c_cos : float -> float;
  c_fmod : float -> float -> float
}.

(** ** A reference C library

    An instance of [Libm] to run the embedding on: [fmod] is the exact
    remainder the C standard defines, [sin] and [cos] are evaluated from their
    Taylor series in 160-bit fixed point after a reduction modulo 2 pi, and
    rounded to the nearest double.  The special values are those of Annex F
    of the C standard.  The theorems below are stated for every [Libm]; the
    reference instance serves where a statement has to be run. *)

Module RefLibm.

(** pi and 2 pi, scaled by 2^160. *)
Definition PI_160 : Z := 0x3243F6A8885A308D313198A2E03707344A4093822.
Definition TWO_PI_160 : Z := 2 * PI_160.

(** [a * b] in fixed point. *)
Definition fx_mul (a b : Z) : Z := Z.shiftr (a * b) 160.

(** The alternating series [t - t y2 / (d (d+1)) + ...]: [n] terms left, [t]
    the current term, [d] the next factor of the factorial, [acc] the sum. *)
Fixpoint series (n : nat) (y2 t d acc : Z) : Z :=
  match n with
  | O => acc
  | S n' =>
      let t' := - (fx_mul t y2 / (d * (d + 1))) in
      series n' y2 t' (d + 2) (acc + t')
  end.

Definition sin_fx (y : Z) : Z := series 80 (fx_mul y y) y 2 y.
Definition cos_fx (y : Z) : Z :=
  let one := Z.shiftl 1 160 in series 80 (fx_mul y y) one 1 one.

(** The fixed-point value rounded to the nearest double. *)
Definition round_fx (v : Z) : float :=
  SF2Prim (binary_normalize prec emax v (-160) false).

(** [|x|] reduced modulo 2 pi, in fixed point, for a finite [x = m 2^e]
    of magnitude at least 2^-27. *)
Definition reduce (m : positive) (e : Z) : Z :=
  (Z.shiftl (Zpos m) (e + 160)) mod TWO_PI_160.

Definition tiny : float := 0x1p-27%float.

Definition sin (x : float) : float :=
  match Prim2SF x with
  | S754_finite s m e =>
      if (abs x <? tiny)%float then x
      else
        let v := sin_fx (reduce m e) in
        round_fx (if s then - v else v)
  | S754_zero _ => x
  | _ => nan
  end.

Definition cos (x : float) : float :=
  match Prim2SF x with
  | S754_finite s m e =>
      if (abs x <? tiny)%float then 1%float
      else round_fx (cos_fx (reduce m e))
  | S754_zero _ => 1%float
  | _ => nan
  end.

(** [fmod(x, y)]: the exact remainder, with the sign of [x]. *)
Definition fmod (x y : float) : float :=
  match Prim2SF x, Prim2SF y with
  | S754_nan, _ | _, S754_nan => nan
  | S754_infinity _, _ => nan
  | _, S754_zero _ => nan
  | S754_zero _, _ => x
  | S754_finite _ _ _, S754_infinity _ => x
  | S754_finite sx mx ex, S754_finite _ my ey =>
      let e0 := Z.min ex ey in
      let r := (Z.shiftl (Zpos mx) (ex - e0)) mod (Z.shiftl (Zpos my) (ey - e0)) in
      SF2Prim (binary_normalize prec emax (if sx then - r else r) e0 sx)
  end.

Definition libm : Libm := MkLibm sin cos fmod.

End RefLibm.

(* ===================================================================== *)
(** * ray-tracing-wasm.c *)
(* ===================================================================== *)

Module RayTracing.

Import C.
Local Open Scope float_scope.

(** The body shared by the two loops of [__rt10_asphere_poly]: the
    remaining coefficients, the running power of [r] and the sum. *)
Fixpoint poly_loop (coefs : list float) (r2 r_power asphere : float) : float :=
  match coefs with
  | [] => asphere
  | c :: rest =>
      let asphere' := if neqb c 0 then asphere + c * r_power else asphere in
      poly_loop rest r2 (r_power * r2) asphere'
  end.

Definition __rt10_asphere_poly (r r2 : float)
           (coef1 coef2 coef3 coef4 coef5 coef6 coef7 coef8 coef9 coef10 : float)
           (modeOdd : Z) : float :=
  let coefs := [coef1; coef2; coef3; coef4; coef5; coef6; coef7; coef8; coef9; coef10] in
  if (modeOdd =? 0)%Z
  then poly_loop coefs r2 r2 0
  else poly_loop coefs r2 (r2 * r) 0.

(** The loops of [__rt10_asphere_dzdr]: [i] is the loop counter, [odd]
    selects the exponent [2(i+1)+1] or [2(i+1)]. *)
Fixpoint dzdr_loop (odd : bool) (coefs : list float) (i : Z)
         (r2 r_pow dz : float) : float :=
  match coefs with
  | [] => dz
  | c :: rest =>
      let dz' :=
        if neqb c 0 then
          let p := of_int (if odd then 2 * (i + 1) + 1 else 2 * (i + 1)) in
          dz + c * p * r_pow
        else dz in
      dzdr_loop odd rest (i + 1) r2 (r_pow * r2) dz'
  end.

Definition __rt10_asphere_dzdr (r r2 : float)
           (coef1 coef2 coef3 coef4 coef5 coef6 coef7 coef8 coef9 coef10 : float)
           (modeOdd : Z) : float :=
  if r =? 0 then 0 else
  let coefs := [coef1; coef2; coef3; coef4; coef5; coef6; coef7; coef8; coef9; coef10] in
  if (modeOdd =? 0)%Z
  then dzdr_loop false coefs 0 r2 r 0
  else dzdr_loop true coefs 0 r2 r2 0.

Definition aspheric_sag (r c k a4 a6 a8 a10 : float) : float :=
  if r =? 0 then 0 else
  let r2 := r * r in
  let cr2 := c * r2 in
  let discriminant := 1 - (1 + k) * c * c * r2 in
  if discriminant <=? 0 then 0 else
  let basic_sag := cr2 / (1 + sqrt discriminant) in
  let r4 := r2 * r2 in
  let r6 := r4 * r2 in
  let r8 := r4 * r4 in
  let r10 := r8 * r2 in
  let aspherical_terms := a4 * r4 + a6 * r6 + a8 * r8 + a10 * r10 in
  basic_sag + aspherical_terms.

Definition aspheric_sag10 (r c k a4 a6 a8 a10 a12 a14 a16 a18 a20 a22 : float) : float :=
  if r =? 0 then 0 else
  let r2 := r * r in
  let cr2 := c * r2 in
  let discriminant := 1 - (1 + k) * c * c * r2 in
  if discriminant <=? 0 then 0 else
  let basic_sag := cr2 / (1 + sqrt discriminant) in
  let r4 := r2 * r2 in
  let r6 := r4 * r2 in
  let r8 := r4 * r4 in
  let r10 := r8 * r2 in
  let r12 := r6 * r6 in
  let r14 := r12 * r2 in
  let r16 := r8 * r8 in
  let r18 := r16 * r2 in
  let r20 := r10 * r10 in
  let r22 := r20 * r2 in
  let aspherical_terms :=
    a4 * r4 + a6 * r6 + a8 * r8 + a10 * r10 +
    a12 * r12 + a14 * r14 + a16 * r16 + a18 * r18 + a20 * r20 + a22 * r22 in
  basic_sag + aspherical_terms.

(** [for (i = 0; i < count; i++) result_array[i] = f(r_array[i]);] the loop
    of the two batch entry points, which differ in [f] only. *)
Definition batch_body (f : float -> float) (r_array : list float)
           (i : Z) (result_array : list float) : option (list float) :=
  match rd r_array i with
  | Some r => wr result_array i (f r)
  | None => None
  end.

Definition batch_aspheric_sag (r_array : list float) (count : Z)
           (c k a4 a6 a8 a10 : float) (result_array : list float)
  : option (list float) :=
  for_loop 0 count
    (batch_body (fun r => aspheric_sag r c k a4 a6 a8 a10) r_array)
    result_array.

Definition batch_aspheric_sag10 (r_array : list float) (count : Z)
           (c k a4 a6 a8 a10 a12 a14 a16 a18 a20 a22 : float)
           (result_array : list float) : option (list float) :=
  for_loop 0 count
    (batch_body
       (fun r => aspheric_sag10 r c k a4 a6 a8 a10 a12 a14 a16 a18 a20 a22)
       r_array)
    result_array.

Definition aspheric_sag_rt10 (r radius conic : float)
           (coef1 coef2 coef3 coef4 coef5 coef6 coef7 coef8 coef9 coef10 : float)
           (modeOdd : Z) : float :=
  if radius =? 0 then 0 else
  let r2 := r * r in
  let sqrtTerm := 1 - (1 + conic) * r2 / (radius * radius) in
  if negb (isfinite sqrtTerm) || (sqrtTerm <? 0) then 0 else
  let base := r2 / (radius * (1 + sqrt sqrtTerm)) in
  let asphere := __rt10_asphere_poly r r2 coef1 coef2 coef3 coef4 coef5
                                     coef6 coef7 coef8 coef9 coef10 modeOdd in
  let out := base + asphere in
  if isfinite out then out else 0.

(** ** [intersect_aspheric_rt10] *)

(** How one pass through the body of the Newton loop ends: [return v],
    [break] (on to the next initial guess) or on to the next iteration
    with the updated [t]. *)
Variant newton_exit : Type :=
| Return (v : float)
| Break
| Continue (t : float).

Definition EPS_T : float := 1e-10.
Definition EPS_DIRZ : float := 1e-14.
Definition EPS_R : float := 1e-14.
Definition EPS_DFDT : float := 1e-14.

Section Intersect.

Variables ox oy oz dx dy dz semidia radius conic : float.
Variables coef1 coef2 coef3 coef4 coef5 coef6 coef7 coef8 coef9 coef10 : float.
Variable modeOdd : Z.

Definition sag_at (r : float) : float :=
  aspheric_sag_rt10 r radius conic coef1 coef2 coef3 coef4 coef5
                    coef6 coef7 coef8 coef9 coef10 modeOdd.

(** [guesses[gCount++] = t] *)
Definition push (guesses : list float) (t : float) : list float :=
  guesses ++ [t].

Definition gCount (guesses : list float) : Z := Z.of_nat (length guesses).

(** 1) the two roots of the sphere approximation, nearest first *)
Definition sphere_guesses (guesses : list float) : list float :=
  if isfinite radius && neqb radius 0 then
    let cz := radius in
    let A := dx * dx + dy * dy + dz * dz in
    if neqb A 0 then
      let B := 2 * (ox * dx + oy * dy + (oz - cz) * dz) in
      let C := ox * ox + oy * oy + (oz - cz) * (oz - cz) - radius * radius in
      let D := B * B - 4 * A * C in
      if geb D 0 then
        let sD := sqrt D in
        let t1 := (- B - sD) / (2 * A) in
        let t2 := (- B + sD) / (2 * A) in
        let g1 := if gtb t1 EPS_T then push guesses t1 else guesses in
        let g2 := if gtb t2 EPS_T then push g1 t2 else g1 in
        match g2 with
        | a :: b :: rest => if gtb a b then b :: a :: rest else g2
        | _ => g2
        end
      else guesses
    else guesses
  else guesses.

(** 2) the crossing of the plane z = 0 *)
Definition plane_guess (guesses : list float) : list float :=
  if gtb (fabs dz) EPS_DIRZ then
    let tp := - oz / dz in
    if gtb tp EPS_T && (gCount guesses <? 10)%Z then push guesses tp else guesses
  else guesses.

(** 3) two guesses that aim at the edge of the aperture *)
Definition semidia_guesses (guesses : list float) : list float :=
  if isfinite semidia && gtb semidia 0 && (gCount guesses <? 10)%Z then
    let curR := sqrt (ox * ox + oy * oy) in
    let dirR := sqrt (dx * dx + dy * dy) in
    if gtb dirR EPS_R then
      let targetR1 := semidia * 0.8 in
      let targetR2 := semidia * 1 in
      let g1 :=
        if gtb targetR1 curR && (gCount guesses <? 10)%Z then
          let ts := (targetR1 - curR) / dirR in
          if gtb ts EPS_T then push guesses ts else guesses
        else guesses in
      if gtb targetR2 curR && (gCount g1 <? 10)%Z then
        let ts := (targetR2 - curR) / dirR in
        if gtb ts EPS_T then push g1 ts else g1
      else g1
    else guesses
  else guesses.

(** 4) the fallback ladder *)
Definition fallback_guesses (guesses : list float) : list float :=
  if (gCount guesses =? 0)%Z
  then push (push (push guesses 1e-6) 1e-4) 1e-2
  else guesses.

Definition initial_guesses : list float :=
  fallback_guesses (semidia_guesses (plane_guess (sphere_guesses []))).

Section Newton.

(** [maxIter] and [tol] after their defaults have been applied. *)
Variable tol : float.

(** dz/dr of the conic term at radial distance [r] ([r2] its square). *)
Definition dzdr_base_at (r r2 : float) : float :=
  if isfinite radius && neqb radius 0 && gtb r 0 then
    let R := radius in
    let term := (1 + conic) * r2 / (R * R) in
    if term <? 1 then
      let sqrtTerm := sqrt (1 - term) in
      if gtb sqrtTerm 0 then
        let denom := R * (1 + sqrtTerm) in
        let sqrtDer := (1 + conic) * r / (R * R * sqrtTerm) in
        (2 * r * denom - r2 * R * sqrtDer) / (denom * denom)
      else 0
    else 1 / R
  else 0.

(** The body of [for (int i = 0; i < maxIter; i++)]. *)
Definition newton_body (t : float) : newton_exit :=
  let x := ox + dx * t in
  let y := oy + dy * t in
  let z := oz + dz * t in
  let r2 := x * x + y * y in
  let r := sqrt r2 in
  let sag := sag_at r in
  let F := z - sag in
  if fabs F <? tol then
    if isfinite semidia && gtb semidia 0 && gtb r semidia then Break
    else Return (if gtb t 0 then t else -1)
  else
    let dzdr_base := dzdr_base_at r r2 in
    let dzdr_poly := __rt10_asphere_dzdr r r2 coef1 coef2 coef3 coef4 coef5
                                         coef6 coef7 coef8 coef9 coef10 modeOdd in
    let dzdr := dzdr_base + dzdr_poly in
    let drdt := if gtb r EPS_R then (x * dx + y * dy) / r else 0 in
    let dFdt := dz - dzdr * drdt in
    if negb (isfinite dFdt) || (fabs dFdt <? EPS_DFDT) then Break
    else
      let step := F / dFdt in
      if negb (isfinite step) then Break
      else
        let t' := t - step in
        if negb (gtb t' 0) then Break else Continue t'.

(** The Newton loop from one initial guess, [n] iterations left:
    [Some v] when the function returns [v] from inside the loop, [None]
    when the loop is left by [break] or runs out of iterations. *)
Fixpoint newton_loop (n : nat) (t : float) : option float :=
  match n with
  | O => None
  | S n' =>
      match newton_body t with
      | Return v => Some v
      | Break => None
      | Continue t' => newton_loop n' t'
      end
  end.

(** [for (int gi = 0; gi < gCount; gi++)] and the final [return -1.0]. *)
Fixpoint solve_from (maxIter : nat) (guesses : list float) : float :=
  match guesses with
  | [] => -1
  | t :: rest =>
      if negb (gtb t 0) || negb (isfinite t) then solve_from maxIter rest
      else
        match newton_loop maxIter t with
        | Some v => v
        | None => solve_from maxIter rest
        end
  end.

End Newton.

Definition effective_maxIter (maxIter : Z) : Z :=
  if (0 <? maxIter)%Z then maxIter else 20%Z.

Definition effective_tol (tol : float) : float :=
  if gtb tol 0 then tol else 1e-7.

Definition intersect_aspheric_rt10 (maxIter : Z) (tol : float) : float :=
  if negb (isfinite dx) || negb (isfinite dy) || negb (isfinite dz) then -1
  else if negb (isfinite ox) || negb (isfinite oy) || negb (isfinite oz) then -1
  else
    solve_from (effective_tol tol) (Z.to_nat (effective_maxIter maxIter))
               initial_guesses.

End Intersect.

(** ** Vectors and the sphere *)

Definition vector_dot (ax ay az bx by' bz : float) : float :=
  ax * bx + ay * by' + az * bz.

Definition vector_cross (ax ay az bx by' bz : float) (result : list float)
  : option (list float) :=
  do r0 <- wr result 0 (ay * bz - az * by');
  do r1 <- wr r0 1 (az * bx - ax * bz);
  wr r1 2 (ax * by' - ay * bx).

Definition vector_normalize (x y z : float) (result : list float)
  : option (list float) :=
  let length := sqrt (x * x + y * y + z * z) in
  if length =? 0 then
    (* result[0] = result[1] = result[2] = 0.0; *)
    do r2 <- wr result 2 0;
    do r1 <- wr r2 1 0;
    wr r1 0 0
  else
    let inv_length := 1 / length in
    do r0 <- wr result 0 (x * inv_length);
    do r1 <- wr r0 1 (y * inv_length);
    wr r1 2 (z * inv_length).

Definition ray_sphere_intersect (ox oy oz dx dy dz cx cy cz radius : float)
  : float :=
  let ocx := ox - cx in
  let ocy := oy - cy in
  let ocz := oz - cz in
  let a := dx * dx + dy * dy + dz * dz in
  let b := 2 * (ocx * dx + ocy * dy + ocz * dz) in
  let c := ocx * ocx + ocy * ocy + ocz * ocz - radius * radius in
  let discriminant := b * b - 4 * a * c in
  if discriminant <? 0 then -1 else
  let sqrt_discriminant := sqrt discriminant in
  let t1 := (- b - sqrt_discriminant) / (2 * a) in
  let t2 := (- b + sqrt_discriminant) / (2 * a) in
  if gtb t1 0 then t1
  else if gtb t2 0 then t2
  else -1.

(** The body of the loop of [batch_vector_normalize]; the two arrays do not
    overlap. *)
Definition batch_vector_normalize_body (vectors_ptr : list float)
           (i : Z) (result_ptr : list float) : option (list float) :=
  let idx := (i * 3)%Z in
  do x <- rd vectors_ptr idx;
  do y <- rd vectors_ptr (idx + 1);
  do z <- rd vectors_ptr (idx + 2);
  let length := sqrt (x * x + y * y + z * z) in
  if gtb length 0 then
    let inv_length := 1 / length in
    do r0 <- wr result_ptr idx (x * inv_length);
    do r1 <- wr r0 (idx + 1) (y * inv_length);
    wr r1 (idx + 2) (z * inv_length)
  else
    do r0 <- wr result_ptr idx 0;
    do r1 <- wr r0 (idx + 1) 0;
    wr r1 (idx + 2) 0.

Definition batch_vector_normalize (vectors_ptr : list float) (count : Z)
           (result_ptr : list float) : option (list float) :=
  for_loop 0 count (batch_vector_normalize_body vectors_ptr) result_ptr.

End RayTracing.

(* ===================================================================== *)
(** * wasm/psf-wasm.c *)
(* ===================================================================== *)

Module Psf.

Import C.
Local Open Scope float_scope.

Definition M_PI : float := 3.14159265358979323846.

Record Complex : Type := mkComplex { real : float; imag : float }.

Definition czero : Complex := mkComplex 0 0.

(** ** The process-wide caches

    [None] is the NULL pointer.  A table that is present is the list of its
    cells; the size variables are the C variables of the same names. *)
Record state : Type := mkState {
  twiddle_table : option (list Complex);
  twiddle_table_size : Z;
  sin_table : option (list float);
  cos_table : option (list float);
  trig_table_size : Z;
  fft_temp_buffer : option (list Complex);
  fft_temp_capacity : Z
}.

(** The state a freshly loaded module starts in. *)
Definition initial_state : state :=
  mkState None 0 None None 0 None 0.

Definition set_twiddle (st : state) (t : option (list Complex)) (n : Z) : state :=
  mkState t n (sin_table st) (cos_table st) (trig_table_size st)
          (fft_temp_buffer st) (fft_temp_capacity st).

Definition set_trig (st : state) (s c : option (list float)) (n : Z) : state :=
  mkState (twiddle_table st) (twiddle_table_size st) s c n
          (fft_temp_buffer st) (fft_temp_capacity st).

Definition set_temp (st : state) (b : option (list Complex)) (n : Z) : state :=
  mkState (twiddle_table st) (twiddle_table_size st)
          (sin_table st) (cos_table st) (trig_table_size st) b n.

(** What [malloc] returns: [None] for NULL, otherwise the block, whose cell
    [i] holds the indeterminate value [g i]. *)
Definition block (A : Type) : Type := option (nat -> A).

Definition cells {A : Type} (g : nat -> A) (n : Z) : list A :=
  map g (seq 0 (Z.to_nat n)).

(** The indices [0 .. n-1] of a loop [for (int i = 0; i < n; i++)]. *)
Definition indices (n : Z) : list Z := map Z.of_nat (seq 0 (Z.to_nat n)).

Definition ensure_fft_temp_buffer (malloc : block Complex)
           (need_elements : Z) (st : state) : state :=
  if (fft_temp_capacity st <? need_elements)%Z then
    let st1 := match fft_temp_buffer st with
               | Some _ => set_temp st None 0        (* free(); = NULL; = 0 *)
               | None => st
               end in
    match malloc with
    | Some g => set_temp st1 (Some (cells g need_elements)) need_elements
    | None => set_temp st1 None (fft_temp_capacity st1)
    end
  else st.

Section WithLibm.

Variable L : Libm.

(** [init_fast_trig_tables]: both [malloc]s are taken to succeed (the source
    does not test them), and [max_size * 4] is the [int] product of the
    source as long as it is in the range of [int]; the theorems about the
    tables carry that bound. *)
Definition init_fast_trig_tables (max_size : Z) (st : state) : state :=
  let size := (max_size * 4)%Z in
  let angle (i : Z) := 2 * M_PI * of_int i / of_int size in
  set_trig st
           (Some (map (fun i => c_sin L (angle i)) (indices size)))
           (Some (map (fun i => c_cos L (angle i)) (indices size)))
           size.

(** The index both [fast_sin] and [fast_cos] compute for a finite [x]. *)
Definition trig_index (st : state) (x : float) : Z :=
  let x := c_fmod L x (2 * M_PI) in
  let x := if x <? 0 then x + 2 * M_PI else x in
  let index := to_int ((x / (2 * M_PI)) * of_int (trig_table_size st)) in
  if (index >=? trig_table_size st)%Z then (trig_table_size st - 1)%Z else index.

Definition fast_sin (st : state) (x : float) : option float :=
  match sin_table st with
  | None => Some (c_sin L x)
  | Some tbl =>
      if negb (isfinite x) then Some 0
      else rd tbl (trig_index st x)
  end.

Definition fast_cos (st : state) (x : float) : option float :=
  match cos_table st with
  | None => Some (c_cos L x)
  | Some tbl =>
      if negb (isfinite x) then Some 1
      else rd tbl (trig_index st x)
  end.

(** The cell [init_twiddle_table] computes for index [i]. *)
Definition twiddle_angle (max_size i : Z) : float :=
  -2 * M_PI * of_int i / of_int max_size.

Definition twiddle_entry (st : state) (max_size i : Z) : option Complex :=
  match fast_cos st (twiddle_angle max_size i),
        fast_sin st (twiddle_angle max_size i) with
  | Some c, Some s => Some (mkComplex c s)
  | _, _ => None
  end.

(** The loop of [init_twiddle_table] over the remaining indices. *)
Fixpoint twiddle_entries (st : state) (max_size : Z) (ixs : list Z)
  : option (list Complex) :=
  match ixs with
  | [] => Some []
  | i :: rest =>
      match twiddle_entry st max_size i with
      | Some w =>
          match twiddle_entries st max_size rest with
          | Some ws => Some (w :: ws)
          | None => None
          end
      | None => None
      end
  end.

Definition init_twiddle_table (max_size : Z) (st : state) : option state :=
  match twiddle_entries st max_size (indices max_size) with
  | Some tbl => Some (set_twiddle st (Some tbl) max_size)
  | None => None
  end.

(** ** The 1D FFT *)

(** The carry loop [while (j & bit) { j ^= bit; bit >>= 1; }] of the
    bit-reversal counter: it returns [j] and [bit] at the exit.  [bit >>= 1]
    drops the last binary digit of [bit], which is how the recursion
    descends. *)
Fixpoint rev_carry (bit : positive) (j : Z) : Z * Z :=
  if (Z.land j (Zpos bit) =? 0)%Z then (j, Zpos bit)
  else
    let j' := Z.lxor j (Zpos bit) in
    match bit with
    | xH => (j', 0%Z)
    | xO p | xI p => rev_carry p j'
    end.

Definition rev_while (j bit : Z) : Z * Z :=
  match bit with
  | Zpos p => rev_carry p j
  | _ => (j, bit)
  end.

(** [Complex temp = data[i]; data[i] = data[j]; data[j] = temp;] on the
    array that starts at [data + off]. *)
Definition swap_cells {A : Type} (data : list A) (i j : Z) : option (list A) :=
  do a <- rd data i;
  do b <- rd data j;
  do d1 <- wr data i b;
  wr d1 j a.

(** The body of the bit-reversal loop, over the pair ([j], [data]). *)
Definition bit_reverse_body (off n : Z) (i : Z) (s : Z * list Complex)
  : option (Z * list Complex) :=
  let '(j, data) := s in
  let bit := Z.shiftr n 1 in
  let '(j1, bit1) := rev_while j bit in
  let j2 := Z.lxor j1 bit1 in
  if (i <? j2)%Z then
    do d <- swap_cells data (off + i) (off + j2); Some (j2, d)
  else Some (j2, data).

Definition bit_reverse (off n : Z) (data : list Complex) : option (list Complex) :=
  do s <- for_loop 1 n (bit_reverse_body off n) (0%Z, data); Some (snd s).

(** The index into the twiddle table for butterfly [j] of a stage. *)
Definition twiddle_index (n step j : Z) (inverse : bool) : Z :=
  let twiddle_idx := (j * step)%Z in
  let twiddle_idx := if inverse then (n - twiddle_idx)%Z else twiddle_idx in
  if (twiddle_idx >=? n)%Z then (twiddle_idx - n)%Z else twiddle_idx.

(** One butterfly: the body of the innermost loop. *)
Definition butterfly (tbl : list Complex) (off n len step i : Z) (inverse : bool)
           (j : Z) (data : list Complex) : option (list Complex) :=
  let half := Z.quot len 2 in
  do w <- rd tbl (twiddle_index n step j inverse);
  do u <- rd data (off + (i + j));
  do x <- rd data (off + (i + j + half));
  let v := mkComplex (real x * real w - imag x * imag w)
                     (real x * imag w + imag x * real w) in
  do d1 <- wr data (off + (i + j)) (mkComplex (real u + real v) (imag u + imag v));
  wr d1 (off + (i + j + half)) (mkComplex (real u - real v) (imag u - imag v)).

(** [for (int i = 0; i < n; i += len)], [k] groups left. *)
Fixpoint groups (tbl : list Complex) (off n len step : Z) (inverse : bool)
         (k : nat) (i : Z) (data : list Complex) : option (list Complex) :=
  if (i <? n)%Z then
    match k with
    | O => None
    | S k' =>
        do d <- for_loop 0 (Z.quot len 2) (butterfly tbl off n len step i inverse) data;
        groups tbl off n len step inverse k' (i + len)%Z d
    end
  else Some data.

(** [for (int len = 2; len <= n; len <<= 1)], [k] stages left. *)
Fixpoint stages (tbl : list Complex) (off n : Z) (inverse : bool)
         (k : nat) (len : Z) (data : list Complex) : option (list Complex) :=
  if (len <=? n)%Z then
    match k with
    | O => None
    | S k' =>
        let step := Z.quot n len in
        do d <- groups tbl off n len step inverse (Z.to_nat n) 0 data;
        stages tbl off n inverse k' (Z.shiftl len 1) d
    end
  else Some data.

(** [data[i].real *= inv_n; data[i].imag *= inv_n;] *)
Definition scale_body (off : Z) (inv_n : float) (i : Z) (data : list Complex)
  : option (list Complex) :=
  do c <- rd data (off + i);
  wr data (off + i) (mkComplex (real c * inv_n) (imag c * inv_n)).

Definition normalize (off n : Z) (inverse : bool) (data : list Complex)
  : option (list Complex) :=
  if inverse then
    let inv_n := 1 / of_int n in
    for_loop 0 n (scale_body off inv_n) data
  else Some data.

(** [if (!twiddle_table || twiddle_table_size < n) init_twiddle_table(n);] *)
Definition ensure_twiddle_table (n : Z) (st : state) : option state :=
  match twiddle_table st with
  | None => init_twiddle_table n st
  | Some _ => if (twiddle_table_size st <? n)%Z
              then init_twiddle_table n st else Some st
  end.

(** [fft_1d(data + off, n, inverse)].  The two fuel arguments of the stage
    loops are [n], which both loops stay below. *)
Definition fft_1d (st : state) (data : list Complex) (off n : Z) (inverse : bool)
  : option (state * list Complex) :=
  if (n <=? 1)%Z then Some (st, data)
  else
    do st1 <- ensure_twiddle_table n st;
    do tbl <- twiddle_table st1;
    do d1 <- bit_reverse off n data;
    do d2 <- stages tbl off n inverse (Z.to_nat n) 2 d1;
    do d3 <- normalize off n inverse d2;
    Some (st1, d3).

(** ** Transposition and the 2D FFT *)

(** [for (i = lo; i < hi; i += step)], [k] iterations left. *)
Fixpoint for_step {S : Type} (k : nat) (i hi step : Z)
         (body : Z -> S -> option S) (s : S) : option S :=
  if (i <? hi)%Z then
    match k with
    | O => None
    | Datatypes.S k' =>
        do s' <- body i s;
        for_step k' (i + step)%Z hi step body s'
    end
  else Some s.

(** [dst[jj * height + ii] = src[ii * width + jj];] *)
Definition transpose_cell (src : list Complex) (width height ii jj : Z)
           (dst : list Complex) : option (list Complex) :=
  do c <- rd src (ii * width + jj);
  wr dst (jj * height + ii) c.

(** One block of the blocked transposition: rows [i .. max_i - 1], columns
    [j .. max_j - 1]. *)
Definition transpose_block (src : list Complex) (width height BLOCK_SIZE i j : Z)
           (dst : list Complex) : option (list Complex) :=
  let max_i := if (i + BLOCK_SIZE <? height)%Z then (i + BLOCK_SIZE)%Z else height in
  let max_j := if (j + BLOCK_SIZE <? width)%Z then (j + BLOCK_SIZE)%Z else width in
  for_loop i max_i
    (fun ii d => for_loop j max_j (transpose_cell src width height ii) d) dst.

Definition transpose_complex (src dst : list Complex) (width height : Z)
  : option (list Complex) :=
  let BLOCK_SIZE := if (width >=? 256)%Z && (height >=? 256)%Z then 64%Z else 32%Z in
  for_step (Z.to_nat height) 0 height BLOCK_SIZE
    (fun i d =>
       for_step (Z.to_nat width) 0 width BLOCK_SIZE
         (transpose_block src width height BLOCK_SIZE i) d)
    dst.

(** [for (i = 0; i < rows; i++) fft_1d(data + i * len, len, inverse);] *)
Definition fft_rows (rows len : Z) (inverse : bool) (s : state * list Complex)
  : option (state * list Complex) :=
  for_loop 0 rows
    (fun i s => fft_1d (fst s) (snd s) (i * len) len inverse) s.

(** [fft_2d]: [malloc] is what the allocation of the scratch buffer returns
    if [ensure_fft_temp_buffer] has to grow it. *)
Definition fft_2d (malloc : block Complex) (st : state) (data : list Complex)
           (width height : Z) (inverse : bool) : option (state * list Complex) :=
  let W := width in
  let H := height in
  let st1 := ensure_fft_temp_buffer malloc (W * H) st in
  match fft_temp_buffer st1 with
  | None => Some (st1, data)
  | Some tmp =>
      do s1 <- fft_rows H W inverse (st1, data);
      do tmp1 <- transpose_complex (snd s1) tmp W H;
      do s2 <- fft_rows W H inverse (fst s1, tmp1);
      do data' <- transpose_complex (snd s2) (snd s1) H W;
      Some (set_temp (fst s2) (Some (snd s2)) (fft_temp_capacity (fst s2)), data')
  end.

(** ** The complex pupil *)

(** [if (!sin_table || trig_table_size < total_size)
       init_fast_trig_tables(total_size);] which both forms start with. *)
Definition prepare_trig_tables (total_size : Z) (st : state) : state :=
  match sin_table st with
  | None => init_fast_trig_tables total_size st
  | Some _ => if (trig_table_size st <? total_size)%Z
              then init_fast_trig_tables total_size st else st
  end.

(** One cell of the loop of [calculate_complex_amplitude]. *)
Definition complex_amplitude_cell (st : state) (k : float)
           (opd amplitude : list float) (pupil_mask : list Z)
           (i : Z) (output : list Complex) : option (list Complex) :=
  do m <- rd pupil_mask i;
  if (m =? 0)%Z then Some output
  else
    do o <- rd opd i;
    let phase := k * o in
    do amp <- rd amplitude i;
    do c <- fast_cos st phase;
    do sn <- fast_sin st phase;
    wr output i (mkComplex (amp * c) (amp * sn)).

(** [calculate_complex_amplitude]: [output] has [size * size] cells, which
    the [memset] zeroes. *)
Definition calculate_complex_amplitude (st : state)
           (opd amplitude : list float) (pupil_mask : list Z)
           (output : list Complex) (size : Z) (wavelength : float)
  : option (state * list Complex) :=
  let k := 2 * M_PI / wavelength in
  let total_size := (size * size)%Z in
  let st1 := prepare_trig_tables total_size st in
  do out <- for_loop 0 total_size
              (complex_amplitude_cell st1 k opd amplitude pupil_mask)
              (map (fun _ => czero) output);
  Some (st1, out).

(** One cell of the pupil loop of [calculate_psf_grid_wasm]; each of the
    three arrays may be the NULL pointer. *)
Definition grid_pupil_cell (st : state) (k : float)
           (grid_opd amplitude : option (list float)) (pupil_mask : option (list Z))
           (i : Z) (complex_amp : list Complex) : option (list Complex) :=
  match pupil_mask with
  | None => Some complex_amp
  | Some mask =>
      do m <- rd mask i;
      if (m =? 0)%Z then Some complex_amp
      else
        do opd <- (match grid_opd with Some g => rd g i | None => Some 0 end);
        do a <- (match amplitude with Some am => rd am i | None => Some 1 end);
        let phase := k * opd in
        do c <- fast_cos st phase;
        do sn <- fast_sin st phase;
        wr complex_amp i (mkComplex (a * c) (a * sn))
  end.

(** The pupil of the grid form: [complex_amp] after the [memset] and the
    loop, from the wavelength and the arrays of the caller. *)
Definition grid_pupil (st : state)
           (grid_opd amplitude : option (list float)) (pupil_mask : option (list Z))
           (total_size : Z) (wavelength : float) : option (list Complex) :=
  let k := -2 * M_PI / wavelength in
  for_loop 0 total_size
    (grid_pupil_cell st k grid_opd amplitude pupil_mask)
    (cells (fun _ => czero) total_size).

(** ** Intensity, quadrant swap and the grid entry point *)

(** [psf_intensity[i] = re * re + im * im] *)
Definition intensity_cell (complex_amp : list Complex) (i : Z)
           (psf_intensity : list float) : option (list float) :=
  do c <- rd complex_amp i;
  wr psf_intensity i (real c * real c + imag c * imag c).

(** The body of the inner loop of [fft_shift]: the two swaps. *)
Definition fft_shift_cell (size half i j : Z) (data : list float)
  : option (list float) :=
  do d1 <- swap_cells data (i * size + j) ((i + half) * size + (j + half));
  swap_cells d1 (i * size + (j + half)) ((i + half) * size + j).

Definition fft_shift (data : list float) (size : Z) : option (list float) :=
  let half := Z.quot size 2 in
  for_loop 0 half
    (fun i d => for_loop 0 half (fft_shift_cell size half i) d) data.

(** [calculate_psf_grid_wasm].  [calloc_ok] tells whether the [calloc] of
    [complex_amp] succeeds, [malloc_psf] is what the [malloc] of
    [psf_intensity] returns and [malloc_tmp] what the growth of the scratch
    buffer would.  The result is the state and the returned pointer ([None]
    for NULL). *)
Definition calculate_psf_grid_wasm
           (calloc_ok : bool) (malloc_psf : block float) (malloc_tmp : block Complex)
           (st : state)
           (grid_opd amplitude : option (list float)) (pupil_mask : option (list Z))
           (grid_size : Z) (wavelength : float)
  : option (state * option (list float)) :=
  let total_size := (grid_size * grid_size)%Z in
  let st1 := prepare_trig_tables total_size st in
  match calloc_ok, malloc_psf with
  | true, Some g =>
      do complex_amp <- grid_pupil st1 grid_opd amplitude pupil_mask
                                   total_size wavelength;
      do s2 <- fft_2d malloc_tmp st1 complex_amp grid_size grid_size false;
      do psf <- for_loop 0 total_size (intensity_cell (snd s2)) (cells g total_size);
      do shifted <- fft_shift psf grid_size;
      Some (fst s2, Some shifted)
  | _, _ => Some (st1, None)
  end.

(** ** The grid of the ray samples and the ray-sample entry point *)

Definition LARGE_NUMBER : float := 1e10.

(** The nearest-neighbour search of [interpolate_opd_grid] for the grid
    point ([grid_x], [grid_y]): the loop [for (k = 0; k < ray_count; k++)]
    with [n] rays left, from ray [k] on, with its early [break].  It returns
    [interpolated_opd] as the loop leaves it. *)
Fixpoint nearest_ray (ray_x ray_y ray_opd : list float) (grid_x grid_y : float)
         (n : nat) (k : Z) (min_dist_sq interpolated_opd : float) : option float :=
  match n with
  | O => Some interpolated_opd
  | Datatypes.S n' =>
      do rx <- rd ray_x k;
      do ry <- rd ray_y k;
      let dx := rx - grid_x in
      let dy := ry - grid_y in
      let dist_sq := dx * dx + dy * dy in
      if dist_sq <? min_dist_sq then
        do o <- rd ray_opd k;
        let early_exit_threshold := 1e-8 in
        if dist_sq <? early_exit_threshold then Some o
        else nearest_ray ray_x ray_y ray_opd grid_x grid_y n' (k + 1)%Z dist_sq o
      else
        nearest_ray ray_x ray_y ray_opd grid_x grid_y n' (k + 1)%Z
                    min_dist_sq interpolated_opd
  end.

(** The coordinate of grid line [i] between [lo] and [lo + range]. *)
Definition grid_coordinate (lo range inv_grid_size_minus_1 : float) (i : Z) : float :=
  lo + range * of_int i * inv_grid_size_minus_1.

(** The body of the inner loop of [interpolate_opd_grid], over the pair of
    [grid_opd] and [pupil_mask]. *)
Definition interpolate_cell (ray_x ray_y ray_opd : list float) (ray_count : Z)
           (grid_size : Z) (min_y y_range inv_grid_size_minus_1 max_radius_sq : float)
           (i : Z) (grid_x : float) (j : Z) (s : list float * list Z)
  : option (list float * list Z) :=
  let '(grid_opd, pupil_mask) := s in
  let grid_y := grid_coordinate min_y y_range inv_grid_size_minus_1 j in
  let radius_sq := grid_x * grid_x + grid_y * grid_y in
  let index := (i * grid_size + j)%Z in
  if radius_sq <=? max_radius_sq then
    do m <- wr pupil_mask index 1%Z;
    do interpolated_opd <-
       nearest_ray ray_x ray_y ray_opd grid_x grid_y
                   (Z.to_nat ray_count) 0 LARGE_NUMBER 0;
    do g <- wr grid_opd index interpolated_opd;
    Some (g, m)
  else
    do m <- wr pupil_mask index 0%Z;
    do g <- wr grid_opd index 0;
    Some (g, m).

Definition interpolate_opd_grid (ray_x ray_y ray_opd : list float) (ray_count : Z)
           (grid_opd : list float) (pupil_mask : list Z) (grid_size : Z)
           (min_x max_x min_y max_y : float) : option (list float * list Z) :=
  let inv_grid_size_minus_1 := 1 / of_int (grid_size - 1) in
  let x_range := max_x - min_x in
  let y_range := max_y - min_y in
  let max_radius := fmax (fabs max_x) (fabs max_y) in
  let max_radius_sq := max_radius * max_radius in
  for_loop 0 grid_size
    (fun i s =>
       let grid_x := grid_coordinate min_x x_range inv_grid_size_minus_1 i in
       for_loop 0 grid_size
         (interpolate_cell ray_x ray_y ray_opd ray_count grid_size
                           min_y y_range inv_grid_size_minus_1 max_radius_sq
                           i grid_x) s)
    (grid_opd, pupil_mask).

(** [calculate_psf_wasm].  [calloc_ok] tells whether the three [calloc]s
    succeed, [malloc_amp] and [malloc_psf] are what the [malloc]s of
    [amplitude] and of [psf_intensity] return, and [malloc_tmp] what the
    growth of the scratch buffer would.  The result is the state and the
    returned pointer ([None] for NULL). *)
Definition calculate_psf_wasm
           (calloc_ok : bool) (malloc_amp malloc_psf : block float)
           (malloc_tmp : block Complex) (st : state)
           (ray_x ray_y ray_opd : list float) (ray_count : Z)
           (grid_size : Z) (wavelength : float)
           (min_x max_x min_y max_y : float)
  : option (state * option (list float)) :=
  let total_size := (grid_size * grid_size)%Z in
  let st1 := prepare_trig_tables total_size st in
  match calloc_ok, malloc_amp, malloc_psf with
  | true, Some ga, Some g =>
      do amplitude <- for_loop 0 total_size (fun i a => wr a i 1)
                               (cells ga total_size);
      do gm <- interpolate_opd_grid ray_x ray_y ray_opd ray_count
                 (cells (fun _ => 0) total_size) (cells (fun _ => 0%Z) total_size)
                 grid_size min_x max_x min_y max_y;
      do s1 <- calculate_complex_amplitude st1 (fst gm) amplitude (snd gm)
                 (cells (fun _ => czero) total_size) grid_size wavelength;
      do s2 <- fft_2d malloc_tmp (fst s1) (snd s1) grid_size grid_size false;
      do psf <- for_loop 0 total_size (intensity_cell (snd s2)) (cells g total_size);
      do shifted <- fft_shift psf grid_size;
      Some (fst s2, Some shifted)
  | _, _, _ => Some (st1, None)
  end.

End WithLibm.

(** ** Metrics *)

Definition calculate_strehl_ratio (psf : list float) (size : Z) : option float :=
  let center := Z.quot size 2 in
  do peak_value <- rd psf (center * size + center);
  let theoretical_peak := 1 in
  Some (peak_value / theoretical_peak).

(** [for (i = 0; i < size * size; i++) total_energy += psf[i];] *)
Definition total_energy_of (psf : list float) (size : Z) : option float :=
  for_loop 0 (size * size)
    (fun i total => do p <- rd psf i; Some (total + p)) 0.

(** The body of the two inner loops of [calculate_encircled_energy]. *)
Definition encircled_cell (psf : list float) (size center : Z) (radius : float)
           (i j : Z) (encircled : float) : option float :=
  let dx := of_int (i - center) in
  let dy := of_int (j - center) in
  let dist := sqrt (dx * dx + dy * dy) in
  if dist <=? radius then
    do p <- rd psf (i * size + j); Some (encircled + p)
  else Some encircled.

Definition encircled_of (psf : list float) (size : Z) (radius : float)
  : option float :=
  let center := Z.quot size 2 in
  for_loop 0 size
    (fun i e => for_loop 0 size (encircled_cell psf size center radius i) e) 0.

Definition calculate_encircled_energy (psf : list float) (size : Z)
           (radii energies : list float) (radii_count : Z)
  : option (list float) :=
  do total_energy <- total_energy_of psf size;
  for_loop 0 radii_count
    (fun r out =>
       do radius <- rd radii r;
       do encircled <- encircled_of psf size radius;
       wr out r (encircled / total_energy))
    energies.

(** ** The in-place transposition and the release of the caches *)

Definition transpose_complex_inplace (data : list Complex) (size : Z)
  : option (list Complex) :=
  for_loop 0 size
    (fun i d =>
       for_loop (i + 1) size
         (fun j d' => swap_cells d' (i * size + j) (j * size + i)) d)
    data.

(** [cleanup_wasm_module]: the reset of [trig_table_size] and the release of
    the scratch buffer sit inside the test of [cos_table], as the braces of
    the source have it. *)
Definition cleanup_wasm_module (st : state) : state :=
  let st1 := match twiddle_table st with
             | Some _ => set_twiddle st None 0
             | None => st
             end in
  let st2 := match sin_table st1 with
             | Some _ => set_trig st1 None (cos_table st1) (trig_table_size st1)
             | None => st1
             end in
  match cos_table st2 with
  | Some _ =>
      let st3 := set_trig st2 (sin_table st2) None 0 in
      match fft_temp_buffer st3 with
      | Some _ => set_temp st3 None 0
      | None => st3
      end
  | None => st2
  end.

(** The exported wrappers. *)
Definition calculate_strehl_wasm (psf : list float) (size : Z) : option float :=
  calculate_strehl_ratio psf size.

Definition calculate_encircled_energy_wasm (psf : list float) (size : Z)
           (radii energies : list float) (radii_count : Z) : option (list float) :=
  calculate_encircled_energy psf size radii energies radii_count.

End Psf.

(* ===================================================================== *)
(** * Arrays and counted loops *)
(* ===================================================================== *)

Import C.

Section Arrays.

Context {A : Type}.

Lemma rd_of_nat (a : list A) (i : nat) :
  rd a (Z.of_nat i) = nth_error a i.
Proof.
  unfold rd. destruct (Z.ltb_spec (Z.of_nat i) 0); [lia|].
  now rewrite Nat2Z.id.
Qed.

Lemma rd_Some_range (a : list A) (i : Z) (v : A) :
  rd a i = Some v -> (0 <= i < Z.of_nat (length a))%Z.
Proof.
  unfold rd. destruct (Z.ltb_spec i 0); [discriminate|].
  intros Hv. assert (Hn : nth_error a (Z.to_nat i) <> None) by congruence.
  apply nth_error_Some in Hn. lia.
Qed.

Lemma rd_in_range (a : list A) (i : Z) :
  (0 <= i < Z.of_nat (length a))%Z -> exists v, rd a i = Some v.
Proof.
  intros Hi. unfold rd. destruct (Z.ltb_spec i 0); [lia|].
  destruct (nth_error a (Z.to_nat i)) eqn:N; [eauto|].
  apply nth_error_None in N. lia.
Qed.

Lemma length_upd_nat (a : list A) (i : nat) (v : A) :
  length (upd_nat a i v) = length a.
Proof.
  revert i. induction a as [|h t IH]; intros [|i]; simpl; auto.
Qed.

Lemma nth_error_upd_nat (a : list A) (i j : nat) (v : A) :
  nth_error (upd_nat a i v) j =
  if (j =? i)%nat then (if (i <? length a)%nat then Some v else None)
  else nth_error a j.
Proof.
  revert i j. induction a as [|h t IH]; intros i j; simpl.
  - destruct (j =? i)%nat; now destruct j.
  - destruct i as [|i], j as [|j]; simpl; auto.
Qed.

Lemma upd_nat_app (l1 l2 : list A) (x v : A) :
  upd_nat (l1 ++ x :: l2) (length l1) v = l1 ++ v :: l2.
Proof. induction l1 as [|h t IH]; simpl; [reflexivity|]. now rewrite IH. Qed.

Lemma wr_of_nat (a : list A) (i : nat) (v : A) :
  (i < length a)%nat -> wr a (Z.of_nat i) v = Some (upd_nat a i v).
Proof.
  intros Hi. unfold wr. destruct (Z.ltb_spec (Z.of_nat i) 0); [lia|].
  rewrite Nat2Z.id. apply Nat.ltb_lt in Hi. now rewrite Hi.
Qed.

Lemma wr_Some (a a' : list A) (i : Z) (v : A) :
  wr a i v = Some a' ->
  (0 <= i < Z.of_nat (length a))%Z /\ a' = upd_nat a (Z.to_nat i) v.
Proof.
  unfold wr. destruct (Z.ltb_spec i 0); [discriminate|].
  destruct (Z.to_nat i <? length a)%nat eqn:E2; [|discriminate].
  intros Hw. injection Hw as <-. apply Nat.ltb_lt in E2. split; [lia|reflexivity].
Qed.

Lemma wr_in_range (a : list A) (i : Z) (v : A) :
  (0 <= i < Z.of_nat (length a))%Z -> wr a i v = Some (upd_nat a (Z.to_nat i) v).
Proof.
  intros Hi. unfold wr. destruct (Z.ltb_spec i 0); [lia|].
  assert (E2 : (Z.to_nat i <? length a)%nat = true) by (apply Nat.ltb_lt; lia).
  now rewrite E2.
Qed.

Lemma firstn_succ_snoc (l : list A) (n : nat) (v : A) :
  nth_error l n = Some v -> firstn (S n) l = firstn n l ++ [v].
Proof.
  revert n. induction l as [|h t IH]; intros [|n] Hv; simpl in *; try discriminate.
  - now injection Hv as ->.
  - now rewrite (IH n Hv).
Qed.

Lemma skipn_cons_succ (l : list A) (n : nat) (x : A) (rest : list A) :
  skipn n l = x :: rest -> skipn (S n) l = rest.
Proof.
  revert n. induction l as [|h t IH]; intros [|n] Hs; simpl in *; try discriminate.
  - now injection Hs.
  - now apply IH.
Qed.

Lemma wr_length (a a' : list A) (i : Z) (v : A) :
  wr a i v = Some a' -> length a' = length a.
Proof. intros H. apply wr_Some in H as [_ ->]. apply length_upd_nat. Qed.

End Arrays.

(** The invariant rule of the counted loop: an invariant that the body
    re-establishes holds at the exit, and the loop does reach its exit. *)
Lemma for_range_invariant {St : Type} (P : Z -> St -> Prop)
      (body : Z -> St -> option St) (n : nat) (i : Z) (s : St) :
  P i s ->
  (forall k t, (i <= k < i + Z.of_nat n)%Z -> P k t ->
               exists t', body k t = Some t' /\ P (k + 1)%Z t') ->
  exists s', for_range n i body s = Some s' /\ P (i + Z.of_nat n)%Z s'.
Proof.
  revert i s. induction n as [|n IH]; intros i s H0 Hstep.
  - exists s. simpl. rewrite Z.add_0_r. auto.
  - cbn [for_range]. destruct (Hstep i s) as (t & Hb & Ht); [lia|assumption|].
    rewrite Hb. destruct (IH (i + 1)%Z t Ht) as (s' & Hr & Hs').
    + intros k u Hk Hu. apply Hstep; [lia|assumption].
    + exists s'. split; [assumption|].
      replace (i + Z.of_nat (S n))%Z with (i + 1 + Z.of_nat n)%Z by lia.
      assumption.
Qed.

Lemma for_loop_invariant {St : Type} (P : Z -> St -> Prop)
      (body : Z -> St -> option St) (lo hi : Z) (s : St) :
  (lo <= hi)%Z ->
  P lo s ->
  (forall k t, (lo <= k < hi)%Z -> P k t ->
               exists t', body k t = Some t' /\ P (k + 1)%Z t') ->
  exists s', for_loop lo hi body s = Some s' /\ P hi s'.
Proof.
  intros Hle H0 Hstep. unfold for_loop.
  destruct (for_range_invariant P body (Z.to_nat (hi - lo)) lo s H0) as (s' & Hr & Hs').
  - intros k t Hk. apply Hstep. lia.
  - exists s'. split; [assumption|].
    assert (E : hi = (lo + Z.of_nat (Z.to_nat (hi - lo)))%Z) by lia.
    rewrite E at 1. assumption.
Qed.

Lemma for_loop_empty {St : Type} (body : Z -> St -> option St) (lo hi : Z) (s : St) :
  (hi <= lo)%Z -> for_loop lo hi body s = Some s.
Proof.
  intros H. unfold for_loop. replace (Z.to_nat (hi - lo)) with O by lia. reflexivity.
Qed.

(* ===================================================================== *)
(** * The batch entry points are the maps of the scalar ones *)
(* ===================================================================== *)

Import RayTracing.

(** What the batch loop leaves in [result_array]: the images of the first
    [count] radii, then the cells the loop did not reach. *)
Definition batch_result (f : float -> float) (r_array : list float) (count : Z)
           (result_array : list float) : list float :=
  map f (firstn (Z.to_nat count) r_array) ++ skipn (Z.to_nat count) result_array.

Lemma batch_loop_spec (f : float -> float) (r_array result_array : list float)
      (count : Z) :
  (0 <= count)%Z ->
  (count <= Z.of_nat (length r_array))%Z ->
  (count <= Z.of_nat (length result_array))%Z ->
  for_loop 0 count (batch_body f r_array) result_array
  = Some (batch_result f r_array count result_array).
Proof.
  intros H0 Hr Hres.
  destruct (for_loop_invariant
              (fun k out => out = batch_result f r_array k result_array)
              (batch_body f r_array) 0 count result_array H0) as (out & Hrun & Hout).
  - reflexivity.
  - intros k t Hk ->. unfold batch_body.
    destruct (rd_in_range r_array k) as (v & Hv); [lia|]. rewrite Hv.
    assert (Hkn : k = Z.of_nat (Z.to_nat k)) by lia.
    set (n := Z.to_nat k) in *.
    assert (Hlen : length (map f (firstn n r_array)) = n).
    { rewrite length_map, length_firstn. lia. }
    unfold batch_result. fold n.
    destruct (skipn n result_array) as [|x rest] eqn:Hs.
    { apply (f_equal (@length float)) in Hs. rewrite length_skipn in Hs.
      simpl in Hs. lia. }
    rewrite Hkn, wr_of_nat by (rewrite length_app, Hlen; simpl; lia).
    pose proof (upd_nat_app (map f (firstn n r_array)) rest x (f v)) as Eupd.
    rewrite Hlen in Eupd. rewrite Eupd.
    eexists. split; [reflexivity|].
    replace (Z.to_nat (Z.of_nat n + 1)) with (S n) by lia.
    assert (Hv' : nth_error r_array n = Some v).
    { rewrite Hkn, rd_of_nat in Hv. exact Hv. }
    rewrite (firstn_succ_snoc _ _ _ Hv'), (skipn_cons_succ _ _ _ _ Hs).
    rewrite map_app, <- app_assoc. reflexivity.
  - now rewrite Hrun, Hout.
Qed.

(** C10.  For a count of at least zero and arrays that hold [count] cells,
    [batch_aspheric_sag10] and [batch_aspheric_sag] return with
    [result_array] holding, in its first [count] cells, the value of the
    scalar entry point at the corresponding radius: cell [i] is
    [aspheric_sag10(r[i], ...)], respectively [aspheric_sag(r[i], ...)]; the
    cells from [count] on are left as they were. *)
Theorem batch_is_map_of_scalar
        (r_array result_array : list float) (count : Z)
        (c k a4 a6 a8 a10 a12 a14 a16 a18 a20 a22 : float) :
  (0 <= count)%Z ->
  (count <= Z.of_nat (length r_array))%Z ->
  (count <= Z.of_nat (length result_array))%Z ->
  batch_aspheric_sag10 r_array count c k a4 a6 a8 a10 a12 a14 a16 a18 a20 a22
                       result_array
  = Some (map (fun r => aspheric_sag10 r c k a4 a6 a8 a10 a12 a14 a16 a18 a20 a22)
              (firstn (Z.to_nat count) r_array)
          ++ skipn (Z.to_nat count) result_array)
  /\
  batch_aspheric_sag r_array count c k a4 a6 a8 a10 result_array
  = Some (map (fun r => aspheric_sag r c k a4 a6 a8 a10)
              (firstn (Z.to_nat count) r_array)
          ++ skipn (Z.to_nat count) result_array).
Proof.
  intros H0 Hr Hres. split.
  - unfold batch_aspheric_sag10. now rewrite batch_loop_spec.
  - unfold batch_aspheric_sag. now rewrite batch_loop_spec.
Qed.

(** The same, cell by cell. *)
Corollary batch_cell (f : float -> float) (r_array result_array : list float)
          (count i : Z) (r : float) :
  (0 <= i < count)%Z ->
  rd r_array i = Some r ->
  rd (batch_result f r_array count result_array) i = Some (f r).
Proof.
  intros Hi Hr. pose proof (rd_Some_range _ _ _ Hr) as Hlen.
  unfold batch_result, rd in *. destruct (Z.ltb_spec i 0); [discriminate|].
  rewrite nth_error_app1 by (rewrite length_map, length_firstn; lia).
  rewrite nth_error_map, nth_error_firstn.
  assert (E : (Z.to_nat i <? Z.to_nat count)%nat = true) by (apply Nat.ltb_lt; lia).
  now rewrite E, Hr.
Qed.

Lemma batch_is_map_of_scalar_witness :
  batch_aspheric_sag10 [1; 2; 3]%float 2 0.1 0 0 0 0 0 0 0 0 0 0 0 [9; 9; 9]%float
  = Some (map (fun r => aspheric_sag10 r 0.1 0 0 0 0 0 0 0 0 0 0 0) [1; 2]%float
          ++ [9]%float)
  /\
  batch_aspheric_sag [1; 2; 3]%float 2 0.1 0 0 0 0 0 [9; 9; 9]%float
  = Some (map (fun r => aspheric_sag r 0.1 0 0 0 0 0) [1; 2]%float ++ [9]%float).
Proof.
  apply (batch_is_map_of_scalar [1; 2; 3]%float [9; 9; 9]%float 2);
    simpl; lia.
Defined.

(* ===================================================================== *)
(** * The trigonometric helpers on non-finite arguments *)
(* ===================================================================== *)

Import Psf.

(** C7, as the code has it.  For an argument that is not finite, [fast_sin]
    returns 0 and [fast_cos] returns 1 when the trig tables are present.
    While the tables are absent the helpers return the C library's [sin(x)]
    and [cos(x)] before they look at the argument. *)
Theorem fast_trig_non_finite (L : Libm) (st : state) (x : float) :
  isfinite x = false ->
  (match sin_table st with
   | Some _ => fast_sin L st x = Some 0%float
   | None => fast_sin L st x = Some (c_sin L x)
   end)
  /\
  (match cos_table st with
   | Some _ => fast_cos L st x = Some 1%float
   | None => fast_cos L st x = Some (c_cos L x)
   end).
Proof.
  intros Hx. unfold fast_sin, fast_cos.
  destruct (sin_table st), (cos_table st); rewrite ?Hx; simpl; auto.
Qed.

Lemma fast_trig_non_finite_witness :
  fast_sin RefLibm.libm (init_fast_trig_tables RefLibm.libm 1 initial_state) nan
  = Some 0%float
  /\
  fast_cos RefLibm.libm (init_fast_trig_tables RefLibm.libm 1 initial_state) nan
  = Some 1%float.
Proof.
  exact (fast_trig_non_finite RefLibm.libm
           (init_fast_trig_tables RefLibm.libm 1 initial_state) nan eq_refl).
Defined.

(** C7 as stated fails before the tables exist: in the initial state the
    helpers hand a NaN to the C library and return what it returns, a
    NaN. *)
Lemma fast_trig_nan_before_init :
  isfinite nan = false
  /\ fast_sin RefLibm.libm initial_state nan = Some nan
  /\ fast_cos RefLibm.libm initial_state nan = Some nan
  /\ fast_sin RefLibm.libm initial_state infinity = Some nan.
Proof. repeat split; reflexivity. Qed.

(* ===================================================================== *)
(** * The scratch buffer when its growth fails *)
(* ===================================================================== *)

(** The state [ensure_fft_temp_buffer] leaves when the growth allocation
    returns NULL: the buffer held before has been freed. *)
Definition after_failed_growth (st : state) : state :=
  set_temp st None
           (match fft_temp_buffer st with
            | Some _ => 0%Z
            | None => fft_temp_capacity st
            end).

(** C6, as the code has it.  When the scratch size a 2D FFT needs exceeds
    the capacity and the growth allocation fails, the buffer held before has
    been released (the scratch pointer is NULL, and the capacity 0 if there
    was a buffer); [fft_2d] finds the pointer NULL after the growth attempt
    and returns with no cell of the caller's data modified. *)
Theorem fft_2d_failed_growth (L : Libm) (st : state) (data : list Complex)
        (width height : Z) (inverse : bool) :
  (fft_temp_capacity st < width * height)%Z ->
  ensure_fft_temp_buffer None (width * height) st = after_failed_growth st
  /\ fft_temp_buffer (after_failed_growth st) = None
  /\ fft_2d L None st data width height inverse
     = Some (after_failed_growth st, data).
Proof.
  intros Hcap.
  assert (E : ensure_fft_temp_buffer None (width * height) st = after_failed_growth st).
  { unfold ensure_fft_temp_buffer, after_failed_growth.
    apply Z.ltb_lt in Hcap. rewrite Hcap.
    destruct (fft_temp_buffer st); reflexivity. }
  split; [exact E|]. split; [reflexivity|].
  unfold fft_2d. rewrite E. reflexivity.
Qed.

(** A state that holds a scratch buffer of one cell. *)
Definition one_cell_scratch : state :=
  set_temp initial_state (Some [mkComplex 7 7]) 1.

Lemma fft_2d_failed_growth_witness :
  ensure_fft_temp_buffer None (2 * 2) one_cell_scratch
  = after_failed_growth one_cell_scratch
  /\ fft_temp_buffer (after_failed_growth one_cell_scratch) = None
  /\ fft_2d RefLibm.libm None one_cell_scratch (repeat czero 4) 2 2 false
     = Some (after_failed_growth one_cell_scratch, repeat czero 4).
Proof.
  apply (fft_2d_failed_growth RefLibm.libm one_cell_scratch (repeat czero 4) 2 2 false).
  reflexivity.
Defined.

(** C6 as stated fails: the buffer held before the failed growth is not left
    in place, the state is left without a scratch buffer. *)
Lemma failed_growth_drops_buffer :
  fft_temp_buffer one_cell_scratch = Some [mkComplex 7 7]
  /\ (fft_temp_capacity one_cell_scratch < 2 * 2)%Z
  /\ exists st',
      fft_2d RefLibm.libm None one_cell_scratch (repeat czero 4) 2 2 false
      = Some (st', repeat czero 4)
      /\ fft_temp_buffer st' = None
      /\ fft_temp_capacity st' = 0%Z.
Proof.
  split; [reflexivity|]. split; [reflexivity|].
  eexists. split; [reflexivity|]. split; reflexivity.
Qed.

(* ===================================================================== *)
(** * The FFT round trip against a twiddle table grown for a longer FFT *)
(* ===================================================================== *)

Local Open Scope float_scope.

(** The largest component of an array, and the largest componentwise
    difference of two arrays. *)
Definition fmax (a b : float) : float := if a <? b then b else a.

Definition norm_inf (x : list Complex) : float :=
  fold_left (fun acc c => fmax (fmax acc (abs (real c))) (abs (imag c))) x 0.

Definition max_abs_error (x z : list Complex) : float :=
  fold_left
    (fun acc p => fmax (fmax acc (abs (real (fst p) - real (snd p))))
                       (abs (imag (fst p) - imag (snd p))))
    (combine x z) 0.

(** The twiddle table [init_twiddle_table] builds for length [n] while the
    trig tables are absent. *)
Definition exact_twiddles (L : Libm) (n : Z) : list Complex :=
  map (fun i => mkComplex (c_cos L (twiddle_angle n i)) (c_sin L (twiddle_angle n i)))
      (indices n).

(** The state after a first FFT of length 8. *)
Definition grown_for_8 (L : Libm) : state :=
  set_twiddle initial_state (Some (exact_twiddles L 8)) 8.

(** The C library returns the correctly rounded cosine and sine at the three
    angles -0, -pi/4 and -3pi/4 (as doubles) that a 4-point FFT reads from
    the table of length 8. *)
Definition octant_values (L : Libm) : Prop :=
  c_cos L (-0) = 1 /\ c_sin L (-0) = -0 /\
  c_cos L (-0x1.921fb54442d18p-1) = 0x1.6a09e667f3bcdp-1 /\
  c_sin L (-0x1.921fb54442d18p-1) = -0x1.6a09e667f3bccp-1 /\
  c_cos L (-0x1.2d97c7f3321d2p+1) = -0x1.6a09e667f3bccp-1 /\
  c_sin L (-0x1.2d97c7f3321d2p+1) = -0x1.6a09e667f3bcdp-1.

(** The input of the example: the unit impulse at index 1. *)
Definition impulse_1 : list Complex :=
  [mkComplex 0 0; mkComplex 1 0; mkComplex 0 0; mkComplex 0 0].

Lemma first_fft_of_8_grows_table (L : Libm) (c0 c1 c2 c3 c4 c5 c6 c7 : Complex) :
  exists d, fft_1d L initial_state [c0; c1; c2; c3; c4; c5; c6; c7] 0 8 false
            = Some (grown_for_8 L, d).
Proof. destruct L as [sn cs fm]. eexists. vm_compute. reflexivity. Qed.

(** C1 on the code.  After an FFT of length 8 has grown the twiddle table,
    the forward FFT of length 4 followed by the inverse FFT of length 4 does
    not reproduce its input: it moves the impulse from index 1 to index 3,
    an error of 1 where the claim allows 1e-9. *)
Theorem roundtrip_fails_on_grown_table (L : Libm) :
  octant_values L ->
  exists y z,
    fft_1d L (grown_for_8 L) impulse_1 0 4 false = Some (grown_for_8 L, y)
    /\ fft_1d L (grown_for_8 L) y 0 4 true = Some (grown_for_8 L, z)
    /\ z = [mkComplex 0 0; mkComplex 0 (-0x1p-53); mkComplex 0 0; mkComplex 1 0x1p-53]
    /\ norm_inf impulse_1 = 1
    /\ max_abs_error impulse_1 z = 1
    /\ (1e-9 * norm_inf impulse_1 <? max_abs_error impulse_1 z) = true.
Proof.
  destruct L as [sn cs fm]. unfold octant_values. cbn [c_sin c_cos].
  intros (C0 & S0 & C1 & S1 & C3 & S3).
  vm_compute in C0, S0, C1, S1, C3, S3.
  exists [mkComplex 1 0;
          mkComplex 0x1.6a09e667f3bcdp-1 (-0x1.6a09e667f3bccp-1);
          mkComplex (-1) 0;
          mkComplex (-0x1.6a09e667f3bcdp-1) 0x1.6a09e667f3bccp-1].
  eexists.
  split.
  { vm_compute. rewrite C0, S0, C1, S1. vm_compute. reflexivity. }
  split.
  { vm_compute. rewrite C0, S0, C3, S3. vm_compute. reflexivity. }
  repeat split; vm_compute; reflexivity.
Qed.

Lemma reference_octant_values : octant_values RefLibm.libm.
Proof. repeat split; vm_compute; reflexivity. Qed.

Lemma roundtrip_fails_on_grown_table_witness :
  exists y z,
    fft_1d RefLibm.libm (grown_for_8 RefLibm.libm) impulse_1 0 4 false
    = Some (grown_for_8 RefLibm.libm, y)
    /\ fft_1d RefLibm.libm (grown_for_8 RefLibm.libm) y 0 4 true
       = Some (grown_for_8 RefLibm.libm, z)
    /\ z = [mkComplex 0 0; mkComplex 0 (-0x1p-53); mkComplex 0 0; mkComplex 1 0x1p-53]
    /\ norm_inf impulse_1 = 1
    /\ max_abs_error impulse_1 z = 1
    /\ (1e-9 * norm_inf impulse_1 <? max_abs_error impulse_1 z) = true.
Proof.
  exact (roundtrip_fails_on_grown_table RefLibm.libm reference_octant_values).
Defined.
(* ===================================================================== *)
(** * Facts about binary64 arithmetic *)
(* ===================================================================== *)

(** The shape of a double: not a NaN, finite, not negative. *)
Definition sf_finite (s : spec_float) : bool :=
  match s with
  | S754_zero _ | S754_finite _ _ _ => true
  | _ => false
  end.

Definition sf_nan (s : spec_float) : bool :=
  match s with
  | S754_nan => true
  | _ => false
  end.

(** Zero of either sign, a positive number or plus infinity. *)
Definition sf_nonneg (s : spec_float) : bool :=
  match s with
  | S754_zero _ | S754_finite false _ _ | S754_infinity false => true
  | _ => false
  end.

(** Not negative: [sf_nonneg], or a NaN. *)
Definition sf_notneg (s : spec_float) : bool :=
  match s with
  | S754_finite true _ _ | S754_infinity true => false
  | _ => true
  end.

Lemma SFcompare_refl (s : spec_float) :
  SFcompare s s = if sf_nan s then None else Some Eq.
Proof.
  destruct s as [s|s| |s m e]; try destruct s; simpl; try reflexivity;
    rewrite Z.compare_refl, Pos.compare_cont_refl; reflexivity.
Qed.

Lemma Prim2SF_infinity : Prim2SF infinity = S754_infinity false.
Proof. reflexivity. Qed.

Lemma Prim2SF_zero : Prim2SF 0%float = S754_zero false.
Proof. reflexivity. Qed.

Lemma is_nan_SF (x : float) : is_nan x = sf_nan (Prim2SF x).
Proof.
  unfold is_nan. rewrite eqb_spec. unfold SFeqb. rewrite SFcompare_refl.
  now destruct (Prim2SF x).
Qed.

Lemma is_infinity_SF (x : float) :
  is_infinity x = match Prim2SF x with S754_infinity _ => true | _ => false end.
Proof.
  unfold is_infinity. rewrite eqb_spec, abs_spec, Prim2SF_infinity.
  now destruct (Prim2SF x) as [s|s| |s m e].
Qed.

Lemma isfinite_SF (x : float) : isfinite x = sf_finite (Prim2SF x).
Proof.
  unfold isfinite, is_finite. rewrite is_nan_SF, is_infinity_SF.
  now destruct (Prim2SF x).
Qed.

(** ** Rounding never makes a NaN *)

Lemma iter_pos_invariant {A : Type} (P : A -> Prop) (f : A -> A) :
  (forall a, P a -> P (f a)) -> forall n a, P a -> P (iter_pos f n a).
Proof.
  intros Hf. induction n as [n IH|n IH|]; intros a Ha; simpl; auto.
Qed.

Lemma shr_1_nonneg (mrs : shr_record) :
  (0 <= shr_m mrs)%Z -> (0 <= shr_m (shr_1 mrs))%Z.
Proof.
  destruct mrs as [m r s]. simpl. destruct m as [|p|p]; simpl; try lia.
  - destruct p; simpl; lia.
Qed.

Lemma shr_nonneg (mrs : shr_record) (e n : Z) :
  (0 <= shr_m mrs)%Z -> (0 <= shr_m (fst (shr mrs e n)))%Z.
Proof.
  intros H. unfold shr. destruct n; simpl; auto.
  apply (iter_pos_invariant (fun r => 0 <= shr_m r)%Z); auto using shr_1_nonneg.
Qed.

Lemma shr_fexp_nonneg (m e : Z) (l : location) :
  (0 <= m)%Z -> (0 <= shr_m (fst (shr_fexp prec emax m e l)))%Z.
Proof.
  intros H. unfold shr_fexp. apply shr_nonneg. now destruct l as [|[]].
Qed.

Lemma round_nearest_even_nonneg (m : Z) (l : location) :
  (0 <= m)%Z -> (0 <= round_nearest_even m l)%Z.
Proof.
  intros H. destruct l as [|[]]; simpl; try lia. destruct (Z.even m); lia.
Qed.

(** The result of a rounding carries the sign it was given. *)
Definition signed_as (sx : bool) (s : spec_float) : Prop :=
  s = S754_zero sx \/ (exists m e, s = S754_finite sx m e) \/ s = S754_infinity sx.

Lemma binary_round_aux_signed (sx : bool) (mx ex : Z) (lx : location) :
  (0 <= mx)%Z -> signed_as sx (binary_round_aux prec emax sx mx ex lx).
Proof.
  intros H. unfold binary_round_aux.
  pose proof (shr_fexp_nonneg mx ex lx H) as H1.
  destruct (shr_fexp prec emax mx ex lx) as [mrs' e'] eqn:E1. simpl in H1.
  pose proof (shr_fexp_nonneg _ e' loc_Exact
                (round_nearest_even_nonneg _ (loc_of_shr_record mrs') H1)) as H2.
  destruct (shr_fexp prec emax _ e' loc_Exact) as [mrs'' e''] eqn:E2. simpl in H2.
  destruct (shr_m mrs'') as [|p|p]; [left; reflexivity| |lia].
  destruct (e'' <=? emax - prec)%Z; [right; left; eauto|right; right; reflexivity].
Qed.

Lemma binary_round_signed (sx : bool) (mx : positive) (ex : Z) :
  signed_as sx (binary_round prec emax sx mx ex).
Proof.
  unfold binary_round. destruct (shl_align _ _ _) as [mz ez].
  apply binary_round_aux_signed. lia.
Qed.

Lemma binary_normalize_signed (m e : Z) (szero : bool) :
  signed_as (match m with Z0 => szero | Zpos _ => false | Zneg _ => true end)
            (binary_normalize prec emax m e szero).
Proof.
  destruct m; simpl; [left; reflexivity| |]; apply binary_round_signed.
Qed.

Lemma signed_as_notnan (sx : bool) (s : spec_float) :
  signed_as sx s -> sf_nan s = false.
Proof. intros [->|[(m & e & ->)| ->]]; reflexivity. Qed.

Lemma signed_as_notneg (s : spec_float) : signed_as false s -> sf_nonneg s = true.
Proof. intros [->|[(m & e & ->)| ->]]; reflexivity. Qed.

Lemma sf_nonneg_notneg (s : spec_float) : sf_nonneg s = true -> sf_notneg s = true.
Proof. now destruct s as [[]|[]| |[] m e]. Qed.

Lemma sf_nonneg_notnan (s : spec_float) : sf_nonneg s = true -> sf_nan s = false.
Proof. now destruct s as [[]|[]| |[] m e]. Qed.

Lemma sf_finite_notnan (s : spec_float) : sf_finite s = true -> sf_nan s = false.
Proof. now destruct s. Qed.

Ltac by_signed H :=
  let m := fresh "m" in let e := fresh "e" in
  destruct H as [H|[(m & e & H)|H]]; rewrite H; try reflexivity; try discriminate.

(** ** How finiteness, NaN and sign pass through the operations *)

Lemma SFmul_finite_inv (a b : spec_float) :
  sf_finite (SFmul prec emax a b) = true -> sf_finite a = true /\ sf_finite b = true.
Proof. destruct a as [sa|sa| |sa ma ea], b as [sb|sb| |sb mb eb]; simpl; auto; discriminate. Qed.

Lemma SFadd_finite_inv (a b : spec_float) :
  sf_finite (SFadd prec emax a b) = true -> sf_finite a = true /\ sf_finite b = true.
Proof.
  destruct a as [sa|sa| |sa ma ea], b as [sb|sb| |sb mb eb]; simpl; auto;
    try discriminate; destruct sa, sb; simpl; auto; discriminate.
Qed.

Lemma SFsub_finite_inv (a b : spec_float) :
  sf_finite (SFsub prec emax a b) = true -> sf_finite a = true /\ sf_finite b = true.
Proof.
  destruct a as [sa|sa| |sa ma ea], b as [sb|sb| |sb mb eb]; simpl; auto;
    try discriminate; destruct sa, sb; simpl; auto; discriminate.
Qed.

Lemma SFmul_notnan (a b : spec_float) :
  sf_finite a = true -> sf_finite b = true -> sf_nan (SFmul prec emax a b) = false.
Proof.
  destruct a as [sa|sa| |sa ma ea], b as [sb|sb| |sb mb eb]; simpl; auto; try discriminate.
  intros _ _. apply (signed_as_notnan (xorb sa sb)), binary_round_aux_signed. lia.
Qed.

Lemma SFadd_notnan (a b : spec_float) :
  sf_finite a = true -> sf_nan b = false -> sf_nan (SFadd prec emax a b) = false.
Proof.
  destruct a as [sa|sa| |sa ma ea], b as [sb|sb| |sb mb eb]; simpl; auto; try discriminate;
    try (destruct sa, sb; reflexivity).
  intros _ _. eapply signed_as_notnan, binary_normalize_signed.
Qed.

Lemma SFmul_square_nonneg (a : spec_float) :
  sf_nan a = false -> sf_nonneg (SFmul prec emax a a) = true.
Proof.
  destruct a as [sa|sa| |sa ma ea]; simpl; try discriminate; intros _;
    try (destruct sa; reflexivity).
  apply signed_as_notneg. replace false with (xorb sa sa) by (now destruct sa).
  apply binary_round_aux_signed. lia.
Qed.

Lemma SFadd_nonneg (a b : spec_float) :
  sf_nonneg a = true -> sf_nonneg b = true -> sf_nonneg (SFadd prec emax a b) = true.
Proof.
  destruct a as [sa|sa| |sa ma ea], b as [sb|sb| |sb mb eb]; simpl; try discriminate;
    try (destruct sa, sb; (reflexivity || discriminate)).
  destruct sa, sb; try discriminate. intros _ _.
  apply signed_as_notneg.
  set (u := fst (shl_align ma ea (Z.min ea eb))).
  set (v := fst (shl_align mb eb (Z.min ea eb))).
  exact (binary_normalize_signed (Zpos u + Zpos v) (Z.min ea eb) false).
Qed.

Lemma SFsqrt_nonneg (a : spec_float) :
  sf_nonneg a = true -> sf_nonneg (SFsqrt prec emax a) = true.
Proof.
  destruct a as [sa|sa| |sa ma ea]; simpl; try discriminate;
    try (destruct sa; (reflexivity || discriminate)).
  destruct sa; try discriminate. intros _.
  destruct (SFsqrt_core_binary prec emax (Zpos ma) ea) as [[mz ez] lz] eqn:E.
  apply signed_as_notneg, binary_round_aux_signed.
  unfold SFsqrt_core_binary in E.
  destruct (Z.sqrtrem _) as [q r] eqn:Q in E. injection E as <- _ _.
  apply (f_equal fst) in Q. rewrite Z.sqrtrem_sqrt in Q. simpl in Q. subst q.
  apply Z.sqrt_nonneg.
Qed.

(** A divisor and a factor that are positive numbers keep a value that is
    not negative so. *)
Lemma SFdiv_notneg (a : spec_float) (m : positive) (e : Z) :
  sf_notneg a = true -> sf_notneg (SFdiv prec emax a (S754_finite false m e)) = true.
Proof.
  destruct a as [sa|sa| |sa ma ea]; simpl; try discriminate; try reflexivity;
    try (destruct sa; (reflexivity || discriminate)).
  destruct sa; try discriminate. intros _.
  destruct (SFdiv_core_binary prec emax (Zpos ma) ea (Zpos m) e) as [[mz ez] lz] eqn:E.
  apply sf_nonneg_notneg, signed_as_notneg. simpl. apply binary_round_aux_signed.
  unfold SFdiv_core_binary in E.
  destruct (Z.div_eucl _ _) as [q r] eqn:Q in E. injection E as <- _ _.
  match type of Q with Z.div_eucl ?n ?d = _ =>
    assert (Hn : (0 <= n)%Z);
    [| pose proof (Z.div_pos n d Hn ltac:(lia)) as Hq;
       unfold Z.div in Hq; rewrite Q in Hq; exact Hq]
  end.
  destruct (ea - e - _)%Z; try lia. apply Z.shiftl_nonneg. lia.
Qed.

Lemma SFmul_notneg (a b : spec_float) :
  sf_notneg a = true -> sf_notneg b = true -> sf_notneg (SFmul prec emax a b) = true.
Proof.
  destruct a as [sa|sa| |sa ma ea], b as [sb|sb| |sb mb eb]; simpl; try discriminate;
    try reflexivity; try (destruct sa, sb; (reflexivity || discriminate)).
  destruct sa, sb; try discriminate. intros _ _.
  apply sf_nonneg_notneg, signed_as_notneg. simpl. apply binary_round_aux_signed. lia.
Qed.

Lemma SFltb_zero_notneg (a : spec_float) :
  SFltb a (S754_zero false) = false -> sf_notneg a = true.
Proof. destruct a as [sa|sa| |sa ma ea]; simpl; auto; destruct sa; auto. Qed.

(** Comparison is total away from NaN. *)
Lemma SFleb_of_not_ltb (a b : spec_float) :
  sf_nan a = false -> sf_nan b = false -> SFltb b a = false -> SFleb a b = true.
Proof.
  unfold SFltb, SFleb.
  destruct a as [sa|sa| |sa ma ea], b as [sb|sb| |sb mb eb]; simpl; try discriminate;
    intros _ _; try (destruct sa; (reflexivity || discriminate));
    try (destruct sb; (reflexivity || discriminate));
    try (destruct sa, sb; (reflexivity || discriminate)).
  change (Pos.compare_cont Eq mb ma) with (Pos.compare mb ma).
  change (Pos.compare_cont Eq ma mb) with (Pos.compare ma mb).
  rewrite (Z.compare_antisym ea eb), (Pos.compare_antisym ma mb).
  destruct sa, sb; try (reflexivity || discriminate);
    destruct (ea ?= eb)%Z; simpl; try (reflexivity || discriminate);
    destruct (ma ?= mb)%positive; simpl; (reflexivity || discriminate).
Qed.

Lemma SFltb_abs_finite (a t : spec_float) :
  SFltb (SFabs a) t = true -> sf_finite a = true.
Proof.
  unfold SFltb. destruct a as [sa|sa| |sa ma ea]; simpl; auto; try discriminate.
  destruct t as [st|st| |st mt et]; simpl; try discriminate; destruct st; discriminate.
Qed.

(** ** The same facts on doubles *)

Lemma fabs_lt_finite (F tol : float) : (fabs F <? tol) = true -> isfinite F = true.
Proof.
  unfold fabs. rewrite ltb_spec, abs_spec, isfinite_SF. apply SFltb_abs_finite.
Qed.

Lemma sub_finite_inv (a b : float) :
  isfinite (a - b) = true -> isfinite a = true /\ isfinite b = true.
Proof. rewrite !isfinite_SF, sub_spec. apply SFsub_finite_inv. Qed.

Lemma add_finite_inv (a b : float) :
  isfinite (a + b) = true -> isfinite a = true /\ isfinite b = true.
Proof. rewrite !isfinite_SF, add_spec. apply SFadd_finite_inv. Qed.

Lemma mul_finite_inv (a b : float) :
  isfinite (a * b) = true -> isfinite a = true /\ isfinite b = true.
Proof. rewrite !isfinite_SF, mul_spec. apply SFmul_finite_inv. Qed.

(** [o + d * t] is not a NaN when its three operands are finite, and the
    radial distance [sqrt (x * x + y * y)] of two such coordinates is a
    number that is not negative. *)
Lemma coordinate_notnan (o d t : float) :
  isfinite o = true -> isfinite d = true -> isfinite t = true ->
  sf_nan (Prim2SF (o + d * t)) = false.
Proof.
  rewrite !isfinite_SF, add_spec, mul_spec. intros Ho Hd Ht.
  apply SFadd_notnan; [assumption|]. now apply SFmul_notnan.
Qed.

Lemma radial_distance_nonneg (x y : float) :
  sf_nan (Prim2SF x) = false -> sf_nan (Prim2SF y) = false ->
  sf_nonneg (Prim2SF (sqrt (x * x + y * y))) = true.
Proof.
  intros Hx Hy. rewrite sqrt_spec, add_spec, !mul_spec.
  apply SFsqrt_nonneg, SFadd_nonneg; now apply SFmul_square_nonneg.
Qed.

Lemma leb_of_not_gtb (r s : float) :
  sf_nan (Prim2SF r) = false -> isfinite s = true ->
  gtb r s = false -> (r <=? s) = true.
Proof.
  unfold gtb. rewrite isfinite_SF, ltb_spec, leb_spec. intros Hr Hs.
  apply SFleb_of_not_ltb; [assumption|]. now apply sf_finite_notnan.
Qed.

(* ===================================================================== *)
(** * What a hit of the ray-surface solver satisfies *)
(* ===================================================================== *)

Section Hit.

Variables ox oy oz dx dy dz semidia radius conic : float.
Variables coef1 coef2 coef3 coef4 coef5 coef6 coef7 coef8 coef9 coef10 : float.
Variable modeOdd : Z.

(** The point [origin + t * direction], its radial distance and the residual
    [z - sag(r)], as the solver computes them. *)
Definition hit_r (t : float) : float :=
  let x := ox + dx * t in
  let y := oy + dy * t in
  sqrt (x * x + y * y).

Definition hit_residual (t : float) : float :=
  (oz + dz * t)
  - aspheric_sag_rt10 (hit_r t) radius conic coef1 coef2 coef3 coef4 coef5
                      coef6 coef7 coef8 coef9 coef10 modeOdd.

(** What the solver has checked at the [t] it returns. *)
Definition accepted (tol t : float) : Prop :=
  (fabs (hit_residual t) <? tol) = true
  /\ (isfinite semidia && gtb semidia 0 && gtb (hit_r t) semidia) = false
  /\ gtb t 0 = true.

Abbreviation body := (newton_body ox oy oz dx dy dz semidia radius conic
                              coef1 coef2 coef3 coef4 coef5
                              coef6 coef7 coef8 coef9 coef10 modeOdd).
Abbreviation loop := (newton_loop ox oy oz dx dy dz semidia radius conic
                              coef1 coef2 coef3 coef4 coef5
                              coef6 coef7 coef8 coef9 coef10 modeOdd).
Abbreviation solve := (solve_from ox oy oz dx dy dz semidia radius conic
                              coef1 coef2 coef3 coef4 coef5
                              coef6 coef7 coef8 coef9 coef10 modeOdd).

Lemma newton_body_return (tol t v : float) :
  body tol t = Return v ->
  (v =? -1) = false ->
  v = t /\ accepted tol t.
Proof.
  unfold newton_body. fold (hit_r t).
  change (oz + dz * t - sag_at radius conic coef1 coef2 coef3 coef4 coef5
                               coef6 coef7 coef8 coef9 coef10 modeOdd (hit_r t))
    with (hit_residual t).
  destruct (fabs (hit_residual t) <? tol) eqn:EF.
  - destruct (isfinite semidia && gtb semidia 0 && gtb (hit_r t) semidia) eqn:ES;
      [discriminate|].
    intros E. injection E as <-. destruct (gtb t 0) eqn:Et.
    + intros _. repeat split; assumption.
    + discriminate.
  - repeat match goal with |- context [if ?c then _ else _] => destruct c end;
      discriminate.
Qed.

Lemma newton_loop_return (tol : float) (n : nat) (t v : float) :
  loop tol n t = Some v ->
  (v =? -1) = false ->
  accepted tol v.
Proof.
  revert t. induction n as [|n IH]; intros t; simpl; [discriminate|].
  destruct (body tol t) as [w| |t'] eqn:E; try discriminate.
  - intros H Hv. injection H as ->.
    destruct (newton_body_return tol t v E Hv) as [-> Ha]. exact Ha.
  - apply IH.
Qed.

Lemma solve_from_return (tol : float) (n : nat) (guesses : list float) :
  (solve tol n guesses =? -1) = false ->
  accepted tol (solve tol n guesses).
Proof.
  induction guesses as [|t rest IH]; simpl; [discriminate|].
  destruct (negb (gtb t 0) || negb (isfinite t)); [exact IH|].
  destruct (loop tol n t) as [v|] eqn:E; [|exact IH].
  intros Hv. exact (newton_loop_return tol n t v E Hv).
Qed.

End Hit.

(** C3, as the code has it.  For a profile with a finite semidiameter
    greater than zero: when [intersect_aspheric_rt10] returns a value [t]
    other than the failure sentinel -1, the point
    [p = origin + t * direction] satisfies [|p.z - sag(r)| < tol'] with [r]
    the radial distance [sqrt (p.x^2 + p.y^2)] and [tol'] the tolerance in
    effect ([tol] if it is greater than zero, 1e-7 otherwise); [r] is at most
    [semidia]; and [t] is positive.  (A ray whose origin or direction is not
    finite gets the sentinel.) *)
Theorem intersect_hit_postcondition
        (ox oy oz dx dy dz semidia radius conic : float)
        (coef1 coef2 coef3 coef4 coef5 coef6 coef7 coef8 coef9 coef10 : float)
        (modeOdd maxIter : Z) (tol : float) :
  let t := intersect_aspheric_rt10 ox oy oz dx dy dz semidia radius conic
             coef1 coef2 coef3 coef4 coef5 coef6 coef7 coef8 coef9 coef10
             modeOdd maxIter tol in
  isfinite semidia = true ->
  gtb semidia 0 = true ->
  (t =? -1) = false ->
  (fabs (hit_residual ox oy oz dx dy dz radius conic
           coef1 coef2 coef3 coef4 coef5 coef6 coef7 coef8 coef9 coef10 modeOdd t)
   <? effective_tol tol) = true
  /\ (hit_r ox oy dx dy t <=? semidia) = true
  /\ (0 <? t) = true.
Proof.
  intros t Hs Hs0. subst t. unfold intersect_aspheric_rt10.
  destruct (isfinite dx) eqn:Fdx; [|discriminate].
  destruct (isfinite dy) eqn:Fdy; [|discriminate].
  destruct (isfinite dz) eqn:Fdz; [|discriminate].
  destruct (isfinite ox) eqn:Fox; [|discriminate].
  destruct (isfinite oy) eqn:Foy; [|discriminate].
  destruct (isfinite oz) eqn:Foz; [|discriminate].
  cbn [negb orb]. intros Hhit.
  destruct (solve_from_return _ _ _ _ _ _ _ _ _ _ _ _ _ _ _ _ _ _ _ _ _ _ _ Hhit)
    as (HF & HS & Ht).
  set (t := solve_from _ _ _ _ _ _ _ _ _ _ _ _ _ _ _ _ _ _ _ _ _ _ _) in *.
  rewrite Hs, Hs0 in HS. cbn [andb] in HS.
  split; [exact HF|]. split; [|exact Ht].
  assert (Ft : isfinite t = true).
  { apply fabs_lt_finite in HF. unfold hit_residual in HF.
    apply sub_finite_inv in HF as [HF _].
    apply add_finite_inv in HF as [_ HF].
    apply mul_finite_inv in HF as [_ HF]. exact HF. }
  apply leb_of_not_gtb; [|assumption|assumption].
  apply sf_nonneg_notnan. unfold hit_r.
  apply radial_distance_nonneg; apply coordinate_notnan; assumption.
Qed.

Lemma intersect_hit_postcondition_witness :
  let t := intersect_aspheric_rt10 0.5 0 (-5) 0 0 1 3 10 0
             0 0 0 0 0 0 0 0 0 0 0 20 1e-9 in
  (fabs (hit_residual 0.5 0 (-5) 0 0 1 10 0 0 0 0 0 0 0 0 0 0 0 0 t)
   <? effective_tol 1e-9) = true
  /\ (hit_r 0.5 0 0 0 t <=? 3) = true
  /\ (0 <? t) = true.
Proof.
  apply (intersect_hit_postcondition 0.5 0 (-5) 0 0 1 3 10 0
           0 0 0 0 0 0 0 0 0 0 0 20 1e-9); reflexivity.
Defined.

(** C3 as stated fails for a caller who leaves the tolerance to its default
    by passing 0: the ray from (0.5, 0, -5) along +z is returned as a hit of
    the sphere of radius 10 at [t] = 5.0125..., where [|p.z - sag|] is about
    6.4e-16 and not at most the [tol] = 0 of the call. *)
Lemma hit_exceeds_requested_tol :
  let t := intersect_aspheric_rt10 0.5 0 (-5) 0 0 1 3 10 0
             0 0 0 0 0 0 0 0 0 0 0 20 0 in
  isfinite 3 = true
  /\ t = 5.0125078222809112
  /\ (t =? -1) = false
  /\ (fabs (hit_residual 0.5 0 (-5) 0 0 1 10 0 0 0 0 0 0 0 0 0 0 0 0 t) <=? 0) = false.
Proof. vm_compute. repeat split; reflexivity. Qed.

(* ===================================================================== *)
(** * The sag of a pure conic *)
(* ===================================================================== *)

(** ** Multiplying by one and adding zero *)

Lemma Prim2SF_one : Prim2SF 1 = S754_finite false 4503599627370496 (-52).
Proof. reflexivity. Qed.

Lemma SFmul_one_l (x : spec_float) :
  valid_binary x = true ->
  SFmul prec emax (S754_finite false 4503599627370496 (-52)) x = x.
Proof.
  destruct x as [s|s| |s m e]; try reflexivity.
  unfold valid_binary, bounded, canonical_mantissa.
  intros H. apply andb_prop in H as [Hc Hb].
  apply Z.eqb_eq in Hc. apply Z.leb_le in Hb.
  unfold SFmul. cbn [xorb].
  assert (Hm : (4503599627370496 * m)%positive
               = Pos.iter xO m 52).
  { reflexivity. }
  unfold binary_round_aux, shr_fexp.
  assert (Hd : Zdigits2 (Zpos (4503599627370496 * m)) = (Zpos (digits2_pos m) + 52)%Z).
  { rewrite Hm. cbn [Zdigits2 Pos.iter digits2_pos]. lia. }
  rewrite Hd.
  assert (Hs : (fexp prec emax (Zpos (digits2_pos m) + 52 + (-52 + e)) - (-52 + e) = 52)%Z).
  { unfold fexp in *. unfold FloatOps.emin, SpecFloat.emin, emax, prec in *. lia. }
  rewrite Hs.
  assert (Hshr : shr (shr_record_of_loc (Zpos (4503599627370496 * m)) loc_Exact) (-52 + e) 52
                 = ({| shr_m := Zpos m; shr_r := false; shr_s := false |}, e)).
  { rewrite Hm. unfold shr. apply f_equal2; [reflexivity|lia]. }
  rewrite Hshr. cbn [shr_m loc_of_shr_record round_nearest_even Zdigits2].
  assert (Hs2 : (fexp prec emax (Zpos (digits2_pos m) + e) - e = 0)%Z) by lia.
  rewrite Hs2. cbn [shr shr_record_of_loc shr_m].
  apply Z.leb_le in Hb. now rewrite Hb.
Qed.

Lemma mul_1_l (x : float) : 1 * x = x.
Proof.
  apply Prim2SF_inj. rewrite mul_spec, Prim2SF_one.
  apply SFmul_one_l, Prim2SF_valid.
Qed.

(** [x + 0] is [x], but for the negative zero, which it turns into the
    positive one. *)
Lemma add_0_r (x : float) : Prim2SF x <> S754_zero true -> x + 0 = x.
Proof.
  intros H. apply Prim2SF_inj. rewrite add_spec, Prim2SF_zero.
  destruct (Prim2SF x) as [[]|[]| |s m e]; try reflexivity. now elim H.
Qed.

Lemma add_0_r_eqb (x : float) : isfinite x = true -> (x + 0 =? x) = true.
Proof.
  rewrite isfinite_SF, eqb_spec, add_spec, Prim2SF_zero. unfold SFeqb.
  destruct (Prim2SF x) as [[]|[]| |s m e] eqn:E; try discriminate; intros _;
    try reflexivity.
  cbn [SFadd]. rewrite SFcompare_refl. reflexivity.
Qed.

Lemma add_0_r_finite (x : float) : isfinite (x + 0) = isfinite x.
Proof.
  rewrite !isfinite_SF, add_spec, Prim2SF_zero.
  now destruct (Prim2SF x) as [[]|[]| |s m e].
Qed.

(** ** The claimed value and what the code returns *)

(** [r^2 / (R (1 + sqrt (1 - r^2 / R^2)))] in double arithmetic. *)
Definition conic_discriminant (r R : float) : float := 1 - r * r / (R * R).

Definition conic_sag (r R : float) : float :=
  r * r / (R * (1 + sqrt (conic_discriminant r R))).

(** [aspheric_sag_rt10] with conic 0 and the ten coefficients 0. *)
Definition pure_conic_sag_rt10 (r R : float) (modeOdd : Z) : float :=
  aspheric_sag_rt10 r R 0 0 0 0 0 0 0 0 0 0 0 modeOdd.

Lemma zero_coefficients_poly (r r2 : float) (modeOdd : Z) :
  __rt10_asphere_poly r r2 0 0 0 0 0 0 0 0 0 0 modeOdd = 0.
Proof. unfold __rt10_asphere_poly. destruct (modeOdd =? 0)%Z; reflexivity. Qed.

Lemma pure_conic_unfold (r R : float) (modeOdd : Z) :
  pure_conic_sag_rt10 r R modeOdd =
  if R =? 0 then 0
  else if negb (isfinite (conic_discriminant r R)) || (conic_discriminant r R <? 0)
       then 0
       else if isfinite (conic_sag r R + 0) then conic_sag r R + 0 else 0.
Proof.
  unfold pure_conic_sag_rt10, aspheric_sag_rt10.
  rewrite zero_coefficients_poly.
  change (1 + 0) with 1. rewrite mul_1_l. reflexivity.
Qed.

(* ===================================================================== *)
(** * Rounding to nearest, ties to even

    Exact values are kept as fractions [n / d] of integers, counted in units
    of [2^-2200]: every exponent the operations of binary64 hand to the
    rounding is at least -2200, so the mantissa [m] at exponent [e] is the
    integer [m * 2^(e + 2200)] of such units. *)
(* ===================================================================== *)

Local Open Scope Z_scope.

Definition B : Z := 2200.

Definition unit_of (e : Z) : Z := 2 ^ (e + B).

(** [n / d] lies in the interval [[m, m + 1)] of units of exponent [e], at
    the place [l] says: on its lower end, or inside and below, at or above
    the middle. *)
Definition located (n d m e : Z) (l : location) : Prop :=
  match l with
  | loc_Exact => n = m * unit_of e * d
  | loc_Inexact c =>
      m * unit_of e * d < n < (m * unit_of e + unit_of e) * d
      /\ (2 * n ?= (2 * (m * unit_of e) + unit_of e) * d) = c
  end.

Lemma unit_of_pos (e : Z) : 0 <= e + B -> 0 < unit_of e.
Proof. intros H. unfold unit_of. apply Z.pow_pos_nonneg; lia. Qed.

Lemma unit_of_succ (e : Z) : 0 <= e + B -> unit_of (e + 1) = 2 * unit_of e.
Proof.
  intros H. unfold unit_of. replace (e + 1 + B) with (Z.succ (e + B)) by lia.
  now rewrite Z.pow_succ_r.
Qed.

Lemma unit_of_add (e k : Z) :
  0 <= e + B -> 0 <= k -> unit_of (e + k) = unit_of e * 2 ^ k.
Proof.
  intros H Hk. unfold unit_of. replace (e + k + B) with (e + B + k) by lia.
  now rewrite Z.pow_add_r.
Qed.

Lemma digits2_pos_size (m : positive) : digits2_pos m = Pos.size m.
Proof. induction m; simpl; congruence. Qed.

Lemma digits2_pos_log2 (m : positive) :
  Zpos (digits2_pos m) = Z.log2 (Zpos m) + 1.
Proof.
  rewrite digits2_pos_size. destruct m; simpl; lia.
Qed.

Lemma compare_shift (a b c : Z) : (a + c ?= b + c) = (a ?= b).
Proof. now rewrite (Z.add_comm a c), (Z.add_comm b c), Z.add_compare_mono_l. Qed.

(** One step of the shift keeps the exact value located. *)
Lemma shr_1_located (n d e : Z) (mrs : shr_record) :
  0 <= shr_m mrs -> 0 <= e + B -> 0 < d ->
  located n d (shr_m mrs) e (loc_of_shr_record mrs) ->
  located n d (shr_m (shr_1 mrs)) (e + 1) (loc_of_shr_record (shr_1 mrs))
  /\ shr_m (shr_1 mrs) = shr_m mrs / 2.
Proof.
  destruct mrs as [m r s]. cbn [shr_m]. intros Hm He Hd H.
  assert (Hdiv : shr_m (shr_1 {| shr_m := m; shr_r := r; shr_s := s |}) = m / 2).
  { destruct m as [|p|p]; [reflexivity| |lia].
    destruct p as [p|p|]; cbn [shr_1 shr_m].
    - rewrite Pos2Z.inj_xI. apply Z.div_unique with (r := 1); lia.
    - rewrite Pos2Z.inj_xO. apply Z.div_unique with (r := 0); lia.
    - reflexivity. }
  split; [|exact Hdiv].
  pose proof (unit_of_pos e He) as HU. rewrite Hdiv. clear Hdiv.
  assert (Hs : shr_s (shr_1 {| shr_m := m; shr_r := r; shr_s := s |}) = r || s).
  { destruct m as [|p|p]; [reflexivity| |lia]. destruct p; reflexivity. }
  assert (Hr : shr_r (shr_1 {| shr_m := m; shr_r := r; shr_s := s |}) = Z.odd m).
  { destruct m as [|p|p]; [reflexivity| |lia]. destruct p; reflexivity. }
  destruct (shr_1 _) as [m' r' s'] eqn:E1. cbn [shr_r shr_s] in Hr, Hs. subst r' s'.
  clear E1.
  unfold located in *. rewrite (unit_of_succ e He).
  set (U := unit_of e) in *. set (h := m / 2) in *.
  assert (HUd : 0 < U * d) by lia.
  replace (h * (2 * U) * d) with (2 * (h * (U * d))) by ring.
  replace ((h * (2 * U) + 2 * U) * d) with (2 * (h * (U * d)) + 2 * (U * d)) by ring.
  replace ((2 * (h * (2 * U)) + 2 * U) * d)
    with (2 * (2 * (h * (U * d)) + (U * d))) by ring.
  destruct (Z.odd m) eqn:Od.
  - (* odd mantissa: the lower end moves down by one old unit *)
    assert (EM : m * U * d = 2 * (h * (U * d)) + U * d).
    { apply Z.odd_spec in Od as [k Ek].
      assert (Eh : h = k).
      { unfold h. rewrite Ek. replace (2 * k + 1) with (1 + k * 2) by lia.
        rewrite Z.div_add by lia. reflexivity. }
      rewrite Ek, Eh. ring. }
    replace ((m * U + U) * d) with (m * U * d + U * d) in H by ring.
    destruct r, s; cbn [loc_of_shr_record orb] in *;
      (split; [lia|]); (apply Z.compare_gt_iff || apply Z.compare_eq_iff); lia.
  - (* even mantissa: the interval keeps its lower end *)
    assert (EM : m * U * d = 2 * (h * (U * d))).
    { assert (Ev : Z.even m = true) by (rewrite <- Z.negb_odd, Od; reflexivity).
      apply Z.even_spec in Ev as [k Ek].
      assert (Eh : h = k).
      { unfold h. rewrite Ek, Z.mul_comm, Z.div_mul by lia. reflexivity. }
      rewrite Ek, Eh. ring. }
    replace ((m * U + U) * d) with (m * U * d + U * d) in H by ring.
    destruct r, s; cbn [loc_of_shr_record orb] in *; try lia;
      (split; [lia|]); apply Z.compare_lt_iff; lia.
Qed.

Lemma iter_pos_shr_1_located (n d : Z) (k : positive) :
  0 < d ->
  forall (e : Z) (mrs : shr_record),
    0 <= shr_m mrs -> 0 <= e + B ->
    located n d (shr_m mrs) e (loc_of_shr_record mrs) ->
    located n d (shr_m (iter_pos shr_1 k mrs)) (e + Zpos k)
            (loc_of_shr_record (iter_pos shr_1 k mrs))
    /\ shr_m (iter_pos shr_1 k mrs) = shr_m mrs / 2 ^ Zpos k.
Proof.
  intros Hd.
  assert (step : forall e mrs,
             0 <= shr_m mrs -> 0 <= e + B ->
             located n d (shr_m mrs) e (loc_of_shr_record mrs) ->
             located n d (shr_m (shr_1 mrs)) (e + 1) (loc_of_shr_record (shr_1 mrs))
             /\ shr_m (shr_1 mrs) = shr_m mrs / 2 ^ 1).
  { intros e mrs Hm He H. now apply shr_1_located. }
  assert (nonneg : forall a j, 0 <= a -> 0 <= a / 2 ^ Zpos j).
  { intros a j Ha. apply Z.div_pos; [assumption|]. apply Z.pow_pos_nonneg; lia. }
  assert (twice : forall a i j, 0 <= a ->
             a / 2 ^ Zpos i / 2 ^ Zpos j = a / 2 ^ (Zpos i + Zpos j)).
  { intros a i j Ha. rewrite Z.pow_add_r by lia.
    apply Z.div_div; apply Z.pow_pos_nonneg || (apply Z.neq_sym, Z.lt_neq, Z.pow_pos_nonneg); lia. }
  induction k as [k IH|k IH|]; intros e mrs Hm He H; cbn [iter_pos].
  - destruct (step e mrs Hm He H) as [H1 E1].
    assert (Hm1 : 0 <= shr_m (shr_1 mrs)).
    { rewrite E1. apply Z.div_pos; lia. }
    destruct (IH (e + 1) (shr_1 mrs) Hm1 ltac:(lia) H1) as [H2 E2].
    assert (Hm2 : 0 <= shr_m (iter_pos shr_1 k (shr_1 mrs))).
    { rewrite E2. now apply nonneg. }
    destruct (IH (e + 1 + Zpos k) _ Hm2 ltac:(lia) H2) as [H3 E3].
    split.
    + replace (e + Zpos k~1) with (e + 1 + Zpos k + Zpos k) by lia. exact H3.
    + rewrite E3, E2, E1, twice by (apply Z.div_pos; lia).
      rewrite Z.div_div by (try apply Z.pow_pos_nonneg; lia).
      rewrite <- Z.pow_add_r by lia. f_equal. f_equal. lia.
  - destruct (IH e mrs Hm He H) as [H2 E2].
    assert (Hm2 : 0 <= shr_m (iter_pos shr_1 k mrs)).
    { rewrite E2. now apply nonneg. }
    destruct (IH (e + Zpos k) _ Hm2 ltac:(lia) H2) as [H3 E3].
    split.
    + replace (e + Zpos k~0) with (e + Zpos k + Zpos k) by lia. exact H3.
    + rewrite E3, E2, twice by assumption. f_equal. f_equal. lia.
  - exact (step e mrs Hm He H).
Qed.

Lemma loc_of_shr_record_of_loc (m : Z) (l : location) :
  loc_of_shr_record (shr_record_of_loc m l) = l
  /\ shr_m (shr_record_of_loc m l) = m.
Proof. now destruct l as [|[]]. Qed.

(** The shift by [z] places ([z] at most 0 shifts nothing). *)
Lemma shr_located (n d m e z : Z) (l : location) :
  0 <= m -> 0 <= e + B -> 0 < d ->
  located n d m e l ->
  located n d (shr_m (fst (shr (shr_record_of_loc m l) e z)))
          (e + Z.max z 0)
          (loc_of_shr_record (fst (shr (shr_record_of_loc m l) e z)))
  /\ shr_m (fst (shr (shr_record_of_loc m l) e z)) = m / 2 ^ Z.max z 0
  /\ snd (shr (shr_record_of_loc m l) e z) = e + Z.max z 0.
Proof.
  intros Hm He Hd H.
  destruct (loc_of_shr_record_of_loc m l) as [El Em].
  unfold shr. destruct z as [|k|k]; cbn [fst snd].
  - rewrite El, Em, Z.add_0_r. change (2 ^ Z.max 0 0) with 1. rewrite Z.div_1_r. auto.
  - replace (Z.max (Zpos k) 0) with (Zpos k) by lia.
    destruct (iter_pos_shr_1_located n d k Hd e (shr_record_of_loc m l)) as [H1 E1].
    + rewrite Em. exact Hm.
    + exact He.
    + rewrite El, Em. exact H.
    + rewrite Em in E1. auto.
  - replace (Z.max (Zneg k) 0) with 0 by lia.
    rewrite El, Em, Z.add_0_r. change (2 ^ 0) with 1. rewrite Z.div_1_r. auto.
Qed.

(** ** The nearest integer, ties to even *)

Definition rne (n D : Z) : Z :=
  let q := n / D in
  match 2 * (n mod D) ?= D with
  | Lt => q
  | Eq => if Z.even q then q else q + 1
  | Gt => q + 1
  end.

Lemma round_nearest_even_rne (n d m e : Z) (l : location) :
  0 <= e + B -> 0 < d ->
  located n d m e l ->
  round_nearest_even m l = rne n (d * unit_of e)
  /\ n / (d * unit_of e) = m.
Proof.
  intros He Hd H. pose proof (unit_of_pos e He) as HU.
  set (D := d * unit_of e). assert (HD : 0 < D) by (unfold D; lia).
  unfold located in H. fold D in H.
  assert (Hq : n / D = m /\ n mod D = n - m * D).
  { assert (Hb : m * D <= n < (m + 1) * D).
    { destruct l as [|c].
      - subst n. unfold D. nia.
      - destruct H as [[L1 L2] _]. unfold D. nia. }
    assert (n / D = m).
    { symmetry. apply Z.div_unique with (r := n - m * D); lia. }
    split; [assumption|]. rewrite Z.mod_eq by lia. nia. }
  destruct Hq as [Hq Hr]. split; [|exact Hq].
  unfold rne. rewrite Hq, Hr.
  destruct l as [|c]; cbn [round_nearest_even].
  - subst n. replace (m * unit_of e * d - m * D) with 0 by (unfold D; ring).
    cbn [Z.mul]. destruct (Z.compare_spec 0 D); lia.
  - destruct H as [_ Hc].
    replace (2 * (n - m * D) ?= D) with c; [now destruct c|].
    rewrite <- Hc.
    replace ((2 * (m * unit_of e) + unit_of e) * d) with (D + 2 * (m * D))
      by (unfold D; ring).
    replace (2 * n) with (2 * (n - m * D) + 2 * (m * D)) by ring.
    now rewrite compare_shift.
Qed.

(** ** The rounding of binary64 on exact values *)

(** The exponent binary64 gives a value whose integer part, in units, is
    [q]. *)
Definition cexp (q : Z) : Z := Z.max (Z.log2 q + 1 - 53 - B) (-1074).

(** [n / d] rounded to the nearest double, in units. *)
Definition RND (n d : Z) : Z :=
  let e := cexp (n / d) in
  rne n (d * unit_of e) * unit_of e.

(** The double of sign [s] whose magnitude is [V] units. *)
Definition inject (s : bool) (V : Z) : spec_float :=
  if V =? 0 then S754_zero s
  else
    let e := cexp V in
    if e <=? 971 then S754_finite s (Z.to_pos (V / unit_of e)) e
    else S754_infinity s.

Lemma fexp_cexp (mx ex q : Z) :
  0 < mx -> 0 <= ex + B ->
  mx * unit_of ex <= q < (mx + 1) * unit_of ex ->
  cexp q = fexp prec emax (Zdigits2 mx + ex).
Proof.
  intros Hm He [L1 L2]. pose proof (unit_of_pos ex He) as HU.
  destruct mx as [|p|p]; try lia. cbn [Zdigits2]. rewrite digits2_pos_log2.
  pose proof (Z.log2_spec (Zpos p) ltac:(lia)) as [P1 P2].
  assert (Hlog : Z.log2 q = Z.log2 (Zpos p) + (ex + B)).
  { pose proof (Z.log2_nonneg (Zpos p)) as Hl.
    apply Z.log2_unique; [lia|].
    rewrite (Z.pow_add_r 2 (Z.log2 (Zpos p)) (ex + B)) by lia.
    replace (Z.succ (Z.log2 (Zpos p) + (ex + B)))
      with (Z.succ (Z.log2 (Zpos p)) + (ex + B)) by lia.
    rewrite (Z.pow_add_r 2 (Z.succ (Z.log2 (Zpos p))) (ex + B)) by lia.
    fold (unit_of ex). split.
    - apply Z.le_trans with (Zpos p * unit_of ex); [|lia].
      apply Z.mul_le_mono_nonneg_r; lia.
    - apply Z.lt_le_trans with ((Zpos p + 1) * unit_of ex); [lia|].
      apply Z.mul_le_mono_nonneg_r; lia. }
  unfold cexp, fexp. rewrite Hlog.
  change (SpecFloat.emin prec emax) with (-1074). change prec with 53. lia.
Qed.

Lemma log2_lt_pow2_le (a k : Z) : 0 < a -> a < 2 ^ k -> Z.log2 a < k.
Proof.
  intros Ha H. destruct (Z.le_gt_cases 0 k) as [Hk|Hk].
  - apply Z.log2_lt_pow2; assumption.
  - rewrite Z.pow_neg_r in H; lia.
Qed.

(** [binary_round_aux] rounds to nearest: handed a mantissa [mx] at an
    exponent [ex] that is not above the one of the result, and the place [lx]
    of the exact value [n / d] in the interval that starts at [mx], it
    returns the double nearest to [n / d].  (A mantissa 0 occurs when a
    quotient underflows, at an exponent below the subnormal one.) *)
Theorem binary_round_aux_correct (sx : bool) (mx ex : Z) (lx : location) (n d : Z) :
  0 <= mx -> (mx = 0 -> ex <= -1074) -> 0 <= ex + B -> 0 < d ->
  ex <= fexp prec emax (Zdigits2 mx + ex) ->
  located n d mx ex lx ->
  binary_round_aux prec emax sx mx ex lx = inject sx (RND n d).
Proof.
  intros Hm Hm0 He Hd Hc H. pose proof (unit_of_pos ex He) as HU.
  set (c := fexp prec emax (Zdigits2 mx + ex)) in *.
  (* the interval of [n / d] *)
  assert (Hq0 : mx * unit_of ex <= n / d < (mx + 1) * unit_of ex).
  { unfold located in H. destruct lx as [|cmp].
    - subst n. rewrite Z.div_mul by lia. lia.
    - destruct H as [[L1 L2] _]. split.
      + apply Z.div_le_lower_bound; lia.
      + apply Z.div_lt_upper_bound; lia. }
  assert (Hc1074 : -1074 <= c).
  { unfold c, fexp. change (SpecFloat.emin prec emax) with (-1074). lia. }
  assert (Ec : cexp (n / d) = c).
  { destruct (Z.eq_dec mx 0) as [E0|N0]; [|apply fexp_cexp; [lia|assumption|assumption]].
    specialize (Hm0 E0).
    assert (Ec0 : c = -1074).
    { unfold c, fexp. rewrite E0. cbn [Zdigits2].
      change prec with 53. change (SpecFloat.emin 53 emax) with (-1074). lia. }
    rewrite Ec0. rewrite E0 in Hq0.
    assert (Hq1 : n / d < unit_of ex) by lia.
    unfold cexp.
    destruct (Z.eq_dec (n / d) 0) as [->|Hn0].
    - change (Z.log2 0) with 0. unfold B. lia.
    - assert (Z.log2 (n / d) < ex + B).
      { apply log2_lt_pow2_le; [lia|]. exact Hq1. }
      lia. }
  (* the first shift *)
  unfold binary_round_aux, shr_fexp. fold c.
  destruct (shr_located n d mx ex (c - ex) lx Hm He Hd H) as (H1 & E1 & X1).
  destruct (shr (shr_record_of_loc mx lx) ex (c - ex)) as [mrs' e'] eqn:S1.
  cbn [fst snd] in H1, E1, X1.
  replace (ex + Z.max (c - ex) 0) with c in * by lia. subst e'.
  assert (HcB : 0 <= c + B) by lia.
  destruct (round_nearest_even_rne n d (shr_m mrs') c (loc_of_shr_record mrs') HcB Hd H1)
    as [ER Eq1].
  set (R := round_nearest_even (shr_m mrs') (loc_of_shr_record mrs')) in *.
  assert (EV : RND n d = R * unit_of c).
  { unfold RND. rewrite Ec, <- ER. reflexivity. }
  rewrite EV. clear EV.
  (* the size of the shifted mantissa *)
  set (z := Z.max (c - ex) 0) in *.
  assert (Hz : 0 <= z) by (unfold z; lia).
  assert (Hm1 : 0 <= shr_m mrs' < 2 ^ 53).
  { rewrite E1. split.
    - apply Z.div_pos; [lia|]. apply Z.pow_pos_nonneg; lia.
    - destruct (Z.eq_dec mx 0) as [E0|N0].
      { rewrite E0, Z.div_0_l; [lia|]. apply Z.neq_sym, Z.lt_neq, Z.pow_pos_nonneg; lia. }
      apply Z.div_lt_upper_bound; [apply Z.pow_pos_nonneg; lia|].
      rewrite <- Z.pow_add_r by lia.
      pose proof (Z.log2_spec mx ltac:(lia)) as [_ P2].
      eapply Z.lt_le_trans; [exact P2|].
      apply Z.pow_le_mono_r; [lia|].
      destruct mx as [|p|p]; try lia.
      unfold z, c, fexp. cbn [Zdigits2]. rewrite digits2_pos_log2.
      change prec with 53. lia. }
  assert (Hm1' : c = -1074 \/ 2 ^ 52 <= shr_m mrs').
  { destruct (Z.eq_dec c (-1074)) as [|Hne]; [now left|right].
    rewrite E1.
    destruct mx as [|p|p]; [exfalso|clear Hm0|lia].
    { specialize (Hm0 eq_refl). apply Hne. unfold c, fexp. cbn [Zdigits2].
      change prec with 53. change (SpecFloat.emin 53 emax) with (-1074). lia. }
    assert (Ez : z = Z.log2 (Zpos p) - 52).
    { unfold z, c, fexp in *. cbn [Zdigits2] in *. rewrite digits2_pos_log2 in *.
      change prec with 53 in *. change (SpecFloat.emin 53 emax) with (-1074) in *. lia. }
    apply Z.div_le_lower_bound; [apply Z.pow_pos_nonneg; lia|].
    rewrite <- Z.pow_add_r by lia.
    replace (z + 52) with (Z.log2 (Zpos p)) by lia.
    apply (Z.log2_spec (Zpos p)). lia. }
  assert (HR : shr_m mrs' <= R <= shr_m mrs' + 1).
  { unfold R. destruct (loc_of_shr_record mrs') as [|[]]; cbn [round_nearest_even];
      try destruct (Z.even _); lia. }
  pose proof (unit_of_pos c HcB) as HUc.
  (* the second shift *)
  destruct (Z.eq_dec R 0) as [R0|Rn0].
  { rewrite R0. cbn [Zdigits2].
    assert (Es : shr (shr_record_of_loc 0 loc_Exact) c (fexp prec emax (0 + c) - c)
                 = (shr_record_of_loc 0 loc_Exact, c)).
    { unfold shr. assert (fexp prec emax (0 + c) - c <= 0).
      { unfold fexp. change prec with 53.
        change (SpecFloat.emin 53 emax) with (-1074). lia. }
      destruct (fexp prec emax (0 + c) - c); try lia; reflexivity. }
    rewrite Es. reflexivity. }
  assert (Rpos : 0 < R) by lia.
  assert (Hinj : inject sx (R * unit_of c) =
                 let e := cexp (R * unit_of c) in
                 if e <=? 971 then S754_finite sx (Z.to_pos (R * unit_of c / unit_of e)) e
                 else S754_infinity sx).
  { unfold inject. destruct (Z.eqb_spec (R * unit_of c) 0); [nia|reflexivity]. }
  rewrite Hinj. clear Hinj.
  assert (Hlog : Z.log2 (R * unit_of c) = Z.log2 R + (c + B)).
  { unfold unit_of. rewrite Z.log2_mul_pow2 by lia. lia. }
  destruct (Z.eq_dec R (2 ^ 53)) as [Rmax|Rlt].
  - (* the mantissa carried into the next binade *)
    assert (Ecx : cexp (R * unit_of c) = c + 1).
    { unfold cexp. rewrite Hlog, Rmax, Z.log2_pow2 by lia. lia. }
    cbv zeta. rewrite Ecx, Rmax.
    change (Zdigits2 (2 ^ 53)) with 54.
    assert (Ef : fexp prec emax (54 + c) - c = 1).
    { unfold fexp. change prec with 53. change (SpecFloat.emin 53 emax) with (-1074). lia. }
    rewrite Ef. cbn [shr shr_record_of_loc iter_pos].
    change (shr_1 {| shr_m := 2 ^ 53; shr_r := false; shr_s := false |})
      with {| shr_m := 2 ^ 52; shr_r := false; shr_s := false |}.
    cbn [shr_m]. change (2 ^ 52) with (Zpos (2 ^ 52)) at 1.
    cbv iota beta. change (emax - prec) with 971.
    rewrite (unit_of_succ c HcB).
    replace (2 ^ 53 * unit_of c / (2 * unit_of c)) with (2 ^ 52).
    + reflexivity.
    + apply Z.div_unique with (r := 0); [lia|]. change (2 ^ 53) with (2 * 2 ^ 52). ring.
  - (* no carry *)
    assert (HR53 : R < 2 ^ 53) by lia.
    assert (Hlog53 : Z.log2 R < 53) by (apply log2_lt_pow2_le; lia).
    assert (Ecx : cexp (R * unit_of c) = c).
    { unfold cexp. rewrite Hlog.
      destruct Hm1' as [->|H52]; [lia|].
      assert (52 <= Z.log2 R).
      { apply Z.log2_le_pow2; lia. }
      lia. }
    cbv zeta. rewrite Ecx, Z.div_mul by lia.
    assert (Ef : fexp prec emax (Zdigits2 R + c) - c <= 0).
    { destruct R as [|p|p]; try lia. cbn [Zdigits2]. rewrite digits2_pos_log2.
      unfold fexp. change prec with 53. change (SpecFloat.emin 53 emax) with (-1074).
      lia. }
    assert (Es : shr (shr_record_of_loc R loc_Exact) c (fexp prec emax (Zdigits2 R + c) - c)
                 = (shr_record_of_loc R loc_Exact, c)).
    { unfold shr. destruct (fexp prec emax (Zdigits2 R + c) - c); try lia; reflexivity. }
    rewrite Es. cbn [shr_record_of_loc shr_m].
    destruct R as [|p|p]; try lia. reflexivity.
Qed.

(** ** Monotonicity and exactness of the rounding *)

Lemma div_floor_mono (n1 d1 n2 d2 : Z) :
  0 < d1 -> 0 < d2 -> n1 * d2 <= n2 * d1 -> n1 / d1 <= n2 / d2.
Proof.
  intros H1 H2 H.
  apply Z.div_le_lower_bound; [assumption|].
  pose proof (Z.mul_div_le n1 d1 H1) as L.
  (* d2 * (n1 / d1) <= n2  follows from  d1 * d2 * (n1/d1) <= d2 * n1 <= d1 * n2 *)
  assert (d1 * (d2 * (n1 / d1)) <= d1 * n2) by nia.
  apply Z.mul_le_mono_pos_l with (p := d1); assumption.
Qed.

Lemma rne_bounds (n D : Z) : 0 < D -> n / D <= rne n D <= n / D + 1.
Proof.
  intros HD. unfold rne. destruct (2 * (n mod D) ?= D); try destruct (Z.even _); lia.
Qed.

Lemma rne_mono (n1 D1 n2 D2 : Z) :
  0 < D1 -> 0 < D2 -> n1 * D2 <= n2 * D1 -> rne n1 D1 <= rne n2 D2.
Proof.
  intros H1 H2 H.
  pose proof (div_floor_mono n1 D1 n2 D2 H1 H2 H) as Hq.
  pose proof (rne_bounds n1 D1 H1) as B1. pose proof (rne_bounds n2 D2 H2) as B2.
  destruct (Z.eq_dec (n1 / D1) (n2 / D2)) as [E|NE]; [|lia].
  (* same integer part: compare the fractional parts *)
  pose proof (Z.div_mod n1 D1 ltac:(lia)) as M1.
  pose proof (Z.div_mod n2 D2 ltac:(lia)) as M2.
  pose proof (Z.mod_pos_bound n1 D1 H1) as P1.
  pose proof (Z.mod_pos_bound n2 D2 H2) as P2.
  set (a := n1 / D1) in *. set (r1 := n1 mod D1) in *. set (r2 := n2 mod D2) in *.
  rewrite <- E in M2.
  assert (Hr : r1 * D2 <= r2 * D1) by nia.
  unfold rne. fold a r1 r2. rewrite <- E.
  destruct (Z.compare_spec (2 * r1) D1) as [C1|C1|C1];
    destruct (Z.compare_spec (2 * r2) D2) as [C2|C2|C2];
    try destruct (Z.even a); try lia; exfalso; nia.
Qed.

Lemma cexp_mono (q1 q2 : Z) : q1 <= q2 -> cexp q1 <= cexp q2.
Proof.
  intros H. unfold cexp. pose proof (Z.log2_le_mono q1 q2 H). lia.
Qed.

Lemma cexp_ge (q : Z) : -1074 <= cexp q.
Proof. unfold cexp. lia. Qed.

Lemma unit_of_le (e1 e2 : Z) : 0 <= e1 + B -> e1 <= e2 -> unit_of e1 <= unit_of e2.
Proof. intros H1 H. unfold unit_of. apply Z.pow_le_mono_r; lia. Qed.

Lemma unit_of_split (e1 e2 : Z) :
  0 <= e1 + B -> e1 <= e2 -> unit_of e2 = 2 ^ (e2 - e1) * unit_of e1.
Proof.
  intros H1 H. unfold unit_of. rewrite <- Z.pow_add_r by lia. f_equal. lia.
Qed.

Lemma cexp_B (q : Z) : 0 <= cexp q + B.
Proof. pose proof (cexp_ge q). unfold B. lia. Qed.

(** Above the subnormal range the value has 53 digits in units of its
    exponent. *)
Lemma cexp_big (q : Z) :
  0 < q -> -1074 < cexp q -> 2 ^ 52 * unit_of (cexp q) <= q.
Proof.
  intros Hq H. unfold cexp in *.
  assert (E : Z.max (Z.log2 q + 1 - 53 - B) (-1074) = Z.log2 q - 52 - B) by lia.
  rewrite E in *. unfold unit_of.
  replace (Z.log2 q - 52 - B + B) with (Z.log2 q - 52) by lia.
  rewrite <- Z.pow_add_r by (unfold B in *; lia).
  replace (52 + (Z.log2 q - 52)) with (Z.log2 q) by lia.
  now apply Z.log2_spec.
Qed.

Lemma cexp_small (q : Z) : q < 2 ^ 53 * unit_of (cexp q).
Proof.
  destruct (Z.le_gt_cases q 0) as [Hq|Hq].
  - pose proof (unit_of_pos (cexp q) (cexp_B q)). nia.
  - unfold unit_of. rewrite <- Z.pow_add_r by (pose proof (cexp_B q); lia).
    apply Z.lt_le_trans with (2 ^ Z.succ (Z.log2 q)).
    + now apply Z.log2_spec.
    + apply Z.pow_le_mono_r; [lia|]. unfold cexp. lia.
Qed.

Theorem RND_mono (n1 d1 n2 d2 : Z) :
  0 <= n1 -> 0 < d1 -> 0 < d2 -> n1 * d2 <= n2 * d1 -> RND n1 d1 <= RND n2 d2.
Proof.
  intros Hn1 H1 H2 H.
  pose proof (div_floor_mono n1 d1 n2 d2 H1 H2 H) as Hq.
  pose proof (cexp_mono _ _ Hq) as He.
  unfold RND. cbv zeta.
  set (e1 := cexp (n1 / d1)) in *. set (e2 := cexp (n2 / d2)) in *.
  pose proof (cexp_B (n1 / d1)) as B1. fold e1 in B1.
  pose proof (cexp_B (n2 / d2)) as B2. fold e2 in B2.
  pose proof (unit_of_pos e1 B1) as U1. pose proof (unit_of_pos e2 B2) as U2.
  destruct (Z.eq_dec e1 e2) as [E|NE].
  - rewrite <- E. apply Z.mul_le_mono_nonneg_r; [lia|].
    apply rne_mono; nia.
  - (* the binade of the second value starts at [T] *)
    assert (Hlt : e1 < e2) by lia.
    assert (Hq2 : 0 < n2 / d2).
    { destruct (Z.le_gt_cases (n2 / d2) 0) as [Hle|]; [|assumption].
      assert (n1 / d1 <= 0) by lia.
      assert (Z.log2 (n2 / d2) = 0) by (apply Z.log2_nonpos; lia).
      assert (Z.log2 (n1 / d1) = 0) by (apply Z.log2_nonpos; lia).
      unfold e1, e2, cexp in *. lia. }
    pose proof (cexp_ge (n1 / d1)) as G1. fold e1 in G1.
    assert (G2 : -1074 < cexp (n2 / d2)) by (fold e2; lia).
    pose proof (cexp_big (n2 / d2) Hq2 G2) as Hbig. fold e2 in Hbig.
    pose proof (cexp_small (n1 / d1)) as Hsmall. fold e1 in Hsmall.
    set (T := 2 ^ 52 * unit_of e2) in *.
    apply Z.le_trans with T.
    + (* the first value rounds to at most T *)
      assert (ET : T = 2 ^ 52 * 2 ^ (e2 - e1) * unit_of e1).
      { unfold T. rewrite (unit_of_split e1 e2) by lia. ring. }
      set (t := 2 ^ 52 * 2 ^ (e2 - e1)) in *.
      assert (Ht : 2 ^ 53 <= t).
      { unfold t. change (2 ^ 53) with (2 ^ 52 * 2 ^ 1).
        apply Z.mul_le_mono_nonneg_l; [lia|]. apply Z.pow_le_mono_r; lia. }
      rewrite ET. apply Z.mul_le_mono_nonneg_r; [lia|].
      pose proof (rne_bounds n1 (d1 * unit_of e1) ltac:(nia)) as [_ Hb].
      assert (n1 / (d1 * unit_of e1) < 2 ^ 53).
      { rewrite <- Z.div_div by lia.
        apply Z.div_lt_upper_bound; lia. }
      lia.
    + (* the second value rounds to at least T *)
      unfold T. apply Z.mul_le_mono_nonneg_r; [lia|].
      pose proof (rne_bounds n2 (d2 * unit_of e2) ltac:(nia)) as [Hb _].
      assert (2 ^ 52 <= n2 / (d2 * unit_of e2)).
      { rewrite <- Z.div_div by lia.
        apply Z.div_le_lower_bound; lia. }
      lia.
Qed.

(** A value is representable when it is a multiple of the unit of its
    exponent. *)
Definition representable (V : Z) : Prop :=
  0 <= V /\ V mod unit_of (cexp V) = 0.

Theorem RND_exact (V d : Z) : representable V -> 0 < d -> RND (V * d) d = V.
Proof.
  intros [HV Hmod] Hd. unfold RND. cbv zeta. rewrite Z.div_mul by lia.
  pose proof (unit_of_pos (cexp V) (cexp_B V)) as HU.
  set (U := unit_of (cexp V)) in *.
  assert (EV : V = V / U * U).
  { pose proof (Z.div_mod V U ltac:(lia)). lia. }
  unfold rne.
  assert (Eq : V * d / (d * U) = V / U).
  { rewrite EV at 1. replace (V / U * U * d) with (V / U * (d * U)) by ring.
    apply Z.div_mul. nia. }
  assert (Er : (V * d) mod (d * U) = 0).
  { rewrite EV at 1. replace (V / U * U * d) with (V / U * (d * U)) by ring.
    apply Z.mod_mul. nia. }
  rewrite Eq, Er. cbn [Z.mul].
  destruct (Z.compare_spec 0 (d * U)); nia.
Qed.

Theorem RND_representable (n d : Z) : 0 <= n -> 0 < d -> representable (RND n d).
Proof.
  intros Hn Hd. unfold RND. cbv zeta.
  set (e := cexp (n / d)).
  pose proof (cexp_B (n / d)) as HB. fold e in HB.
  pose proof (unit_of_pos e HB) as HU.
  pose proof (rne_bounds n (d * unit_of e) ltac:(nia)) as [Hb1 Hb2].
  assert (Hq : 0 <= n / (d * unit_of e)) by (apply Z.div_pos; nia).
  set (R := rne n (d * unit_of e)) in *.
  split; [nia|].
  (* the result has the exponent [e], or the next one when it is [2^53] units *)
  assert (Hn' : n / d < 2 ^ 53 * unit_of e) by apply cexp_small.
  assert (HR : R <= 2 ^ 53).
  { assert (n / (d * unit_of e) < 2 ^ 53).
    { rewrite <- Z.div_div by lia. apply Z.div_lt_upper_bound; lia. }
    lia. }
  assert (Hce : cexp (R * unit_of e) <= e + 1).
  { destruct (Z.eq_dec R 0) as [->|Rn0].
    - cbn [Z.mul]. unfold cexp. change (Z.log2 0) with 0.
      pose proof (cexp_ge (n / d)) as G. fold e in G. unfold B. lia.
    - unfold cexp, unit_of. rewrite Z.log2_mul_pow2 by lia.
      assert (Hl : Z.log2 R <= 53).
      { pose proof (Z.log2_le_mono R (2 ^ 53) HR) as Hl.
        rewrite Z.log2_pow2 in Hl by lia. exact Hl. }
      pose proof (cexp_ge (n / d)) as G. fold e in G. lia. }
  destruct (Z.eq_dec R (2 ^ 53)) as [Rmax|Rlt].
  - assert (Ece : cexp (R * unit_of e) = e + 1).
    { unfold cexp, unit_of. rewrite Z.log2_mul_pow2 by lia.
      rewrite Rmax, Z.log2_pow2 by lia.
      pose proof (cexp_ge (n / d)) as G. fold e in G. lia. }
    rewrite Ece, (unit_of_succ e HB), Rmax.
    change (2 ^ 53) with (2 ^ 52 * 2).
    replace (2 ^ 52 * 2 * unit_of e) with (2 ^ 52 * (2 * unit_of e)) by ring.
    apply Z.mod_mul. lia.
  - assert (Ece : cexp (R * unit_of e) <= e).
    { destruct (Z.eq_dec R 0) as [->|Rn0].
      - cbn [Z.mul]. unfold cexp. change (Z.log2 0) with 0.
        pose proof (cexp_ge (n / d)) as G. fold e in G. unfold B. lia.
      - unfold cexp, unit_of. rewrite Z.log2_mul_pow2 by lia.
        assert (Z.log2 R < 53) by (apply log2_lt_pow2_le; lia).
        pose proof (cexp_ge (n / d)) as G. fold e in G. lia. }
    pose proof (cexp_B (R * unit_of e)) as HB'.
    set (c' := cexp (R * unit_of e)) in *.
    rewrite (unit_of_split c' e) by lia.
    rewrite Z.mul_assoc. apply Z.mod_mul.
    pose proof (unit_of_pos c' HB'). lia.
Qed.

(** ** Doubles as exact values *)

(** The value of the finite double of mantissa [m] and exponent [e], in
    units. *)
Definition val (m : positive) (e : Z) : Z := Zpos m * unit_of e.

(** The magnitude of a double, plus infinity counting for the first power of
    two out of range. *)
Definition TOP : Z := unit_of 1024.

Definition ev (x : spec_float) : Z :=
  match x with
  | S754_finite _ m e => val m e
  | S754_infinity _ => TOP
  | _ => 0
  end.

(** A double that is not a NaN and not negative. *)
Definition nn (x : spec_float) : Prop :=
  sf_nonneg x = true /\ valid_binary x = true.

Lemma bounded_inv (m : positive) (e : Z) :
  bounded prec emax m e = true ->
  -1074 <= e <= 971 /\ cexp (val m e) = e.
Proof.
  unfold bounded, canonical_mantissa. intros H.
  apply andb_prop in H as [H1 H2]. apply Z.eqb_eq in H1. apply Z.leb_le in H2.
  change (emax - prec) with 971 in H2.
  assert (He : -1074 <= e).
  { rewrite <- H1. unfold fexp. change (SpecFloat.emin prec emax) with (-1074). lia. }
  split; [lia|].
  assert (HB : 0 <= e + B) by (unfold B; lia).
  pose proof (unit_of_pos e HB) as HU.
  transitivity (fexp prec emax (Zdigits2 (Zpos m) + e)); [|exact H1].
  apply fexp_cexp; [lia|exact HB|]. unfold val. lia.
Qed.

Lemma bounded_digits (m : positive) (e : Z) :
  bounded prec emax m e = true ->
  Zpos (digits2_pos m) <= 53 /\ (e = -1074 \/ Zpos (digits2_pos m) = 53).
Proof.
  unfold bounded, canonical_mantissa. intros H.
  apply andb_prop in H as [H1 H2]. apply Z.eqb_eq in H1.
  unfold fexp in H1. change (SpecFloat.emin prec emax) with (-1074) in H1.
  change prec with 53 in H1. lia.
Qed.

Lemma val_pos (m : positive) (e : Z) : 0 <= e + B -> 0 < val m e.
Proof. intros H. pose proof (unit_of_pos e H). unfold val. lia. Qed.

Lemma bounded_val_pos (m : positive) (e : Z) :
  bounded prec emax m e = true -> 0 < val m e.
Proof.
  intros H. destruct (bounded_inv m e H) as [He _]. apply val_pos. unfold B. lia.
Qed.

Lemma bounded_representable (m : positive) (e : Z) :
  bounded prec emax m e = true -> representable (val m e).
Proof.
  intros H. pose proof (bounded_val_pos m e H).
  destruct (bounded_inv m e H) as [He Ec]. split; [lia|].
  rewrite Ec. unfold val. apply Z.mod_mul.
  pose proof (unit_of_pos e ltac:(unfold B; lia)). lia.
Qed.

Lemma inject_val (s : bool) (m : positive) (e : Z) :
  bounded prec emax m e = true -> inject s (val m e) = S754_finite s m e.
Proof.
  intros H. pose proof (bounded_val_pos m e H) as Hp.
  destruct (bounded_inv m e H) as [He Ec].
  pose proof (unit_of_pos e ltac:(unfold B; lia)) as HU.
  unfold inject. destruct (Z.eqb_spec (val m e) 0) as [E0|_]; [lia|].
  cbv zeta. rewrite Ec.
  destruct (Z.leb_spec e 971) as [_|Hgt]; [|lia].
  unfold val. rewrite Z.div_mul by lia. reflexivity.
Qed.

Lemma TOP_eq : TOP = 2 ^ 53 * unit_of 971.
Proof.
  unfold TOP. rewrite (unit_of_split 971 1024) by (unfold B; lia). reflexivity.
Qed.

Lemma bounded_lt_TOP (m : positive) (e : Z) :
  bounded prec emax m e = true -> val m e < TOP.
Proof.
  intros H. destruct (bounded_inv m e H) as [He Ec].
  pose proof (cexp_small (val m e)) as Hs. rewrite Ec in Hs.
  rewrite TOP_eq.
  pose proof (unit_of_le e 971 ltac:(unfold B; lia) ltac:(lia)).
  pose proof (unit_of_pos e ltac:(unfold B; lia)). nia.
Qed.

Lemma representable_0 : representable 0.
Proof. split; [lia|]. apply Z.mod_0_l. pose proof (unit_of_pos _ (cexp_B 0)). lia. Qed.

Lemma TOP_pos : 0 < TOP.
Proof. apply unit_of_pos. unfold B. lia. Qed.

Lemma cexp_unit (e : Z) : -1022 <= e -> cexp (unit_of e) = e - 52.
Proof.
  intros H. unfold cexp, unit_of. rewrite Z.log2_pow2 by (unfold B; lia). lia.
Qed.

Lemma representable_TOP : representable TOP.
Proof.
  split; [pose proof TOP_pos; lia|].
  unfold TOP. rewrite cexp_unit by lia.
  rewrite (unit_of_split (1024 - 52) 1024) by (unfold B; lia).
  apply Z.mod_mul. pose proof (unit_of_pos (1024 - 52) ltac:(unfold B; lia)). lia.
Qed.

(** The magnitude of the double a representable value injects to. *)
Lemma ev_inject (s : bool) (V : Z) :
  representable V -> ev (inject s V) = Z.min V TOP.
Proof.
  intros [HV Hmod]. pose proof TOP_pos as HT.
  unfold inject. destruct (Z.eqb_spec V 0) as [->|Hn0]; [cbn [ev]; lia|].
  cbv zeta. pose proof (unit_of_pos _ (cexp_B V)) as HU.
  assert (EV : V = V / unit_of (cexp V) * unit_of (cexp V)).
  { pose proof (Z.div_mod V (unit_of (cexp V)) ltac:(lia)). lia. }
  destruct (Z.leb_spec (cexp V) 971) as [Hle|Hgt].
  - cbn [ev]. unfold val.
    assert (0 < V / unit_of (cexp V)) by nia.
    rewrite Z2Pos.id by assumption. rewrite <- EV.
    pose proof (cexp_small V) as Hs. rewrite TOP_eq.
    pose proof (unit_of_le (cexp V) 971 (cexp_B V) Hle). nia.
  - cbn [ev]. pose proof (cexp_big V ltac:(lia) ltac:(lia)) as Hb.
    rewrite TOP_eq.
    pose proof (unit_of_split 971 (cexp V) ltac:(unfold B; lia) ltac:(lia)) as Es.
    assert (2 <= 2 ^ (cexp V - 971)).
    { change 2 with (2 ^ 1) at 1. apply Z.pow_le_mono_r; lia. }
    pose proof (unit_of_pos 971 ltac:(unfold B; lia)).
    assert (2 ^ 53 * unit_of 971 <= V).
    { rewrite Es in Hb. change (2 ^ 53) with (2 ^ 52 * 2). nia. }
    lia.
Qed.

Lemma inject_nonneg (V : Z) : sf_nonneg (inject false V) = true.
Proof.
  unfold inject. destruct (V =? 0); [reflexivity|]. cbv zeta.
  destruct (cexp V <=? 971); reflexivity.
Qed.

Lemma inject_valid (s : bool) (V : Z) :
  representable V -> valid_binary (inject s V) = true.
Proof.
  intros [HV Hmod]. unfold inject.
  destruct (Z.eqb_spec V 0) as [->|Hn0]; [reflexivity|]. cbv zeta.
  pose proof (unit_of_pos _ (cexp_B V)) as HU.
  assert (EV : V = V / unit_of (cexp V) * unit_of (cexp V)).
  { pose proof (Z.div_mod V (unit_of (cexp V)) ltac:(lia)). lia. }
  destruct (Z.leb_spec (cexp V) 971) as [Hle|Hgt]; [|reflexivity].
  cbn [valid_binary]. unfold bounded, canonical_mantissa.
  apply andb_true_intro. split; [|apply Z.leb_le; exact Hle].
  apply Z.eqb_eq.
  assert (Hq : 0 < V / unit_of (cexp V)) by nia.
  pose proof (fexp_cexp (V / unit_of (cexp V)) (cexp V) V Hq (cexp_B V) ltac:(lia)) as F.
  destruct (V / unit_of (cexp V)) as [|p|p]; try lia.
  symmetry. exact F.
Qed.

Lemma inject_nn (V : Z) : representable V -> nn (inject false V).
Proof. intros H. split; [apply inject_nonneg|now apply inject_valid]. Qed.

(** ** Order *)

Lemma SFcompare_ev (x y : spec_float) :
  nn x -> nn y -> SFcompare x y = Some (ev x ?= ev y).
Proof.
  intros [Hx Vx] [Hy Vy]. pose proof TOP_pos as HT.
  destruct x as [sx|sx| |sx mx ex], y as [sy|sy| |sy my ey];
    try discriminate; cbn [ev SFcompare valid_binary sf_nonneg] in *;
    try (destruct sx; try discriminate); try (destruct sy; try discriminate);
    try reflexivity;
    try (rewrite Z.compare_refl; reflexivity);
    try (pose proof (bounded_val_pos _ _ Vx)); try (pose proof (bounded_val_pos _ _ Vy));
    try (pose proof (bounded_lt_TOP _ _ Vx)); try (pose proof (bounded_lt_TOP _ _ Vy));
    try (f_equal; symmetry; apply Z.compare_lt_iff; lia);
    try (f_equal; symmetry; apply Z.compare_gt_iff; lia).
  f_equal.
  destruct (bounded_inv _ _ Vx) as [Hex Ecx]. destruct (bounded_inv _ _ Vy) as [Hey Ecy].
  pose proof (unit_of_pos ex ltac:(unfold B; lia)) as HUx.
  pose proof (unit_of_pos ey ltac:(unfold B; lia)) as HUy.
  change (Pos.compare_cont Eq mx my) with (Pos.compare mx my).
  destruct (Z.compare_spec ex ey) as [E|L|G].
  - subst ey. unfold val. destruct (Pos.compare_spec mx my) as [E|L|G]; symmetry.
    + subst my. apply Z.compare_refl.
    + apply Z.compare_lt_iff. nia.
    + apply Z.compare_gt_iff. nia.
  - symmetry. apply Z.compare_lt_iff.
    pose proof (cexp_small (val mx ex)) as Hs. rewrite Ecx in Hs.
    pose proof (cexp_big (val my ey) ltac:(lia) ltac:(lia)) as Hb. rewrite Ecy in Hb.
    pose proof (unit_of_split ex ey ltac:(unfold B; lia) ltac:(lia)) as Es.
    assert (2 <= 2 ^ (ey - ex)).
    { change 2 with (2 ^ 1) at 1. apply Z.pow_le_mono_r; lia. }
    change (2 ^ 53) with (2 ^ 52 * 2) in Hs. nia.
  - symmetry. apply Z.compare_gt_iff.
    pose proof (cexp_small (val my ey)) as Hs. rewrite Ecy in Hs.
    pose proof (cexp_big (val mx ex) ltac:(lia) ltac:(lia)) as Hb. rewrite Ecx in Hb.
    pose proof (unit_of_split ey ex ltac:(unfold B; lia) ltac:(lia)) as Es.
    assert (2 <= 2 ^ (ex - ey)).
    { change 2 with (2 ^ 1) at 1. apply Z.pow_le_mono_r; lia. }
    change (2 ^ 53) with (2 ^ 52 * 2) in Hs. nia.
Qed.

Lemma SFleb_ev (x y : spec_float) :
  nn x -> nn y -> SFleb x y = (ev x <=? ev y).
Proof.
  intros Hx Hy. unfold SFleb. rewrite (SFcompare_ev x y Hx Hy).
  unfold Z.leb. destruct (ev x ?= ev y); reflexivity.
Qed.

Lemma SFltb_ev (x y : spec_float) :
  nn x -> nn y -> SFltb x y = (ev x <? ev y).
Proof.
  intros Hx Hy. unfold SFltb. rewrite (SFcompare_ev x y Hx Hy).
  unfold Z.ltb. destruct (ev x ?= ev y); reflexivity.
Qed.

(** ** The operations on exact values *)

Lemma pos_iter_xO (m d : positive) : Zpos (Pos.iter xO m d) = Zpos m * 2 ^ Zpos d.
Proof.
  induction d as [|d IH] using Pos.peano_ind.
  - cbn [Pos.iter]. rewrite Pos2Z.inj_xO. change (2 ^ 1) with 2. lia.
  - rewrite Pos.iter_succ, Pos2Z.inj_xO, IH, Pos2Z.inj_succ, Z.pow_succ_r by lia. ring.
Qed.

Lemma shl_align_spec (m : positive) (e e' : Z) :
  snd (shl_align m e e') = Z.min e e'
  /\ Zpos (fst (shl_align m e e')) = Zpos m * 2 ^ (e - Z.min e e').
Proof.
  unfold shl_align. destruct (e' - e) as [|d|d] eqn:E; cbn [fst snd].
  - replace (Z.min e e') with e by lia. rewrite Z.sub_diag. split; [reflexivity|]. cbn. lia.
  - replace (Z.min e e') with e by lia. rewrite Z.sub_diag. split; [reflexivity|]. cbn. lia.
  - replace (Z.min e e') with e' by lia. split; [reflexivity|].
    rewrite pos_iter_xO. f_equal. f_equal. lia.
Qed.

Lemma shl_align_val (m : positive) (e e' : Z) :
  0 <= Z.min e e' + B ->
  val (fst (shl_align m e e')) (Z.min e e') = val m e.
Proof.
  intros H. destruct (shl_align_spec m e e') as [_ E]. unfold val. rewrite E.
  rewrite (unit_of_split (Z.min e e') e H ltac:(lia)). ring.
Qed.

Lemma RND1_exact (V : Z) : representable V -> RND V 1 = V.
Proof. intros H. rewrite <- (Z.mul_1_r V) at 1. apply RND_exact; [exact H|lia]. Qed.

Lemma RND1_mono (a b : Z) : 0 <= a -> a <= b -> RND a 1 <= RND b 1.
Proof. intros Ha H. apply RND_mono; lia. Qed.

(** [binary_round] is the rounding of the value it is given. *)
Lemma binary_round_correct (s : bool) (m : positive) (e : Z) :
  0 <= e + B -> binary_round prec emax s m e = inject s (RND (val m e) 1).
Proof.
  intros He. unfold binary_round.
  set (f := fexp prec emax (Zpos (digits2_pos m) + e)).
  assert (Hf : -1074 <= f).
  { unfold f, fexp. change (SpecFloat.emin prec emax) with (-1074). lia. }
  destruct (shl_align_spec m e f) as [E2 E1].
  pose proof (shl_align_val m e f ltac:(unfold B in *; lia)) as EV.
  destruct (shl_align m e f) as [mz ez]. cbn [fst snd] in *. subst ez.
  assert (HB : 0 <= Z.min e f + B) by (unfold B in *; lia).
  apply binary_round_aux_correct; [lia|lia|exact HB|lia| |].
  - (* the exponent is not above the one of the result *)
    cbn [Zdigits2]. rewrite digits2_pos_log2, E1.
    rewrite Z.log2_mul_pow2 by lia.
    match goal with
    | |- _ <= fexp _ _ ?x =>
        replace x with (Zpos (digits2_pos m) + e) by (rewrite digits2_pos_log2; lia)
    end.
    apply Z.le_min_r.
  - cbn [located]. unfold val in *. lia.
Qed.

Lemma binary_normalize_correct (z e : Z) :
  0 <= z -> 0 <= e + B ->
  binary_normalize prec emax z e false = inject false (RND (z * unit_of e) 1).
Proof.
  intros Hz He. destruct z as [|p|p]; try lia; cbn [binary_normalize].
  - cbn [Z.mul]. rewrite (RND1_exact 0 representable_0). reflexivity.
  - apply binary_round_correct. exact He.
Qed.

Lemma nn_finite (m : positive) (e : Z) :
  nn (S754_finite false m e) -> bounded prec emax m e = true.
Proof. intros [_ H]. exact H. Qed.

Lemma RND1_TOP (n : Z) : TOP <= n -> TOP <= RND n 1.
Proof.
  intros H. rewrite <- (RND1_exact TOP representable_TOP) at 1.
  apply RND1_mono; [pose proof TOP_pos; lia|exact H].
Qed.

(** The sum of two doubles that are not negative is the rounding of the sum
    of their values. *)
Lemma SFadd_nn (x y : spec_float) :
  nn x -> nn y ->
  nn (SFadd prec emax x y)
  /\ ev (SFadd prec emax x y) = Z.min (RND (ev x + ev y) 1) TOP.
Proof.
  intros Hx Hy. pose proof TOP_pos as HT.
  destruct x as [sx|sx| |sx mx ex];
    try (destruct Hx as [Hx _]; discriminate Hx).
  - (* zero *)
    destruct y as [sy|sy| |sy my ey];
      try (destruct Hy as [Hy _]; discriminate Hy).
    + cbn [ev Z.add]. rewrite (RND1_exact 0 representable_0).
      split; [|destruct sx, sy; cbn; lia].
      destruct sx, sy; split; reflexivity.
    + destruct sy; [destruct Hy as [Hy _]; discriminate Hy|].
      cbn [SFadd ev Z.add]. split; [exact Hy|].
      rewrite (RND1_exact TOP representable_TOP). lia.
    + destruct sy; [destruct Hy as [Hy _]; discriminate Hy|].
      cbn [SFadd ev Z.add]. split; [exact Hy|].
      pose proof (nn_finite _ _ Hy) as Vy.
      rewrite (RND1_exact _ (bounded_representable _ _ Vy)).
      pose proof (bounded_lt_TOP _ _ Vy). lia.
  - (* infinity *)
    destruct sx; [destruct Hx as [Hx _]; discriminate Hx|].
    assert (forall v, 0 <= v -> TOP = Z.min (RND (TOP + v) 1) TOP) as Ht.
    { intros v Hv. pose proof (RND1_TOP (TOP + v) ltac:(lia)). lia. }
    destruct y as [sy|sy| |sy my ey];
      try (destruct Hy as [Hy _]; discriminate Hy).
    + cbn [SFadd ev]. split; [exact Hx|]. apply Ht. lia.
    + destruct sy; [destruct Hy as [Hy _]; discriminate Hy|].
      cbn [SFadd ev]. split; [exact Hx|]. apply Ht. lia.
    + destruct sy; [destruct Hy as [Hy _]; discriminate Hy|].
      cbn [SFadd ev]. split; [exact Hx|]. apply Ht.
      pose proof (bounded_val_pos _ _ (nn_finite _ _ Hy)). lia.
  - (* a positive number *)
    destruct sx; [destruct Hx as [Hx _]; discriminate Hx|].
    pose proof (nn_finite _ _ Hx) as Vx.
    pose proof (bounded_val_pos _ _ Vx) as Px.
    destruct y as [sy|sy| |sy my ey];
      try (destruct Hy as [Hy _]; discriminate Hy).
    + cbn [SFadd ev]. split; [exact Hx|]. rewrite Z.add_0_r.
      rewrite (RND1_exact _ (bounded_representable _ _ Vx)).
      pose proof (bounded_lt_TOP _ _ Vx). lia.
    + destruct sy; [destruct Hy as [Hy _]; discriminate Hy|].
      cbn [SFadd ev]. split; [exact Hy|].
      pose proof (RND1_TOP (val mx ex + TOP) ltac:(lia)). lia.
    + destruct sy; [destruct Hy as [Hy _]; discriminate Hy|].
      pose proof (nn_finite _ _ Hy) as Vy.
      pose proof (bounded_val_pos _ _ Vy) as Py.
      destruct (bounded_inv _ _ Vx) as [Hex _]. destruct (bounded_inv _ _ Vy) as [Hey _].
      cbn [SFadd ev cond_Zopp].
      set (ez := Z.min ex ey).
      assert (HB : 0 <= ez + B) by (unfold ez, B; lia).
      pose proof (shl_align_val mx ex ez) as E1.
      pose proof (shl_align_val my ey ez) as E2.
      replace (Z.min ex ez) with ez in E1 by (unfold ez; lia).
      replace (Z.min ey ez) with ez in E2 by (unfold ez; lia).
      specialize (E1 HB). specialize (E2 HB).
      rewrite binary_normalize_correct by (try exact HB; lia).
      replace ((Zpos (fst (shl_align mx ex ez)) + Zpos (fst (shl_align my ey ez)))
               * unit_of ez) with (val mx ex + val my ey)
        by (rewrite <- E1, <- E2; unfold val; ring).
      assert (R : representable (RND (val mx ex + val my ey) 1))
        by (apply RND_representable; lia).
      split; [apply inject_nn; exact R|apply ev_inject; exact R].
Qed.

Lemma fexp_mono (a b : Z) : a <= b -> fexp prec emax a <= fexp prec emax b.
Proof. intros H. unfold fexp. lia. Qed.

Lemma fexp_ge (a : Z) : -1074 <= fexp prec emax a.
Proof. unfold fexp. change (SpecFloat.emin prec emax) with (-1074). lia. Qed.

Lemma fexp_eq (a : Z) : fexp prec emax a = Z.max (a - 53) (-1074).
Proof. reflexivity. Qed.

Lemma Zdigits2_log2 (q : Z) : 0 < q -> Zdigits2 q = Z.log2 q + 1.
Proof. intros H. destruct q as [|p|p]; try lia. cbn [Zdigits2]. apply digits2_pos_log2. Qed.

Lemma Zdigits2_nonneg (q : Z) : 0 <= Zdigits2 q.
Proof. destruct q; cbn [Zdigits2]; lia. Qed.

(** The product of two finite doubles is the rounding of the product of
    their values. *)
Lemma SFmul_finite (s1 s2 : bool) (m1 m2 : positive) (e1 e2 : Z) :
  bounded prec emax m1 e1 = true -> bounded prec emax m2 e2 = true ->
  SFmul prec emax (S754_finite s1 m1 e1) (S754_finite s2 m2 e2)
  = inject (xorb s1 s2) (RND (val m1 e1 * val m2 e2) (unit_of 0)).
Proof.
  intros V1 V2. cbn [SFmul].
  destruct (bounded_inv _ _ V1) as [He1 _]. destruct (bounded_inv _ _ V2) as [He2 _].
  destruct (bounded_digits _ _ V1) as [D1 D1']. destruct (bounded_digits _ _ V2) as [D2 D2'].
  pose proof (unit_of_pos 0 ltac:(unfold B; lia)) as HU0.
  apply binary_round_aux_correct; [lia|lia|unfold B; lia|exact HU0| |].
  - cbn [Zdigits2]. rewrite digits2_pos_log2, Pos2Z.inj_mul.
    rewrite digits2_pos_log2 in D1, D1', D2, D2'.
    pose proof (Z.log2_mul_below (Zpos m1) (Zpos m2) ltac:(lia) ltac:(lia)) as Hl.
    pose proof (Z.log2_nonneg (Zpos m1)). pose proof (Z.log2_nonneg (Zpos m2)).
    rewrite fexp_eq. lia.
  - cbn [located]. unfold val. rewrite Pos2Z.inj_mul.
    assert (E : unit_of e1 * unit_of e2 = unit_of (e1 + e2) * unit_of 0).
    { unfold unit_of. rewrite <- !Z.pow_add_r by (unfold B; lia). f_equal. lia. }
    transitivity (Zpos m1 * Zpos m2 * (unit_of e1 * unit_of e2)); [ring|].
    rewrite E. ring.
Qed.

Lemma new_location_spec (m2 r : Z) :
  0 < m2 -> 0 <= r < m2 ->
  new_location m2 r = if r =? 0 then loc_Exact else loc_Inexact (2 * r ?= m2).
Proof.
  intros Hm Hr. unfold new_location, new_location_even, new_location_odd.
  destruct (Z.even m2) eqn:Ev; [reflexivity|].
  destruct (r =? 0); [reflexivity|]. f_equal.
  assert (Ho : Z.odd m2 = true) by (rewrite <- Z.negb_even, Ev; reflexivity).
  apply Z.odd_spec in Ho. destruct Ho as [k Hk].
  destruct (Z.compare_spec (2 * r + 1) m2); destruct (Z.compare_spec (2 * r) m2);
    try reflexivity; lia.
Qed.

(** The quotient of two finite doubles is the rounding of the quotient of
    their values. *)
Lemma SFdiv_finite (s1 s2 : bool) (m1 m2 : positive) (e1 e2 : Z) :
  bounded prec emax m1 e1 = true -> bounded prec emax m2 e2 = true ->
  SFdiv prec emax (S754_finite s1 m1 e1) (S754_finite s2 m2 e2)
  = inject (xorb s1 s2) (RND (val m1 e1 * unit_of 0) (val m2 e2)).
Proof.
  intros V1 V2. cbn [SFdiv]. unfold SFdiv_core_binary.
  destruct (bounded_inv _ _ V1) as [He1 _]. destruct (bounded_inv _ _ V2) as [He2 _].
  destruct (bounded_digits _ _ V1) as [D1 D1']. destruct (bounded_digits _ _ V2) as [D2 D2'].
  pose proof (bounded_val_pos _ _ V2) as Pv2.
  cbn [Zdigits2].
  set (d1 := Zpos (digits2_pos m1)) in *. set (d2 := Zpos (digits2_pos m2)) in *.
  set (e' := Z.min (fexp prec emax (d1 + e1 - (d2 + e2))) (e1 - e2)).
  set (s := e1 - e2 - e').
  assert (Hs : 0 <= s) by (unfold s, e'; lia).
  pose proof (fexp_ge (d1 + e1 - (d2 + e2))) as Hf.
  assert (He' : -2045 <= e') by (unfold e'; lia).
  set (m' := match s with Zpos _ => Z.shiftl (Zpos m1) s | Z0 => Zpos m1 | Zneg _ => 0 end).
  assert (Em' : m' = Zpos m1 * 2 ^ s).
  { unfold m'. destruct s as [|p|p] eqn:Es; try lia.
    apply Z.shiftl_mul_pow2. lia. }
  pose proof (Z.div_eucl_eq m' (Zpos m2) ltac:(lia)) as Hqr.
  pose proof (Z.mod_pos_bound m' (Zpos m2) ltac:(lia)) as Hr.
  unfold Z.modulo in Hr.
  assert (Hq : fst (Z.div_eucl m' (Zpos m2)) = m' / Zpos m2) by reflexivity.
  destruct (Z.div_eucl m' (Zpos m2)) as [q r]. cbn [fst] in Hq.
  assert (P2s : 0 < 2 ^ s) by (apply Z.pow_pos_nonneg; lia).
  assert (Hm' : 0 < m') by nia.
  assert (Hq0 : 0 <= q) by (rewrite Hq; apply Z.div_pos; lia).
  (* the number of digits of the quotient *)
  assert (L1 : 2 ^ (d1 - 1) <= Zpos m1 < 2 ^ d1).
  { unfold d1. rewrite digits2_pos_log2.
    replace (Z.log2 (Zpos m1) + 1 - 1) with (Z.log2 (Zpos m1)) by lia.
    apply Z.log2_spec. lia. }
  assert (L2 : 2 ^ (d2 - 1) <= Zpos m2 < 2 ^ d2).
  { unfold d2. rewrite digits2_pos_log2.
    replace (Z.log2 (Zpos m2) + 1 - 1) with (Z.log2 (Zpos m2)) by lia.
    apply Z.log2_spec. lia. }
  assert (Hd1 : 1 <= d1) by (unfold d1; lia).
  assert (Hd2 : 1 <= d2) by (unfold d2; lia).
  assert (Hdq : d1 + s - d2 <= Zdigits2 q).
  { pose proof (Zdigits2_nonneg q).
    destruct (Z.le_gt_cases (d1 + s - d2) 0) as [|Hk]; [lia|].
    assert (Hq2 : 2 ^ (d1 + s - d2 - 1) <= q).
    { rewrite Hq. apply Z.div_le_lower_bound; [lia|].
      apply Z.le_trans with (2 ^ d2 * 2 ^ (d1 + s - d2 - 1)).
      - apply Z.mul_le_mono_nonneg_r; [apply Z.pow_nonneg|]; lia.
      - rewrite <- Z.pow_add_r by lia.
        replace (d2 + (d1 + s - d2 - 1)) with ((d1 - 1) + s) by lia.
        rewrite Z.pow_add_r by lia. rewrite Em'.
        apply Z.mul_le_mono_nonneg_r; lia. }
    assert (0 < q).
    { eapply Z.lt_le_trans; [|exact Hq2]. apply Z.pow_pos_nonneg; lia. }
    rewrite Zdigits2_log2 by assumption.
    pose proof (Z.log2_le_pow2 q (d1 + s - d2 - 1) ltac:(lia)) as [Hl _].
    specialize (Hl Hq2). lia. }
  pose proof (unit_of_pos e2 ltac:(unfold B; lia)) as HU2.
  pose proof (unit_of_pos e' ltac:(unfold B; lia)) as HU'.
  apply binary_round_aux_correct; [exact Hq0| |unfold B; lia|exact Pv2| |].
  - (* a quotient 0 is below the subnormal exponent *)
    intros ->. cbn [Zdigits2] in Hdq.
    destruct (Z.le_gt_cases e' (-1074)) as [|Hgt]; [assumption|exfalso].
    subst s. subst e'. rewrite fexp_eq in *. lia.
  - apply Z.le_trans with (fexp prec emax (d1 + e1 - (d2 + e2))); [unfold e'; lia|].
    apply fexp_mono. unfold s in Hdq. lia.
  - (* the place of the exact quotient *)
    rewrite (new_location_spec (Zpos m2) r ltac:(lia) Hr).
    assert (EK : unit_of e1 * unit_of 0 = 2 ^ s * (unit_of e2 * unit_of e')).
    { unfold unit_of. rewrite <- !Z.pow_add_r by (unfold B; lia). f_equal.
      unfold s. lia. }
    set (K := unit_of e2 * unit_of e') in *.
    assert (HK : 0 < K) by (unfold K; nia).
    assert (En : val m1 e1 * unit_of 0 = (Zpos m2 * q + r) * K).
    { unfold val. rewrite <- Hqr, Em'. rewrite <- Z.mul_assoc, EK. ring. }
    assert (Ed : q * unit_of e' * val m2 e2 = Zpos m2 * q * K).
    { unfold val, K. ring. }
    assert (Eu : unit_of e' * val m2 e2 = Zpos m2 * K).
    { unfold val, K. ring. }
    destruct (Z.eqb_spec r 0) as [R0|Rn0]; cbn [located].
    + rewrite En, Ed, R0. ring.
    + rewrite En. split; [split|].
      * rewrite Ed. nia.
      * replace ((q * unit_of e' + unit_of e') * val m2 e2)
          with (Zpos m2 * q * K + Zpos m2 * K) by (rewrite <- Ed, <- Eu; ring).
        nia.
      * assert (X : (2 * (q * unit_of e') + unit_of e') * val m2 e2
                    = 2 * (q * unit_of e' * val m2 e2) + unit_of e' * val m2 e2) by ring.
        rewrite X, Ed, Eu.
        destruct (Z.compare_spec (2 * r) (Zpos m2)) as [E|L|G].
        -- apply Z.compare_eq_iff. rewrite <- E. ring.
        -- apply Z.compare_lt_iff. nia.
        -- apply Z.compare_gt_iff. nia.
Qed.

(** The square root of a positive double is the rounding of a value that
    lies in the same interval of units as the exact root: it is not above any
    double the exact root is not above. *)
Lemma SFsqrt_finite_le (m : positive) (e Vr : Z) :
  bounded prec emax m e = true ->
  representable Vr ->
  val m e * unit_of 0 <= Vr * Vr ->
  exists V, SFsqrt prec emax (S754_finite false m e) = inject false V
            /\ representable V /\ V <= Vr.
Proof.
  intros Vm [HVr Hmod] Hle.
  cbn [SFsqrt]. unfold SFsqrt_core_binary.
  destruct (bounded_inv _ _ Vm) as [He _].
  destruct (bounded_digits _ _ Vm) as [D1 _].
  cbn [Zdigits2]. set (d := Zpos (digits2_pos m)) in *.
  assert (Hd1 : 1 <= d) by (unfold d; lia).
  rewrite !Z.div2_div.
  set (e' := Z.min (fexp prec emax ((d + e + 1) / 2)) (e / 2)).
  set (s := e - 2 * e').
  pose proof (Z.div_mod e 2 ltac:(lia)) as De.
  pose proof (Z.mod_pos_bound e 2 ltac:(lia)) as Me.
  pose proof (Z.div_mod (d + e + 1) 2 ltac:(lia)) as Dd.
  pose proof (Z.mod_pos_bound (d + e + 1) 2 ltac:(lia)) as Md.
  assert (Ef : fexp prec emax ((d + e + 1) / 2) = (d + e + 1) / 2 - 53).
  { rewrite fexp_eq. lia. }
  assert (He' : -1074 <= e').
  { pose proof (fexp_ge ((d + e + 1) / 2)). unfold e'. lia. }
  assert (Hs : 105 - d <= s) by (unfold s, e'; lia).
  set (m' := match s with Zpos _ => Z.shiftl (Zpos m) s | Z0 => Zpos m | Zneg _ => 0 end).
  assert (Em' : m' = Zpos m * 2 ^ s).
  { unfold m'. destruct s as [|p|p] eqn:Es; try lia.
    apply Z.shiftl_mul_pow2. lia. }
  assert (L1 : 2 ^ (d - 1) <= Zpos m).
  { unfold d. rewrite digits2_pos_log2.
    replace (Z.log2 (Zpos m) + 1 - 1) with (Z.log2 (Zpos m)) by lia.
    apply Z.log2_spec. lia. }
  assert (Hm' : 2 ^ 104 <= m').
  { rewrite Em'. replace 104 with ((d - 1) + (105 - d)) by lia.
    rewrite Z.pow_add_r by lia.
    apply Z.mul_le_mono_nonneg; [apply Z.pow_nonneg; lia|exact L1|apply Z.pow_nonneg; lia|].
    apply Z.pow_le_mono_r; lia. }
  pose proof (Z.sqrtrem_spec m' ltac:(lia)) as Hsq.
  destruct (Z.sqrtrem m') as [q r]. destruct Hsq as [Eq Hr].
  assert (Hq : 2 ^ 52 <= q).
  { destruct (Z.le_gt_cases (2 ^ 52) q) as [|Hlt]; [assumption|exfalso].
    assert (q + 1 <= 2 ^ 52) by lia.
    assert (Hq0 : 0 <= q) by lia.
    assert ((q + 1) * (q + 1) <= 2 ^ 52 * 2 ^ 52) by (apply Z.mul_le_mono_nonneg; lia).
    change (2 ^ 52 * 2 ^ 52) with (2 ^ 104) in *. lia. }
  assert (HB : 0 <= e' + B) by (unfold B; lia).
  pose proof (unit_of_pos e' HB) as HU.
  set (U := unit_of e') in *.
  (* the value under the root, in square units *)
  assert (EV : val m e * unit_of 0 = m' * (U * U)).
  { unfold val, U, unit_of. rewrite Em'.
    rewrite <- !Z.mul_assoc. f_equal.
    rewrite <- !Z.pow_add_r by (unfold B in *; lia). f_equal. unfold s. lia. }
  (* the proxy of the exact root *)
  set (n' := if r =? 0 then q * U else if r <=? q then (4 * q + 1) * U else (4 * q + 3) * U).
  set (d' := if r =? 0 then 1 else 4).
  set (l := if r =? 0 then loc_Exact else loc_Inexact (if r <=? q then Lt else Gt)).
  assert (Hd' : 0 < d') by (unfold d'; destruct (r =? 0); lia).
  assert (Hn' : 0 <= n').
  { unfold n'. destruct (r =? 0); [|destruct (r <=? q)]; nia. }
  assert (Hloc : located n' d' q e' l).
  { unfold n', d', l. fold U. destruct (r =? 0); cbn [located]; fold U.
    - ring.
    - destruct (r <=? q).
      + split; [nia|]. apply Z.compare_lt_iff. nia.
      + split; [nia|]. apply Z.compare_gt_iff. nia. }
  assert (Hdq : 53 <= Zdigits2 q).
  { rewrite Zdigits2_log2 by lia.
    pose proof (Z.log2_le_pow2 q 52 ltac:(lia)) as [Hl _]. specialize (Hl Hq). lia. }
  exists (RND n' d'). split; [|split].
  - apply binary_round_aux_correct; [lia|lia|exact HB|exact Hd'| |exact Hloc].
    rewrite fexp_eq. lia.
  - apply RND_representable; assumption.
  - (* the bound *)
    rewrite <- (RND_exact Vr d' (conj HVr Hmod) Hd').
    apply RND_mono; [exact Hn'|exact Hd'|exact Hd'|].
    apply Z.mul_le_mono_nonneg_r; [lia|].
    assert (HqU : q * U <= Vr).
    { destruct (Z.le_gt_cases (q * U) Vr) as [|Hgt]; [assumption|exfalso].
      assert (Vr * Vr < (q * U) * (q * U)) by nia.
      assert (q * q * (U * U) <= m' * (U * U)) by nia. nia. }
    unfold n', d'. destruct (Z.eqb_spec r 0) as [R0|Rn0]; [lia|].
    (* the root is inexact: the double is a multiple of the unit, above *)
    assert (HqU' : q * U < Vr).
    { destruct (Z.le_gt_cases Vr (q * U)) as [Hle'|]; [exfalso|assumption].
      assert (Vr * Vr <= (q * U) * (q * U)) by nia.
      assert (q * q * (U * U) < m' * (U * U)) by nia. nia. }
    assert (Hc : e' <= cexp Vr).
    { unfold cexp.
      assert (52 + (e' + B) <= Z.log2 Vr).
      { apply Z.log2_le_pow2; [nia|]. rewrite Z.pow_add_r by lia. fold (unit_of e'). fold U. nia. }
      lia. }
    pose proof (unit_of_split e' (cexp Vr) HB Hc) as Es. fold U in Es.
    pose proof (unit_of_pos _ (cexp_B Vr)) as HUc.
    pose proof (Z.div_mod Vr (unit_of (cexp Vr)) ltac:(lia)) as DV.
    rewrite Hmod, Z.add_0_r, Es in DV.
    set (k := 2 ^ (cexp Vr - e') * (Vr / (2 ^ (cexp Vr - e') * U))).
    assert (EVr : Vr = k * U) by (unfold k; rewrite DV at 1; ring).
    assert (q < k) by nia.
    assert (Hfin : (4 * q + 4) * U <= Vr * 4) by nia.
    destruct (r <=? q); nia.
Qed.

(** ** Values of doubles that are not negative *)

Lemma ev_bounds (x : spec_float) : nn x -> 0 <= ev x <= TOP.
Proof.
  intros [Hx Vx]. pose proof TOP_pos.
  destruct x as [sx|sx| |sx mx ex]; cbn [ev]; try lia.
  pose proof (bounded_val_pos _ _ Vx). pose proof (bounded_lt_TOP _ _ Vx). lia.
Qed.

Lemma ev_representable (x : spec_float) : nn x -> representable (ev x).
Proof.
  intros [Hx Vx].
  destruct x as [sx|sx| |sx mx ex]; cbn [ev];
    try apply representable_0; try apply representable_TOP.
  now apply bounded_representable.
Qed.

Lemma nn_of_leb_zero (x : spec_float) :
  valid_binary x = true -> SFleb (S754_zero false) x = true -> nn x.
Proof.
  intros Vx H. split; [|exact Vx].
  destruct x as [sx|sx| |sx mx ex]; try reflexivity; try discriminate;
    destruct sx; try reflexivity; discriminate.
Qed.

Lemma SFleb_nn_right (a b : spec_float) :
  nn a -> valid_binary b = true -> SFleb a b = true -> nn b.
Proof.
  intros [Ha _] Vb H. split; [|exact Vb].
  destruct a as [sa|sa| |sa ma ea]; try discriminate Ha;
    destruct b as [sb|sb| |sb mb eb]; try reflexivity; try discriminate H;
    destruct sa; try discriminate Ha; destruct sb; try reflexivity; discriminate H.
Qed.

Lemma RND_0 (d : Z) : 0 < d -> RND 0 d = 0.
Proof. intros H. exact (RND_exact 0 d representable_0 H). Qed.

Lemma nn_finite_cases (a : spec_float) :
  nn a -> ev a < TOP ->
  (exists s, a = S754_zero s)
  \/ (exists m e, a = S754_finite false m e /\ bounded prec emax m e = true).
Proof.
  intros [Ha Va] Hf. destruct a as [sa|sa| |sa ma ea]; try discriminate Ha.
  - left. eauto.
  - cbn [ev] in Hf. lia.
  - destruct sa; [discriminate Ha|]. right. eauto.
Qed.

(** The quotient of a finite double that is not negative by a positive one
    is the rounding of the quotient of the values. *)
Lemma SFdiv_nn (a : spec_float) (mt : positive) (et : Z) :
  nn a -> ev a < TOP -> bounded prec emax mt et = true ->
  nn (SFdiv prec emax a (S754_finite false mt et))
  /\ ev (SFdiv prec emax a (S754_finite false mt et))
     = Z.min (RND (ev a * unit_of 0) (val mt et)) TOP.
Proof.
  intros Ha Hf Vt. pose proof (bounded_val_pos _ _ Vt) as Pt. pose proof TOP_pos.
  destruct (nn_finite_cases a Ha Hf) as [[s ->]|(m & e & -> & Vm)].
  - cbn [SFdiv ev Z.mul]. rewrite RND_0 by exact Pt. split; [|lia].
    split; reflexivity.
  - rewrite SFdiv_finite by assumption. cbn [xorb ev].
    pose proof (bounded_val_pos _ _ Vm) as Pm.
    pose proof (unit_of_pos 0 ltac:(unfold B; lia)) as HU0.
    assert (R : representable (RND (val m e * unit_of 0) (val mt et)))
      by (apply RND_representable; nia).
    split; [apply inject_nn; exact R|apply ev_inject; exact R].
Qed.

(** ** Integers as doubles *)

Lemma representable_int (k : Z) : 0 <= k < 2 ^ 53 -> representable (k * unit_of 0).
Proof.
  intros Hk. pose proof (unit_of_pos 0 ltac:(unfold B; lia)) as HU0.
  split; [nia|].
  destruct (Z.eq_dec k 0) as [->|Hn0].
  { apply Z.mod_0_l. pose proof (unit_of_pos _ (cexp_B (0 * unit_of 0))). lia. }
  set (c := cexp (k * unit_of 0)).
  assert (Hc : c <= 0).
  { unfold c, cexp, unit_of. rewrite Z.log2_mul_pow2 by (unfold B; lia).
    assert (Z.log2 k < 53) by (apply log2_lt_pow2_le; lia). lia. }
  rewrite (unit_of_split c 0 (cexp_B _) Hc).
  rewrite Z.mul_assoc. apply Z.mod_mul.
  pose proof (unit_of_pos c (cexp_B _)). lia.
Qed.

Lemma SFopp_inject (s : bool) (V : Z) : SFopp (inject s V) = inject (negb s) V.
Proof.
  unfold inject. destruct (V =? 0); [reflexivity|]. cbv zeta.
  destruct (cexp V <=? 971); reflexivity.
Qed.

Lemma int_lt_TOP (k : Z) : 0 <= k < 2 ^ 53 -> k * unit_of 0 < TOP.
Proof.
  intros Hk. rewrite TOP_eq.
  pose proof (unit_of_le 0 971 ltac:(unfold B; lia) ltac:(lia)).
  pose proof (unit_of_pos 0 ltac:(unfold B; lia)). nia.
Qed.

(** [(double) k] is exact below 2^53. *)
Lemma Prim2SF_of_int (k : Z) :
  Z.abs k < 2 ^ 53 ->
  Prim2SF (of_int k) = inject (k <? 0) (Z.abs k * unit_of 0).
Proof.
  intros Hk. unfold of_int. destruct k as [|p|p].
  - reflexivity.
  - rewrite of_uint63_spec. 
    assert (E : Uint63Axioms.to_Z (Uint63.of_Z (Zpos p)) = Zpos p).
    { rewrite Uint63.of_Z_spec. apply Z.mod_small.
      change Uint63.wB with (2 ^ 63). 
      assert (2 ^ 53 < 2 ^ 63) by (apply Z.pow_lt_mono_r; lia). lia. }
    rewrite E. cbn [binary_normalize Z.ltb Z.compare Z.abs].
    rewrite binary_round_correct by (unfold B; lia).
    unfold val. rewrite RND1_exact by (apply representable_int; lia). reflexivity.
  - rewrite opp_spec, of_uint63_spec.
    assert (E : Uint63Axioms.to_Z (Uint63.of_Z (- Zneg p)) = Zpos p).
    { rewrite Uint63.of_Z_spec. apply Z.mod_small.
      change Uint63.wB with (2 ^ 63). 
      assert (2 ^ 53 < 2 ^ 63) by (apply Z.pow_lt_mono_r; lia). lia. }
    rewrite E. cbn [binary_normalize Z.ltb Z.compare Z.abs].
    rewrite binary_round_correct by (unfold B; lia).
    unfold val. rewrite RND1_exact by (apply representable_int; lia).
    apply SFopp_inject.
Qed.

Lemma inject_finite_cases (s : bool) (V : Z) :
  representable V -> V < TOP ->
  (V = 0 /\ inject s V = S754_zero s)
  \/ (exists m e, inject s V = S754_finite s m e
                  /\ bounded prec emax m e = true /\ val m e = V).
Proof.
  intros R Hlt. pose proof (inject_valid s V R) as Hv.
  pose proof (ev_inject s V R) as He.
  destruct R as [H0 _].
  unfold inject in *. destruct (Z.eqb_spec V 0) as [E0|N0]; [left; auto|right].
  cbv zeta in *. destruct (cexp V <=? 971).
  - eexists _, _. split; [reflexivity|]. split; [exact Hv|]. cbn [ev] in He. lia.
  - cbn [ev] in He. lia.
Qed.

(** The square of an integer, and the sum of two squares, are exact. *)
Lemma Prim2SF_square (k : Z) :
  Z.abs k < 2 ^ 26 ->
  Prim2SF (of_int k * of_int k) = inject false (k * k * unit_of 0).
Proof.
  intros Hk.
  assert (H53 : Z.abs k < 2 ^ 53).
  { assert (2 ^ 26 < 2 ^ 53) by (apply Z.pow_lt_mono_r; lia). lia. }
  assert (Hkk : 0 <= k * k < 2 ^ 53).
  { change (2 ^ 53) with (2 ^ 26 * 2 ^ 26 * 2). nia. }
  rewrite mul_spec, Prim2SF_of_int by exact H53.
  pose proof (unit_of_pos 0 ltac:(unfold B; lia)) as HU0.
  assert (Habs : 0 <= Z.abs k < 2 ^ 53) by lia.
  destruct (inject_finite_cases (k <? 0) (Z.abs k * unit_of 0)
              (representable_int _ Habs) (int_lt_TOP _ Habs))
    as [[E0 ->]|(m & e & -> & Vm & Ev)].
  - assert (k = 0) by nia. subst k. cbn [SFmul]. destruct (0 <? 0); reflexivity.
  - rewrite SFmul_finite by assumption. rewrite Ev.
    replace (xorb (k <? 0) (k <? 0)) with false by (destruct (k <? 0); reflexivity).
    f_equal.
    replace (Z.abs k * unit_of 0 * (Z.abs k * unit_of 0))
      with (k * k * unit_of 0 * unit_of 0) by nia.
    apply RND_exact; [apply representable_int; exact Hkk|exact HU0].
Qed.

(* ===================================================================== *)
(** * The encircled energy *)
(* ===================================================================== *)

(** A double that is not negative, and its value. *)
Definition Fnn (x : float) : Prop := nn (Prim2SF x).
Definition fev (x : float) : Z := ev (Prim2SF x).

Lemma Fnn_of_leb (x : float) : (0 <=? x)%float = true -> Fnn x.
Proof.
  rewrite leb_spec, Prim2SF_zero. apply nn_of_leb_zero, Prim2SF_valid.
Qed.

Lemma Fnn_zero : Fnn 0%float.
Proof. split; reflexivity. Qed.

Lemma leb_fev (a b : float) :
  Fnn a -> Fnn b -> (a <=? b)%float = (fev a <=? fev b).
Proof. intros Ha Hb. rewrite leb_spec. now apply SFleb_ev. Qed.

Lemma leb_Fnn_right (a b : float) : Fnn a -> (a <=? b)%float = true -> Fnn b.
Proof.
  intros Ha H. rewrite leb_spec in H.
  exact (SFleb_nn_right _ _ Ha (Prim2SF_valid b) H).
Qed.

Lemma add_Fnn (a p : float) :
  Fnn a -> Fnn p ->
  Fnn (a + p)%float /\ fev (a + p)%float = Z.min (RND (fev a + fev p) 1) TOP.
Proof.
  intros Ha Hp. unfold Fnn, fev. rewrite add_spec. now apply SFadd_nn.
Qed.

Lemma add_mono (a1 a2 p : float) :
  Fnn a1 -> Fnn a2 -> Fnn p -> fev a1 <= fev a2 ->
  fev (a1 + p)%float <= fev (a2 + p)%float.
Proof.
  intros H1 H2 Hp H.
  rewrite (proj2 (add_Fnn a1 p H1 Hp)), (proj2 (add_Fnn a2 p H2 Hp)).
  pose proof (ev_bounds _ H1). pose proof (ev_bounds _ Hp).
  assert (RND (fev a1 + fev p) 1 <= RND (fev a2 + fev p) 1).
  { apply RND1_mono; unfold fev in *; lia. }
  lia.
Qed.

Lemma add_increases (a p : float) :
  Fnn a -> Fnn p -> fev a <= fev (a + p)%float.
Proof.
  intros Ha Hp. rewrite (proj2 (add_Fnn a p Ha Hp)).
  pose proof (ev_bounds _ Ha). pose proof (ev_bounds _ Hp).
  assert (fev a <= RND (fev a + fev p) 1).
  { rewrite <- (RND1_exact (fev a) (ev_representable _ Ha)) at 1.
    apply RND1_mono; unfold fev in *; lia. }
  unfold fev in *. lia.
Qed.

(** The sum the loops accumulate: the cells of [l], which start at index
    [k], that [keep] selects, added to [acc] in the order of the indices. *)
Fixpoint msum (keep : Z -> bool) (l : list float) (k : Z) (acc : float) : float :=
  match l with
  | [] => acc
  | p :: ps => msum keep ps (k + 1) (if keep k then (acc + p)%float else acc)
  end.

Lemma msum_app (keep : Z -> bool) (l1 l2 : list float) (k : Z) (acc : float) :
  msum keep (l1 ++ l2) k acc
  = msum keep l2 (k + Z.of_nat (length l1)) (msum keep l1 k acc).
Proof.
  revert k acc. induction l1 as [|p ps IH]; intros k acc.
  - cbn [app msum length]. now rewrite Z.add_0_r.
  - cbn [app msum length]. rewrite IH. f_equal. lia.
Qed.

Lemma msum_ext (keep1 keep2 : Z -> bool) (l : list float) (k : Z) (acc : float) :
  (forall i, k <= i < k + Z.of_nat (length l) -> keep1 i = keep2 i) ->
  msum keep1 l k acc = msum keep2 l k acc.
Proof.
  revert k acc. induction l as [|p ps IH]; intros k acc H; [reflexivity|].
  cbn [msum]. rewrite (H k) by (cbn [length]; lia).
  apply IH. intros i Hi. apply H. cbn [length]. lia.
Qed.

(** A larger selection, from a larger start, gives a larger sum. *)
Lemma msum_mono (keep1 keep2 : Z -> bool) (l : list float) (k : Z) (a1 a2 : float) :
  Forall Fnn l ->
  (forall i, keep1 i = true -> keep2 i = true) ->
  Fnn a1 -> Fnn a2 -> fev a1 <= fev a2 ->
  Fnn (msum keep1 l k a1) /\ Fnn (msum keep2 l k a2)
  /\ fev (msum keep1 l k a1) <= fev (msum keep2 l k a2).
Proof.
  intros Hl Hk. revert k a1 a2.
  induction Hl as [|p ps Hp Hps IH]; intros k a1 a2 H1 H2 H; [cbn [msum]; auto|].
  cbn [msum]. specialize (Hk k).
  destruct (keep1 k) eqn:K1.
  - rewrite (Hk eq_refl).
    apply IH; [apply (add_Fnn a1 p H1 Hp)|apply (add_Fnn a2 p H2 Hp)|].
    now apply add_mono.
  - destruct (keep2 k).
    + apply IH; [exact H1|apply (add_Fnn a2 p H2 Hp)|].
      pose proof (add_increases a2 p H2 Hp). lia.
    + now apply IH.
Qed.

(** ** The two loops as sums *)

Lemma for_loop_ext {St : Type} (body1 body2 : Z -> St -> option St) (lo hi : Z) (s : St) :
  (forall k t, lo <= k < hi -> body1 k t = body2 k t) ->
  for_loop lo hi body1 s = for_loop lo hi body2 s.
Proof.
  intros H. unfold for_loop.
  assert (G : forall n i t, lo <= i -> i + Z.of_nat n <= Z.max lo hi ->
                            for_range n i body1 t = for_range n i body2 t).
  { induction n as [|n IH]; intros i t Hi Hn; [reflexivity|].
    cbn [for_range]. rewrite H by lia.
    destruct (body2 i t); [|reflexivity]. apply IH; lia. }
  apply G; lia.
Qed.

Lemma firstn_succ_rd (l : list float) (k : Z) (p : float) :
  0 <= k -> rd l k = Some p ->
  firstn (Z.to_nat (k + 1)) l = firstn (Z.to_nat k) l ++ [p].
Proof.
  intros Hk H. replace (Z.to_nat (k + 1)) with (S (Z.to_nat k)) by lia.
  apply firstn_succ_snoc. unfold rd in H.
  destruct (Z.ltb_spec k 0); [lia|exact H].
Qed.

Lemma length_firstn_le (l : list float) (k : Z) :
  0 <= k <= Z.of_nat (length l) -> Z.of_nat (length (firstn (Z.to_nat k) l)) = k.
Proof. intros H. rewrite length_firstn. lia. Qed.

Lemma total_energy_of_spec (psf : list float) (size : Z) :
  Z.of_nat (length psf) = size * size ->
  total_energy_of psf size = Some (msum (fun _ => true) psf 0 0%float).
Proof.
  intros Hlen. unfold total_energy_of.
  destruct (for_loop_invariant
              (fun k acc => acc = msum (fun _ => true) (firstn (Z.to_nat k) psf) 0 0%float)
              (fun i total => do p <- rd psf i; Some (total + p)%float)
              0 (size * size) 0%float ltac:(lia) eq_refl) as (t & Hrun & Ht).
  - intros k acc Hk ->.
    destruct (rd_in_range psf k ltac:(lia)) as [p Hp]. rewrite Hp.
    eexists. split; [reflexivity|].
    rewrite (firstn_succ_rd psf k p ltac:(lia) Hp), msum_app.
    cbn [msum]. reflexivity.
  - rewrite Hrun, Ht. rewrite <- Hlen, Nat2Z.id, firstn_all. reflexivity.
Qed.

(** Whether the pixel ([i], [j]) lies in the disk, as the loop tests it, and
    the same for the cell of index [k]. *)
Definition in_disk (size : Z) (radius : float) (i j : Z) : bool :=
  let center := Z.quot size 2 in
  let dx := of_int (i - center) in
  let dy := of_int (j - center) in
  (sqrt (dx * dx + dy * dy) <=? radius)%float.

Definition disk (size : Z) (radius : float) (k : Z) : bool :=
  in_disk size radius (k / size) (k mod size).

Lemma encircled_of_spec (psf : list float) (size : Z) (radius : float) :
  0 <= size ->
  Z.of_nat (length psf) = size * size ->
  encircled_of psf size radius = Some (msum (disk size radius) psf 0 0%float).
Proof.
  intros Hs Hlen. unfold encircled_of.
  set (D := disk size radius).
  destruct (for_loop_invariant
              (fun i acc => acc = msum D (firstn (Z.to_nat (i * size)) psf) 0 0%float)
              (fun i e => for_loop 0 size
                            (encircled_cell psf size (Z.quot size 2) radius i) e)
              0 size 0%float Hs eq_refl) as (t & Hrun & Ht).
  - intros i acc Hi ->.
    destruct (for_loop_invariant
                (fun j acc => acc = msum D (firstn (Z.to_nat (i * size + j)) psf) 0 0%float)
                (encircled_cell psf size (Z.quot size 2) radius i)
                0 size (msum D (firstn (Z.to_nat (i * size)) psf) 0 0%float) Hs)
      as (t & Hrun & Ht).
    + now rewrite Z.add_0_r.
    + intros j acc Hj ->.
      assert (Hk : 0 <= i * size + j < size * size) by nia.
      destruct (rd_in_range psf (i * size + j) ltac:(lia)) as [p Hp].
      set (a := msum D (firstn (Z.to_nat (i * size + j)) psf) 0 0%float).
      exists (if in_disk size radius i j then (a + p)%float else a).
      split; [unfold encircled_cell, in_disk; rewrite Hp; cbv zeta;
              destruct (_ <=? _)%float; reflexivity|].
      replace (i * size + (j + 1)) with (i * size + j + 1) by lia.
      rewrite (firstn_succ_rd psf (i * size + j) p ltac:(lia) Hp), msum_app.
      rewrite length_firstn_le by lia. cbn [msum]. rewrite Z.add_0_l.
      assert (ED : D (i * size + j) = in_disk size radius i j).
      { unfold D, disk. f_equal.
        - rewrite Z.div_add_l by lia. rewrite Z.div_small by lia. lia.
        - rewrite Z.add_comm, Z.mod_add by lia. apply Z.mod_small. lia. }
      rewrite ED. reflexivity.
    + exists t. split; [exact Hrun|]. rewrite Ht. f_equal. f_equal. f_equal. lia.
  - rewrite Hrun, Ht. rewrite <- Hlen, Nat2Z.id, firstn_all. reflexivity.
Qed.

(** ** The pixels a radius covers *)

Lemma of_int_notnan (k : Z) : sf_nan (Prim2SF (of_int k)) = false.
Proof.
  unfold of_int. destruct k as [|p|p].
  - reflexivity.
  - rewrite of_uint63_spec. eapply signed_as_notnan, binary_normalize_signed.
  - rewrite opp_spec, of_uint63_spec.
    pose proof (binary_normalize_signed
                  (Uint63Axioms.to_Z (Uint63.of_Z (- Zneg p))) 0 false) as H.
    destruct H as [H|[(m & e & H)|H]]; rewrite H; reflexivity.
Qed.

(** The distance the loop computes is not negative. *)
Lemma dist_Fnn (i j : Z) :
  Fnn (sqrt (of_int i * of_int i + of_int j * of_int j))%float.
Proof.
  split; [|apply Prim2SF_valid].
  apply radial_distance_nonneg; apply of_int_notnan.
Qed.

Lemma ltb_leb (a b : float) : (a <? b)%float = true -> (a <=? b)%float = true.
Proof.
  rewrite ltb_spec, leb_spec. unfold SFltb, SFleb.
  destruct (SFcompare (Prim2SF a) (Prim2SF b)) as [[]|]; (reflexivity || discriminate).
Qed.

(** A larger radius covers the pixels a smaller one covers. *)
Lemma disk_mono (size : Z) (ra rb : float) (k : Z) :
  (ra <=? rb)%float = true -> disk size ra k = true -> disk size rb k = true.
Proof.
  unfold disk, in_disk. cbv zeta. intros Hab H.
  set (dist := sqrt _) in *.
  assert (Hd : Fnn dist) by apply dist_Fnn.
  pose proof (leb_Fnn_right _ _ Hd H) as Ha.
  pose proof (leb_Fnn_right _ _ Ha Hab) as Hb.
  rewrite leb_fev in * by assumption.
  apply Z.leb_le in H, Hab. apply Z.leb_le. lia.
Qed.

(** [r >= size * sqrt 2 / 2], on the exact value [m 2^e] of the double [r]:
    twice its square is at least the square of [size]. *)
Definition covers (size : Z) (r : float) : Prop :=
  match Prim2SF r with
  | S754_infinity false => True
  | S754_finite false m e =>
      size * size * 2 ^ Z.max 0 (- (2 * e))
      <= 2 * (Zpos m * Zpos m) * 2 ^ Z.max 0 (2 * e)
  | S754_zero _ => size = 0
  | _ => False
  end.

Lemma covers_fev (size : Z) (r : float) :
  0 <= size -> size * size <= INT_MAX -> covers size r ->
  Fnn r /\ size * size * (unit_of 0 * unit_of 0) <= 2 * (fev r * fev r).
Proof.
  intros Hs Hmax. unfold covers, Fnn, fev, nn.
  pose proof (Prim2SF_valid r) as Vr.
  pose proof (unit_of_pos 0 ltac:(unfold B; lia)) as HU0.
  destruct (Prim2SF r) as [s|s| |s m e]; cbn [ev sf_nonneg].
  - intros ->. split; [auto|lia].
  - destruct s; [intros []|intros _]. split; [auto|].
    unfold TOP. rewrite (unit_of_split 0 1024) by (unfold B; lia).
    assert (size * size <= 2 ^ (1024 - 0) * 2 ^ (1024 - 0)).
    { unfold INT_MAX in Hmax. 
      assert (2147483647 <= 2 ^ (1024 - 0) * 2 ^ (1024 - 0)) by (vm_compute; discriminate).
      lia. }
    set (W := 2 ^ (1024 - 0)) in *. nia.
  - intros [].
  - destruct s; [intros []|intros H]. split; [auto|].
    destruct (bounded_inv _ _ Vr) as [He _].
    set (P := 2 ^ Z.max 0 (- (2 * e))) in *. set (Q := 2 ^ Z.max 0 (2 * e)) in *.
    assert (HP : 0 < P) by (apply Z.pow_pos_nonneg; lia).
    assert (HQ : 0 < Q) by (apply Z.pow_pos_nonneg; lia).
    assert (E : Q * (unit_of 0 * unit_of 0) = P * (unit_of e * unit_of e)).
    { unfold P, Q, unit_of. rewrite <- !Z.pow_add_r by (unfold B; lia).
      f_equal. lia. }
    unfold val.
    pose proof (unit_of_pos e ltac:(unfold B; lia)) as HUe.
    set (Ue := unit_of e) in *. set (U0 := unit_of 0) in *.
    assert (X : size * size * (U0 * U0) * Q <= 2 * (Zpos m * Ue * (Zpos m * Ue)) * Q).
    { replace (size * size * (U0 * U0) * Q) with (size * size * (Q * (U0 * U0))) by ring.
      rewrite E.
      replace (size * size * (P * (Ue * Ue))) with (size * size * P * (Ue * Ue)) by ring.
      replace (2 * (Zpos m * Ue * (Zpos m * Ue)) * Q)
        with (2 * (Zpos m * Zpos m) * Q * (Ue * Ue)) by ring.
      apply Z.mul_le_mono_nonneg_r; [nia|exact H]. }
    apply Z.mul_le_mono_pos_r in X; assumption.
Qed.

(** The sum of the squares of two small integers, as the loop computes it. *)
Lemma sum_of_squares_exact (a b : Z) :
  Z.abs a < 2 ^ 26 -> Z.abs b < 2 ^ 26 ->
  nn (Prim2SF (of_int a * of_int a + of_int b * of_int b))
  /\ ev (Prim2SF (of_int a * of_int a + of_int b * of_int b))
     = (a * a + b * b) * unit_of 0.
Proof.
  intros Ha Hb. rewrite add_spec, !Prim2SF_square by assumption. unfold SF64add.
  assert (Haa : 0 <= a * a < 2 ^ 52).
  { change (2 ^ 52) with (2 ^ 26 * 2 ^ 26). nia. }
  assert (Hbb : 0 <= b * b < 2 ^ 52).
  { change (2 ^ 52) with (2 ^ 26 * 2 ^ 26). nia. }
  assert (H53 : 2 ^ 53 = 2 ^ 52 + 2 ^ 52) by reflexivity.
  pose proof (representable_int (a * a) ltac:(lia)) as Ra.
  pose proof (representable_int (b * b) ltac:(lia)) as Rb.
  pose proof (representable_int (a * a + b * b) ltac:(lia)) as Rab.
  pose proof (int_lt_TOP (a * a) ltac:(lia)).
  pose proof (int_lt_TOP (b * b) ltac:(lia)).
  pose proof (int_lt_TOP (a * a + b * b) ltac:(lia)).
  destruct (SFadd_nn _ _ (inject_nn _ Ra) (inject_nn _ Rb)) as [Hn He].
  split; [exact Hn|]. rewrite He, !ev_inject by assumption.
  rewrite (Z.min_l (a * a * unit_of 0) TOP), (Z.min_l (b * b * unit_of 0) TOP) by lia.
  rewrite <- Z.mul_add_distr_r, RND1_exact by exact Rab. lia.
Qed.

(** A radius of at least [size * sqrt 2 / 2] covers every pixel. *)
Lemma in_disk_covered (size : Z) (r : float) (i j : Z) :
  0 <= size -> size * size <= INT_MAX -> covers size r ->
  0 <= i < size -> 0 <= j < size ->
  in_disk size r i j = true.
Proof.
  intros Hs Hmax Hc Hi Hj. unfold in_disk. cbv zeta.
  destruct (covers_fev size r Hs Hmax Hc) as [Hr Hcov].
  rewrite Z.quot_div_nonneg by lia.
  pose proof (Z.div_mod size 2 ltac:(lia)) as Dm.
  pose proof (Z.mod_pos_bound size 2 ltac:(lia)) as Mb.
  set (c := size / 2) in *.
  set (a := i - c). set (b := j - c).
  assert (Hsz : size < 2 ^ 16).
  { destruct (Z.lt_ge_cases size (2 ^ 16)) as [|Hge]; [assumption|exfalso].
    assert (2 ^ 16 * 2 ^ 16 <= size * size) by (apply Z.mul_le_mono_nonneg; lia).
    unfold INT_MAX in Hmax. change (2 ^ 16 * 2 ^ 16) with 4294967296 in *. lia. }
  assert (Ha2 : 2 * Z.abs a <= size) by (unfold a; lia).
  assert (Hb2 : 2 * Z.abs b <= size) by (unfold b; lia).
  assert (H26 : 2 ^ 16 < 2 ^ 26) by (apply Z.pow_lt_mono_r; lia).
  destruct (sum_of_squares_exact a b ltac:(lia) ltac:(lia)) as [Hn He].
  set (x := (of_int a * of_int a + of_int b * of_int b)%float) in *.
  pose proof (unit_of_pos 0 ltac:(unfold B; lia)) as HU0.
  assert (Hab : 2 * (a * a + b * b) <= size * size) by nia.
  assert (Hle : (a * a + b * b) * unit_of 0 * unit_of 0 <= fev r * fev r).
  { assert (2 * ((a * a + b * b) * unit_of 0 * unit_of 0)
            <= size * size * (unit_of 0 * unit_of 0)) by nia.
    lia. }
  rewrite leb_spec, sqrt_spec. unfold SF64sqrt.
  assert (Hlt : ev (Prim2SF x) < TOP).
  { rewrite He. apply int_lt_TOP.
    assert (size * size < 2 ^ 16 * 2 ^ 16) by nia.
    change (2 ^ 16 * 2 ^ 16) with (2 ^ 32) in *.
    assert (2 ^ 32 < 2 ^ 53) by (apply Z.pow_lt_mono_r; lia). nia. }
  destruct (nn_finite_cases _ Hn Hlt) as [[s Ex]|(m & e & Ex & Vm)].
  - rewrite Ex. cbn [SFsqrt].
    rewrite SFleb_ev; [|split; reflexivity|exact Hr].
    cbn [ev]. apply Z.leb_le. apply (ev_bounds _ Hr).
  - rewrite Ex in *. cbn [ev] in He.
    destruct (SFsqrt_finite_le m e (fev r) Vm (ev_representable _ Hr))
      as (V & EV & RV & HV).
    { rewrite He. exact Hle. }
    rewrite EV, SFleb_ev; [|apply inject_nn; exact RV|exact Hr].
    rewrite ev_inject by exact RV. apply Z.leb_le. unfold fev in HV. lia.
Qed.

(** ** The ratio the loop stores *)

Definition energy_ratio (psf : list float) (size : Z) (T r : float) : float :=
  (msum (disk size r) psf 0 0 / T)%float.

Lemma positive_finite (T : float) :
  isfinite T = true -> (0 <? T)%float = true ->
  exists m e, Prim2SF T = S754_finite false m e /\ bounded prec emax m e = true.
Proof.
  rewrite isfinite_SF, ltb_spec, Prim2SF_zero. intros Hf Hp.
  pose proof (Prim2SF_valid T) as Vt.
  destruct (Prim2SF T) as [s|s| |s m e]; try discriminate.
  destruct s; [discriminate|]. eauto.
Qed.

Lemma Prim2SF_one_val : ev (Prim2SF 1%float) = unit_of 0.
Proof.
  rewrite Prim2SF_one. cbn [ev]. unfold val.
  rewrite (unit_of_split (-52) 0) by (unfold B; lia). reflexivity.
Qed.

Lemma Fnn_one : Fnn 1%float.
Proof. split; [rewrite Prim2SF_one; reflexivity|apply Prim2SF_valid]. Qed.

Section Ratio.

Variables (psf : list float) (T : float).
Hypothesis Hpsf : Forall Fnn psf.
Hypothesis HT : T = msum (fun _ => true) psf 0 0%float.
Hypothesis Tfin : isfinite T = true.
Hypothesis Tpos : (0 <? T)%float = true.

Lemma encircled_le_total (keep : Z -> bool) :
  Fnn (msum keep psf 0 0%float) /\ fev (msum keep psf 0 0%float) <= fev T.
Proof.
  destruct (msum_mono keep (fun _ => true) psf 0 0%float 0%float Hpsf
                      ltac:(auto) Fnn_zero Fnn_zero ltac:(lia)) as (H1 & _ & H3).
  rewrite HT. auto.
Qed.

Lemma ratio_value (keep : Z -> bool) :
  Fnn (msum keep psf 0 0 / T)%float
  /\ fev (msum keep psf 0 0 / T)%float
     = Z.min (RND (fev (msum keep psf 0 0%float) * unit_of 0) (fev T)) TOP.
Proof.
  destruct (positive_finite T Tfin Tpos) as (m & e & ET & Vt).
  destruct (encircled_le_total keep) as [Hn Hle].
  unfold Fnn, fev in *. rewrite div_spec. unfold SF64div. rewrite ET in *. cbn [ev] in *.
  apply SFdiv_nn; [exact Hn| |exact Vt].
  pose proof (bounded_lt_TOP _ _ Vt). lia.
Qed.

Lemma fev_T_pos : 0 < fev T.
Proof.
  destruct (positive_finite T Tfin Tpos) as (m & e & ET & Vt).
  unfold fev. rewrite ET. cbn [ev]. now apply bounded_val_pos.
Qed.

Lemma ratio_in_unit_interval (keep : Z -> bool) :
  (0 <=? msum keep psf 0 0 / T)%float = true
  /\ (msum keep psf 0 0 / T <=? 1)%float = true.
Proof.
  destruct (ratio_value keep) as [Hn Hv].
  destruct (encircled_le_total keep) as [He Hle].
  pose proof fev_T_pos as Htp.
  pose proof (unit_of_pos 0 ltac:(unfold B; lia)) as HU0.
  split.
  - rewrite (leb_fev _ _ Fnn_zero Hn). apply Z.leb_le.
    pose proof (ev_bounds _ Hn). unfold fev at 1. rewrite Prim2SF_zero. cbn [ev].
    unfold fev. lia.
  - rewrite (leb_fev _ _ Hn Fnn_one). apply Z.leb_le.
    unfold fev at 2. rewrite Prim2SF_one_val, Hv.
    assert (RND (fev (msum keep psf 0 0%float) * unit_of 0) (fev T) <= unit_of 0).
    { rewrite <- (RND1_exact (unit_of 0)) at 2
        by (rewrite <- (Z.mul_1_l (unit_of 0)); apply representable_int; lia).
      pose proof (ev_bounds _ He).
      apply RND_mono; [unfold fev in *; nia|exact Htp|lia|nia]. }
    lia.
Qed.

Lemma ratio_mono (keep1 keep2 : Z -> bool) :
  (forall i, keep1 i = true -> keep2 i = true) ->
  (msum keep1 psf 0 0 / T <=? msum keep2 psf 0 0 / T)%float = true.
Proof.
  intros Hk.
  destruct (ratio_value keep1) as [Hn1 Hv1]. destruct (ratio_value keep2) as [Hn2 Hv2].
  destruct (msum_mono keep1 keep2 psf 0 0%float 0%float Hpsf Hk
                      Fnn_zero Fnn_zero ltac:(lia)) as (H1 & H2 & H3).
  pose proof fev_T_pos as Htp.
  pose proof (unit_of_pos 0 ltac:(unfold B; lia)) as HU0.
  rewrite (leb_fev _ _ Hn1 Hn2). apply Z.leb_le. rewrite Hv1, Hv2.
  pose proof (ev_bounds _ H1).
  assert (RND (fev (msum keep1 psf 0 0%float) * unit_of 0) (fev T)
          <= RND (fev (msum keep2 psf 0 0%float) * unit_of 0) (fev T)).
  { apply RND_mono; [unfold fev in *; nia|exact Htp|exact Htp|].
    apply Z.mul_le_mono_nonneg_r; [lia|].
    apply Z.mul_le_mono_nonneg_r; lia. }
  lia.
Qed.

Lemma ratio_full (keep : Z -> bool) :
  (forall i, 0 <= i < Z.of_nat (length psf) -> keep i = true) ->
  (msum keep psf 0 0 / T)%float = 1%float.
Proof.
  intros Hk.
  assert (E : msum keep psf 0 0%float = T).
  { rewrite HT. apply msum_ext. intros i Hi. apply Hk. lia. }
  rewrite E. apply Prim2SF_inj.
  destruct (positive_finite T Tfin Tpos) as (m & e & ET & Vt).
  rewrite div_spec, ET. unfold SF64div. rewrite SFdiv_finite by assumption. cbn [xorb].
  rewrite Z.mul_comm, RND_exact.
  - rewrite Prim2SF_one.
    rewrite <- (inject_val false 4503599627370496 (-52)) by reflexivity.
    f_equal.
  - rewrite <- (Z.mul_1_l (unit_of 0)). apply representable_int. lia.
  - now apply bounded_val_pos.
Qed.

End Ratio.

(** ** The entry point *)

Lemma calculate_encircled_energy_spec
      (psf : list float) (size : Z) (radii energies : list float)
      (radii_count : Z) (T : float) :
  0 <= size ->
  Z.of_nat (length psf) = size * size ->
  total_energy_of psf size = Some T ->
  0 <= radii_count <= Z.of_nat (length radii) ->
  radii_count <= Z.of_nat (length energies) ->
  calculate_encircled_energy psf size radii energies radii_count
  = Some (batch_result (energy_ratio psf size T) radii radii_count energies).
Proof.
  intros Hs Hlen HT Hr He. unfold calculate_encircled_energy. rewrite HT.
  rewrite <- (batch_loop_spec (energy_ratio psf size T) radii energies radii_count)
    by lia.
  apply for_loop_ext. intros k out Hk. unfold batch_body.
  destruct (rd radii k) as [radius|]; [|reflexivity].
  rewrite (encircled_of_spec psf size radius Hs Hlen). reflexivity.
Qed.

Lemma length_batch_result (f : float -> float) (r_array result_array : list float)
      (count : Z) :
  0 <= count <= Z.of_nat (length r_array) ->
  count <= Z.of_nat (length result_array) ->
  length (batch_result f r_array count result_array) = length result_array.
Proof.
  intros Hr He. unfold batch_result.
  rewrite length_app, length_map, length_firstn, length_skipn. lia.
Qed.

(** C8, as the code has it.  For a grid of [size * size] values that are not
    negative, whose total, as the loop accumulates it, is positive and
    finite, and for radii in ascending order, [calculate_encircled_energy]
    returns with one ratio per radius; each ratio lies between 0 and 1, the
    ratios do not decrease along the radii, and the ratio of a radius of at
    least [size * sqrt 2 / 2] is exactly 1. *)
Theorem encircled_energy_properties
        (psf : list float) (size : Z) (radii energies : list float)
        (radii_count : Z) (T : float) :
  0 <= size -> size * size <= INT_MAX ->
  Z.of_nat (length psf) = size * size ->
  (forall p, In p psf -> (0 <=? p)%float = true) ->
  0 <= radii_count <= Z.of_nat (length radii) ->
  radii_count <= Z.of_nat (length energies) ->
  (forall a b ra rb, 0 <= a < b -> b < radii_count ->
                     rd radii a = Some ra -> rd radii b = Some rb ->
                     (ra <? rb)%float = true) ->
  total_energy_of psf size = Some T ->
  isfinite T = true -> (0 <? T)%float = true ->
  exists out,
    calculate_encircled_energy psf size radii energies radii_count = Some out
    /\ length out = length energies
    /\ (forall k, 0 <= k < radii_count ->
                  exists v, rd out k = Some v
                            /\ (0 <=? v)%float = true /\ (v <=? 1)%float = true)
    /\ (forall a b va vb, 0 <= a <= b -> b < radii_count ->
                          rd out a = Some va -> rd out b = Some vb ->
                          (va <=? vb)%float = true)
    /\ (forall k r v, 0 <= k < radii_count ->
                      rd radii k = Some r -> covers size r ->
                      rd out k = Some v -> v = 1%float).
Proof.
  intros Hs Hmax Hlen Hnn Hr He Hsorted HT Tfin Tpos.
  assert (Hpsf : Forall Fnn psf).
  { apply Forall_forall. intros p Hp. apply Fnn_of_leb, Hnn, Hp. }
  assert (ET : T = msum (fun _ => true) psf 0 0%float).
  { rewrite (total_energy_of_spec psf size Hlen) in HT. now injection HT. }
  exists (batch_result (energy_ratio psf size T) radii radii_count energies).
  split; [now apply calculate_encircled_energy_spec|].
  split; [now apply length_batch_result|].
  assert (Hcell : forall k, 0 <= k < radii_count ->
            exists r, rd radii k = Some r
              /\ rd (batch_result (energy_ratio psf size T) radii radii_count energies) k
                 = Some (energy_ratio psf size T r)).
  { intros k Hk. destruct (rd_in_range radii k ltac:(lia)) as [r Hrk].
    exists r. split; [exact Hrk|]. now apply batch_cell. }
  split; [|split].
  - intros k Hk. destruct (Hcell k Hk) as (r & _ & Ho).
    eexists. split; [exact Ho|].
    apply (ratio_in_unit_interval psf T Hpsf ET Tfin Tpos).
  - intros a b va vb Hab Hb Ha' Hb'.
    destruct (Hcell a ltac:(lia)) as (ra & Hra & Hoa).
    destruct (Hcell b ltac:(lia)) as (rb & Hrb & Hob).
    rewrite Hoa in Ha'. rewrite Hob in Hb'. injection Ha' as <-. injection Hb' as <-.
    apply (ratio_mono psf T Hpsf ET Tfin Tpos).
    destruct (Z.eq_dec a b) as [->|Hne].
    + rewrite Hra in Hrb. injection Hrb as <-. auto.
    + intros i. apply disk_mono, ltb_leb.
      apply (Hsorted a b ra rb); (lia || assumption).
  - intros k r v Hk Hrk Hc Hv.
    destruct (Hcell k Hk) as (r' & Hr' & Ho).
    rewrite Hrk in Hr'. injection Hr' as <-.
    rewrite Ho in Hv. injection Hv as <-.
    apply (ratio_full psf T ET Tfin Tpos).
    intros i Hi. unfold disk.
    assert (0 < size) by nia.
    apply in_disk_covered; try assumption.
    + split; [apply Z.div_pos; lia|apply Z.div_lt_upper_bound; lia].
    + apply Z.mod_pos_bound. lia.
Qed.

(** A 2 x 2 grid and three radii, the last of which covers the grid. *)
Lemma encircled_energy_properties_witness :
  exists out,
    calculate_encircled_energy [1; 2; 3; 4]%float 2 [0.5; 1; 5]%float
                               [0; 0; 0]%float 3 = Some out
    /\ length out = 3%nat
    /\ (forall k, 0 <= k < 3 ->
                  exists v, rd out k = Some v
                            /\ (0 <=? v)%float = true /\ (v <=? 1)%float = true)
    /\ (forall a b va vb, 0 <= a <= b -> b < 3 ->
                          rd out a = Some va -> rd out b = Some vb ->
                          (va <=? vb)%float = true)
    /\ (forall k r v, 0 <= k < 3 ->
                      rd [0.5; 1; 5]%float k = Some r -> covers 2 r ->
                      rd out k = Some v -> v = 1%float).
Proof.
  apply (encircled_energy_properties
           [1; 2; 3; 4]%float 2 [0.5; 1; 5]%float [0; 0; 0]%float 3 10%float).
  - lia.
  - unfold INT_MAX. lia.
  - reflexivity.
  - intros p [<-|[<-|[<-|[<-|[]]]]]; reflexivity.
  - cbn [length]. lia.
  - cbn [length]. lia.
  - intros a b ra rb Ha Hb Hra Hrb.
    assert (Ea : a = 0 \/ a = 1) by lia. assert (Eb : b = 1 \/ b = 2) by lia.
    destruct Ea as [-> | ->], Eb as [-> | ->]; try lia;
      vm_compute in Hra, Hrb; injection Hra as <-; injection Hrb as <-; reflexivity.
  - reflexivity.
  - reflexivity.
  - reflexivity.
Defined.

(** C8 as stated fails when the total overflows: the values are not
    negative and their total, plus infinity, is positive, but the ratio of the
    radius that covers the grid is a NaN, neither 1 nor in [0, 1] nor at
    least the ratio before it. *)
Lemma encircled_energy_overflow :
  (forall p, In p [1e308; 1e308; 0; 0]%float -> (0 <=? p)%float = true)
  /\ total_energy_of [1e308; 1e308; 0; 0]%float 2 = Some infinity
  /\ (0 <? infinity)%float = true
  /\ (0.5 <? 1)%float = true /\ (1 <? 5)%float = true
  /\ covers 2 5%float
  /\ calculate_encircled_energy [1e308; 1e308; 0; 0]%float 2 [0.5; 1; 5]%float
                                [0; 0; 0]%float 3
     = Some [0; 0; nan]%float
  /\ (nan <=? 1)%float = false /\ (0 <=? nan)%float = false
  /\ nan <> 1%float.
Proof.
  split; [intros p [<-|[<-|[<-|[<-|[]]]]]; reflexivity|].
  split; [reflexivity|]. split; [reflexivity|]. split; [reflexivity|].
  split; [reflexivity|]. split; [vm_compute; discriminate|].
  split; [reflexivity|]. split; [reflexivity|]. split; [reflexivity|].
  intros H. apply (f_equal is_nan) in H. discriminate H.
Qed.

(* ===================================================================== *)
(** * The table lookups of the trigonometric helpers *)
(* ===================================================================== *)

Lemma to_int_notneg (y : float) : sf_notneg (Prim2SF y) = true -> 0 <= to_int y.
Proof.
  intros H. unfold to_int, trunc.
  assert (En : is_nan y = sf_nan (Prim2SF y)) by apply is_nan_SF.
  assert (El : (y <? 0)%float = SFltb (Prim2SF y) (S754_zero false)).
  { rewrite ltb_spec, Prim2SF_zero. reflexivity. }
  destruct (Prim2SF y) as [s|s| |s m e]; cbn [sf_nan sf_notneg] in *.
  - unfold INT_MIN, INT_MAX. lia.
  - destruct s; [discriminate|]. rewrite En, El. cbn. unfold INT_MAX. lia.
  - rewrite En. lia.
  - destruct s; [discriminate|].
    assert (0 <= match e with
                 | Zneg k => Z.shiftr (Zpos m) (Zpos k)
                 | _ => Z.shiftl (Zpos m) e
                 end).
    { destruct e; [apply Z.shiftl_nonneg|apply Z.shiftl_nonneg|apply Z.shiftr_nonneg]; lia. }
    unfold INT_MIN, INT_MAX. lia.
Qed.

Lemma of_int_notneg (k : Z) : 0 <= k -> sf_notneg (Prim2SF (of_int k)) = true.
Proof.
  intros Hk. unfold of_int. destruct k as [|p|p]; try lia.
  - reflexivity.
  - rewrite of_uint63_spec.
    pose proof (Uint63.to_Z_bounded (Uint63.of_Z (Zpos p))) as Hb.
    pose proof (binary_normalize_signed
                  (Uint63Axioms.to_Z (Uint63.of_Z (Zpos p))) 0 false) as H.
    destruct (Uint63Axioms.to_Z (Uint63.of_Z (Zpos p))) as [|q|q]; try lia;
      apply sf_nonneg_notneg, signed_as_notneg; exact H.
Qed.

(** A negative double plus a positive one that is not smaller in magnitude
    is not negative. *)
Lemma SFadd_neg_pos_notneg (m M : positive) (e E : Z) :
  bounded prec emax m e = true -> bounded prec emax M E = true ->
  val m e <= val M E ->
  sf_notneg (SFadd prec emax (S754_finite true m e) (S754_finite false M E)) = true.
Proof.
  intros Vm VM Hle. cbn [SFadd cond_Zopp].
  destruct (bounded_inv _ _ Vm) as [He _]. destruct (bounded_inv _ _ VM) as [HE _].
  set (ez := Z.min e E).
  assert (HB : 0 <= ez + B) by (unfold ez, B; lia).
  pose proof (shl_align_val m e ez) as E1.
  pose proof (shl_align_val M E ez) as E2.
  replace (Z.min e ez) with ez in E1 by (unfold ez; lia).
  replace (Z.min E ez) with ez in E2 by (unfold ez; lia).
  specialize (E1 HB). specialize (E2 HB).
  pose proof (unit_of_pos ez HB) as HU.
  assert (Hm : Zpos (fst (shl_align m e ez)) <= Zpos (fst (shl_align M E ez))).
  { unfold val in *. nia. }
  pose proof (binary_normalize_signed
                (- Zpos (fst (shl_align m e ez)) + Zpos (fst (shl_align M E ez)))
                ez false) as H.
  destruct (- Zpos (fst (shl_align m e ez)) + Zpos (fst (shl_align M E ez)))
    as [|q|q] eqn:Eq; try lia; apply sf_nonneg_notneg, signed_as_notneg; exact H.
Qed.

Section Lookups.

Variable L : Libm.

(** What the C standard gives for [fmod(x, 2 pi)] on a finite [x], as far
    as the lookups need it: a result whose magnitude does not exceed 2 pi. *)
Definition fmod_in_range (x : float) : Prop :=
  (fabs (c_fmod L x (2 * M_PI)) <=? 2 * M_PI)%float = true.

Lemma reduced_angle_notneg (x : float) :
  fmod_in_range x ->
  sf_notneg (Prim2SF (let x1 := c_fmod L x (2 * M_PI) in
                      if (x1 <? 0)%float then (x1 + 2 * M_PI)%float else x1)) = true.
Proof.
  unfold fmod_in_range, fabs. cbv zeta. set (x1 := c_fmod L x (2 * M_PI)%float).
  rewrite leb_spec, abs_spec. intros H.
  assert (E2 : Prim2SF (2 * M_PI)%float = S754_finite false 7074237752028440 (-50))
    by reflexivity.
  destruct (x1 <? 0)%float eqn:Hneg.
  - rewrite add_spec, E2. rewrite E2 in H.
    rewrite ltb_spec, Prim2SF_zero in Hneg.
    pose proof (Prim2SF_valid x1) as V1.
    destruct (Prim2SF x1) as [s|s| |s m e]; try discriminate.
    destruct s; [|discriminate].
    cbn [SFabs] in H.
    rewrite SFleb_ev in H; [|split; [reflexivity|exact V1]|split; reflexivity].
    apply Z.leb_le in H. cbn [ev] in H.
    apply SFadd_neg_pos_notneg; [exact V1|reflexivity|exact H].
  - rewrite ltb_spec, Prim2SF_zero in Hneg. now apply SFltb_zero_notneg.
Qed.

Lemma trig_index_range (st : state) (x : float) :
  1 <= trig_table_size st -> fmod_in_range x ->
  0 <= trig_index L st x < trig_table_size st.
Proof.
  intros Hsz Hx. unfold trig_index. cbv zeta.
  pose proof (reduced_angle_notneg x Hx) as Hn. cbv zeta in Hn.
  set (x2 := if (c_fmod L x (2 * M_PI) <? 0)%float
             then (c_fmod L x (2 * M_PI) + 2 * M_PI)%float
             else c_fmod L x (2 * M_PI)%float) in *.
  assert (Hi : 0 <= to_int (x2 / (2 * M_PI) * of_int (trig_table_size st))%float).
  { apply to_int_notneg. rewrite mul_spec, div_spec.
    apply SFmul_notneg; [|apply of_int_notneg; lia].
    change (Prim2SF (2 * M_PI)%float) with (S754_finite false 7074237752028440 (-50)).
    now apply SFdiv_notneg. }
  destruct (Z.geb_spec (to_int (x2 / (2 * M_PI) * of_int (trig_table_size st))%float)
                       (trig_table_size st)); lia.
Qed.

(** The trig tables are as [init_fast_trig_tables] leaves them: a table
    that is present has [trig_table_size] cells, at least one. *)
Definition trig_tables_ok (st : state) : Prop :=
  (forall t, sin_table st = Some t ->
             Z.of_nat (length t) = trig_table_size st /\ 1 <= trig_table_size st)
  /\ (forall t, cos_table st = Some t ->
                Z.of_nat (length t) = trig_table_size st /\ 1 <= trig_table_size st).

(** The helpers return: the lookup stays inside the table. *)
Lemma fast_sin_returns (st : state) (x : float) :
  trig_tables_ok st ->
  (sin_table st <> None -> isfinite x = true -> fmod_in_range x) ->
  exists v, fast_sin L st x = Some v.
Proof.
  intros [Hs _] Hx. unfold fast_sin.
  destruct (sin_table st) as [t|] eqn:Et; [|eauto].
  destruct (isfinite x) eqn:Hf; cbn [negb]; [|eauto].
  destruct (Hs t eq_refl) as [Hl H1].
  apply rd_in_range. rewrite Hl. apply trig_index_range; [exact H1|].
  apply Hx; [discriminate|reflexivity].
Qed.

Lemma fast_cos_returns (st : state) (x : float) :
  trig_tables_ok st ->
  (cos_table st <> None -> isfinite x = true -> fmod_in_range x) ->
  exists v, fast_cos L st x = Some v.
Proof.
  intros [_ Hc] Hx. unfold fast_cos.
  destruct (cos_table st) as [t|] eqn:Et; [|eauto].
  destruct (isfinite x) eqn:Hf; cbn [negb]; [|eauto].
  destruct (Hc t eq_refl) as [Hl H1].
  apply rd_in_range. rewrite Hl. apply trig_index_range; [exact H1|].
  apply Hx; [discriminate|reflexivity].
Qed.

Lemma length_indices (n : Z) : length (indices n) = Z.to_nat n.
Proof. unfold indices. now rewrite length_map, length_seq. Qed.

Lemma init_fast_trig_tables_ok (max_size : Z) (st : state) :
  1 <= max_size -> trig_tables_ok (init_fast_trig_tables L max_size st).
Proof.
  intros H. unfold trig_tables_ok, init_fast_trig_tables. cbn.
  split; intros t Ht; injection Ht as <-; rewrite length_map, length_indices; lia.
Qed.

End Lookups.

(* ===================================================================== *)
(** * The complex pupil *)
(* ===================================================================== *)

Lemma rd_wr {A : Type} (a a' : list A) (j i : Z) (v : A) :
  wr a j v = Some a' -> 0 <= i ->
  rd a' i = if i =? j then Some v else rd a i.
Proof.
  intros Hw Hi. apply wr_Some in Hw as [Hj ->]. unfold rd.
  destruct (Z.ltb_spec i 0); [lia|]. rewrite nth_error_upd_nat.
  destruct (Z.eqb_spec i j) as [->|Hne].
  - rewrite Nat.eqb_refl.
    assert (E : (Z.to_nat j <? length a)%nat = true) by (apply Nat.ltb_lt; lia).
    now rewrite E.
  - assert (E : (Z.to_nat i =? Z.to_nat j)%nat = false) by (apply Nat.eqb_neq; lia).
    now rewrite E.
Qed.

Lemma rd_nth {A : Type} (a : list A) (i : Z) (d : A) :
  0 <= i < Z.of_nat (length a) -> rd a i = Some (nth (Z.to_nat i) a d).
Proof.
  intros Hi. unfold rd. destruct (Z.ltb_spec i 0); [lia|].
  apply nth_error_nth'. lia.
Qed.

Lemma rd_cells {A : Type} (g : nat -> A) (n i : Z) :
  0 <= i < n -> rd (cells g n) i = Some (g (Z.to_nat i)).
Proof.
  intros Hi. unfold rd, cells. destruct (Z.ltb_spec i 0); [lia|].
  rewrite nth_error_map, nth_error_seq.
  assert (E : (Z.to_nat i <? Z.to_nat n)%nat = true) by (apply Nat.ltb_lt; lia).
  now rewrite E.
Qed.

Lemma length_cells {A : Type} (g : nat -> A) (n : Z) :
  0 <= n -> Z.of_nat (length (cells g n)) = n.
Proof. intros H. unfold cells. rewrite length_map, length_seq. lia. Qed.

Section Pupil.

Variable L : Libm.







Lemma prepare_trig_tables_ok (total_size : Z) (st : state) :
  trig_tables_ok st -> 1 <= total_size ->
  trig_tables_ok (prepare_trig_tables L total_size st).
Proof.
  intros Hst Ht. unfold prepare_trig_tables.
  destruct (sin_table st); [|now apply init_fast_trig_tables_ok].
  destruct (trig_table_size st <? total_size); [now apply init_fast_trig_tables_ok|].
  exact Hst.
Qed.

(** Negating the dividend negates the quotient. *)
Lemma binary_round_aux_opp (s : bool) (m e : Z) (l : location) :
  binary_round_aux prec emax (negb s) m e l = SFopp (binary_round_aux prec emax s m e l).
Proof.
  unfold binary_round_aux.
  destruct (shr_fexp prec emax m e l) as [mrs' e'].
  destruct (shr_fexp prec emax _ e' loc_Exact) as [mrs'' e''].
  destruct (shr_m mrs''); [reflexivity| |reflexivity].
  destruct (e'' <=? emax - prec); reflexivity.
Qed.


End Pupil.





(* ===================================================================== *)
(** * The twiddle table *)
(* ===================================================================== *)

Lemma rd_indices (n i : Z) : 0 <= i < n -> rd (indices n) i = Some i.
Proof.
  intros Hi. unfold rd, indices. destruct (Z.ltb_spec i 0); [lia|].
  rewrite nth_error_map, nth_error_seq.
  assert (E : (Z.to_nat i <? Z.to_nat n)%nat = true) by (apply Nat.ltb_lt; lia).
  rewrite E. cbn. f_equal. lia.
Qed.

Section Twiddles.

Variable L : Libm.

Lemma twiddle_entries_returns (st : state) (M : Z) (ixs : list Z) :
  (forall i, In i ixs -> exists w, twiddle_entry L st M i = Some w) ->
  exists tbl, twiddle_entries L st M ixs = Some tbl.
Proof.
  induction ixs as [|i rest IH]; intros H; [now exists []|].
  cbn [twiddle_entries].
  destruct (H i (or_introl eq_refl)) as [w ->].
  destruct IH as [ws ->]; [intros j Hj; apply H; now right|]. eauto.
Qed.

Lemma twiddle_entries_cells (st : state) (M : Z) (ixs : list Z) (tbl : list Complex) :
  twiddle_entries L st M ixs = Some tbl ->
  length tbl = length ixs
  /\ forall k i, nth_error ixs k = Some i ->
                 exists w, twiddle_entry L st M i = Some w /\ nth_error tbl k = Some w.
Proof.
  revert tbl. induction ixs as [|i rest IH]; intros tbl H; cbn [twiddle_entries] in H.
  - injection H as <-. split; [reflexivity|]. intros [|k] j Hk; discriminate Hk.
  - destruct (twiddle_entry L st M i) as [w|] eqn:Ew; [|discriminate].
    destruct (twiddle_entries L st M rest) as [ws|]; [|discriminate].
    injection H as <-. destruct (IH ws eq_refl) as [Hl Hc].
    split; [cbn [length]; now rewrite Hl|].
    intros [|k] j Hk; cbn [nth_error] in *.
    + injection Hk as <-. eauto.
    + now apply Hc.
Qed.

(** [init_twiddle_table] returns: its lookups stay inside the trig tables.
    Cell [i] of the table it builds holds [fast_cos] and [fast_sin] of the
    angle of index [i]. *)
Lemma init_twiddle_table_returns (st : state) (M : Z) :
  trig_tables_ok st ->
  (forall i, 0 <= i < M ->
             sin_table st <> None \/ cos_table st <> None ->
             isfinite (twiddle_angle M i) = true ->
             fmod_in_range L (twiddle_angle M i)) ->
  exists st' tbl,
    init_twiddle_table L M st = Some st'
    /\ twiddle_table st' = Some tbl
    /\ twiddle_table_size st' = M
    /\ Z.of_nat (length tbl) = Z.max 0 M
    /\ forall i, 0 <= i < M ->
         exists c s,
           rd tbl i = Some (mkComplex c s)
           /\ fast_cos L st (twiddle_angle M i) = Some c
           /\ fast_sin L st (twiddle_angle M i) = Some s.
Proof.
  intros Hst Hf.
  assert (Hentry : forall i, 0 <= i < M ->
            exists c s, twiddle_entry L st M i = Some (mkComplex c s)
                        /\ fast_cos L st (twiddle_angle M i) = Some c
                        /\ fast_sin L st (twiddle_angle M i) = Some s).
  { intros i Hi. unfold twiddle_entry.
    destruct (fast_cos_returns L st (twiddle_angle M i) Hst) as [c Hc].
    { intros Hn. apply Hf; auto. }
    destruct (fast_sin_returns L st (twiddle_angle M i) Hst) as [s Hs].
    { intros Hn. apply Hf; auto. }
    rewrite Hc, Hs. eauto. }
  destruct (twiddle_entries_returns st M (indices M)) as [tbl Ht].
  { intros i Hi. unfold indices in Hi. apply in_map_iff in Hi as (k & <- & Hk).
    apply in_seq in Hk. destruct (Hentry (Z.of_nat k) ltac:(lia)) as (c & s & E & _).
    eauto. }
  destruct (twiddle_entries_cells st M (indices M) tbl Ht) as [Hl Hc].
  unfold init_twiddle_table. rewrite Ht.
  eexists _, tbl. split; [reflexivity|]. split; [reflexivity|]. split; [reflexivity|].
  split; [rewrite Hl, length_indices; lia|].
  intros i Hi.
  destruct (Hentry i Hi) as (c & s & E & Ec & Es).
  pose proof (rd_indices M i Hi) as Hix. unfold rd in Hix.
  destruct (Z.ltb_spec i 0); [lia|].
  destruct (Hc _ _ Hix) as (w & Ew & Hw). rewrite E in Ew. injection Ew as <-.
  exists c, s. split; [|split; [exact Ec|exact Es]].
  unfold rd. destruct (Z.ltb_spec i 0); [lia|exact Hw].
Qed.

End Twiddles.

(* ===================================================================== *)
(** * The PSF of an empty pupil *)
(* ===================================================================== *)

(** ** Zeros in double arithmetic *)

(** A zero of either sign; a complex number whose two parts are zeros; one
    whose two parts are finite. *)
Definition fzero (x : float) : bool :=
  match Prim2SF x with
  | S754_zero _ => true
  | _ => false
  end.

Definition czeroish (c : Complex) : bool := fzero (real c) && fzero (imag c).

Definition cfinite (c : Complex) : bool := isfinite (real c) && isfinite (imag c).

Lemma fzero_mul (a b : float) :
  fzero a = true -> isfinite b = true -> fzero (a * b) = true.
Proof.
  unfold fzero. rewrite isfinite_SF, mul_spec. unfold SF64mul.
  destruct (Prim2SF a) as [sa|sa| |sa ma ea]; try discriminate.
  destruct (Prim2SF b) as [sb|sb| |sb mb eb]; try discriminate; reflexivity.
Qed.

Lemma fzero_add (a b : float) :
  fzero a = true -> fzero b = true -> fzero (a + b) = true.
Proof.
  unfold fzero. rewrite add_spec. unfold SF64add.
  destruct (Prim2SF a) as [sa|sa| |sa ma ea]; try discriminate.
  destruct (Prim2SF b) as [sb|sb| |sb mb eb]; try discriminate.
  destruct sa, sb; reflexivity.
Qed.

Lemma fzero_sub (a b : float) :
  fzero a = true -> fzero b = true -> fzero (a - b) = true.
Proof.
  unfold fzero. rewrite sub_spec. unfold SF64sub.
  destruct (Prim2SF a) as [sa|sa| |sa ma ea]; try discriminate.
  destruct (Prim2SF b) as [sb|sb| |sb mb eb]; try discriminate.
  destruct sa, sb; reflexivity.
Qed.

(** The square of a zero is the positive zero, and so is the intensity of a
    complex zero. *)
Lemma intensity_of_zero (c : Complex) :
  czeroish c = true -> (real c * real c + imag c * imag c)%float = 0%float.
Proof.
  unfold czeroish, fzero. intros H. apply andb_prop in H as [Hr Hi].
  apply Prim2SF_inj. rewrite add_spec, !mul_spec, Prim2SF_zero.
  unfold SF64add, SF64mul.
  destruct (Prim2SF (real c)) as [sa|sa| |sa ma ea]; try discriminate.
  destruct (Prim2SF (imag c)) as [sb|sb| |sb mb eb]; try discriminate.
  destruct sa, sb; reflexivity.
Qed.

Lemma czeroish_czero : czeroish czero = true.
Proof. reflexivity. Qed.

(** A butterfly on zeros, with a finite twiddle factor, gives zeros. *)
Lemma butterfly_of_zeros (u x w : Complex) :
  czeroish u = true -> czeroish x = true -> cfinite w = true ->
  czeroish (mkComplex
              (real u + (real x * real w - imag x * imag w))
              (imag u + (real x * imag w + imag x * real w))) = true
  /\ czeroish (mkComplex
                 (real u - (real x * real w - imag x * imag w))
                 (imag u - (real x * imag w + imag x * real w))) = true.
Proof.
  unfold czeroish, cfinite. intros Hu Hx Hw.
  apply andb_prop in Hu as [Hu1 Hu2]. apply andb_prop in Hx as [Hx1 Hx2].
  apply andb_prop in Hw as [Hw1 Hw2]. cbn [real imag].
  split; apply andb_true_intro; split;
    auto using fzero_add, fzero_sub, fzero_mul.
Qed.

(** ** Arrays of zeros *)

(** The first [n] cells of [data] exist and hold zeros. *)
Definition zeros_upto (n : Z) (data : list Complex) : Prop :=
  forall i, 0 <= i < n -> exists c, rd data i = Some c /\ czeroish c = true.

(** The first [n] cells of [tbl] exist and hold finite values. *)
Definition finite_upto (n : Z) (tbl : list Complex) : Prop :=
  forall i, 0 <= i < n -> exists w, rd tbl i = Some w /\ cfinite w = true.

Lemma zeros_upto_wr (n : Z) (data data' : list Complex) (j : Z) (v : Complex) :
  zeros_upto n data -> czeroish v = true -> wr data j v = Some data' ->
  zeros_upto n data'.
Proof.
  intros Hz Hv Hw i Hi. rewrite (rd_wr _ _ _ _ _ Hw) by lia.
  destruct (i =? j); [eauto|apply Hz; exact Hi].
Qed.

Lemma zeros_upto_length (n : Z) (data : list Complex) :
  0 <= n -> zeros_upto n data -> n <= Z.of_nat (length data).
Proof.
  intros Hn Hz. destruct (Z.eq_dec n 0) as [->|]; [lia|].
  destruct (Hz (n - 1) ltac:(lia)) as (c & Hc & _).
  apply rd_Some_range in Hc. lia.
Qed.

Lemma swap_cells_zeros (n : Z) (data : list Complex) (i j : Z) :
  zeros_upto n data -> 0 <= i < n -> 0 <= j < n ->
  exists data', swap_cells data i j = Some data'
                /\ zeros_upto n data' /\ length data' = length data.
Proof.
  intros Hz Hi Hj. unfold swap_cells.
  destruct (Hz i Hi) as (a & Ha & Za). destruct (Hz j Hj) as (b & Hb & Zb).
  rewrite Ha, Hb.
  pose proof (zeros_upto_length n data ltac:(lia) Hz) as Hl.
  pose proof (wr_in_range data i b ltac:(lia)) as W1. rewrite W1.
  pose proof (wr_in_range (upd_nat data (Z.to_nat i) b) j a
                ltac:(rewrite length_upd_nat; lia)) as W2. rewrite W2.
  eexists. split; [reflexivity|]. split.
  - eapply zeros_upto_wr; [|exact Za|exact W2].
    eapply zeros_upto_wr; [exact Hz|exact Zb|exact W1].
  - now rewrite !length_upd_nat.
Qed.

(** ** The bit reversal *)

Lemma lxor_bound (a b k : Z) :
  0 <= k -> 0 <= a < 2 ^ k -> 0 <= b < 2 ^ k -> 0 <= Z.lxor a b < 2 ^ k.
Proof.
  intros Hk Ha Hb.
  assert (H0 : 0 <= Z.lxor a b) by (apply Z.lxor_nonneg; lia).
  split; [exact H0|].
  destruct (Z.eq_dec (Z.lxor a b) 0) as [->|Hn]; [lia|].
  apply Z.log2_lt_pow2; [lia|].
  pose proof (Z.log2_lxor a b ltac:(lia) ltac:(lia)) as Hl.
  assert (La : Z.log2 a < k).
  { destruct (Z.eq_dec a 0) as [->|]; [cbn; 
      destruct (Z.eq_dec k 0) as [->|]; [|lia]|apply Z.log2_lt_pow2; lia].
    exfalso. assert (b = 0) by (change (2 ^ 0) with 1 in Hb; lia). subst b.
    apply Hn. reflexivity. }
  assert (Lb : Z.log2 b < k).
  { destruct (Z.eq_dec b 0) as [->|]; [cbn;
      destruct (Z.eq_dec k 0) as [->|]; [|lia]|apply Z.log2_lt_pow2; lia].
    exfalso. assert (a = 0) by (change (2 ^ 0) with 1 in Ha; lia). subst a.
    apply Hn. reflexivity. }
  lia.
Qed.

Lemma rev_carry_bound (k : Z) (bit : positive) (j : Z) :
  0 <= k -> 0 <= j < 2 ^ k -> Zpos bit < 2 ^ k ->
  0 <= fst (rev_carry bit j) < 2 ^ k /\ 0 <= snd (rev_carry bit j) < 2 ^ k.
Proof.
  intros Hk. revert j.
  induction bit as [p IH|p IH|]; intros j Hj Hb; cbn [rev_carry].
  - destruct (Z.land j (Zpos p~1) =? 0); cbn [fst snd]; [lia|].
    apply IH; [apply lxor_bound; lia|lia].
  - destruct (Z.land j (Zpos p~0) =? 0); cbn [fst snd]; [lia|].
    apply IH; [apply lxor_bound; lia|lia].
  - destruct (Z.land j 1 =? 0); cbn [fst snd]; [lia|].
    pose proof (lxor_bound j 1 k Hk Hj ltac:(lia)). lia.
Qed.

Lemma rev_while_bound (k j bit : Z) :
  0 <= k -> 0 <= j < 2 ^ k -> 0 <= bit < 2 ^ k ->
  0 <= fst (rev_while j bit) < 2 ^ k /\ 0 <= snd (rev_while j bit) < 2 ^ k.
Proof.
  intros Hk Hj Hb. unfold rev_while. destruct bit as [|p|p]; cbn [fst snd]; try lia.
  now apply rev_carry_bound.
Qed.

Lemma bit_reverse_zeros (k off total : Z) (data : list Complex) :
  1 <= k -> 0 <= off -> off + 2 ^ k <= total ->
  zeros_upto total data ->
  exists data', bit_reverse off (2 ^ k) data = Some data'
                /\ zeros_upto total data' /\ length data' = length data.
Proof.
  intros Hk Hoff Htot Hz. unfold bit_reverse.
  assert (Hn : 1 <= 2 ^ k).
  { change 1 with (2 ^ 0) at 1. apply Z.pow_le_mono_r; lia. }
  destruct (for_loop_invariant
              (fun _ (s : Z * list Complex) =>
                 0 <= fst s < 2 ^ k /\ zeros_upto total (snd s)
                 /\ length (snd s) = length data)
              (bit_reverse_body off (2 ^ k)) 1 (2 ^ k) (0, data) Hn)
    as (s & Hrun & Hj & Hs & Hl).
  - cbn [fst snd]. split; [lia|auto].
  - intros i [j d] Hi (Hj & Hd & Hl). cbn [fst snd] in *.
    unfold bit_reverse_body.
    assert (Hbit : 0 <= Z.shiftr (2 ^ k) 1 < 2 ^ k).
    { rewrite Z.shiftr_div_pow2 by lia. change (2 ^ 1) with 2.
      split; [apply Z.div_pos; lia|apply Z.div_lt; lia]. }
    pose proof (rev_while_bound k j (Z.shiftr (2 ^ k) 1) ltac:(lia) Hj Hbit) as [B1 B2].
    destruct (rev_while j (Z.shiftr (2 ^ k) 1)) as [j1 bit1]. cbn [fst snd] in *.
    pose proof (lxor_bound j1 bit1 k ltac:(lia) B1 B2) as B3.
    destruct (i <? Z.lxor j1 bit1).
    + destruct (swap_cells_zeros total d (off + i) (off + Z.lxor j1 bit1) Hd
                                 ltac:(lia) ltac:(lia)) as (d' & -> & Hz' & Hl').
      eexists. split; [reflexivity|]. cbn [fst snd]. split; [lia|].
      split; [exact Hz'|congruence].
    + eexists. split; [reflexivity|]. cbn [fst snd]. auto.
  - rewrite Hrun. eauto.
Qed.

(** ** The butterflies *)

Lemma twiddle_index_range (n step j : Z) (inverse : bool) :
  0 < n -> 0 <= j * step < n -> 0 <= twiddle_index n step j inverse < n.
Proof.
  intros Hn Hj. unfold twiddle_index. destruct inverse.
  - destruct (Z.geb_spec (n - j * step) n); lia.
  - destruct (Z.geb_spec (j * step) n); lia.
Qed.

Section Butterflies.

Variables (tbl : list Complex) (k off total : Z) (inverse : bool).
Hypothesis Hk : 1 <= k.
Hypothesis Hoff : 0 <= off.
Hypothesis Htot : off + 2 ^ k <= total.
Hypothesis Htbl : finite_upto (2 ^ k) tbl.

Lemma butterfly_zeros (len step i j : Z) (data : list Complex) :
  zeros_upto total data ->
  0 <= i -> 0 <= j < Z.quot len 2 -> i + j + Z.quot len 2 < 2 ^ k ->
  0 <= j * step < 2 ^ k ->
  exists data', butterfly tbl off (2 ^ k) len step i inverse j data = Some data'
                /\ zeros_upto total data' /\ length data' = length data.
Proof.
  intros Hz Hi Hj Hr Hs. unfold butterfly. cbv zeta.
  assert (Hn : 0 < 2 ^ k) by (apply Z.pow_pos_nonneg; lia).
  destruct (Htbl _ (twiddle_index_range (2 ^ k) step j inverse Hn Hs)) as (w & -> & Fw).
  destruct (Hz (off + (i + j)) ltac:(lia)) as (u & Hu & Zu).
  destruct (Hz (off + (i + j + Z.quot len 2)) ltac:(lia)) as (x & Hx & Zx).
  rewrite Hu, Hx. cbn [real imag].
  destruct (butterfly_of_zeros u x w Zu Zx Fw) as [Z1 Z2].
  pose proof (zeros_upto_length total data ltac:(lia) Hz) as Hl.
  match goal with
  | |- context [wr data ?a ?v] =>
      pose proof (wr_in_range data a v ltac:(lia)) as W1; rewrite W1
  end.
  match goal with
  | |- context [wr ?d ?a ?v] =>
      pose proof (wr_in_range d a v ltac:(rewrite length_upd_nat; lia)) as W2;
        rewrite W2
  end.
  eexists. split; [reflexivity|]. split.
  - eapply zeros_upto_wr; [|exact Z2|exact W2].
    eapply zeros_upto_wr; [exact Hz|exact Z1|exact W1].
  - now rewrite !length_upd_nat.
Qed.

(** The stage of butterflies of length [2 ^ a]. *)
Section Stage.

Variable a : Z.
Hypothesis Ha : 1 <= a <= k.

Let len := 2 ^ a.
Let step := 2 ^ (k - a).
Let half := 2 ^ (a - 1).

Lemma stage_sizes :
  Z.quot len 2 = half /\ len = 2 * half /\ 0 < half /\ 0 < step
  /\ len * step = 2 ^ k /\ half * step < 2 ^ k.
Proof.
  unfold len, step, half.
  assert (E1 : 2 ^ a = 2 * 2 ^ (a - 1)).
  { rewrite <- Z.pow_succ_r by lia. f_equal. lia. }
  assert (E2 : 2 ^ a * 2 ^ (k - a) = 2 ^ k).
  { rewrite <- Z.pow_add_r by lia. f_equal. lia. }
  assert (P1 : 0 < 2 ^ (a - 1)) by (apply Z.pow_pos_nonneg; lia).
  assert (P2 : 0 < 2 ^ (k - a)) by (apply Z.pow_pos_nonneg; lia).
  split; [|split; [exact E1|split; [exact P1|split; [exact P2|split; [exact E2|]]]]].
  - rewrite Z.quot_div_nonneg by lia. rewrite E1 at 1.
    rewrite Z.mul_comm, Z.div_mul by lia. reflexivity.
  - rewrite <- E2, E1. nia.
Qed.

Lemma group_zeros (i : Z) (data : list Complex) :
  zeros_upto total data -> 0 <= i -> i + len <= 2 ^ k ->
  exists data',
    for_loop 0 (Z.quot len 2) (butterfly tbl off (2 ^ k) len step i inverse) data
    = Some data'
    /\ zeros_upto total data' /\ length data' = length data.
Proof.
  intros Hz Hi Hr.
  destruct stage_sizes as (Eh & El & Ph & Ps & Ens & Hhs).
  destruct (for_loop_invariant
              (fun _ d => zeros_upto total d /\ length d = length data)
              (butterfly tbl off (2 ^ k) len step i inverse)
              0 (Z.quot len 2) data ltac:(lia) (conj Hz eq_refl))
    as (d & Hrun & Hd & Hl).
  - intros j d Hj [Hd Hl].
    destruct (butterfly_zeros len step i j d Hd Hi Hj ltac:(lia)) as (d' & E & Hz' & Hl').
    + rewrite Eh in Hj. nia.
    + exists d'. split; [exact E|]. split; [exact Hz'|congruence].
  - exists d. auto.
Qed.

Lemma groups_zeros (fuel : nat) (c : Z) (data : list Complex) :
  zeros_upto total data ->
  0 <= c <= step -> step - c <= Z.of_nat fuel ->
  exists data',
    groups tbl off (2 ^ k) len step inverse fuel (c * len) data = Some data'
    /\ zeros_upto total data' /\ length data' = length data.
Proof.
  destruct stage_sizes as (Eh & El & Ph & Ps & Ens & Hhs).
  revert c data. induction fuel as [|fuel IH]; intros c data Hz Hc Hf.
  - assert (c = step) by lia. subst c. cbn [groups].
    destruct (Z.ltb_spec (step * len) (2 ^ k)); [nia|]. eauto.
  - cbn [groups]. destruct (Z.ltb_spec (c * len) (2 ^ k)) as [Hlt|Hge]; [|eauto].
    assert (c < step) by nia.
    destruct (group_zeros (c * len) data Hz ltac:(nia) ltac:(nia)) as (d & -> & Hd & Hl).
    replace (c * len + len) with ((c + 1) * len) by ring.
    destruct (IH (c + 1) d Hd ltac:(lia) ltac:(lia)) as (d' & E & Hd' & Hl').
    exists d'. split; [exact E|]. split; [exact Hd'|congruence].
Qed.

End Stage.

Lemma stages_zeros (fuel : nat) (a : Z) (data : list Complex) :
  zeros_upto total data ->
  1 <= a <= k + 1 -> k + 1 - a <= Z.of_nat fuel ->
  exists data',
    stages tbl off (2 ^ k) inverse fuel (2 ^ a) data = Some data'
    /\ zeros_upto total data' /\ length data' = length data.
Proof.
  revert a data. induction fuel as [|fuel IH]; intros a data Hz Ha Hf.
  - assert (a = k + 1) by lia. subst a. cbn [stages].
    destruct (Z.leb_spec (2 ^ (k + 1)) (2 ^ k)) as [Hle|]; [|eauto].
    apply Z.pow_le_mono_r_iff in Hle; lia.
  - cbn [stages]. destruct (Z.leb_spec (2 ^ a) (2 ^ k)) as [Hle|Hgt]; [|eauto].
    apply Z.pow_le_mono_r_iff in Hle; [|lia|lia].
    assert (Hal : 1 <= a <= k) by lia.
    assert (Eq : Z.quot (2 ^ k) (2 ^ a) = 2 ^ (k - a)).
    { rewrite Z.quot_div_nonneg by (try apply Z.pow_pos_nonneg; try apply Z.pow_nonneg; lia).
      symmetry. apply Z.pow_sub_r; lia. }
    cbv zeta. rewrite Eq.
    destruct (stage_sizes a Hal) as (Eh & El & Ph & Ps & Ens & Hhs).
    pose proof (groups_zeros a Hal (Z.to_nat (2 ^ k)) 0 data Hz) as G.
    cbn [Z.mul] in G.
    destruct G as (d & -> & Hd & Hl).
    { lia. }
    { assert (0 < 2 ^ a) by (apply Z.pow_pos_nonneg; lia).
      assert (2 ^ (k - a) <= 2 ^ k) by (apply Z.pow_le_mono_r; lia).
      lia. }
    replace (Z.shiftl (2 ^ a) 1) with (2 ^ (a + 1)).
    + destruct (IH (a + 1) d Hd ltac:(lia) ltac:(lia)) as (d' & E & Hd' & Hl').
      exists d'. split; [exact E|]. split; [exact Hd'|congruence].
    + rewrite Z.shiftl_mul_pow2 by lia. rewrite Z.pow_add_r by lia. reflexivity.
Qed.

End Butterflies.

(** ** The 1D FFT of a row of zeros *)

Lemma fft_1d_zeros (L : Libm) (st st2 : state) (tbl data : list Complex)
      (k off total : Z) :
  1 <= k -> 0 <= off -> off + 2 ^ k <= total ->
  ensure_twiddle_table L (2 ^ k) st = Some st2 ->
  twiddle_table st2 = Some tbl ->
  finite_upto (2 ^ k) tbl ->
  zeros_upto total data ->
  exists data', fft_1d L st data off (2 ^ k) false = Some (st2, data')
                /\ zeros_upto total data' /\ length data' = length data.
Proof.
  intros Hk Hoff Htot He Ht Hf Hz. unfold fft_1d.
  assert (H2 : 2 ^ 1 <= 2 ^ k) by (apply Z.pow_le_mono_r; lia).
  change (2 ^ 1) with 2 in H2.
  destruct (Z.leb_spec (2 ^ k) 1); [lia|].
  rewrite He, Ht.
  destruct (bit_reverse_zeros k off total data Hk Hoff Htot Hz) as (d1 & -> & Hz1 & Hl1).
  pose proof (Z.pow_gt_lin_r 2 k ltac:(lia) ltac:(lia)) as Hlin.
  destruct (stages_zeros tbl k off total false Hk Hoff Htot Hf
                         (Z.to_nat (2 ^ k)) 1 d1 Hz1 ltac:(lia) ltac:(lia))
    as (d2 & E2 & Hz2 & Hl2).
  change (2 ^ 1) with 2 in E2. rewrite E2. cbn [normalize].
  exists d2. split; [reflexivity|]. split; [exact Hz2|congruence].
Qed.

(** ** The rows *)

Lemma init_twiddle_table_table (L : Libm) (n : Z) (st st2 : state) :
  init_twiddle_table L n st = Some st2 ->
  twiddle_table st2 <> None /\ twiddle_table_size st2 = n.
Proof.
  unfold init_twiddle_table. destruct (twiddle_entries L st n (indices n)); [|discriminate].
  intros H. injection H as <-. cbn. split; [discriminate|reflexivity].
Qed.

(** Once the table is large enough, the check leaves the state as it is. *)
Lemma ensure_twiddle_table_idem (L : Libm) (n : Z) (st st2 : state) :
  ensure_twiddle_table L n st = Some st2 ->
  ensure_twiddle_table L n st2 = Some st2.
Proof.
  unfold ensure_twiddle_table at 1. intros H.
  assert (G : twiddle_table st2 <> None /\ ~ twiddle_table_size st2 < n).
  { destruct (twiddle_table st) as [t|] eqn:Et.
    - destruct (Z.ltb_spec (twiddle_table_size st) n).
      + apply init_twiddle_table_table in H as [H1 H2]. split; [exact H1|lia].
      + injection H as <-. rewrite Et. split; [discriminate|lia].
    - apply init_twiddle_table_table in H as [H1 H2]. split; [exact H1|lia]. }
  destruct G as [G1 G2]. unfold ensure_twiddle_table.
  destruct (twiddle_table st2); [|contradiction].
  destruct (Z.ltb_spec (twiddle_table_size st2) n); [lia|reflexivity].
Qed.

Lemma fft_rows_zeros (L : Libm) (st st2 : state) (tbl data : list Complex)
      (k rows total : Z) :
  0 <= k -> 0 <= rows -> rows * 2 ^ k <= total ->
  (1 <= k -> ensure_twiddle_table L (2 ^ k) st = Some st2
             /\ twiddle_table st2 = Some tbl /\ finite_upto (2 ^ k) tbl) ->
  zeros_upto total data ->
  exists s', fft_rows L rows (2 ^ k) false (st, data) = Some s'
             /\ (1 <= k -> ensure_twiddle_table L (2 ^ k) (fst s') = Some st2)
             /\ (k = 0 -> fst s' = st)
             /\ zeros_upto total (snd s') /\ length (snd s') = length data.
Proof.
  intros Hk Hrows Htot Htw Hz. unfold fft_rows.
  assert (Hn : 0 < 2 ^ k) by (apply Z.pow_pos_nonneg; lia).
  destruct (for_loop_invariant
              (fun _ (s : state * list Complex) =>
                 (1 <= k -> ensure_twiddle_table L (2 ^ k) (fst s) = Some st2)
                 /\ (k = 0 -> fst s = st)
                 /\ zeros_upto total (snd s) /\ length (snd s) = length data)
              (fun i s => fft_1d L (fst s) (snd s) (i * 2 ^ k) (2 ^ k) false)
              0 rows (st, data) Hrows) as (s' & Hrun & Hs').
  - cbn [fst snd]. split; [intros H1; apply (Htw H1)|auto].
  - intros i [s d] Hi (He & H0 & Hd & Hl). cbn [fst snd] in *.
    destruct (Z.eq_dec k 0) as [E0|N0].
    + subst k. unfold fft_1d. cbn. eexists. split; [reflexivity|]. cbn [fst snd].
      split; [intros; lia|auto].
    + destruct (Htw ltac:(lia)) as (_ & Ht & Hf).
      destruct (fft_1d_zeros L s st2 tbl d k (i * 2 ^ k) total
                             ltac:(lia) ltac:(nia) ltac:(nia) (He ltac:(lia)) Ht Hf Hd)
        as (d' & E & Hd' & Hl').
      exists (st2, d'). split; [exact E|]. cbn [fst snd].
      split; [intros _; eapply ensure_twiddle_table_idem, (He ltac:(lia))|].
      split; [intros; lia|]. split; [exact Hd'|congruence].
  - exists s'. split; [exact Hrun|exact Hs'].
Qed.

(** ** The transposition *)

Lemma for_step_invariant {St : Type} (P : Z -> St -> Prop)
      (body : Z -> St -> option St) (step hi : Z) (fuel : nat) (i : Z) (s : St) :
  0 < step ->
  P i s ->
  (forall x t, i <= x < hi -> P x t ->
               exists t', body x t = Some t' /\ P (x + step) t') ->
  hi - i <= Z.of_nat fuel ->
  exists s' x, for_step fuel i hi step body s = Some s' /\ hi <= x /\ P x s'.
Proof.
  intros Hstep. revert i s. induction fuel as [|fuel IH]; intros i s H0 Hb Hf.
  - cbn [for_step]. destruct (Z.ltb_spec i hi); [lia|]. exists s, i. auto.
  - cbn [for_step]. destruct (Z.ltb_spec i hi) as [Hlt|Hge]; [|exists s, i; auto].
    destruct (Hb i s ltac:(lia) H0) as (t & -> & Ht).
    apply (IH (i + step) t Ht); [|lia].
    intros x u Hx Hu. apply Hb; [lia|exact Hu].
Qed.

Section Transpose.

Variables (src : list Complex) (width height : Z) (len : nat).
Hypothesis Hw : 0 <= width.
Hypothesis Hh : 0 <= height.
Hypothesis Hsrc : zeros_upto (width * height) src.
Hypothesis Hlen : width * height <= Z.of_nat len.

(** The cells of the destination, among those the region [R] of the source
    maps to, hold zeros. *)
Definition transposed (R : Z -> Z -> Prop) (dst : list Complex) : Prop :=
  length dst = len
  /\ forall ii jj, 0 <= ii < height -> 0 <= jj < width -> R ii jj ->
                   exists c, rd dst (jj * height + ii) = Some c /\ czeroish c = true.

Lemma transpose_cell_zeros (R : Z -> Z -> Prop) (ii jj : Z) (dst : list Complex) :
  transposed R dst -> 0 <= ii < height -> 0 <= jj < width ->
  exists dst', transpose_cell src width height ii jj dst = Some dst'
               /\ transposed (fun a b => R a b \/ (a = ii /\ b = jj)) dst'.
Proof.
  intros [Hl HR] Hi Hj. unfold transpose_cell.
  destruct (Hsrc (ii * width + jj) ltac:(nia)) as (c & -> & Zc).
  pose proof (wr_in_range dst (jj * height + ii) c ltac:(rewrite Hl; nia)) as W.
  rewrite W. eexists. split; [reflexivity|]. split.
  - now rewrite length_upd_nat.
  - intros a b Ha Hb Hab. rewrite (rd_wr _ _ _ _ _ W) by nia.
    destruct (Z.eqb_spec (b * height + a) (jj * height + ii)) as [E|N]; [eauto|].
    destruct Hab as [Hab|[-> ->]]; [now apply HR|contradiction].
Qed.

Lemma transposed_weaken (R R' : Z -> Z -> Prop) (dst : list Complex) :
  (forall a b, 0 <= a < height -> 0 <= b < width -> R' a b -> R a b) ->
  transposed R dst -> transposed R' dst.
Proof. intros H [Hl HR]. split; [exact Hl|]. intros a b Ha Hb Hab. apply HR; auto. Qed.

Lemma transpose_row_zeros (R : Z -> Z -> Prop) (ii j max_j : Z) (dst : list Complex) :
  transposed R dst -> 0 <= ii < height -> 0 <= j <= max_j -> max_j <= width ->
  exists dst',
    for_loop j max_j (transpose_cell src width height ii) dst = Some dst'
    /\ transposed (fun a b => R a b \/ (a = ii /\ j <= b < max_j)) dst'.
Proof.
  intros HR Hi Hj Hm.
  destruct (for_loop_invariant
              (fun jj d => transposed (fun a b => R a b \/ (a = ii /\ j <= b < jj)) d)
              (transpose_cell src width height ii) j max_j dst ltac:(lia))
    as (d & Hrun & Hd).
  - eapply transposed_weaken; [|exact HR]. intros a b _ _ [H|[_ H]]; [exact H|lia].
  - intros jj d Hjj Hd.
    destruct (transpose_cell_zeros _ ii jj d Hd Hi ltac:(lia)) as (d' & E & Hd').
    exists d'. split; [exact E|].
    eapply transposed_weaken; [|exact Hd'].
    intros a b _ _ [H|[Ha Hb]]; [auto|].
    destruct (Z.eq_dec b jj) as [->|]; [auto|]. left. right. lia.
  - eauto.
Qed.

Lemma transpose_block_zeros (R : Z -> Z -> Prop) (BS i j : Z) (dst : list Complex) :
  transposed R dst -> 0 < BS -> 0 <= i < height -> 0 <= j < width ->
  exists dst',
    transpose_block src width height BS i j dst = Some dst'
    /\ transposed (fun a b => R a b \/ (i <= a < i + BS /\ j <= b < j + BS)) dst'.
Proof.
  intros HR HB Hi Hj. unfold transpose_block.
  set (max_i := if i + BS <? height then i + BS else height).
  set (max_j := if j + BS <? width then j + BS else width).
  assert (Hmi : i <= max_i <= height /\ (max_i = i + BS \/ max_i = height)).
  { unfold max_i. destruct (Z.ltb_spec (i + BS) height); lia. }
  assert (Hmj : j <= max_j <= width /\ (max_j = j + BS \/ max_j = width)).
  { unfold max_j. destruct (Z.ltb_spec (j + BS) width); lia. }
  destruct (for_loop_invariant
              (fun ii d => transposed
                             (fun a b => R a b \/ (i <= a < ii /\ j <= b < max_j)) d)
              (fun ii d => for_loop j max_j (transpose_cell src width height ii) d)
              i max_i dst ltac:(lia)) as (d & Hrun & Hd).
  - eapply transposed_weaken; [|exact HR]. intros a b _ _ [H|[H _]]; [exact H|lia].
  - intros ii d Hii Hd.
    destruct (transpose_row_zeros _ ii j max_j d Hd ltac:(lia) ltac:(lia) ltac:(lia))
      as (d' & E & Hd').
    exists d'. split; [exact E|].
    eapply transposed_weaken; [|exact Hd'].
    intros a b _ _ [H|[Ha Hb]]; [auto|].
    destruct (Z.eq_dec a ii) as [->|]; [auto|]. left. right. lia.
  - exists d. split; [exact Hrun|].
    eapply transposed_weaken; [|exact Hd].
    intros a b Ha Hb [H|[Ha' Hb']]; [auto|]. right. lia.
Qed.

Lemma transpose_complex_zeros (dst : list Complex) :
  length dst = len ->
  exists dst', transpose_complex src dst width height = Some dst'
               /\ zeros_upto (width * height) dst' /\ length dst' = len.
Proof.
  intros Hl. unfold transpose_complex.
  set (BS := if (width >=? 256) && (height >=? 256) then 64 else 32).
  assert (HB : 0 < BS) by (unfold BS; destruct (_ && _); lia).
  destruct (for_step_invariant
              (fun i d => transposed (fun a b => a < i) d)
              (fun i d => for_step (Z.to_nat width) 0 width BS
                            (transpose_block src width height BS i) d)
              BS height (Z.to_nat height) 0 dst HB)
    as (d & x & Hrun & Hx & Hd & HR).
  - split; [exact Hl|]. intros a b Ha Hb Hab. lia.
  - intros i d Hi Hd.
    destruct (for_step_invariant
                (fun j d => transposed (fun a b => a < i \/ (i <= a < i + BS /\ b < j)) d)
                (transpose_block src width height BS i)
                BS width (Z.to_nat width) 0 d HB)
      as (d' & y & Hrun & Hy & Hd').
    + eapply transposed_weaken; [|exact Hd]. intros a b _ Hb [H|[_ H]]; [exact H|lia].
    + intros j t Hj Ht.
      destruct (transpose_block_zeros _ BS i j t Ht HB ltac:(lia) ltac:(lia))
        as (t' & E & Ht').
      exists t'. split; [exact E|].
      eapply transposed_weaken; [|exact Ht'].
      intros a b _ _ [H|[Ha Hb]]; [auto|].
      destruct (Z.lt_ge_cases b j); [left; right; lia|right; lia].
    + lia.
    + exists d'. split; [exact Hrun|].
      eapply transposed_weaken; [|exact Hd'].
      intros a b _ Hb Hab.
      destruct (Z.lt_ge_cases a i); [left; lia|right; lia].
  - lia.
  - exists d. split; [exact Hrun|]. split; [|exact Hd].
    intros idx Hidx.
    assert (0 < height) by nia.
    pose proof (Z.div_mod idx height ltac:(lia)) as Dm.
    pose proof (Z.mod_pos_bound idx height ltac:(lia)) as Mb.
    assert (0 <= idx / height < width).
    { split; [apply Z.div_pos; lia|apply Z.div_lt_upper_bound; nia]. }
    destruct (HR (idx mod height) (idx / height) Mb ltac:(lia) ltac:(lia))
      as (c & Hc & Zc).
    exists c. split; [|exact Zc]. rewrite <- Hc. f_equal. lia.
Qed.

End Transpose.

(** ** The 2D FFT *)

(** The scratch buffer, when held, has [fft_temp_capacity] cells. *)
Definition scratch_ok (st : state) : Prop :=
  forall b, fft_temp_buffer st = Some b -> Z.of_nat (length b) = fft_temp_capacity st.

(** Two states that hold the same twiddle and trig tables. *)
Definition same_tables (st st1 : state) : Prop :=
  twiddle_table st1 = twiddle_table st
  /\ twiddle_table_size st1 = twiddle_table_size st
  /\ sin_table st1 = sin_table st
  /\ cos_table st1 = cos_table st
  /\ trig_table_size st1 = trig_table_size st.

Lemma ensure_fft_temp_buffer_tables (malloc : block Complex) (need : Z) (st : state) :
  same_tables st (ensure_fft_temp_buffer malloc need st).
Proof.
  unfold ensure_fft_temp_buffer, same_tables.
  destruct (fft_temp_capacity st <? need); [|auto 6].
  destruct (fft_temp_buffer st), malloc; cbn; auto 6.
Qed.

Lemma ensure_fft_temp_buffer_length (malloc : block Complex) (need : Z) (st : state)
      (tmp : list Complex) :
  0 <= need -> scratch_ok st ->
  fft_temp_buffer (ensure_fft_temp_buffer malloc need st) = Some tmp ->
  need <= Z.of_nat (length tmp).
Proof.
  intros Hn Hs. unfold ensure_fft_temp_buffer.
  destruct (Z.ltb_spec (fft_temp_capacity st) need) as [Hlt|Hge].
  - destruct malloc as [g|]; cbn.
    + intros H. injection H as <-. unfold cells. rewrite length_map, length_seq. lia.
    + discriminate.
  - intros H. rewrite (Hs tmp H). exact Hge.
Qed.

Lemma twiddle_entries_same (L : Libm) (st st1 : state) (M : Z) (ixs : list Z) :
  same_tables st st1 -> twiddle_entries L st1 M ixs = twiddle_entries L st M ixs.
Proof.
  intros (_ & _ & Hs & Hc & Hn).
  induction ixs as [|i rest IH]; [reflexivity|].
  cbn [twiddle_entries]. rewrite IH.
  replace (twiddle_entry L st1 M i) with (twiddle_entry L st M i); [reflexivity|].
  unfold twiddle_entry, fast_cos, fast_sin, trig_index. now rewrite Hs, Hc, Hn.
Qed.

Lemma ensure_twiddle_table_same (L : Libm) (n : Z) (st st1 st2 : state) :
  same_tables st st1 ->
  ensure_twiddle_table L n st = Some st2 ->
  exists st2', ensure_twiddle_table L n st1 = Some st2'
               /\ twiddle_table st2' = twiddle_table st2.
Proof.
  intros Hs. pose proof (twiddle_entries_same L st st1 n (indices n) Hs) as He.
  destruct Hs as (Ht & Hz & _).
  unfold ensure_twiddle_table, init_twiddle_table. rewrite Ht, Hz, He.
  destruct (twiddle_table st) as [t|] eqn:Et.
  - destruct (twiddle_table_size st <? n).
    + destruct (twiddle_entries L st n (indices n)); [|discriminate].
      intros H. injection H as <-. eexists. split; reflexivity.
    + intros H. injection H as <-. eexists. split; [reflexivity|congruence].
  - destruct (twiddle_entries L st n (indices n)); [|discriminate].
    intros H. injection H as <-. eexists. split; reflexivity.
Qed.

Lemma finite_upto_of_forallb (n : Z) (tbl : list Complex) :
  n <= Z.of_nat (length tbl) -> forallb cfinite tbl = true -> finite_upto n tbl.
Proof.
  intros Hn Hf i Hi. destruct (rd_in_range tbl i ltac:(lia)) as [w Hw].
  exists w. split; [exact Hw|].
  rewrite forallb_forall in Hf. apply Hf.
  unfold rd in Hw. destruct (i <? 0); [discriminate|].
  eapply nth_error_In, Hw.
Qed.

(** The twiddle table the FFT of length [n] finds or builds in the state
    [st] is returned, has at least [n] cells, and holds finite values. *)
Definition fft_twiddles_ready (L : Libm) (n : Z) (st : state) : Prop :=
  exists st2 tbl,
    ensure_twiddle_table L n st = Some st2
    /\ twiddle_table st2 = Some tbl
    /\ n <= Z.of_nat (length tbl)
    /\ forallb cfinite tbl = true.

Lemma fft_2d_zeros (L : Libm) (malloc : block Complex) (st : state)
      (data : list Complex) (k : Z) :
  0 <= k -> scratch_ok st ->
  (1 <= k -> fft_twiddles_ready L (2 ^ k) st) ->
  zeros_upto (2 ^ k * 2 ^ k) data ->
  exists s', fft_2d L malloc st data (2 ^ k) (2 ^ k) false = Some s'
             /\ zeros_upto (2 ^ k * 2 ^ k) (snd s')
             /\ length (snd s') = length data.
Proof.
  intros Hk Hs Htw Hz. unfold fft_2d. cbv zeta.
  assert (Hn : 0 < 2 ^ k) by (apply Z.pow_pos_nonneg; lia).
  pose proof (ensure_fft_temp_buffer_tables malloc (2 ^ k * 2 ^ k) st) as Hsame.
  pose proof (ensure_fft_temp_buffer_length malloc (2 ^ k * 2 ^ k) st) as Hlen.
  set (st1 := ensure_fft_temp_buffer malloc (2 ^ k * 2 ^ k) st) in *.
  destruct (fft_temp_buffer st1) as [tmp|] eqn:Etmp.
  2:{ eexists. split; [reflexivity|]. cbn [snd]. auto. }
  specialize (Hlen tmp ltac:(nia) Hs eq_refl).
  (* the twiddle table, in the state that holds the scratch buffer *)
  assert (Htw1 : exists st2 tbl,
             1 <= k -> ensure_twiddle_table L (2 ^ k) st1 = Some st2
                       /\ twiddle_table st2 = Some tbl /\ finite_upto (2 ^ k) tbl).
  { destruct (Z.le_gt_cases 1 k) as [H1|H1].
    - destruct (Htw H1) as (st2 & tbl & E & Et & Hl & Hf).
      destruct (ensure_twiddle_table_same L (2 ^ k) st st1 st2 Hsame E) as (st2' & E' & Et').
      exists st2', tbl. intros _. split; [exact E'|]. split; [congruence|].
      now apply finite_upto_of_forallb.
    - exists st, []. intros H. lia. }
  destruct Htw1 as (st2 & tbl & Htw1).
  destruct (fft_rows_zeros L st1 st2 tbl data k (2 ^ k) (2 ^ k * 2 ^ k) Hk ltac:(lia) ltac:(lia) Htw1 Hz)
    as (s1 & -> & He1 & _ & Hz1 & Hl1).
  destruct (transpose_complex_zeros (snd s1) (2 ^ k) (2 ^ k) (length tmp) ltac:(lia) ltac:(lia)
                                    Hz1 Hlen tmp eq_refl) as (tmp1 & -> & Hzt & Hlt).
  assert (Htw2 : 1 <= k -> ensure_twiddle_table L (2 ^ k) (fst s1) = Some st2
                           /\ twiddle_table st2 = Some tbl /\ finite_upto (2 ^ k) tbl).
  { intros H1. destruct (Htw1 H1) as (_ & Et & Hf). auto. }
  destruct (fft_rows_zeros L (fst s1) st2 tbl tmp1 k (2 ^ k) (2 ^ k * 2 ^ k) Hk ltac:(lia) ltac:(lia)
                           Htw2 Hzt) as (s2 & -> & _ & _ & Hz2 & Hl2).
  pose proof (zeros_upto_length (2 ^ k * 2 ^ k) (snd s1) ltac:(nia) Hz1) as Hls.
  destruct (transpose_complex_zeros (snd s2) (2 ^ k) (2 ^ k) (length (snd s1)) ltac:(lia) ltac:(lia)
                                    Hz2 Hls (snd s1) eq_refl) as (d' & -> & Hzd & Hld).
  eexists. split; [reflexivity|]. cbn [snd]. split; [exact Hzd|congruence].
Qed.

(** ** Intensity and quadrant swap *)

Lemma intensity_zeros (data : list Complex) (total : Z) (g : nat -> float) :
  0 <= total -> zeros_upto total data ->
  exists psf,
    for_loop 0 total (intensity_cell data) (cells g total) = Some psf
    /\ Z.of_nat (length psf) = total
    /\ forall i, 0 <= i < total -> rd psf i = Some 0%float.
Proof.
  intros Ht Hz.
  destruct (for_loop_invariant
              (fun i psf => Z.of_nat (length psf) = total
                            /\ forall x, 0 <= x < i -> rd psf x = Some 0%float)
              (intensity_cell data) 0 total (cells g total) Ht)
    as (psf & Hrun & Hl & Hp).
  - split; [now apply length_cells|]. intros x Hx. lia.
  - intros i psf Hi [Hl Hp]. unfold intensity_cell.
    destruct (Hz i Hi) as (c & -> & Zc).
    rewrite (intensity_of_zero c Zc).
    pose proof (wr_in_range psf i 0%float ltac:(lia)) as W. rewrite W.
    eexists. split; [reflexivity|]. split; [now rewrite length_upd_nat|].
    intros x Hx. rewrite (rd_wr _ _ _ _ _ W) by lia.
    destruct (Z.eqb_spec x i); [reflexivity|]. apply Hp. lia.
  - exists psf. auto.
Qed.

Lemma swap_cells_same {A : Type} (v : A) (n : Z) (data : list A) (i j : Z) :
  Z.of_nat (length data) = n ->
  (forall x, 0 <= x < n -> rd data x = Some v) ->
  0 <= i < n -> 0 <= j < n ->
  exists data', swap_cells data i j = Some data'
                /\ Z.of_nat (length data') = n
                /\ forall x, 0 <= x < n -> rd data' x = Some v.
Proof.
  intros Hl Hv Hi Hj. unfold swap_cells. rewrite (Hv i Hi), (Hv j Hj).
  pose proof (wr_in_range data i v ltac:(lia)) as W1. rewrite W1.
  pose proof (wr_in_range (upd_nat data (Z.to_nat i) v) j v
                ltac:(rewrite length_upd_nat; lia)) as W2. rewrite W2.
  eexists. split; [reflexivity|]. split; [now rewrite !length_upd_nat|].
  intros x Hx. rewrite (rd_wr _ _ _ _ _ W2) by lia.
  destruct (x =? j); [reflexivity|].
  rewrite (rd_wr _ _ _ _ _ W1) by lia.
  destruct (x =? i); [reflexivity|]. now apply Hv.
Qed.

Lemma fft_shift_zeros (psf : list float) (size : Z) :
  0 <= size ->
  Z.of_nat (length psf) = size * size ->
  (forall x, 0 <= x < size * size -> rd psf x = Some 0%float) ->
  exists psf', fft_shift psf size = Some psf'
               /\ Z.of_nat (length psf') = size * size
               /\ forall x, 0 <= x < size * size -> rd psf' x = Some 0%float.
Proof.
  intros Hs Hl Hv. unfold fft_shift. cbv zeta.
  rewrite Z.quot_div_nonneg by lia.
  pose proof (Z.div_mod size 2 ltac:(lia)) as Dm.
  pose proof (Z.mod_pos_bound size 2 ltac:(lia)) as Mb.
  set (half := size / 2) in *.
  assert (Hh : 0 <= half) by (apply Z.div_pos; lia).
  set (Q := fun (_ : Z) (d : list float) =>
              Z.of_nat (length d) = size * size
              /\ forall x, 0 <= x < size * size -> rd d x = Some 0%float).
  destruct (for_loop_invariant Q
              (fun i d => for_loop 0 half (fft_shift_cell size half i) d)
              0 half psf Hh (conj Hl Hv)) as (d & Hrun & Hd).
  - intros i d Hi Hd.
    destruct (for_loop_invariant Q (fft_shift_cell size half i) 0 half d Hh Hd)
      as (d' & Hrun & Hd').
    + intros j t Hj [Htl Htv]. unfold fft_shift_cell.
      destruct (swap_cells_same 0%float (size * size) t
                  (i * size + j) ((i + half) * size + (j + half)) Htl Htv
                  ltac:(nia) ltac:(nia)) as (t1 & -> & Hl1 & Hv1).
      destruct (swap_cells_same 0%float (size * size) t1
                  (i * size + (j + half)) ((i + half) * size + j) Hl1 Hv1
                  ltac:(nia) ltac:(nia)) as (t2 & -> & Hl2 & Hv2).
      exists t2. split; [reflexivity|]. split; assumption.
    + exists d'. auto.
  - exists d. destruct Hd. auto.
Qed.

Lemma for_loop_skip {St : Type} (body : Z -> St -> option St) (lo hi : Z) (s : St) :
  (forall k t, body k t = Some t) -> for_loop lo hi body s = Some s.
Proof.
  intros H. unfold for_loop. generalize (Z.to_nat (hi - lo)) as n. intros n.
  revert lo. induction n as [|n IH]; intros lo; [reflexivity|].
  cbn [for_range]. rewrite H. apply IH.
Qed.

(** C9, as the code has it.  With a NULL [pupil_mask], a grid size [2 ^ k]
    for which the size [4 * 2 ^ k * 2 ^ k] of the trig table is an [int],
    both allocations of the entry point successful, and a twiddle table of
    finite values (what the FFT finds or builds once the trig tables are
    prepared; a grid of one cell needs none), [calculate_psf_grid_wasm]
    returns an intensity array of [2 ^ k * 2 ^ k] cells that all hold exactly
    0, whatever the OPD and amplitude arrays, the wavelength, the contents of
    the fresh blocks, and whether or not the scratch buffer could grow. *)
Theorem null_mask_psf_is_zero (L : Libm) (g : nat -> float)
        (malloc_tmp : block Complex) (st : state)
        (grid_opd amplitude : option (list float)) (k : Z) (wavelength : float) :
  0 <= k <= 14 ->
  scratch_ok st ->
  (1 <= k ->
   fft_twiddles_ready L (2 ^ k) (prepare_trig_tables L (2 ^ k * 2 ^ k) st)) ->
  exists st' psf,
    calculate_psf_grid_wasm L true (Some g) malloc_tmp st
                            grid_opd amplitude None (2 ^ k) wavelength
    = Some (st', Some psf)
    /\ Z.of_nat (length psf) = 2 ^ k * 2 ^ k
    /\ forall i, 0 <= i < 2 ^ k * 2 ^ k -> rd psf i = Some 0%float.
Proof.
  intros Hk Hs Htw. unfold calculate_psf_grid_wasm. cbv zeta.
  assert (Hn : 0 < 2 ^ k) by (apply Z.pow_pos_nonneg; lia).
  set (st1 := prepare_trig_tables L (2 ^ k * 2 ^ k) st) in *.
  unfold grid_pupil. cbv zeta.
  rewrite for_loop_skip by reflexivity.
  assert (Hz : zeros_upto (2 ^ k * 2 ^ k) (cells (fun _ => czero) (2 ^ k * 2 ^ k))).
  { intros i Hi. exists czero. split; [now apply rd_cells|reflexivity]. }
  assert (Hs1 : scratch_ok st1).
  { unfold st1, prepare_trig_tables, init_fast_trig_tables.
    destruct (sin_table st); [destruct (trig_table_size st <? 2 ^ k * 2 ^ k)|]; exact Hs. }
  destruct (fft_2d_zeros L malloc_tmp st1 _ k ltac:(lia) Hs1 Htw Hz)
    as (s2 & -> & Hz2 & _).
  destruct (intensity_zeros (snd s2) (2 ^ k * 2 ^ k) g ltac:(nia) Hz2) as (psf & -> & Hl & Hv).
  destruct (fft_shift_zeros psf (2 ^ k) ltac:(lia) Hl Hv) as (psf' & -> & Hl' & Hv').
  eauto.
Qed.

(** A 4 x 4 grid in the initial state, the fresh blocks holding 7s. *)
Lemma null_mask_psf_is_zero_witness :
  exists st' psf,
    calculate_psf_grid_wasm RefLibm.libm true (Some (fun _ => 7%float))
                            (Some (fun _ => mkComplex 7 7)) initial_state
                            (Some [0.25; 0.5]%float) None None (2 ^ 2) 0.5%float
    = Some (st', Some psf)
    /\ Z.of_nat (length psf) = 2 ^ 2 * 2 ^ 2
    /\ forall i, 0 <= i < 2 ^ 2 * 2 ^ 2 -> rd psf i = Some 0%float.
Proof.
  apply (null_mask_psf_is_zero RefLibm.libm (fun _ => 7%float)
           (Some (fun _ => mkComplex 7 7)) initial_state
           (Some [0.25; 0.5]%float) None 2 0.5%float).
  - lia.
  - intros b Hb. discriminate Hb.
  - intros _. unfold fft_twiddles_ready.
    eexists _, _. split; [vm_compute; reflexivity|].
    split; [reflexivity|]. split; [vm_compute; discriminate|reflexivity].
Defined.

(** C9 as stated fails for a grid size that is not a power of two.  For a
    3 x 3 grid the FFT of the last row, [fft_1d(data + 6, 3, 0)], runs, in
    its stage of length 2, the butterfly of the group that starts at [i = 2]:
    it reads and writes [data[6 + 2 + 1]], one cell beyond the 9 cells of
    the field. *)
Lemma psf_grid_of_three_leaves_the_field :
  calculate_psf_grid_wasm RefLibm.libm true (Some (fun _ => 7%float))
                          (Some (fun _ => mkComplex 7 7)) initial_state
                          None None None 3 0.5%float
  = None
  /\ bit_reverse 6 3 (repeat czero 9) = Some (repeat czero 9)
  /\ butterfly [czero; czero; czero] 6 3 2 1 2 false 0 (repeat czero 9) = None
  /\ rd (repeat czero 9) (6 + (2 + 0 + Z.quot 2 2)) = None.
Proof. repeat split; vm_compute; reflexivity. Qed.

(** ** When the twiddle table is ready

    The twiddle table holds finite values, and the FFT finds or builds it,
    in every state whose tables hold finite values, as soon as the C library
    returns finite sines and cosines on finite arguments and a remainder
    within the modulus. *)

Lemma sf_finite_inject (s : bool) (V : Z) :
  representable V -> V < TOP -> sf_finite (inject s V) = true.
Proof.
  intros R H. destruct (inject_finite_cases s V R H) as [[_ ->]|(m & e & -> & _)];
    reflexivity.
Qed.

(** The angles of the two tables are finite: [c * i / n] for a factor [c]
    such as 2 pi and [int]s [i] and [n]. *)
Lemma table_angle_finite (c : float) (i n : Z) :
  isfinite c = true -> (fabs c <=? 8)%float = true ->
  0 <= i <= INT_MAX -> 1 <= n <= INT_MAX ->
  isfinite (c * of_int i / of_int n)%float = true.
Proof.
  intros Fc Hc Hi Hn. unfold INT_MAX in *.
  assert (H31 : 2147483647 < 2 ^ 53) by reflexivity.
  pose proof (unit_of_pos 0 ltac:(unfold B; lia)) as HU0.
  rewrite isfinite_SF, div_spec, mul_spec. unfold SF64div, SF64mul.
  rewrite !Prim2SF_of_int by lia.
  replace (n <? 0) with false by (symmetry; apply Z.ltb_ge; lia).
  replace (i <? 0) with false by (symmetry; apply Z.ltb_ge; lia).
  rewrite !Z.abs_eq by lia.
  destruct (inject_finite_cases false (n * unit_of 0)
              (representable_int n ltac:(lia)) (int_lt_TOP n ltac:(lia)))
    as [[E0 _]|(mn & en & -> & Vn & Evn)]; [nia|].
  (* the factor *)
  rewrite isfinite_SF in Fc. unfold fabs in Hc. rewrite leb_spec, abs_spec in Hc.
  pose proof (Prim2SF_valid c) as Vc.
  destruct (Prim2SF c) as [sc|sc| |sc mc ec]; try discriminate.
  { (* a zero factor *)
    destruct (inject_finite_cases false (i * unit_of 0)
                (representable_int i ltac:(lia)) (int_lt_TOP i ltac:(lia)))
      as [[_ ->]|(mi & ei & -> & _ & _)]; reflexivity. }
  cbn [SFabs] in Hc.
  assert (E8 : Prim2SF 8%float = S754_finite false 4503599627370496 (-49)) by reflexivity.
  rewrite SFleb_ev in Hc; [|split; [reflexivity|exact Vc]|split; [reflexivity|apply Prim2SF_valid]].
  rewrite E8 in Hc. cbn [ev] in Hc. apply Z.leb_le in Hc.
  assert (Ev8 : val 4503599627370496 (-49) = 8 * unit_of 0).
  { unfold val. rewrite (unit_of_split (-49) 0) by (unfold B; lia). reflexivity. }
  rewrite Ev8 in Hc.
  pose proof (bounded_val_pos _ _ Vc) as Pc.
  destruct (inject_finite_cases false (i * unit_of 0)
              (representable_int i ltac:(lia)) (int_lt_TOP i ltac:(lia)))
    as [[_ ->]|(mi & ei & -> & Vi & Evi)]; [reflexivity|].
  rewrite SFmul_finite by assumption. rewrite Evi.
  set (V1 := RND (val mc ec * (i * unit_of 0)) (unit_of 0)).
  assert (R1 : representable V1) by (apply RND_representable; nia).
  assert (B1 : V1 <= 8 * 2147483647 * unit_of 0).
  { unfold V1.
    rewrite <- (RND_exact (8 * 2147483647 * unit_of 0) (unit_of 0));
      [|apply representable_int; lia|exact HU0].
    apply RND_mono; [nia|exact HU0|exact HU0|].
    apply Z.mul_le_mono_nonneg_r; [lia|].
    transitivity (8 * unit_of 0 * (i * unit_of 0)); [|nia].
    apply Z.mul_le_mono_nonneg_r; [nia|exact Hc]. }
  assert (T1 : V1 < TOP).
  { pose proof (int_lt_TOP (8 * 2147483647) ltac:(lia)). lia. }
  destruct (inject_finite_cases (xorb sc false) V1 R1 T1)
    as [[_ ->]|(m1 & e1 & -> & Vm1 & Ev1)]; [reflexivity|].
  rewrite SFdiv_finite by assumption. rewrite Ev1, Evn.
  apply sf_finite_inject; [apply RND_representable; destruct R1; nia|].
  apply Z.le_lt_trans with V1; [|exact T1].
  rewrite <- (RND1_exact V1 R1) at 2.
  apply RND_mono; destruct R1; nia.
Qed.

Definition libm_finite (L : Libm) : Prop :=
  forall x, isfinite x = true ->
            isfinite (c_sin L x) = true /\ isfinite (c_cos L x) = true.

Definition libm_fmod (L : Libm) : Prop :=
  forall x, isfinite x = true -> fmod_in_range L x.

(** The tables a state holds are of finite values, and its twiddle table has
    [twiddle_table_size] cells. *)
Definition tables_finite (st : state) : Prop :=
  (forall t, sin_table st = Some t -> forallb isfinite t = true)
  /\ (forall t, cos_table st = Some t -> forallb isfinite t = true)
  /\ (forall t, twiddle_table st = Some t ->
                Z.of_nat (length t) = twiddle_table_size st
                /\ forallb cfinite t = true).

Lemma forallb_of_rd {A : Type} (P : A -> bool) (l : list A) :
  (forall i v, rd l i = Some v -> P v = true) -> forallb P l = true.
Proof.
  intros H. apply forallb_forall. intros v Hv.
  apply In_nth_error in Hv as [k Hk]. apply (H (Z.of_nat k)).
  now rewrite rd_of_nat.
Qed.

Lemma rd_In {A : Type} (l : list A) (i : Z) (v : A) : rd l i = Some v -> In v l.
Proof.
  unfold rd. destruct (i <? 0); [discriminate|]. apply nth_error_In.
Qed.

Section Ready.

Variable L : Libm.
Hypothesis Lfin : libm_finite L.
Hypothesis Lfmod : libm_fmod L.

Lemma two_pi_bounds :
  isfinite (2 * M_PI)%float = true /\ (fabs (2 * M_PI) <=? 8)%float = true
  /\ isfinite (-2 * M_PI)%float = true /\ (fabs (-2 * M_PI) <=? 8)%float = true.
Proof. repeat split; reflexivity. Qed.

Lemma init_fast_trig_tables_finite (max_size : Z) (st : state) :
  1 <= max_size -> max_size * 4 <= INT_MAX ->
  tables_finite st -> tables_finite (init_fast_trig_tables L max_size st).
Proof.
  intros H1 Hmax (_ & _ & Ht). unfold tables_finite, init_fast_trig_tables. cbn.
  destruct two_pi_bounds as (F2 & B2 & _).
  assert (Hang : forall i, In i (indices (max_size * 4)) ->
            isfinite (2 * M_PI * of_int i / of_int (max_size * 4))%float = true).
  { intros i Hi. unfold indices in Hi. apply in_map_iff in Hi as (k & <- & Hk).
    apply in_seq in Hk. apply table_angle_finite; try assumption; lia. }
  split; [|split; [|exact Ht]].
  - intros t E. injection E as <-. apply forallb_forall. intros v Hv.
    apply in_map_iff in Hv as (i & <- & Hi). apply Lfin, Hang, Hi.
  - intros t E. injection E as <-. apply forallb_forall. intros v Hv.
    apply in_map_iff in Hv as (i & <- & Hi). apply Lfin, Hang, Hi.
Qed.

Lemma prepare_trig_tables_finite (total_size : Z) (st : state) :
  1 <= total_size -> total_size * 4 <= INT_MAX ->
  tables_finite st -> tables_finite (prepare_trig_tables L total_size st).
Proof.
  intros H1 Hmax Hst. unfold prepare_trig_tables.
  destruct (sin_table st); [|now apply init_fast_trig_tables_finite].
  destruct (trig_table_size st <? total_size);
    [now apply init_fast_trig_tables_finite|exact Hst].
Qed.

Lemma fast_cos_finite (st : state) (x v : float) :
  tables_finite st -> isfinite x = true ->
  fast_cos L st x = Some v -> isfinite v = true.
Proof.
  intros (_ & Hc & _) Hx. unfold fast_cos.
  destruct (cos_table st) as [t|].
  - rewrite Hx. cbn [negb]. intros H. apply rd_In in H.
    specialize (Hc t eq_refl). rewrite forallb_forall in Hc. now apply Hc.
  - intros H. injection H as <-. now apply Lfin.
Qed.

Lemma fast_sin_finite (st : state) (x v : float) :
  tables_finite st -> isfinite x = true ->
  fast_sin L st x = Some v -> isfinite v = true.
Proof.
  intros (Hs & _ & _) Hx. unfold fast_sin.
  destruct (sin_table st) as [t|].
  - rewrite Hx. cbn [negb]. intros H. apply rd_In in H.
    specialize (Hs t eq_refl). rewrite forallb_forall in Hs. now apply Hs.
  - intros H. injection H as <-. now apply Lfin.
Qed.

(** In a state whose tables are well formed and finite, the FFT of a
    length that is an [int] finds or builds a table of finite values. *)
Lemma fft_twiddles_ready_of_libm (n : Z) (st : state) :
  1 <= n <= INT_MAX ->
  trig_tables_ok st -> tables_finite st ->
  fft_twiddles_ready L n st.
Proof.
  intros Hn Hok Hfin. unfold fft_twiddles_ready, ensure_twiddle_table.
  destruct two_pi_bounds as (_ & _ & F2 & B2).
  assert (Hang : forall i, 0 <= i < n -> isfinite (twiddle_angle n i) = true).
  { intros i Hi. unfold twiddle_angle. apply table_angle_finite; try assumption; lia. }
  assert (Hinit : exists st2 tbl,
             init_twiddle_table L n st = Some st2
             /\ twiddle_table st2 = Some tbl
             /\ n <= Z.of_nat (length tbl) /\ forallb cfinite tbl = true).
  { destruct (init_twiddle_table_returns L st n Hok)
      as (st2 & tbl & E & Et & _ & Hl & Hc).
    { intros i Hi _ Hf. now apply Lfmod. }
    exists st2, tbl. split; [exact E|]. split; [exact Et|]. split; [lia|].
    apply forallb_of_rd. intros i v Hv.
    pose proof (rd_Some_range _ _ _ Hv) as Hr.
    destruct (Hc i ltac:(lia)) as (c & s & Hr' & Ec & Es).
    rewrite Hv in Hr'. injection Hr' as ->.
    unfold cfinite. cbn [real imag].
    rewrite (fast_cos_finite st _ c Hfin (Hang i ltac:(lia)) Ec).
    rewrite (fast_sin_finite st _ s Hfin (Hang i ltac:(lia)) Es). reflexivity. }
  destruct (twiddle_table st) as [t|] eqn:Et; [|exact Hinit].
  destruct (Z.ltb_spec (twiddle_table_size st) n) as [Hlt|Hge]; [exact Hinit|].
  destruct Hfin as (_ & _ & Ht). destruct (Ht t Et) as [Hl Hf].
  exists st, t. split; [reflexivity|]. split; [exact Et|]. split; [lia|exact Hf].
Qed.

(** The same for the state in which the FFT of the grid entry point runs. *)
Lemma psf_grid_twiddles_ready (k : Z) (st : state) :
  0 <= k <= 14 ->
  trig_tables_ok st -> tables_finite st ->
  fft_twiddles_ready L (2 ^ k) (prepare_trig_tables L (2 ^ k * 2 ^ k) st).
Proof.
  intros Hk Hok Hfin.
  assert (H1 : 1 <= 2 ^ k).
  { change 1 with (2 ^ 0). apply Z.pow_le_mono_r; lia. }
  assert (H14 : 2 ^ k <= 2 ^ 14) by (apply Z.pow_le_mono_r; lia).
  change (2 ^ 14) with 16384 in H14.
  apply fft_twiddles_ready_of_libm.
  - unfold INT_MAX. lia.
  - apply prepare_trig_tables_ok; [exact Hok|nia].
  - apply prepare_trig_tables_finite; [nia|unfold INT_MAX; nia|exact Hfin].
Qed.

End Ready.

(* ===================================================================== *)
(** * The pure conic inside its radius *)
(* ===================================================================== *)

Local Open Scope Z_scope.

Lemma representable_scale (V j : Z) :
  representable V -> 0 <= j -> representable (V * 2 ^ j).
Proof.
  intros [HV Hmod] Hj.
  assert (P2 : 0 < 2 ^ j) by (apply Z.pow_pos_nonneg; lia).
  split; [nia|].
  destruct (Z.eq_dec V 0) as [->|Hn0].
  { cbn [Z.mul]. apply Z.mod_0_l. pose proof (unit_of_pos _ (cexp_B 0)). lia. }
  set (c := cexp V) in *. set (c' := cexp (V * 2 ^ j)).
  assert (Hc : c <= c' <= c + j).
  { unfold c, c', cexp. rewrite Z.log2_mul_pow2 by lia. lia. }
  pose proof (unit_of_pos c (cexp_B V)) as HU.
  pose proof (Z.div_mod V (unit_of c) ltac:(lia)) as DV. rewrite Hmod, Z.add_0_r in DV.
  rewrite (unit_of_split c c' (cexp_B V) ltac:(lia)).
  assert (E : V * 2 ^ j = V / unit_of c * 2 ^ (j - (c' - c)) * (2 ^ (c' - c) * unit_of c)).
  { rewrite DV at 1.
    replace j with ((j - (c' - c)) + (c' - c)) at 1 by lia.
    rewrite Z.pow_add_r by lia. ring. }
  rewrite E. apply Z.mod_mul.
  assert (0 < 2 ^ (c' - c)) by (apply Z.pow_pos_nonneg; lia). nia.
Qed.

Lemma representable_unit (e : Z) : 0 <= e -> representable (unit_of e).
Proof.
  intros He. rewrite (unit_of_split 0 e) by (unfold B; lia).
  rewrite Z.mul_comm. apply representable_scale; [|lia].
  rewrite <- (Z.mul_1_l (unit_of 0)). apply representable_int. lia.
Qed.

(** The shape of the double a representable value injects to. *)
Lemma inject_shape (s : bool) (V : Z) :
  representable V ->
  (V = 0 /\ inject s V = S754_zero s)
  \/ (0 < V < TOP /\ exists m e, inject s V = S754_finite s m e
                                 /\ bounded prec emax m e = true /\ val m e = V)
  \/ (TOP <= V /\ inject s V = S754_infinity s).
Proof.
  intros R. destruct (Z.lt_ge_cases V TOP) as [Hlt|Hge].
  - destruct (inject_finite_cases s V R Hlt) as [H|H]; [left; exact H|right; left].
    destruct R as [H0 _]. destruct H as (m & e & E & Vm & Ev).
    pose proof (bounded_val_pos _ _ Vm). split; [lia|eauto].
  - right. right. split; [exact Hge|].
    pose proof (ev_inject s V R) as He. pose proof TOP_pos.
    unfold inject in *. destruct (Z.eqb_spec V 0); [lia|]. cbv zeta in *.
    destruct (cexp V <=? 971) eqn:Ec; [|reflexivity].
    exfalso. cbn [ev] in He.
    pose proof (inject_valid s V R) as Hv. unfold inject in Hv.
    destruct (Z.eqb_spec V 0); [lia|]. cbv zeta in Hv. rewrite Ec in Hv.
    pose proof (bounded_lt_TOP _ _ Hv). lia.
Qed.

Lemma nn_finite_of_ev (x : spec_float) : nn x -> ev x < TOP -> sf_finite x = true.
Proof.
  intros Hn Hlt. destruct (nn_finite_cases x Hn Hlt) as [[s ->]|(m & e & -> & _)];
    reflexivity.
Qed.

(** The difference of two doubles that are not negative, the first of which
    is finite and not smaller, is the rounding of the difference of their
    values. *)
Lemma SFsub_nn_le (a b : spec_float) :
  nn a -> nn b -> ev b <= ev a -> ev a < TOP ->
  nn (SFsub prec emax a b) /\ ev (SFsub prec emax a b) = RND (ev a - ev b) 1.
Proof.
  intros Ha Hb Hle Hlt. pose proof TOP_pos as HT.
  destruct (nn_finite_cases a Ha Hlt) as [[sa ->]|(ma & ea & -> & Va)].
  - cbn [ev] in *. pose proof (ev_bounds b Hb) as Hb0.
    destruct (nn_finite_cases b Hb ltac:(lia)) as [[sb ->]|(mb & eb & -> & Vb)].
    + cbn [ev Z.sub Z.add Z.opp]. rewrite (RND1_exact 0 representable_0).
      destruct sa, sb; split; (reflexivity || (split; reflexivity)).
    + cbn [ev] in Hle. pose proof (bounded_val_pos _ _ Vb). lia.
  - cbn [ev] in *. pose proof (bounded_val_pos _ _ Va) as Pa.
    destruct (nn_finite_cases b Hb ltac:(lia)) as [[sb ->]|(mb & eb & -> & Vb)].
    + cbn [SFsub ev]. rewrite Z.sub_0_r.
      rewrite (RND1_exact _ (bounded_representable _ _ Va)). auto.
    + cbn [ev] in Hle. pose proof (bounded_val_pos _ _ Vb) as Pb.
      destruct (bounded_inv _ _ Va) as [Hea _]. destruct (bounded_inv _ _ Vb) as [Heb _].
      cbn [SFsub cond_Zopp].
      set (ez := Z.min ea eb).
      assert (HB : 0 <= ez + B) by (unfold ez, B; lia).
      pose proof (shl_align_val ma ea ez) as E1.
      pose proof (shl_align_val mb eb ez) as E2.
      replace (Z.min ea ez) with ez in E1 by (unfold ez; lia).
      replace (Z.min eb ez) with ez in E2 by (unfold ez; lia).
      specialize (E1 HB). specialize (E2 HB).
      pose proof (unit_of_pos ez HB) as HU.
      assert (Hz : 0 <= Zpos (fst (shl_align ma ea ez)) - Zpos (fst (shl_align mb eb ez))).
      { unfold val in *. nia. }
      rewrite binary_normalize_correct by assumption.
      replace ((Zpos (fst (shl_align ma ea ez)) - Zpos (fst (shl_align mb eb ez)))
               * unit_of ez) with (val ma ea - val mb eb)
        by (rewrite <- E1, <- E2; unfold val; ring).
      assert (R : representable (RND (val ma ea - val mb eb) 1))
        by (apply RND_representable; lia).
      split; [apply inject_nn; exact R|].
      rewrite ev_inject by exact R.
      assert (RND (val ma ea - val mb eb) 1 <= val ma ea).
      { rewrite <- (RND1_exact _ (bounded_representable _ _ Va)) at 2.
        apply RND1_mono; lia. }
      cbn [ev]. lia.
Qed.

(** Inside the radius, and when the square of the radius neither overflows
    nor vanishes, the discriminant of the pure conic is finite and not
    negative, and the quotient is finite. *)
Lemma conic_inside (r R : float) :
  (fabs r <=? fabs R)%float = true ->
  isfinite (R * R)%float = true -> (R * R =? 0)%float = false ->
  isfinite (conic_discriminant r R) = true
  /\ (conic_discriminant r R <? 0)%float = false
  /\ isfinite (conic_sag r R) = true.
Proof.
  intros Hle HRR HRR0.
  pose proof (unit_of_pos 0 ltac:(unfold B; lia)) as HU0.
  pose proof TOP_pos as HT.
  (* the radius *)
  pose proof (Prim2SF_valid R) as VR. pose proof (Prim2SF_valid r) as Vr.
  rewrite isfinite_SF, mul_spec in HRR. rewrite eqb_spec, mul_spec, Prim2SF_zero in HRR0.
  unfold fabs in Hle. rewrite leb_spec, !abs_spec in Hle.
  unfold SF64mul in *.
  destruct (Prim2SF R) as [sR|sR| |sR mR eR] eqn:ER;
    [exfalso; destruct sR; vm_compute in HRR0; discriminate
    |exfalso; destruct sR; vm_compute in HRR; discriminate
    |exfalso; vm_compute in HRR; discriminate|].
  cbn [valid_binary] in VR.
  rewrite SFmul_finite in HRR, HRR0 by assumption.
  replace (xorb sR sR) with false in * by (destruct sR; reflexivity).
  set (VRR := RND (val mR eR * val mR eR) (unit_of 0)) in *.
  pose proof (bounded_val_pos _ _ VR) as PR.
  assert (RRR : representable VRR) by (apply RND_representable; nia).
  destruct (inject_shape false VRR RRR)
    as [[E0 Ei]|[(Hrange & mRR & eRR & Ei & VmRR & EvRR)|[_ Ei]]];
    rewrite Ei in HRR, HRR0; try discriminate.
  (* the radius is below 2^512 *)
  assert (HR512 : val mR eR < unit_of 512).
  { destruct (Z.lt_ge_cases (val mR eR) (unit_of 512)) as [|Hge]; [assumption|exfalso].
    pose proof (unit_of_pos 512 ltac:(unfold B; lia)) as HU512.
    assert (Etop : unit_of 512 * unit_of 512 = TOP * unit_of 0).
    { unfold TOP, unit_of. rewrite <- !Z.pow_add_r by (unfold B; lia). f_equal; lia. }
    assert (TOP <= VRR).
    { unfold VRR. rewrite <- (RND_exact TOP (unit_of 0) representable_TOP HU0).
      apply RND_mono; [nia|exact HU0|exact HU0|].
      apply Z.mul_le_mono_nonneg_r; [lia|]. rewrite <- Etop. nia. }
    lia. }
  assert (E512 : unit_of 512 = unit_of 0 * 2 ^ 512).
  { rewrite (unit_of_split 0 512) by (unfold B; lia). rewrite Z.sub_0_r.
    apply Z.mul_comm. }
  assert (HVRR : VRR <= val mR eR * 2 ^ 512).
  { unfold VRR.
    rewrite <- (RND_exact (val mR eR * 2 ^ 512) (unit_of 0));
      [|apply representable_scale; [now apply bounded_representable|lia]|exact HU0].
    apply RND_mono; [nia|exact HU0|exact HU0|].
    apply Z.mul_le_mono_nonneg_r; [lia|]. rewrite E512 in HR512. nia. }
  (* the square of r *)
  assert (Hrr : nn (Prim2SF (r * r)%float) /\ ev (Prim2SF (r * r)%float) <= VRR).
  { rewrite mul_spec. unfold SF64mul.
    destruct (Prim2SF r) as [sr|sr| |sr mr er] eqn:Er; try discriminate.
    - cbn [SFmul ev]. split; [split; reflexivity|lia].
    - cbn [valid_binary] in Vr. cbn [SFabs] in Hle.
      rewrite SFleb_ev in Hle
        by (split; [reflexivity|assumption]).
      cbn [ev] in Hle. apply Z.leb_le in Hle.
      pose proof (bounded_val_pos _ _ Vr) as Pr.
      rewrite SFmul_finite by assumption.
      replace (xorb sr sr) with false by (destruct sr; reflexivity).
      assert (Rr : representable (RND (val mr er * val mr er) (unit_of 0)))
        by (apply RND_representable; nia).
      split; [now apply inject_nn|]. rewrite ev_inject by exact Rr.
      assert (RND (val mr er * val mr er) (unit_of 0) <= VRR).
      { apply RND_mono; [nia|exact HU0|exact HU0|].
        apply Z.mul_le_mono_nonneg_r; [lia|]. nia. }
      lia. }
  destruct Hrr as [Nrr Lrr].
  set (rr := (r * r)%float) in *.
  (* the quotient of the squares *)
  assert (Hq : nn (Prim2SF (rr / (R * R))%float)
               /\ ev (Prim2SF (rr / (R * R))%float) <= unit_of 0).
  { rewrite div_spec, (mul_spec R R), ER. unfold SF64div, SF64mul.
    rewrite SFmul_finite by assumption.
    replace (xorb sR sR) with false by (destruct sR; reflexivity).
    fold VRR. rewrite Ei.
    destruct (SFdiv_nn (Prim2SF rr) mRR eRR Nrr ltac:(lia) VmRR) as [Nq Eq].
    split; [exact Nq|]. rewrite Eq, EvRR.
    assert (RND (ev (Prim2SF rr) * unit_of 0) VRR <= unit_of 0).
    { rewrite <- (RND_exact (unit_of 0) VRR (representable_unit 0 ltac:(lia))) at 2 by lia.
      pose proof (ev_bounds _ Nrr).
      apply RND_mono; [nia|lia|lia|]. nia. }
    lia. }
  destruct Hq as [Nq Lq].
  set (q := (rr / (R * R))%float) in *.
  (* the discriminant *)
  assert (HT1 : nn (Prim2SF (1 - q)%float) /\ ev (Prim2SF (1 - q)%float) <= unit_of 0).
  { rewrite sub_spec. unfold SF64sub.
    pose proof Fnn_one as N1. unfold Fnn in N1.
    pose proof (int_lt_TOP 1 ltac:(lia)) as T1. rewrite Z.mul_1_l in T1.
    destruct (SFsub_nn_le (Prim2SF 1%float) (Prim2SF q) N1 Nq) as [NT ET].
    { rewrite Prim2SF_one_val. exact Lq. }
    { rewrite Prim2SF_one_val. exact T1. }
    split; [exact NT|]. rewrite ET, Prim2SF_one_val.
    rewrite <- (RND1_exact (unit_of 0) (representable_unit 0 ltac:(lia))) at 2.
    pose proof (ev_bounds _ Nq).
    apply RND1_mono; lia. }
  destruct HT1 as [NT LT].
  change (1 - q)%float with (conic_discriminant r R) in *.
  set (T := conic_discriminant r R) in *.
  assert (TU0 : unit_of 0 < TOP).
  { pose proof (int_lt_TOP 1 ltac:(lia)). lia. }
  assert (FT : isfinite T = true).
  { rewrite isfinite_SF. apply nn_finite_of_ev; [exact NT|lia]. }
  assert (PT : (T <? 0)%float = false).
  { rewrite ltb_spec, Prim2SF_zero.
    rewrite SFltb_ev; [|exact NT|split; reflexivity].
    cbn [ev]. apply Z.ltb_ge. apply (ev_bounds _ NT). }
  split; [exact FT|]. split; [exact PT|].
  (* the root *)
  assert (Hs : nn (Prim2SF (sqrt T)) /\ ev (Prim2SF (sqrt T)) <= unit_of 0).
  { rewrite sqrt_spec. unfold SF64sqrt.
    destruct (nn_finite_cases _ NT ltac:(lia)) as [[s ET]|(m & e & ET & Vm)]; rewrite ET in *.
    - cbn [SFsqrt ev]. split; [split; reflexivity|lia].
    - cbn [ev] in LT.
      destruct (SFsqrt_finite_le m e (unit_of 0) Vm (representable_unit 0 ltac:(lia)))
        as (V & EV & RV & HV); [nia|].
      rewrite EV. split; [now apply inject_nn|]. rewrite ev_inject by exact RV. lia. }
  destruct Hs as [Ns Ls].
  (* one plus the root *)
  assert (HW : exists mW eW, Prim2SF (1 + sqrt T)%float = S754_finite false mW eW
                             /\ bounded prec emax mW eW = true
                             /\ unit_of 0 <= val mW eW <= 2 * unit_of 0).
  { rewrite add_spec. unfold SF64add.
    pose proof Fnn_one as N1. unfold Fnn in N1.
    destruct (SFadd_nn _ _ N1 Ns) as [NW EW]. rewrite Prim2SF_one_val in EW.
    pose proof (ev_bounds _ Ns) as Bs.
    assert (L1 : unit_of 0 <= RND (unit_of 0 + ev (Prim2SF (sqrt T))) 1).
    { rewrite <- (RND1_exact (unit_of 0) (representable_unit 0 ltac:(lia))) at 1.
      apply RND1_mono; lia. }
    assert (L2 : RND (unit_of 0 + ev (Prim2SF (sqrt T))) 1 <= 2 * unit_of 0).
    { rewrite <- (RND1_exact (2 * unit_of 0) (representable_int 2 ltac:(lia))).
      apply RND1_mono; lia. }
    pose proof (int_lt_TOP 2 ltac:(lia)) as T2.
    destruct (nn_finite_cases _ NW ltac:(lia)) as [[s E]|(m & e & E & Vm)];
      rewrite E in *; cbn [ev] in EW; [lia|].
    destruct NW as [NW _]. exists m, e. split; [reflexivity|]. split; [exact Vm|lia]. }
  destruct HW as (mW & eW & EW & VW & LW).
  (* the denominator *)
  assert (E513 : 2 * unit_of 512 <= TOP).
  { unfold TOP. rewrite (unit_of_split 512 1024) by (unfold B; lia).
    assert (2 <= 2 ^ (1024 - 512)) by (change 2 with (2 ^ 1) at 1;
                                        apply Z.pow_le_mono_r; lia).
    pose proof (unit_of_pos 512 ltac:(unfold B; lia)). nia. }
  assert (HD : exists sD mD eD,
             Prim2SF (R * (1 + sqrt T))%float = S754_finite sD mD eD
             /\ bounded prec emax mD eD = true /\ val mR eR <= val mD eD).
  { rewrite mul_spec, ER, EW. unfold SF64mul. rewrite SFmul_finite by assumption.
    set (VD := RND (val mR eR * val mW eW) (unit_of 0)).
    assert (RD : representable VD) by (apply RND_representable; nia).
    assert (L1 : val mR eR <= VD).
    { unfold VD.
      rewrite <- (RND_exact (val mR eR) (unit_of 0)
                            (bounded_representable _ _ VR) HU0) at 1.
      apply RND_mono; [nia|exact HU0|exact HU0|].
      apply Z.mul_le_mono_nonneg_r; [lia|]. nia. }
    assert (L2 : VD <= val mR eR * 2 ^ 1).
    { unfold VD.
      rewrite <- (RND_exact (val mR eR * 2 ^ 1) (unit_of 0));
        [|apply representable_scale; [now apply bounded_representable|lia]|exact HU0].
      apply RND_mono; [nia|exact HU0|exact HU0|].
      apply Z.mul_le_mono_nonneg_r; [lia|]. change (2 ^ 1) with 2. nia. }
    change (2 ^ 1) with 2 in L2.
    destruct (inject_shape (xorb sR false) VD RD)
      as [[E0 _]|[(_ & mD & eD & E & VmD & EvD)|[Hinf _]]]; [lia| |lia].
    rewrite E. exists (xorb sR false), mD, eD. split; [reflexivity|].
    split; [exact VmD|lia]. }
  destruct HD as (sD & mD & eD & ED & VD & LD).
  (* the quotient *)
  unfold conic_sag. fold rr. fold T.
  rewrite isfinite_SF, div_spec, ED. unfold SF64div.
  destruct (nn_finite_cases _ Nrr ltac:(lia)) as [[s E]|(m & e & E & Vm)]; rewrite E in *.
  - reflexivity.
  - cbn [ev] in Lrr. rewrite SFdiv_finite by assumption.
    pose proof (bounded_val_pos _ _ Vm) as Pm.
    pose proof (bounded_val_pos _ _ VD) as PD.
    apply sf_finite_inject; [apply RND_representable; nia|].
    apply Z.le_lt_trans with (unit_of 512);
      [|pose proof (unit_of_pos 512 ltac:(unfold B; lia)); lia].
    rewrite <- (RND_exact (unit_of 512) (val mR eR) (representable_unit 512 ltac:(lia)) PR).
    apply RND_mono; [nia|exact PD|exact PR|].
    rewrite E512.
    transitivity (VRR * unit_of 0 * val mR eR); [nia|].
    transitivity (val mR eR * 2 ^ 512 * unit_of 0 * val mR eR); [|nia].
    apply Z.mul_le_mono_nonneg_r; [lia|].
    apply Z.mul_le_mono_nonneg_r; [lia|exact HVRR].
Qed.

(* ===================================================================== *)
(** * ray-tracing-wasm.c: what the entry points never return *)
(* ===================================================================== *)

Local Open Scope float_scope.

(** For every argument, a NaN or an infinity included, [aspheric_sag_rt10]
    returns a finite double. *)
Theorem aspheric_sag_rt10_finite
        (r radius conic : float)
        (coef1 coef2 coef3 coef4 coef5 coef6 coef7 coef8 coef9 coef10 : float)
        (modeOdd : Z) :
  isfinite (aspheric_sag_rt10 r radius conic coef1 coef2 coef3 coef4 coef5
                              coef6 coef7 coef8 coef9 coef10 modeOdd) = true.
Proof.
  unfold aspheric_sag_rt10.
  destruct (radius =? 0); [reflexivity|]. cbv zeta.
  destruct (negb _ || _); [reflexivity|].
  match goal with |- isfinite (if isfinite ?o then _ else _) = true =>
    destruct (isfinite o) eqn:E; [exact E|reflexivity] end.
Qed.

(** A double that compares equal to a number other than zero is that
    number. *)
Lemma SFeqb_finite_eq (a : spec_float) (s : bool) (m : positive) (e : Z) :
  SFeqb a (S754_finite s m e) = true -> a = S754_finite s m e.
Proof.
  unfold SFeqb.
  destruct a as [sa|sa| |sa ma ea]; cbn [SFcompare]; try discriminate;
    try (destruct sa; discriminate); try (destruct s; discriminate).
  destruct sa, s; try discriminate.
  - destruct (Z.compare_spec ea e) as [->|?|?]; try discriminate.
    change (PosDef.Pos.compare_cont Eq ma m) with (Pos.compare ma m).
    destruct (Pos.compare_spec ma m) as [->|?|?]; try discriminate. reflexivity.
  - destruct (Z.compare_spec ea e) as [->|?|?]; try discriminate.
    change (PosDef.Pos.compare_cont Eq ma m) with (Pos.compare ma m).
    destruct (Pos.compare_spec ma m) as [->|?|?]; try discriminate. reflexivity.
Qed.

Lemma eqb_finite_eq (x y : float) (s : bool) (m : positive) (e : Z) :
  Prim2SF y = S754_finite s m e -> (x =? y) = true -> x = y.
Proof.
  intros Hy H. rewrite eqb_spec, Hy in H. apply Prim2SF_inj.
  rewrite Hy. now apply SFeqb_finite_eq.
Qed.

(** For every argument (whatever the semidiameter, the tolerance and the
    iteration count), [intersect_aspheric_rt10] returns the sentinel -1 or a
    finite [t] greater than zero at which the residual [|z - sag|] is below
    the tolerance in effect: never a NaN, an infinity, zero or another
    negative number. *)
Theorem intersect_sentinel_or_hit
        (ox oy oz dx dy dz semidia radius conic : float)
        (coef1 coef2 coef3 coef4 coef5 coef6 coef7 coef8 coef9 coef10 : float)
        (modeOdd maxIter : Z) (tol : float) :
  let t := intersect_aspheric_rt10 ox oy oz dx dy dz semidia radius conic
             coef1 coef2 coef3 coef4 coef5 coef6 coef7 coef8 coef9 coef10
             modeOdd maxIter tol in
  t = (-1)%float
  \/ ((0 <? t) = true /\ isfinite t = true
      /\ (fabs (hit_residual ox oy oz dx dy dz radius conic
                  coef1 coef2 coef3 coef4 coef5 coef6 coef7 coef8 coef9 coef10
                  modeOdd t)
          <? effective_tol tol) = true).
Proof.
  intros t. subst t. unfold intersect_aspheric_rt10.
  destruct (negb (isfinite dx) || negb (isfinite dy) || negb (isfinite dz));
    [left; reflexivity|].
  destruct (negb (isfinite ox) || negb (isfinite oy) || negb (isfinite oz));
    [left; reflexivity|].
  set (t := solve_from _ _ _ _ _ _ _ _ _ _ _ _ _ _ _ _ _ _ _ _ _ _ _).
  destruct (t =? -1) eqn:Hhit.
  - left. now apply (eqb_finite_eq t (-1) true 4503599627370496 (-52)).
  - right.
    destruct (solve_from_return _ _ _ _ _ _ _ _ _ _ _ _ _ _ _ _ _ _ _ _ _ _ _ Hhit)
      as (HF & _ & Ht).
    fold t in HF, Ht. split; [exact Ht|]. split; [|exact HF].
    apply fabs_lt_finite in HF. unfold hit_residual in HF.
    apply sub_finite_inv in HF as [HF _].
    apply add_finite_inv in HF as [_ HF].
    apply mul_finite_inv in HF as [_ HF]. exact HF.
Qed.

(* ===================================================================== *)
(** * The sphere, the dot product and the cross product *)
(* ===================================================================== *)

Local Open Scope float_scope.

(** A zero of either sign, or a NaN. *)
Definition sf_zero_or_nan (s : spec_float) : bool :=
  match s with
  | S754_zero _ | S754_nan => true
  | _ => false
  end.

Definition sf_zero (s : spec_float) : bool :=
  match s with
  | S754_zero _ => true
  | _ => false
  end.

Lemma eqb_zero_SF (x : float) : (x =? 0) = sf_zero (Prim2SF x).
Proof.
  rewrite eqb_spec, Prim2SF_zero.
  destruct (Prim2SF x) as [s|s| |s m e]; try reflexivity; destruct s; reflexivity.
Qed.

Lemma SFmul_zero_r (a b : spec_float) :
  sf_zero b = true -> sf_zero_or_nan (SFmul prec emax a b) = true.
Proof.
  destruct a as [sa|sa| |sa ma ea], b as [sb|sb| |sb mb eb]; simpl; intros;
    try discriminate; auto.
Qed.

Lemma SFmul_zero_l (a b : spec_float) :
  sf_zero a = true -> sf_zero_or_nan (SFmul prec emax a b) = true.
Proof.
  destruct a as [sa|sa| |sa ma ea], b as [sb|sb| |sb mb eb]; simpl; intros;
    try discriminate; auto.
Qed.

Lemma SFmul_zn_r (a b : spec_float) :
  sf_finite a = true -> sf_zero_or_nan b = true ->
  sf_zero_or_nan (SFmul prec emax a b) = true.
Proof.
  destruct a as [sa|sa| |sa ma ea], b as [sb|sb| |sb mb eb]; simpl; auto;
    discriminate.
Qed.

Lemma SFmul_zn_zn (a b : spec_float) :
  sf_zero_or_nan a = true -> sf_zero_or_nan b = true ->
  sf_zero_or_nan (SFmul prec emax a b) = true.
Proof.
  destruct a as [sa|sa| |sa ma ea], b as [sb|sb| |sb mb eb]; simpl; auto;
    discriminate.
Qed.

Lemma SFadd_zn (a b : spec_float) :
  sf_zero_or_nan a = true -> sf_zero_or_nan b = true ->
  sf_zero_or_nan (SFadd prec emax a b) = true.
Proof.
  destruct a as [sa|sa| |sa ma ea], b as [sb|sb| |sb mb eb]; simpl; auto;
    try discriminate; intros _ _; destruct sa, sb; reflexivity.
Qed.

Lemma SFsub_zn (a b : spec_float) :
  sf_zero_or_nan a = true -> sf_zero_or_nan b = true ->
  sf_zero_or_nan (SFsub prec emax a b) = true.
Proof.
  destruct a as [sa|sa| |sa ma ea], b as [sb|sb| |sb mb eb]; simpl; auto;
    try discriminate; intros _ _; destruct sa, sb; reflexivity.
Qed.

Lemma SFopp_zn (a : spec_float) :
  sf_zero_or_nan a = true -> sf_zero_or_nan (SFopp a) = true.
Proof. destruct a; simpl; auto. Qed.

Lemma SFsqrt_zn (a : spec_float) :
  sf_zero_or_nan a = true -> sf_zero_or_nan (SFsqrt prec emax a) = true.
Proof. destruct a as [sa|sa| |sa ma ea]; simpl; auto; discriminate. Qed.

Lemma SFdiv_zn_zero (a b : spec_float) :
  sf_zero_or_nan a = true -> sf_zero b = true ->
  SFdiv prec emax a b = S754_nan.
Proof.
  destruct a as [sa|sa| |sa ma ea], b as [sb|sb| |sb mb eb]; simpl; auto;
    discriminate.
Qed.

Lemma SFadd_zero_zero (a b : spec_float) :
  sf_zero a = true -> sf_zero b = true -> sf_zero (SFadd prec emax a b) = true.
Proof.
  destruct a as [sa|sa| |sa ma ea], b as [sb|sb| |sb mb eb]; simpl; auto;
    try discriminate; intros _ _; destruct sa, sb; reflexivity.
Qed.

Lemma SFmul_zero_zero (a b : spec_float) :
  sf_zero a = true -> sf_zero b = true -> sf_zero (SFmul prec emax a b) = true.
Proof.
  destruct a as [sa|sa| |sa ma ea], b as [sb|sb| |sb mb eb]; simpl; auto;
    discriminate.
Qed.

Lemma SFmul_finite_zero (a b : spec_float) :
  sf_finite a = true -> sf_zero b = true -> sf_zero (SFmul prec emax a b) = true.
Proof.
  destruct a as [sa|sa| |sa ma ea], b as [sb|sb| |sb mb eb]; simpl; auto;
    discriminate.
Qed.

Lemma SFltb_zn_zero (a : spec_float) :
  sf_zero_or_nan a = true -> SFltb a (S754_zero false) = false.
Proof. destruct a as [sa|sa| |sa ma ea]; simpl; auto; discriminate. Qed.

(** [ray_sphere_intersect] returns -1 or a number greater than zero, never
    a NaN; and for a direction whose three components are zero it returns
    -1, whatever the origin, the centre and the radius are. *)
Theorem ray_sphere_intersect_result
        (ox oy oz dx dy dz cx cy cz radius : float) :
  let t := ray_sphere_intersect ox oy oz dx dy dz cx cy cz radius in
  (t = (-1)%float \/ (0 <? t) = true)
  /\ ((dx =? 0) = true -> (dy =? 0) = true -> (dz =? 0) = true -> t = (-1)%float).
Proof.
  intros t. subst t. unfold ray_sphere_intersect. cbv zeta. split.
  - destruct (_ <? 0); [left; reflexivity|].
    unfold gtb.
    match goal with |- context [if 0 <? ?a then _ else _] =>
      destruct (0 <? a) eqn:E1; [right; exact E1|] end.
    match goal with |- context [if 0 <? ?a then _ else _] =>
      destruct (0 <? a) eqn:E2; [right; exact E2|] end.
    left; reflexivity.
  - rewrite !eqb_zero_SF. intros Zx Zy Zz.
    set (ocx := ox - cx). set (ocy := oy - cy). set (ocz := oz - cz).
    set (a := dx * dx + dy * dy + dz * dz).
    set (b := 2 * (ocx * dx + ocy * dy + ocz * dz)).
    set (c := ocx * ocx + ocy * ocy + ocz * ocz - radius * radius).
    assert (Ha : sf_zero (Prim2SF a) = true).
    { unfold a. rewrite !add_spec, !mul_spec.
      repeat apply SFadd_zero_zero; now apply SFmul_zero_zero. }
    assert (Hb : sf_zero_or_nan (Prim2SF b) = true).
    { unfold b. rewrite mul_spec, !add_spec, !mul_spec.
      apply SFmul_zn_r; [reflexivity|].
      repeat apply SFadd_zn; now apply SFmul_zero_r. }
    assert (HD : sf_zero_or_nan (Prim2SF (b * b - 4 * a * c)) = true).
    { rewrite sub_spec, !mul_spec. apply SFsub_zn.
      - now apply SFmul_zn_zn.
      - apply SFmul_zero_l. now apply SFmul_finite_zero. }
    assert (H2a : sf_zero (Prim2SF (2 * a)) = true).
    { rewrite mul_spec. now apply SFmul_finite_zero. }
    assert (E0 : (b * b - 4 * a * c <? 0) = false).
    { rewrite ltb_spec, Prim2SF_zero. now apply SFltb_zn_zero. }
    rewrite E0.
    assert (N1 : Prim2SF ((- b - sqrt (b * b - 4 * a * c)) / (2 * a)) = S754_nan).
    { rewrite div_spec, sub_spec, opp_spec, sqrt_spec.
      apply SFdiv_zn_zero; [|exact H2a].
      apply SFsub_zn; [now apply SFopp_zn|now apply SFsqrt_zn]. }
    assert (N2 : Prim2SF ((- b + sqrt (b * b - 4 * a * c)) / (2 * a)) = S754_nan).
    { rewrite div_spec, add_spec, opp_spec, sqrt_spec.
      apply SFdiv_zn_zero; [|exact H2a].
      apply SFadd_zn; [now apply SFopp_zn|now apply SFsqrt_zn]. }
    unfold gtb. rewrite !ltb_spec, N1, N2. reflexivity.
Qed.

(** ** Symmetries *)

Lemma SFmul_comm (a b : spec_float) : SFmul prec emax a b = SFmul prec emax b a.
Proof.
  destruct a as [sa|sa| |sa ma ea], b as [sb|sb| |sb mb eb]; cbn [SFmul];
    try reflexivity; rewrite ?(xorb_comm sa sb); try reflexivity.
  now rewrite (Pos.mul_comm ma mb), (Z.add_comm ea eb).
Qed.

Lemma mul_comm (a b : float) : (a * b = b * a)%float.
Proof. apply Prim2SF_inj. rewrite !mul_spec. apply SFmul_comm. Qed.

(** The dot product is symmetric in its two vectors. *)
Theorem vector_dot_symmetric (ax ay az bx by' bz : float) :
  vector_dot ax ay az bx by' bz = vector_dot bx by' bz ax ay az.
Proof.
  unfold vector_dot.
  now rewrite (mul_comm ax bx), (mul_comm ay by'), (mul_comm az bz).
Qed.

(** ** The cross product *)

(** Swapping the operands of a subtraction negates the difference, except
    that the difference of two equal numbers is +0 either way. *)
Lemma SFsub_antisym (a b : spec_float) :
  SFsub prec emax b a = SFopp (SFsub prec emax a b)
  \/ (SFsub prec emax b a = S754_zero false /\ SFsub prec emax a b = S754_zero false).
Proof.
  destruct a as [sa|sa| |sa ma ea], b as [sb|sb| |sb mb eb]; cbn [SFsub SFopp];
    try (left; reflexivity);
    try (destruct sa, sb; cbn; (left; reflexivity) || (right; split; reflexivity)).
  rewrite (Z.min_comm eb ea).
  set (ez := Z.min ea eb).
  set (A := cond_Zopp sa (Zpos (fst (shl_align ma ea ez)))).
  set (Bv := cond_Zopp sb (Zpos (fst (shl_align mb eb ez)))).
  replace (Bv - A)%Z with (- (A - Bv))%Z by ring.
  destruct (A - Bv)%Z as [|p|p]; cbn [Z.opp binary_normalize].
  - right. split; reflexivity.
  - left. unfold binary_round. destruct (shl_align p ez _) as [mz e'].
    exact (binary_round_aux_opp false (Zpos mz) e' loc_Exact).
  - left. unfold binary_round. destruct (shl_align p ez _) as [mz e'].
    exact (binary_round_aux_opp true (Zpos mz) e' loc_Exact).
Qed.

(** [q] is the negation of [p], two zero differences apart. *)
Definition negation_of (p q : float) : Prop :=
  q = (- p)%float \/ (q = 0%float /\ p = 0%float).

Lemma sub_antisym (a b : float) : negation_of (a - b) (b - a).
Proof.
  unfold negation_of.
  destruct (SFsub_antisym (Prim2SF a) (Prim2SF b)) as [H|[H1 H2]].
  - left. apply Prim2SF_inj. now rewrite opp_spec, !sub_spec.
  - right. split; apply Prim2SF_inj; now rewrite sub_spec, Prim2SF_zero.
Qed.

(** Three stores into an array that holds the three cells. *)
Lemma store3 (l : list float) (i0 i1 i2 : Z) (v0 v1 v2 : float) :
  (0 <= i0 < Z.of_nat (length l))%Z ->
  (0 <= i1 < Z.of_nat (length l))%Z ->
  (0 <= i2 < Z.of_nat (length l))%Z ->
  exists out,
    (do r0 <- wr l i0 v0; do r1 <- wr r0 i1 v1; wr r1 i2 v2) = Some out
    /\ length out = length l
    /\ forall i, (0 <= i)%Z ->
         rd out i = if (i =? i2)%Z then Some v2
                    else if (i =? i1)%Z then Some v1
                    else if (i =? i0)%Z then Some v0
                    else rd l i.
Proof.
  intros H0 H1 H2.
  pose proof (wr_in_range l i0 v0 H0) as W0. rewrite W0.
  pose proof (wr_length _ _ _ _ W0) as L0.
  pose proof (wr_in_range (upd_nat l (Z.to_nat i0) v0) i1 v1 ltac:(lia)) as W1.
  rewrite W1. pose proof (wr_length _ _ _ _ W1) as L1.
  pose proof (wr_in_range (upd_nat (upd_nat l (Z.to_nat i0) v0) (Z.to_nat i1) v1)
                          i2 v2 ltac:(lia)) as W2.
  rewrite W2. pose proof (wr_length _ _ _ _ W2) as L2.
  eexists. split; [reflexivity|]. split; [lia|].
  intros i Hi.
  rewrite (rd_wr _ _ _ _ _ W2 Hi). destruct (i =? i2)%Z; [reflexivity|].
  rewrite (rd_wr _ _ _ _ _ W1 Hi). destruct (i =? i1)%Z; [reflexivity|].
  rewrite (rd_wr _ _ _ _ _ W0 Hi). reflexivity.
Qed.

(** With room for three cells in [result], [vector_cross] writes cells 0, 1
    and 2 only; and the cross product with the operands swapped is the
    negated one, component by component (a component that is the difference
    of two equal products is +0 in both). *)
Theorem vector_cross_antisymmetric
        (ax ay az bx by' bz : float) (result : list float) :
  (3 <= Z.of_nat (length result))%Z ->
  exists out out',
    vector_cross ax ay az bx by' bz result = Some out
    /\ vector_cross bx by' bz ax ay az result = Some out'
    /\ length out = length result /\ length out' = length result
    /\ (forall i, (0 <= i < 3)%Z ->
          exists p q, rd out i = Some p /\ rd out' i = Some q /\ negation_of p q)
    /\ (forall i, (3 <= i)%Z -> rd out i = rd result i /\ rd out' i = rd result i).
Proof.
  intros Hlen. unfold vector_cross.
  destruct (store3 result 0 1 2 (ay * bz - az * by') (az * bx - ax * bz)
                   (ax * by' - ay * bx)) as (out & E & L & C); try lia.
  destruct (store3 result 0 1 2 (by' * az - bz * ay) (bz * ax - bx * az)
                   (bx * ay - by' * ax)) as (out' & E' & L' & C'); try lia.
  exists out, out'. split; [exact E|]. split; [exact E'|].
  split; [exact L|]. split; [exact L'|]. split.
  - intros i Hi. rewrite C, C' by lia.
    assert (Hc : i = 0%Z \/ i = 1%Z \/ i = 2%Z) by lia.
    destruct Hc as [->|[->| ->]]; cbn [Z.eqb Pos.eqb]; eexists _, _;
      (split; [reflexivity|]); (split; [reflexivity|]).
    + rewrite (mul_comm by' az), (mul_comm bz ay). apply sub_antisym.
    + rewrite (mul_comm bz ax), (mul_comm bx az). apply sub_antisym.
    + rewrite (mul_comm bx ay), (mul_comm by' ax). apply sub_antisym.
  - intros i Hi. rewrite C, C' by lia.
    destruct (Z.eqb_spec i 2); [lia|]. destruct (Z.eqb_spec i 1); [lia|].
    destruct (Z.eqb_spec i 0); [lia|]. split; reflexivity.
Qed.

Lemma vector_cross_antisymmetric_witness :
  exists out out',
    vector_cross 1 2 3 4 5 6 [9; 9; 9; 9]%float = Some out
    /\ vector_cross 4 5 6 1 2 3 [9; 9; 9; 9]%float = Some out'
    /\ length out = length [9; 9; 9; 9]%float
    /\ length out' = length [9; 9; 9; 9]%float
    /\ (forall i, (0 <= i < 3)%Z ->
          exists p q, rd out i = Some p /\ rd out' i = Some q /\ negation_of p q)
    /\ (forall i, (3 <= i)%Z -> rd out i = rd [9; 9; 9; 9]%float i
                                /\ rd out' i = rd [9; 9; 9; 9]%float i).
Proof.
  apply (vector_cross_antisymmetric 1 2 3 4 5 6 [9; 9; 9; 9]%float). simpl. lia.
Defined.

(** ** The sag as a function of the sign of [r] *)

Lemma SFmul_opp_opp (a : spec_float) :
  SFmul prec emax (SFopp a) (SFopp a) = SFmul prec emax a a.
Proof. destruct a as [[]|[]| |[] m e]; reflexivity. Qed.

Lemma mul_opp_opp (r : float) : (- r * - r = r * r)%float.
Proof. apply Prim2SF_inj. rewrite !mul_spec, opp_spec. apply SFmul_opp_opp. Qed.

Lemma eqb_opp_zero (r : float) : (- r =? 0) = (r =? 0).
Proof.
  rewrite !eqb_zero_SF, opp_spec. now destruct (Prim2SF r).
Qed.

(** The three sag functions are even in [r] (the third one in its even
    mode): they return the same double for [-r] as for [r]. *)
Theorem sag_even_in_r
        (r c k radius conic : float)
        (a4 a6 a8 a10 a12 a14 a16 a18 a20 a22 : float) :
  aspheric_sag (- r) c k a4 a6 a8 a10 = aspheric_sag r c k a4 a6 a8 a10
  /\ aspheric_sag10 (- r) c k a4 a6 a8 a10 a12 a14 a16 a18 a20 a22
     = aspheric_sag10 r c k a4 a6 a8 a10 a12 a14 a16 a18 a20 a22
  /\ aspheric_sag_rt10 (- r) radius conic a4 a6 a8 a10 a12 a14 a16 a18 a20 a22 0
     = aspheric_sag_rt10 r radius conic a4 a6 a8 a10 a12 a14 a16 a18 a20 a22 0.
Proof.
  unfold aspheric_sag, aspheric_sag10, aspheric_sag_rt10, __rt10_asphere_poly.
  cbn [Z.eqb]. cbv zeta. rewrite !eqb_opp_zero, !mul_opp_opp. auto.
Qed.

(** ** Normalising vectors *)

Lemma SFsqrt_nan_or_nonneg (a : spec_float) :
  sf_nan (SFsqrt prec emax a) = true \/ sf_nonneg (SFsqrt prec emax a) = true.
Proof.
  destruct a as [s|[]| |[] m e]; try (left; reflexivity); try (right; reflexivity).
  right. now apply SFsqrt_nonneg.
Qed.

Lemma SFltb_zero_nonneg (a : spec_float) :
  sf_nonneg a = true ->
  SFltb (S754_zero false) a = negb (SFeqb a (S754_zero false)).
Proof. destruct a as [[]|[]| |[] m e]; try discriminate; reflexivity. Qed.

(** On a length that is not a NaN, the test [length > 0.0] of the batch
    loop is the negation of the test [length == 0.0] of the scalar entry. *)
Lemma length_tests (u : float) :
  is_nan (sqrt u) = false -> gtb (sqrt u) 0 = negb (sqrt u =? 0).
Proof.
  unfold gtb. rewrite is_nan_SF, ltb_spec, eqb_spec, Prim2SF_zero, sqrt_spec.
  unfold SF64sqrt.
  destruct (SFsqrt_nan_or_nonneg (Prim2SF u)) as [H|H]; [congruence|].
  intros _. now apply SFltb_zero_nonneg.
Qed.

Lemma gtb_nan (u : float) : is_nan u = true -> gtb u 0 = false /\ (u =? 0) = false.
Proof.
  unfold gtb. rewrite is_nan_SF, ltb_spec, eqb_spec.
  destruct (Prim2SF u); try discriminate. split; reflexivity.
Qed.

Lemma mul_div_nan (x u : float) : is_nan u = true -> (x * (1 / u))%float = nan.
Proof.
  rewrite is_nan_SF. intros H. apply Prim2SF_inj. rewrite mul_spec, div_spec.
  destruct (Prim2SF u); try discriminate.
  change (Prim2SF 1) with (S754_finite false 4503599627370496 (-52)).
  unfold SF64mul, SF64div. cbn [SFdiv]. now destruct (Prim2SF x).
Qed.

(** What the batch loop stores for the vector ([x], [y], [z]). *)
Definition normalized (x y z : float) : list float :=
  let length := sqrt (x * x + y * y + z * z) in
  if gtb length 0 then
    let inv_length := 1 / length in
    [x * inv_length; y * inv_length; z * inv_length]
  else [0; 0; 0]%float.

Lemma vector_normalize_cells (x y z r0 r1 r2 : float) :
  vector_normalize x y z [r0; r1; r2]
  = Some (if is_nan (sqrt (x * x + y * y + z * z))
          then [nan; nan; nan]
          else normalized x y z).
Proof.
  unfold vector_normalize, normalized. cbv zeta.
  destruct (is_nan (sqrt (x * x + y * y + z * z))) eqn:N.
  - destruct (gtb_nan _ N) as [_ E]. rewrite E.
    rewrite !(mul_div_nan _ _ N). reflexivity.
  - rewrite (length_tests _ N).
    destruct (sqrt (x * x + y * y + z * z) =? 0); reflexivity.
Qed.

Lemma normalized_nan (x y z : float) :
  is_nan (sqrt (x * x + y * y + z * z)) = true -> normalized x y z = [0; 0; 0]%float.
Proof.
  intros N. unfold normalized. cbv zeta. destruct (gtb_nan _ N) as [E _].
  now rewrite E.
Qed.

Local Open Scope Z_scope.

(** The component [c] of vector [i] of an array of triples. *)
Definition component (vectors : list float) (i c : Z) : float :=
  nth (Z.to_nat (i * 3 + c)) vectors 0%float.

Definition normalized_at (vectors : list float) (i : Z) : list float :=
  normalized (component vectors i 0) (component vectors i 1) (component vectors i 2).

Lemma batch_vector_normalize_loop (vectors_ptr result_ptr : list float) (count : Z) :
  0 <= count ->
  3 * count <= Z.of_nat (length vectors_ptr) ->
  3 * count <= Z.of_nat (length result_ptr) ->
  exists out,
    batch_vector_normalize vectors_ptr count result_ptr = Some out
    /\ length out = length result_ptr
    /\ (forall i c, 0 <= i < count -> 0 <= c < 3 ->
          rd out (i * 3 + c)
          = Some (nth (Z.to_nat c) (normalized_at vectors_ptr i) 0%float))
    /\ (forall j, 3 * count <= j -> rd out j = rd result_ptr j).
Proof.
  intros H0 Hv Hr. unfold batch_vector_normalize.
  destruct (for_loop_invariant
              (fun k out =>
                 length out = length result_ptr
                 /\ (forall i c, 0 <= i < k -> 0 <= c < 3 ->
                       rd out (i * 3 + c)
                       = Some (nth (Z.to_nat c) (normalized_at vectors_ptr i) 0%float))
                 /\ (forall j, 3 * k <= j -> rd out j = rd result_ptr j))
              (batch_vector_normalize_body vectors_ptr) 0 count result_ptr H0)
    as (out & Hrun & Hout).
  - split; [reflexivity|]. split; [intros; lia|reflexivity].
  - intros k out Hk (Hl & Hlow & Hhigh).
    unfold batch_vector_normalize_body. cbv zeta.
    set (x := component vectors_ptr k 0). set (y := component vectors_ptr k 1).
    set (z := component vectors_ptr k 2).
    assert (Rx : rd vectors_ptr (k * 3) = Some x).
    { unfold x, component. rewrite Z.add_0_r. apply rd_nth. lia. }
    assert (Ry : rd vectors_ptr (k * 3 + 1) = Some y) by (apply rd_nth; lia).
    assert (Rz : rd vectors_ptr (k * 3 + 2) = Some z) by (apply rd_nth; lia).
    rewrite Rx, Ry, Rz.
    assert (Hn : normalized_at vectors_ptr k = normalized x y z) by reflexivity.
    assert (Hstore : forall v0 v1 v2,
              normalized x y z = [v0; v1; v2] ->
              exists t',
                (do r0 <- wr out (k * 3) v0;
                 do r1 <- wr r0 (k * 3 + 1) v1; wr r1 (k * 3 + 2) v2) = Some t'
                /\ length t' = length result_ptr
                /\ (forall i c, 0 <= i < k + 1 -> 0 <= c < 3 ->
                      rd t' (i * 3 + c)
                      = Some (nth (Z.to_nat c) (normalized_at vectors_ptr i) 0%float))
                /\ (forall j, 3 * (k + 1) <= j -> rd t' j = rd result_ptr j)).
    { intros v0 v1 v2 E.
      destruct (store3 out (k * 3) (k * 3 + 1) (k * 3 + 2) v0 v1 v2)
        as (t' & Et & Lt & Ct); try lia.
      exists t'. split; [exact Et|]. split; [lia|]. split.
      - intros i c Hi Hc. rewrite Ct by lia.
        destruct (Z.eq_dec i k) as [->|Hne].
        + rewrite Hn, E.
          assert (Hcc : c = 0 \/ c = 1 \/ c = 2) by lia.
          destruct Hcc as [->|[->| ->]].
          * destruct (Z.eqb_spec (k * 3 + 0) (k * 3 + 2)); [lia|].
            destruct (Z.eqb_spec (k * 3 + 0) (k * 3 + 1)); [lia|].
            destruct (Z.eqb_spec (k * 3 + 0) (k * 3)); [reflexivity|lia].
          * destruct (Z.eqb_spec (k * 3 + 1) (k * 3 + 2)); [lia|].
            destruct (Z.eqb_spec (k * 3 + 1) (k * 3 + 1)); [reflexivity|lia].
          * destruct (Z.eqb_spec (k * 3 + 2) (k * 3 + 2)); [reflexivity|lia].
        + destruct (Z.eqb_spec (i * 3 + c) (k * 3 + 2)); [lia|].
          destruct (Z.eqb_spec (i * 3 + c) (k * 3 + 1)); [lia|].
          destruct (Z.eqb_spec (i * 3 + c) (k * 3)); [lia|].
          apply Hlow; lia.
      - intros j Hj. rewrite Ct by lia.
        destruct (Z.eqb_spec j (k * 3 + 2)); [lia|].
        destruct (Z.eqb_spec j (k * 3 + 1)); [lia|].
        destruct (Z.eqb_spec j (k * 3)); [lia|].
        apply Hhigh. lia. }
    unfold normalized in Hstore. cbv zeta in Hstore.
    destruct (gtb (sqrt (x * x + y * y + z * z)) 0); now apply Hstore.
  - exists out. destruct Hout as (Hl & Hlow & Hhigh). auto.
Qed.

(** For [count] vectors held in arrays of at least [3 * count] cells that do
    not overlap, [batch_vector_normalize] returns with the three cells of
    every vector written and the cells from [3 * count] on left as they
    were.  For a vector whose length [sqrt (x^2 + y^2 + z^2)] is not a NaN
    the three cells are what [vector_normalize] writes for it; for a vector
    with a NaN length (one with a NaN component) the batch loop writes
    zeros where [vector_normalize] writes NaNs. *)
Theorem batch_vector_normalize_cells
        (vectors_ptr result_ptr : list float) (count : Z) :
  0 <= count -> 3 * count <= INT_MAX ->
  3 * count <= Z.of_nat (length vectors_ptr) ->
  3 * count <= Z.of_nat (length result_ptr) ->
  exists out,
    batch_vector_normalize vectors_ptr count result_ptr = Some out
    /\ length out = length result_ptr
    /\ (forall i, 0 <= i < count ->
          exists x y z o0 o1 o2,
            rd vectors_ptr (i * 3) = Some x
            /\ rd vectors_ptr (i * 3 + 1) = Some y
            /\ rd vectors_ptr (i * 3 + 2) = Some z
            /\ rd out (i * 3) = Some o0
            /\ rd out (i * 3 + 1) = Some o1
            /\ rd out (i * 3 + 2) = Some o2
            /\ (is_nan (sqrt (x * x + y * y + z * z)) = false ->
                forall r0 r1 r2,
                  vector_normalize x y z [r0; r1; r2] = Some [o0; o1; o2])
            /\ (is_nan (sqrt (x * x + y * y + z * z)) = true ->
                [o0; o1; o2] = [0; 0; 0]%float
                /\ forall r0 r1 r2,
                     vector_normalize x y z [r0; r1; r2] = Some [nan; nan; nan]))
    /\ (forall j, 3 * count <= j -> rd out j = rd result_ptr j).
Proof.
  intros H0 _ Hv Hr.
  destruct (batch_vector_normalize_loop vectors_ptr result_ptr count H0 Hv Hr)
    as (out & E & L & Hc & Hrest).
  exists out. split; [exact E|]. split; [exact L|]. split; [|exact Hrest].
  intros i Hi.
  set (x := component vectors_ptr i 0). set (y := component vectors_ptr i 1).
  set (z := component vectors_ptr i 2).
  assert (Hlen3 : length (normalized x y z) = 3%nat).
  { unfold normalized. cbv zeta. now destruct (gtb _ 0). }
  destruct (normalized x y z) as [|o0 [|o1 [|o2 [|]]]] eqn:En; try discriminate.
  exists x, y, z, o0, o1, o2.
  split. { unfold x, component. rewrite Z.add_0_r. apply rd_nth. lia. }
  split. { apply rd_nth. lia. }
  split. { apply rd_nth. lia. }
  pose proof (Hc i 0 Hi ltac:(lia)) as C0. rewrite Z.add_0_r in C0.
  pose proof (Hc i 1 Hi ltac:(lia)) as C1.
  pose proof (Hc i 2 Hi ltac:(lia)) as C2.
  unfold normalized_at in C0, C1, C2. fold x y z in C0, C1, C2.
  rewrite En in C0, C1, C2.
  split; [exact C0|]. split; [exact C1|]. split; [exact C2|]. split.
  - intros N r0 r1 r2. now rewrite vector_normalize_cells, N, En.
  - intros N. split.
    + rewrite <- En. now apply normalized_nan.
    + intros r0 r1 r2. now rewrite vector_normalize_cells, N.
Qed.

Lemma batch_vector_normalize_cells_witness :
  exists out,
    batch_vector_normalize [3; 0; 4; nan; 1; 2]%float 2 [9; 9; 9; 9; 9; 9; 9]%float
    = Some out
    /\ length out = length [9; 9; 9; 9; 9; 9; 9]%float
    /\ (forall i, 0 <= i < 2 ->
          exists x y z o0 o1 o2,
            rd [3; 0; 4; nan; 1; 2]%float (i * 3) = Some x
            /\ rd [3; 0; 4; nan; 1; 2]%float (i * 3 + 1) = Some y
            /\ rd [3; 0; 4; nan; 1; 2]%float (i * 3 + 2) = Some z
            /\ rd out (i * 3) = Some o0
            /\ rd out (i * 3 + 1) = Some o1
            /\ rd out (i * 3 + 2) = Some o2
            /\ (is_nan (sqrt (x * x + y * y + z * z)) = false ->
                forall r0 r1 r2,
                  vector_normalize x y z [r0; r1; r2] = Some [o0; o1; o2])
            /\ (is_nan (sqrt (x * x + y * y + z * z)) = true ->
                [o0; o1; o2] = [0; 0; 0]%float
                /\ forall r0 r1 r2,
                     vector_normalize x y z [r0; r1; r2] = Some [nan; nan; nan]))
    /\ (forall j, 3 * 2 <= j -> rd out j = rd [9; 9; 9; 9; 9; 9; 9]%float j).
Proof.
  apply (batch_vector_normalize_cells [3; 0; 4; nan; 1; 2]%float
                                      [9; 9; 9; 9; 9; 9; 9]%float 2);
    unfold INT_MAX; simpl; lia.
Defined.

(** A vector whose sum of squares underflows to zero, or overflows to
    infinity while its components are finite, is normalised to the zero
    vector: [vector_normalize] writes a zero into each of the three cells
    and leaves the other cells of [result] as they were. *)
Theorem vector_normalize_degenerate (x y z : float) (result : list float) :
  3 <= Z.of_nat (length result) ->
  ((x * x + y * y + z * z =? 0)%float = true
   \/ ((x * x + y * y + z * z)%float = infinity
       /\ isfinite x = true /\ isfinite y = true /\ isfinite z = true)) ->
  exists out,
    vector_normalize x y z result = Some out
    /\ length out = length result
    /\ (forall i, 0 <= i < 3 ->
          exists v, rd out i = Some v /\ (v =? 0)%float = true)
    /\ (forall i, 3 <= i -> rd out i = rd result i).
Proof.
  intros Hlen Hs. unfold vector_normalize. cbv zeta.
  set (s := (x * x + y * y + z * z)%float) in *.
  assert (Hthree : forall v0 v1 v2 i0 i1 i2,
             (v0 =? 0)%float = true -> (v1 =? 0)%float = true ->
             (v2 =? 0)%float = true ->
             (i0 = 0 /\ i1 = 1 /\ i2 = 2) \/ (i0 = 2 /\ i1 = 1 /\ i2 = 0) ->
             exists out,
               (do r0 <- wr result i0 v0; do r1 <- wr r0 i1 v1; wr r1 i2 v2) = Some out
               /\ length out = length result
               /\ (forall i, 0 <= i < 3 ->
                     exists v, rd out i = Some v /\ (v =? 0)%float = true)
               /\ (forall i, 3 <= i -> rd out i = rd result i)).
  { intros v0 v1 v2 i0 i1 i2 Z0 Z1 Z2 Hi.
    destruct (store3 result i0 i1 i2 v0 v1 v2) as (out & E & L & C); try lia.
    exists out. split; [exact E|]. split; [exact L|]. split.
    - intros i Hr. rewrite C by lia.
      destruct (Z.eqb_spec i i2); [eauto|]. destruct (Z.eqb_spec i i1); [eauto|].
      destruct (Z.eqb_spec i i0); [eauto|lia].
    - intros i Hr. rewrite C by lia.
      destruct (Z.eqb_spec i i2); [lia|]. destruct (Z.eqb_spec i i1); [lia|].
      destruct (Z.eqb_spec i i0); [lia|reflexivity]. }
  destruct Hs as [Hz|(Hinf & Fx & Fy & Fz)].
  - assert (E : (sqrt s =? 0)%float = true).
    { rewrite eqb_zero_SF in *. rewrite sqrt_spec. unfold SF64sqrt.
      now destruct (Prim2SF s). }
    rewrite E. apply Hthree; auto.
  - rewrite Hinf. change (sqrt infinity =? 0)%float with false. cbv iota.
    change (1 / sqrt infinity)%float with 0%float.
    assert (Hm : forall v, isfinite v = true -> (v * 0 =? 0)%float = true).
    { intros v Fv. rewrite eqb_zero_SF, mul_spec, Prim2SF_zero.
      rewrite isfinite_SF in Fv. now apply SFmul_finite_zero. }
    apply Hthree; auto.
Qed.

Lemma vector_normalize_degenerate_witness :
  exists out,
    vector_normalize 1e200 0 0 [9; 9; 9; 9]%float = Some out
    /\ length out = length [9; 9; 9; 9]%float
    /\ (forall i, 0 <= i < 3 ->
          exists v, rd out i = Some v /\ (v =? 0)%float = true)
    /\ (forall i, 3 <= i -> rd out i = rd [9; 9; 9; 9]%float i).
Proof.
  apply (vector_normalize_degenerate 1e200 0 0 [9; 9; 9; 9]%float).
  - simpl. lia.
  - right. repeat split; reflexivity.
Defined.

(* ===================================================================== *)
(** * psf-wasm.c: the Strehl ratio and the trig tables *)
(* ===================================================================== *)

Local Open Scope float_scope.

(** Dividing by one changes nothing. *)
Lemma SFdiv_one_r (x : spec_float) :
  valid_binary x = true ->
  SFdiv prec emax x (S754_finite false 4503599627370496 (-52)) = x.
Proof.
  destruct x as [[]|[]| |s m e]; try reflexivity. cbn [valid_binary]. intros V.
  rewrite SFdiv_finite by (assumption || reflexivity).
  replace (val 4503599627370496 (-52)) with (unit_of 0) by (vm_compute; reflexivity).
  rewrite RND_exact.
  - replace (xorb s false) with s by (destruct s; reflexivity).
    now apply inject_val.
  - now apply bounded_representable.
  - apply unit_of_pos. unfold B. lia.
Qed.

Lemma div_1_r (x : float) : x / 1 = x.
Proof.
  apply Prim2SF_inj. rewrite div_spec, Prim2SF_one.
  apply SFdiv_one_r, Prim2SF_valid.
Qed.

Local Open Scope Z_scope.

(** The Strehl ratio [calculate_strehl_wasm] returns is the pixel at row and
    column [size / 2] of the array it is given, as it is: the theoretical
    peak it divides by is 1.  The pixel is inside the array as soon as
    [size] is at least 1 and the array holds [size * size] cells. *)
Theorem strehl_ratio_is_centre_pixel (psf : list float) (size : Z) :
  calculate_strehl_wasm psf size
  = rd psf (Z.quot size 2 * size + Z.quot size 2)
  /\ (1 <= size -> size * size <= Z.of_nat (length psf) ->
      exists v, calculate_strehl_wasm psf size = Some v).
Proof.
  assert (E : calculate_strehl_wasm psf size
              = rd psf (Z.quot size 2 * size + Z.quot size 2)).
  { unfold calculate_strehl_wasm, calculate_strehl_ratio. cbv zeta.
    destruct (rd psf _); [|reflexivity]. now rewrite div_1_r. }
  split; [exact E|]. intros H1 Hl. rewrite E. apply rd_in_range.
  assert (Hq : 0 <= Z.quot size 2 /\ 2 * Z.quot size 2 <= size).
  { rewrite Z.quot_div_nonneg by lia. pose proof (Z.div_mod size 2 ltac:(lia)).
    pose proof (Z.mod_pos_bound size 2 ltac:(lia)). lia. }
  nia.
Qed.

Lemma prepare_trig_tables_again (L : Libm) (st : state) (n m : Z) :
  0 <= n -> m <= n ->
  prepare_trig_tables L m (prepare_trig_tables L n st) = prepare_trig_tables L n st.
Proof.
  intros Hn Hm.
  assert (Hinit : prepare_trig_tables L m (init_fast_trig_tables L n st)
                  = init_fast_trig_tables L n st).
  { unfold prepare_trig_tables at 1. cbn [init_fast_trig_tables set_trig sin_table
                                           trig_table_size].
    destruct (Z.ltb_spec (n * 4) m); [lia|reflexivity]. }
  unfold prepare_trig_tables at 2 3.
  destruct (sin_table st) as [t|] eqn:Et; [|exact Hinit].
  destruct (Z.ltb_spec (trig_table_size st) n) as [Hlt|Hge]; [exact Hinit|].
  unfold prepare_trig_tables. rewrite Et.
  destruct (Z.ltb_spec (trig_table_size st) m); [lia|reflexivity].
Qed.

(** Once the trig tables have been prepared for [n] cells, with [4 * n],
    the size of the tables, an [int], preparing them for any number of
    cells [m] from 0 to [n] leaves the state as it is: the tables are not
    rebuilt for a grid that is not larger than the last one. *)
Theorem prepare_trig_tables_once (L : Libm) (st : state) (n m : Z) :
  0 <= m -> m <= n -> 4 * n <= INT_MAX ->
  prepare_trig_tables L m (prepare_trig_tables L n st) = prepare_trig_tables L n st.
Proof.
  intros Hm0 Hm _.
  assert (Hinit : prepare_trig_tables L m (init_fast_trig_tables L n st)
                  = init_fast_trig_tables L n st).
  { unfold prepare_trig_tables at 1. cbn [init_fast_trig_tables set_trig sin_table
                                           trig_table_size].
    destruct (Z.ltb_spec (n * 4) m); [lia|reflexivity]. }
  unfold prepare_trig_tables at 2 3.
  destruct (sin_table st) as [t|] eqn:Et; [|exact Hinit].
  destruct (Z.ltb_spec (trig_table_size st) n) as [Hlt|Hge]; [exact Hinit|].
  unfold prepare_trig_tables. rewrite Et.
  destruct (Z.ltb_spec (trig_table_size st) m); [lia|reflexivity].
Qed.

Lemma prepare_trig_tables_once_witness :
  prepare_trig_tables RefLibm.libm 1 (prepare_trig_tables RefLibm.libm 2 initial_state)
  = prepare_trig_tables RefLibm.libm 2 initial_state.
Proof.
  apply (prepare_trig_tables_once RefLibm.libm initial_state 2 1);
    unfold INT_MAX; lia.
Defined.

(** With tables as [init_fast_trig_tables] leaves them and an [fmod] whose
    result is within 2 pi of zero, [fast_sin] and [fast_cos] never read
    outside their tables: for a finite [x] each returns an entry of its
    table. *)
Theorem fast_trig_lookup_in_table (L : Libm) (st : state) (x : float) :
  trig_tables_ok st ->
  isfinite x = true ->
  fmod_in_range L x ->
  exists s c,
    fast_sin L st x = Some s /\ fast_cos L st x = Some c
    /\ (forall t, sin_table st = Some t -> In s t)
    /\ (forall t, cos_table st = Some t -> In c t).
Proof.
  intros Hok Hx Hf.
  destruct (fast_sin_returns L st x Hok (fun _ _ => Hf)) as [s Hs].
  destruct (fast_cos_returns L st x Hok (fun _ _ => Hf)) as [c Hc].
  exists s, c. split; [exact Hs|]. split; [exact Hc|]. split.
  - intros t Et. unfold fast_sin in Hs. rewrite Et, Hx in Hs. cbn [negb] in Hs.
    exact (rd_In _ _ _ Hs).
  - intros t Et. unfold fast_cos in Hc. rewrite Et, Hx in Hc. cbn [negb] in Hc.
    exact (rd_In _ _ _ Hc).
Qed.

Lemma fast_trig_lookup_in_table_witness :
  exists s c,
    fast_sin RefLibm.libm (init_fast_trig_tables RefLibm.libm 1 initial_state) 100
    = Some s
    /\ fast_cos RefLibm.libm (init_fast_trig_tables RefLibm.libm 1 initial_state) 100
       = Some c
    /\ (forall t, sin_table (init_fast_trig_tables RefLibm.libm 1 initial_state)
                  = Some t -> In s t)
    /\ (forall t, cos_table (init_fast_trig_tables RefLibm.libm 1 initial_state)
                  = Some t -> In c t).
Proof.
  apply (fast_trig_lookup_in_table RefLibm.libm
           (init_fast_trig_tables RefLibm.libm 1 initial_state) 100).
  - apply init_fast_trig_tables_ok. lia.
  - reflexivity.
  - vm_compute. reflexivity.
Defined.

(* ===================================================================== *)
(** * The process-wide caches: what every entry point keeps *)
(* ===================================================================== *)

Local Open Scope Z_scope.

(** ** Properties that the loops carry from the body to the exit *)

Lemma for_range_preserves {St : Type} (P : St -> Prop)
      (body : Z -> St -> option St) (n : nat) (i : Z) (s s' : St) :
  (forall k t t', body k t = Some t' -> P t -> P t') ->
  for_range n i body s = Some s' -> P s -> P s'.
Proof.
  intros Hb. revert i s. induction n as [|n IH]; intros i s; cbn [for_range].
  - intros E. now injection E as <-.
  - destruct (body i s) as [t|] eqn:E; [|discriminate].
    intros Hr Hs. exact (IH _ _ Hr (Hb _ _ _ E Hs)).
Qed.

Lemma for_loop_preserves {St : Type} (P : St -> Prop)
      (body : Z -> St -> option St) (lo hi : Z) (s s' : St) :
  (forall k t t', body k t = Some t' -> P t -> P t') ->
  for_loop lo hi body s = Some s' -> P s -> P s'.
Proof. unfold for_loop. apply for_range_preserves. Qed.

Lemma for_step_preserves {St : Type} (P : St -> Prop)
      (body : Z -> St -> option St) (fuel : nat) (i hi step : Z) (s s' : St) :
  (forall k t t', body k t = Some t' -> P t -> P t') ->
  for_step fuel i hi step body s = Some s' -> P s -> P s'.
Proof.
  intros Hb. revert i s. induction fuel as [|n IH]; intros i s; cbn [for_step].
  - destruct (i <? hi); [discriminate|]. intros E. now injection E as <-.
  - destruct (i <? hi); [|intros E; now injection E as <-].
    destruct (body i s) as [t|] eqn:E; [|discriminate].
    intros Hr Hs. exact (IH _ _ Hr (Hb _ _ _ E Hs)).
Qed.

(** ** The length of an array through the steps of the FFT *)

Lemma swap_cells_length {A : Type} (data data' : list A) (i j : Z) :
  swap_cells data i j = Some data' -> length data' = length data.
Proof.
  unfold swap_cells.
  destruct (rd data i) as [a|]; [|discriminate].
  destruct (rd data j) as [b|]; [|discriminate].
  destruct (wr data i b) as [d1|] eqn:W1; [|discriminate].
  intros W2. rewrite (wr_length _ _ _ _ W2). exact (wr_length _ _ _ _ W1).
Qed.

Lemma bit_reverse_length (off n : Z) (data data' : list Complex) :
  bit_reverse off n data = Some data' -> length data' = length data.
Proof.
  unfold bit_reverse.
  destruct (for_loop 1 n (bit_reverse_body off n) (0, data)) as [s|] eqn:E;
    [|discriminate].
  intros H. injection H as <-.
  eapply (for_loop_preserves (fun s => length (snd s) = length data));
    [|exact E|reflexivity].
  intros k t t' Hb Ht. cbv beta in *.
  unfold bit_reverse_body in Hb. destruct t as [j d].
  destruct (rev_while j (Z.shiftr n 1)) as [j1 bit1].
  destruct (k <? Z.lxor j1 bit1).
  - destruct (swap_cells d _ _) as [d'|] eqn:Es; [|discriminate].
    injection Hb as <-. cbn [snd] in *. rewrite (swap_cells_length _ _ _ _ Es).
    exact Ht.
  - injection Hb as <-. exact Ht.
Qed.

Lemma butterfly_length (tbl : list Complex) (off n len step i : Z) (inverse : bool)
      (j : Z) (data data' : list Complex) :
  butterfly tbl off n len step i inverse j data = Some data' ->
  length data' = length data.
Proof.
  unfold butterfly. cbv zeta.
  destruct (rd tbl _) as [w|]; [|discriminate].
  destruct (rd data _) as [u|]; [|discriminate].
  destruct (rd data _) as [x|]; [|discriminate].
  destruct (wr data _ _) as [d1|] eqn:W1; [|discriminate].
  intros W2. rewrite (wr_length _ _ _ _ W2). exact (wr_length _ _ _ _ W1).
Qed.

Lemma groups_length (tbl : list Complex) (off n len step : Z) (inverse : bool)
      (fuel : nat) (i : Z) (data data' : list Complex) :
  groups tbl off n len step inverse fuel i data = Some data' ->
  length data' = length data.
Proof.
  revert i data. induction fuel as [|k IH]; intros i data; cbn [groups].
  - destruct (i <? n); [discriminate|]. intros E. now injection E as <-.
  - destruct (i <? n); [|intros E; now injection E as <-].
    destruct (for_loop 0 (Z.quot len 2) _ data) as [d|] eqn:E; [|discriminate].
    intros H. rewrite (IH _ _ H).
    eapply (for_loop_preserves (fun d => length d = length data));
      [|exact E|reflexivity].
    intros j t t' Hb Ht. cbv beta in *. rewrite (butterfly_length _ _ _ _ _ _ _ _ _ _ Hb).
    exact Ht.
Qed.

Lemma stages_length (tbl : list Complex) (off n : Z) (inverse : bool)
      (fuel : nat) (len : Z) (data data' : list Complex) :
  stages tbl off n inverse fuel len data = Some data' ->
  length data' = length data.
Proof.
  revert len data. induction fuel as [|k IH]; intros len data; cbn [stages].
  - destruct (len <=? n); [discriminate|]. intros E. now injection E as <-.
  - destruct (len <=? n); [|intros E; now injection E as <-].
    destruct (groups tbl off n len _ inverse _ 0 data) as [d|] eqn:E; [|discriminate].
    intros H. rewrite (IH _ _ H). exact (groups_length _ _ _ _ _ _ _ _ _ _ E).
Qed.

Lemma normalize_length (off n : Z) (inverse : bool) (data data' : list Complex) :
  normalize off n inverse data = Some data' -> length data' = length data.
Proof.
  unfold normalize. destruct inverse; [|intros E; now injection E as <-].
  intros E.
  eapply (for_loop_preserves (fun d => length d = length data));
    [|exact E|reflexivity].
  intros j t t' Hb Ht. cbv beta in *. unfold scale_body in Hb.
  destruct (rd t _); [|discriminate]. rewrite (wr_length _ _ _ _ Hb). exact Ht.
Qed.

(** What a returning [fft_1d] has done to the state, and the length of the
    array it hands back. *)
Lemma fft_1d_effect (L : Libm) (st st' : state) (data data' : list Complex)
      (off n : Z) (inverse : bool) :
  fft_1d L st data off n inverse = Some (st', data') ->
  length data' = length data
  /\ ((n <= 1 /\ st' = st) \/ (1 < n /\ ensure_twiddle_table L n st = Some st')).
Proof.
  unfold fft_1d. destruct (Z.leb_spec n 1) as [Hn|Hn].
  - intros E. injection E as <- <-. split; [reflexivity|]. left. auto.
  - destruct (ensure_twiddle_table L n st) as [st1|]; [|discriminate].
    destruct (twiddle_table st1) as [tbl|]; [|discriminate].
    destruct (bit_reverse off n data) as [d1|] eqn:E1; [|discriminate].
    destruct (stages tbl off n inverse _ 2 d1) as [d2|] eqn:E2; [|discriminate].
    destruct (normalize off n inverse d2) as [d3|] eqn:E3; [|discriminate].
    intros E. injection E as <- <-. split; [|right; auto].
    rewrite (normalize_length _ _ _ _ _ E3), (stages_length _ _ _ _ _ _ _ _ E2).
    exact (bit_reverse_length _ _ _ _ E1).
Qed.

Lemma transpose_complex_length (src dst dst' : list Complex) (width height : Z) :
  transpose_complex src dst width height = Some dst' -> length dst' = length dst.
Proof.
  unfold transpose_complex. cbv zeta. intros E.
  eapply (for_step_preserves (fun d => length d = length dst));
    [|exact E|reflexivity].
  intros i t t' Hb Ht. cbv beta in *.
  eapply (for_step_preserves (fun d => length d = length dst));
    [|exact Hb|exact Ht].
  intros j u u' Hc Hu. cbv beta in *. unfold transpose_block in Hc. cbv zeta in Hc.
  eapply (for_loop_preserves (fun d => length d = length dst));
    [|exact Hc|exact Hu].
  intros ii v v' Hd Hv. cbv beta in *.
  eapply (for_loop_preserves (fun d => length d = length dst));
    [|exact Hd|exact Hv].
  intros jj w w' He Hw. cbv beta in *. unfold transpose_cell in He.
  destruct (rd src _); [|discriminate]. rewrite (wr_length _ _ _ _ He). exact Hw.
Qed.

(** ** The invariant *)

(** A table that is present has as many cells as its size variable says, a
    table that is absent has size 0, the two trig tables are present
    together, and the capacity of the scratch buffer is its length. *)
Definition caches_wf (st : state) : Prop :=
  (forall t, twiddle_table st = Some t -> Z.of_nat (length t) = twiddle_table_size st)
  /\ (twiddle_table st = None -> twiddle_table_size st = 0)
  /\ (forall t, sin_table st = Some t -> Z.of_nat (length t) = trig_table_size st)
  /\ (forall t, cos_table st = Some t -> Z.of_nat (length t) = trig_table_size st)
  /\ (sin_table st = None <-> cos_table st = None)
  /\ (sin_table st = None -> trig_table_size st = 0)
  /\ (forall b, fft_temp_buffer st = Some b -> Z.of_nat (length b) = fft_temp_capacity st)
  /\ (fft_temp_buffer st = None -> fft_temp_capacity st = 0).

Lemma caches_wf_initial : caches_wf initial_state.
Proof. unfold caches_wf, initial_state. cbn. repeat split; try discriminate; auto. Qed.

Lemma caches_wf_init_trig (L : Libm) (max_size : Z) (st : state) :
  0 <= max_size -> caches_wf st -> caches_wf (init_fast_trig_tables L max_size st).
Proof.
  intros H (T1 & T2 & _ & _ & _ & _ & B1 & B2).
  unfold caches_wf, init_fast_trig_tables. cbn.
  split; [exact T1|]. split; [exact T2|].
  split. { intros t E. injection E as <-. rewrite length_map, length_indices. lia. }
  split. { intros t E. injection E as <-. rewrite length_map, length_indices. lia. }
  split; [split; discriminate|]. split; [discriminate|]. split; assumption.
Qed.

Lemma caches_wf_prepare (L : Libm) (total_size : Z) (st : state) :
  0 <= total_size -> caches_wf st -> caches_wf (prepare_trig_tables L total_size st).
Proof.
  intros H Hwf. unfold prepare_trig_tables.
  destruct (sin_table st); [|now apply caches_wf_init_trig].
  destruct (trig_table_size st <? total_size);
    [now apply caches_wf_init_trig|exact Hwf].
Qed.

Lemma twiddle_entries_length (L : Libm) (st : state) (M : Z) (ixs : list Z)
      (tbl : list Complex) :
  twiddle_entries L st M ixs = Some tbl -> length tbl = length ixs.
Proof.
  revert tbl. induction ixs as [|i rest IH]; intros tbl; cbn [twiddle_entries].
  - intros E. now injection E as <-.
  - destruct (twiddle_entry L st M i); [|discriminate].
    destruct (twiddle_entries L st M rest) as [ws|]; [|discriminate].
    intros E. injection E as <-. cbn [length]. now rewrite (IH ws eq_refl).
Qed.

Lemma caches_wf_init_twiddle (L : Libm) (n : Z) (st st' : state) :
  0 <= n -> caches_wf st -> init_twiddle_table L n st = Some st' -> caches_wf st'.
Proof.
  intros H (_ & _ & S1 & C1 & SC & S0 & B1 & B2). unfold init_twiddle_table.
  destruct (twiddle_entries L st n (indices n)) as [tbl|] eqn:E; [|discriminate].
  intros E'. injection E' as <-. unfold caches_wf. cbn.
  split. { intros t Et. injection Et as <-.
           rewrite (twiddle_entries_length _ _ _ _ _ E), length_indices. lia. }
  split; [discriminate|]. repeat split; try assumption; apply SC.
Qed.

Lemma caches_wf_ensure_twiddle (L : Libm) (n : Z) (st st' : state) :
  0 <= n -> caches_wf st -> ensure_twiddle_table L n st = Some st' -> caches_wf st'.
Proof.
  intros H Hwf. unfold ensure_twiddle_table.
  destruct (twiddle_table st); [|now apply caches_wf_init_twiddle].
  destruct (twiddle_table_size st <? n); [now apply caches_wf_init_twiddle|].
  intros E. now injection E as <-.
Qed.

Lemma caches_wf_ensure_temp (malloc : block Complex) (need : Z) (st : state) :
  caches_wf st -> caches_wf (ensure_fft_temp_buffer malloc need st).
Proof.
  intros Hwf. pose proof Hwf as (T1 & T2 & S1 & C1 & SC & S0 & B1 & B2).
  unfold ensure_fft_temp_buffer.
  destruct (Z.ltb_spec (fft_temp_capacity st) need) as [Hlt|Hge]; [|exact Hwf].
  assert (Hcap : 0 <= fft_temp_capacity st).
  { destruct (fft_temp_buffer st) as [b|] eqn:Eb.
    - rewrite <- (B1 b eq_refl). lia.
    - rewrite (B2 eq_refl). lia. }
  unfold caches_wf.
  destruct malloc as [g|], (fft_temp_buffer st) as [b|] eqn:Eb; cbn;
    repeat split; try assumption; try apply SC; try discriminate;
    try (intros t Et; injection Et as <-; apply length_cells; lia);
    try reflexivity.
Qed.

(** A returning [fft_1d] keeps everything but the twiddle table. *)
Lemma ensure_twiddle_table_frame (L : Libm) (n : Z) (st st' : state) :
  ensure_twiddle_table L n st = Some st' ->
  sin_table st' = sin_table st /\ cos_table st' = cos_table st
  /\ trig_table_size st' = trig_table_size st
  /\ fft_temp_buffer st' = fft_temp_buffer st
  /\ fft_temp_capacity st' = fft_temp_capacity st.
Proof.
  unfold ensure_twiddle_table, init_twiddle_table.
  destruct (twiddle_table st).
  - destruct (twiddle_table_size st <? n).
    + destruct (twiddle_entries L st n (indices n)); [|discriminate].
      intros E. injection E as <-. cbn. auto.
    + intros E. injection E as <-. auto.
  - destruct (twiddle_entries L st n (indices n)); [|discriminate].
    intros E. injection E as <-. cbn. auto.
Qed.

(** What [fft_rows] keeps: the invariant, the trig tables, the scratch
    buffer and the length of the array. *)
Definition rows_keep (st : state) (len : nat) (s : state * list Complex) : Prop :=
  caches_wf (fst s)
  /\ sin_table (fst s) = sin_table st /\ cos_table (fst s) = cos_table st
  /\ trig_table_size (fst s) = trig_table_size st
  /\ fft_temp_buffer (fst s) = fft_temp_buffer st
  /\ fft_temp_capacity (fst s) = fft_temp_capacity st
  /\ length (snd s) = len.

Lemma fft_rows_keep (L : Libm) (rows len : Z) (inverse : bool) (st0 : state)
      (n : nat) (s s' : state * list Complex) :
  fft_rows L rows len inverse s = Some s' ->
  rows_keep st0 n s -> rows_keep st0 n s'.
Proof.
  unfold fft_rows. apply for_loop_preserves.
  intros k t t' Hb (Hwf & Hs & Hc & Hz & Hbuf & Hcap & Hl).
  destruct t' as [st' d']. apply fft_1d_effect in Hb as [Hlen Hst].
  cbn [fst snd] in *. unfold rows_keep. cbn [fst snd].
  destruct Hst as [[_ ->]|[Hn He]].
  - repeat split; try assumption; try apply Hwf. congruence.
  - destruct (ensure_twiddle_table_frame _ _ _ _ He) as (F1 & F2 & F3 & F4 & F5).
    split; [apply (caches_wf_ensure_twiddle L len (fst t) st'); (lia || assumption)|].
    repeat split; congruence.
Qed.

Lemma fft_2d_keep (L : Libm) (malloc : block Complex) (st st' : state)
      (data data' : list Complex) (width height : Z) (inverse : bool) :
  caches_wf st ->
  fft_2d L malloc st data width height inverse = Some (st', data') ->
  caches_wf st'
  /\ sin_table st' = sin_table st /\ cos_table st' = cos_table st
  /\ trig_table_size st' = trig_table_size st
  /\ length data' = length data.
Proof.
  intros Hwf. unfold fft_2d. cbv zeta.
  pose proof (caches_wf_ensure_temp malloc (width * height) st Hwf) as Hwf1.
  destruct (ensure_fft_temp_buffer_tables malloc (width * height) st)
    as (_ & _ & Es & Ec & Ez).
  set (st1 := ensure_fft_temp_buffer malloc (width * height) st) in *.
  destruct (fft_temp_buffer st1) as [tmp|] eqn:Etmp.
  2:{ intros E. injection E as <- <-. auto. }
  destruct (fft_rows L height width inverse (st1, data)) as [s1|] eqn:E1;
    [|discriminate].
  destruct (transpose_complex (snd s1) tmp width height) as [tmp1|] eqn:E2;
    [|discriminate].
  destruct (fft_rows L width height inverse (fst s1, tmp1)) as [s2|] eqn:E3;
    [|discriminate].
  destruct (transpose_complex (snd s2) (snd s1) height width) as [d'|] eqn:E4;
    [|discriminate].
  intros E. injection E as <- <-.
  assert (K1 : rows_keep st1 (length data) s1).
  { apply (fft_rows_keep L _ _ _ st1 _ _ _ E1). unfold rows_keep. cbn. auto 10. }
  destruct K1 as (W1 & S1 & C1 & Z1 & B1 & P1 & L1).
  assert (K2 : rows_keep st1 (length tmp) s2).
  { apply (fft_rows_keep L _ _ _ st1 _ _ _ E3). unfold rows_keep. cbn.
    rewrite (transpose_complex_length _ _ _ _ _ E2). auto 10. }
  destruct K2 as (W2 & S2 & C2 & Z2 & B2 & P2 & L2).
  split.
  - destruct W2 as (T1 & T2 & S3 & C3 & SC & S0 & _ & _).
    unfold caches_wf. cbn. repeat split; try assumption; try apply SC;
      try discriminate.
    intros b Eb. injection Eb as <-. rewrite L2, P2.
    destruct Hwf1 as (_ & _ & _ & _ & _ & _ & Hb & _). exact (Hb tmp Etmp).
  - cbn. split; [congruence|]. split; [congruence|]. split; [congruence|].
    rewrite (transpose_complex_length _ _ _ _ _ E4). exact L1.
Qed.

Lemma prepare_trig_tables_present (L : Libm) (total_size : Z) (st : state) :
  sin_table (prepare_trig_tables L total_size st) <> None.
Proof.
  unfold prepare_trig_tables. destruct (sin_table st) eqn:E.
  - destruct (trig_table_size st <? total_size); [discriminate|]. now rewrite E.
  - discriminate.
Qed.

Lemma calculate_complex_amplitude_state (L : Libm) (st st' : state)
      (opd amplitude : list float) (pupil_mask : list Z)
      (output out : list Complex) (size : Z) (wavelength : float) :
  calculate_complex_amplitude L st opd amplitude pupil_mask output size wavelength
  = Some (st', out) ->
  st' = prepare_trig_tables L (size * size) st.
Proof.
  unfold calculate_complex_amplitude. cbv zeta.
  destruct (for_loop 0 (size * size) _ _); [|discriminate].
  intros E. now injection E as <- _.
Qed.

Lemma calculate_psf_grid_wasm_keep (L : Libm)
      (calloc_ok : bool) (malloc_psf : block float) (malloc_tmp : block Complex)
      (st st' : state) (grid_opd amplitude : option (list float))
      (pupil_mask : option (list Z)) (grid_size : Z) (wavelength : float)
      (r : option (list float)) :
  caches_wf st ->
  calculate_psf_grid_wasm L calloc_ok malloc_psf malloc_tmp st
                          grid_opd amplitude pupil_mask grid_size wavelength
  = Some (st', r) ->
  caches_wf st' /\ cos_table st' <> None.
Proof.
  intros Hwf. unfold calculate_psf_grid_wasm. cbv zeta.
  pose proof (caches_wf_prepare L (grid_size * grid_size) st ltac:(nia) Hwf) as W1.
  pose proof (prepare_trig_tables_present L (grid_size * grid_size) st) as P1.
  set (st1 := prepare_trig_tables L (grid_size * grid_size) st) in *.
  assert (C1 : cos_table st1 <> None).
  { destruct W1 as (_ & _ & _ & _ & SC & _). intros Hc. apply P1. now apply SC. }
  destruct calloc_ok; [|intros E; injection E as <- _; auto].
  destruct malloc_psf as [g|]; [|intros E; injection E as <- _; auto].
  destruct (grid_pupil L st1 _ _ _ _ _) as [field|]; [|discriminate].
  destruct (fft_2d L malloc_tmp st1 field grid_size grid_size false)
    as [[st2 d2]|] eqn:E2; [|discriminate].
  destruct (for_loop 0 _ (intensity_cell _) _); [|discriminate].
  destruct (fft_shift _ grid_size); [|discriminate].
  intros E. injection E as <- _. cbn [fst].
  destruct (fft_2d_keep L _ _ _ _ _ _ _ _ W1 E2) as (W2 & _ & Ec & _).
  split; [exact W2|congruence].
Qed.

Lemma calculate_psf_wasm_keep (L : Libm)
      (calloc_ok : bool) (malloc_amp malloc_psf : block float)
      (malloc_tmp : block Complex) (st st' : state)
      (ray_x ray_y ray_opd : list float) (ray_count grid_size : Z)
      (wavelength min_x max_x min_y max_y : float) (r : option (list float)) :
  caches_wf st ->
  calculate_psf_wasm L calloc_ok malloc_amp malloc_psf malloc_tmp st
                     ray_x ray_y ray_opd ray_count grid_size wavelength
                     min_x max_x min_y max_y
  = Some (st', r) ->
  caches_wf st' /\ cos_table st' <> None.
Proof.
  intros Hwf. unfold calculate_psf_wasm. cbv zeta.
  pose proof (caches_wf_prepare L (grid_size * grid_size) st ltac:(nia) Hwf) as W1.
  pose proof (prepare_trig_tables_present L (grid_size * grid_size) st) as P1.
  set (st1 := prepare_trig_tables L (grid_size * grid_size) st) in *.
  assert (C1 : cos_table st1 <> None).
  { destruct W1 as (_ & _ & _ & _ & SC & _). intros Hc. apply P1. now apply SC. }
  destruct calloc_ok; [|intros E; injection E as <- _; auto].
  destruct malloc_amp as [ga|]; [|intros E; injection E as <- _; auto].
  destruct malloc_psf as [g|]; [|intros E; injection E as <- _; auto].
  destruct (for_loop 0 _ (fun i a => wr a i 1%float) _) as [amp|]; [|discriminate].
  destruct (interpolate_opd_grid _ _ _ _ _ _ _ _ _ _ _) as [gm|]; [|discriminate].
  destruct (calculate_complex_amplitude L st1 _ _ _ _ _ _) as [[sa da]|] eqn:Ea;
    [|discriminate].
  apply calculate_complex_amplitude_state in Ea. cbn [fst snd].
  unfold st1 in Ea.
  rewrite (prepare_trig_tables_again L st (grid_size * grid_size)
             (grid_size * grid_size) ltac:(nia) ltac:(lia)) in Ea.
  fold st1 in Ea. subst sa.
  destruct (fft_2d L malloc_tmp _ da grid_size grid_size false)
    as [[st2 d2]|] eqn:E2; [|discriminate].
  destruct (for_loop 0 _ (intensity_cell _) _); [|discriminate].
  destruct (fft_shift _ grid_size); [|discriminate].
  intros E. injection E as <- _. cbn [fst].
  destruct (fft_2d_keep L _ _ _ _ _ _ _ _ W1 E2) as (W2 & _ & Ec & _).
  split; [exact W2|]. fold st1 in Ec. congruence.
Qed.

Lemma cleanup_wasm_module_cases (st : state) :
  caches_wf st ->
  (cos_table st <> None -> cleanup_wasm_module st = initial_state)
  /\ (cos_table st = None -> cleanup_wasm_module st = set_twiddle st None 0).
Proof.
  intros (T1 & T2 & S1 & C1 & SC & S0 & B1 & B2).
  destruct st as [tw tws sn cs ts buf cap]. cbn in *.
  unfold cleanup_wasm_module, set_twiddle, set_trig, set_temp, initial_state. split.
  - intros Hc. destruct cs as [c|]; [|congruence].
    destruct sn as [s|]; [|destruct SC as [SC _]; now specialize (SC eq_refl)].
    destruct tw as [t|], buf as [b|]; cbn; try reflexivity;
      rewrite ?(T2 eq_refl), ?(B2 eq_refl); reflexivity.
  - intros ->. destruct sn as [s|]; [destruct SC as [_ SC]; now specialize (SC eq_refl)|].
    destruct tw as [t|]; cbn; [reflexivity|]. now rewrite (T2 eq_refl).
Qed.

Lemma caches_wf_cleanup (st : state) :
  caches_wf st -> caches_wf (cleanup_wasm_module st).
Proof.
  intros Hwf. destruct (cleanup_wasm_module_cases st Hwf) as [H1 H2].
  destruct (cos_table st) eqn:Ec.
  - rewrite H1 by discriminate. apply caches_wf_initial.
  - rewrite (H2 eq_refl). destruct Hwf as (T1 & T2 & S1 & C1 & SC & S0 & B1 & B2).
    unfold caches_wf, set_twiddle. cbn. repeat split; try assumption; try apply SC;
      try discriminate.
Qed.

(** The caches stay well formed.  In the state a freshly loaded module
    starts in, a table that is present has as many cells as its size variable
    says, an absent table has size 0, the sine and cosine tables are present
    together, and the capacity of the scratch buffer is its length; and
    every function that touches the caches hands back a state of which this
    is true again when it is given one and its sizes are in the range of
    [int]: the size [4 * max_size] of the trig tables, which the code
    computes as an [int] product, and the counter of the stage loop of the
    FFT, which runs up to twice the length. *)
Theorem caches_stay_well_formed (L : Libm) :
  caches_wf initial_state
  /\ (forall st n, 0 <= n -> 4 * n <= INT_MAX -> caches_wf st ->
        caches_wf (init_fast_trig_tables L n st))
  /\ (forall st n st', 0 <= n -> n <= INT_MAX -> caches_wf st ->
        init_twiddle_table L n st = Some st' -> caches_wf st')
  /\ (forall malloc need st, caches_wf st ->
        caches_wf (ensure_fft_temp_buffer malloc need st))
  /\ (forall st data off n inverse st' data',
        2 * n <= INT_MAX -> caches_wf st ->
        fft_1d L st data off n inverse = Some (st', data') -> caches_wf st')
  /\ (forall malloc st data width height inverse st' data',
        2 * width <= INT_MAX -> 2 * height <= INT_MAX ->
        width * height <= INT_MAX -> caches_wf st ->
        fft_2d L malloc st data width height inverse = Some (st', data') ->
        caches_wf st')
  /\ (forall st opd amplitude pupil_mask output size wavelength st' out,
        4 * (size * size) <= INT_MAX -> caches_wf st ->
        calculate_complex_amplitude L st opd amplitude pupil_mask output
                                    size wavelength = Some (st', out) ->
        caches_wf st')
  /\ (forall calloc_ok malloc_psf malloc_tmp st grid_opd amplitude pupil_mask
             grid_size wavelength st' r,
        4 * (grid_size * grid_size) <= INT_MAX -> caches_wf st ->
        calculate_psf_grid_wasm L calloc_ok malloc_psf malloc_tmp st
                                grid_opd amplitude pupil_mask grid_size wavelength
        = Some (st', r) ->
        caches_wf st')
  /\ (forall calloc_ok malloc_amp malloc_psf malloc_tmp st ray_x ray_y ray_opd
             ray_count grid_size wavelength min_x max_x min_y max_y st' r,
        4 * (grid_size * grid_size) <= INT_MAX -> caches_wf st ->
        calculate_psf_wasm L calloc_ok malloc_amp malloc_psf malloc_tmp st
                           ray_x ray_y ray_opd ray_count grid_size wavelength
                           min_x max_x min_y max_y
        = Some (st', r) ->
        caches_wf st')
  /\ (forall st, caches_wf st -> caches_wf (cleanup_wasm_module st)).
Proof.
  split; [exact caches_wf_initial|].
  split; [intros st n Hn _ Hwf; now apply caches_wf_init_trig|].
  split; [intros st n st' Hn _ Hwf E;
          exact (caches_wf_init_twiddle L n st st' Hn Hwf E)|].
  split; [intros malloc need st Hwf; now apply caches_wf_ensure_temp|].
  split.
  { intros st data off n inverse st' data' _ Hwf E.
    apply fft_1d_effect in E as [_ [[_ ->]|[Hn E]]]; [exact Hwf|].
    exact (caches_wf_ensure_twiddle L n st st' ltac:(lia) Hwf E). }
  split.
  { intros malloc st data width height inverse st' data' _ _ _ Hwf E.
    exact (proj1 (fft_2d_keep L _ _ _ _ _ _ _ _ Hwf E)). }
  split.
  { intros st opd amplitude pupil_mask output size wavelength st' out _ Hwf E.
    apply calculate_complex_amplitude_state in E. subst st'.
    apply caches_wf_prepare; [nia|exact Hwf]. }
  split.
  { intros calloc_ok malloc_psf malloc_tmp st grid_opd amplitude pupil_mask
           grid_size wavelength st' r _ Hwf E.
    exact (proj1 (calculate_psf_grid_wasm_keep L _ _ _ _ _ _ _ _ _ _ _ Hwf E)). }
  split.
  { intros calloc_ok malloc_amp malloc_psf malloc_tmp st ray_x ray_y ray_opd
           ray_count grid_size wavelength min_x max_x min_y max_y st' r _ Hwf E.
    exact (proj1 (calculate_psf_wasm_keep L _ _ _ _ _ _ _ _ _ _ _ _ _ _ _ _ _ Hwf E)). }
  intros st Hwf. now apply caches_wf_cleanup.
Qed.

(** [cleanup_wasm_module] on well-formed caches.  When the cosine table is
    present the module is back in the state it was loaded in; it is present
    after a PSF computation on a grid for which the size
    [4 * grid_size * grid_size] of the trig tables is an [int].  When it is
    absent (no PSF has been computed, or the module has been cleaned up
    already) only the twiddle table is released: a scratch buffer that a
    bare [fft_2d] has allocated stays allocated, since its release sits
    inside the test of [cos_table]. *)
Theorem cleanup_wasm_module_effect (L : Libm) (st : state) :
  caches_wf st ->
  (cos_table st <> None -> cleanup_wasm_module st = initial_state)
  /\ (cos_table st = None ->
      cleanup_wasm_module st = set_twiddle st None 0
      /\ fft_temp_buffer (cleanup_wasm_module st) = fft_temp_buffer st
      /\ fft_temp_capacity (cleanup_wasm_module st) = fft_temp_capacity st)
  /\ (forall calloc_ok malloc_psf malloc_tmp grid_opd amplitude pupil_mask
             grid_size wavelength st' r,
        4 * (grid_size * grid_size) <= INT_MAX ->
        calculate_psf_grid_wasm L calloc_ok malloc_psf malloc_tmp st
                                grid_opd amplitude pupil_mask grid_size wavelength
        = Some (st', r) ->
        cleanup_wasm_module st' = initial_state)
  /\ (forall malloc data width height inverse st' data',
        2 * width <= INT_MAX -> 2 * height <= INT_MAX ->
        width * height <= INT_MAX ->
        cos_table st = None ->
        fft_2d L malloc st data width height inverse = Some (st', data') ->
        fft_temp_buffer (cleanup_wasm_module st') = fft_temp_buffer st')
  /\ cleanup_wasm_module (cleanup_wasm_module st) = cleanup_wasm_module st.
Proof.
  intros Hwf. destruct (cleanup_wasm_module_cases st Hwf) as [H1 H2].
  split; [exact H1|]. split.
  { intros Hc. rewrite (H2 Hc). auto. }
  split.
  { intros calloc_ok malloc_psf malloc_tmp grid_opd amplitude pupil_mask
           grid_size wavelength st' r _ E.
    destruct (calculate_psf_grid_wasm_keep L _ _ _ _ _ _ _ _ _ _ _ Hwf E) as [W C].
    exact (proj1 (cleanup_wasm_module_cases st' W) C). }
  split.
  { intros malloc data width height inverse st' data' _ _ _ Hc E.
    destruct (fft_2d_keep L _ _ _ _ _ _ _ _ Hwf E) as (W & _ & Ec & _).
    rewrite (proj2 (cleanup_wasm_module_cases st' W)) by congruence. reflexivity. }
  pose proof (caches_wf_cleanup st Hwf) as Wc.
  destruct (cleanup_wasm_module_cases _ Wc) as [_ H4].
  destruct (cos_table st) eqn:Ec.
  - rewrite (H1 ltac:(discriminate)). reflexivity.
  - rewrite H4; rewrite (H2 eq_refl); [|exact Ec]. reflexivity.
Qed.

(** A state that holds nothing but a scratch buffer of two cells, as a bare
    2D FFT of two cells leaves it when no trig table exists. *)
Definition scratch_only : state :=
  set_temp initial_state (Some [czero; czero]) 2.

Lemma cleanup_wasm_module_effect_witness :
  (cos_table scratch_only <> None -> cleanup_wasm_module scratch_only = initial_state)
  /\ (cos_table scratch_only = None ->
      cleanup_wasm_module scratch_only = set_twiddle scratch_only None 0
      /\ fft_temp_buffer (cleanup_wasm_module scratch_only)
         = fft_temp_buffer scratch_only
      /\ fft_temp_capacity (cleanup_wasm_module scratch_only)
         = fft_temp_capacity scratch_only)
  /\ (forall calloc_ok malloc_psf malloc_tmp grid_opd amplitude pupil_mask
             grid_size wavelength st' r,
        4 * (grid_size * grid_size) <= INT_MAX ->
        calculate_psf_grid_wasm RefLibm.libm calloc_ok malloc_psf malloc_tmp
                                scratch_only
                                grid_opd amplitude pupil_mask grid_size wavelength
        = Some (st', r) ->
        cleanup_wasm_module st' = initial_state)
  /\ (forall malloc data width height inverse st' data',
        2 * width <= INT_MAX -> 2 * height <= INT_MAX ->
        width * height <= INT_MAX ->
        cos_table scratch_only = None ->
        fft_2d RefLibm.libm malloc scratch_only data width height inverse
        = Some (st', data') ->
        fft_temp_buffer (cleanup_wasm_module st') = fft_temp_buffer st')
  /\ cleanup_wasm_module (cleanup_wasm_module scratch_only)
     = cleanup_wasm_module scratch_only.
Proof.
  apply (cleanup_wasm_module_effect RefLibm.libm scratch_only).
  unfold caches_wf, scratch_only. cbn.
  repeat split; try discriminate; auto.
  intros b E. injection E as <-. reflexivity.
Defined.

(* ===================================================================== *)
(** * Loops that exchange the cells of a square array in pairs *)
(* ===================================================================== *)

Local Open Scope Z_scope.

Lemma rd_swap_cells {A : Type} (d d' : list A) (p q x : Z) :
  swap_cells d p q = Some d' -> 0 <= x ->
  rd d' x = if x =? q then rd d p else if x =? p then rd d q else rd d x.
Proof.
  unfold swap_cells.
  destruct (rd d p) as [a|] eqn:Ea; [|discriminate].
  destruct (rd d q) as [b|] eqn:Eb; [|discriminate].
  destruct (wr d p b) as [d1|] eqn:W1; [|discriminate].
  intros W2 Hx. rewrite (rd_wr _ _ _ _ _ W2 Hx).
  destruct (x =? q); [reflexivity|].
  rewrite (rd_wr _ _ _ _ _ W1 Hx). destruct (x =? p); [congruence|reflexivity].
Qed.

Lemma swap_cells_returns {A : Type} (d : list A) (p q : Z) :
  0 <= p < Z.of_nat (length d) -> 0 <= q < Z.of_nat (length d) ->
  exists d', swap_cells d p q = Some d'.
Proof.
  intros Hp Hq. unfold swap_cells.
  destruct (rd_in_range d p Hp) as [a ->]. destruct (rd_in_range d q Hq) as [b ->].
  pose proof (wr_in_range d p b Hp) as W1. rewrite W1.
  pose proof (wr_in_range (upd_nat d (Z.to_nat p) b) q a
                ltac:(rewrite length_upd_nat; lia)) as W2.
  rewrite W2. eauto.
Qed.

(** A row-major index determines its row and its column. *)
Lemma cell_index_inj (size r c r' c' : Z) :
  0 <= c < size -> 0 <= c' < size ->
  r * size + c = r' * size + c' -> r = r' /\ c = c'.
Proof.
  intros Hc Hc' E.
  assert (r = r'); [|subst; lia].
  destruct (Z.lt_trichotomy r r') as [H|[H|H]]; [|exact H|]; nia.
Qed.

Lemma list_eq_of_rd {A : Type} (l1 l2 : list A) :
  length l1 = length l2 ->
  (forall x, 0 <= x < Z.of_nat (length l1) -> rd l1 x = rd l2 x) ->
  l1 = l2.
Proof.
  intros Hl H. apply nth_error_ext. intros n.
  destruct (Nat.lt_ge_cases n (length l1)) as [Hn|Hn].
  - specialize (H (Z.of_nat n) ltac:(lia)). now rewrite !rd_of_nat in H.
  - rewrite (proj2 (nth_error_None l1 n) Hn).
    symmetry. apply nth_error_None. lia.
Qed.

Section Swaps.

Context {A : Type}.
Variables (d0 : list A) (size : Z).
Hypothesis Hsize : 0 < size.

(** The partner of the cell at row [r] and column [c]. *)
Variables sr sc : Z -> Z -> Z.

(** The array [d] is [d0] with the cells in [D] exchanged with their
    partners. *)
Definition swapped (D : Z -> Z -> Prop) (d : list A) : Prop :=
  length d = length d0
  /\ forall r c, 0 <= r -> 0 <= c < size ->
       (D r c -> rd d (r * size + c) = rd d0 (sr r c * size + sc r c))
       /\ (~ D r c -> rd d (r * size + c) = rd d0 (r * size + c)).

Lemma swapped_weaken (D D' : Z -> Z -> Prop) (d : list A) :
  (forall r c, 0 <= r -> 0 <= c < size -> (D' r c <-> D r c)) ->
  swapped D d -> swapped D' d.
Proof.
  intros H [Hl Hc]. split; [exact Hl|]. intros r c Hr Hcc.
  destruct (Hc r c Hr Hcc) as [H1 H2]. specialize (H r c Hr Hcc).
  split; intros HD; [apply H1|apply H2]; tauto.
Qed.

Lemma swap_step (D : Z -> Z -> Prop) (d : list A) (r1 c1 r2 c2 : Z) :
  swapped D d ->
  0 <= r1 -> 0 <= c1 < size -> 0 <= r2 -> 0 <= c2 < size ->
  r1 * size + c1 < Z.of_nat (length d0) ->
  r2 * size + c2 < Z.of_nat (length d0) ->
  ~ D r1 c1 -> ~ D r2 c2 ->
  sr r1 c1 = r2 -> sc r1 c1 = c2 -> sr r2 c2 = r1 -> sc r2 c2 = c1 ->
  exists d',
    swap_cells d (r1 * size + c1) (r2 * size + c2) = Some d'
    /\ swapped (fun r c => D r c \/ (r = r1 /\ c = c1) \/ (r = r2 /\ c = c2)) d'.
Proof.
  intros [Hl Hc] Hr1 Hc1 Hr2 Hc2 L1 L2 N1 N2 S1 S2 S3 S4.
  destruct (swap_cells_returns d (r1 * size + c1) (r2 * size + c2)) as [d' E];
    try (rewrite Hl; nia).
  exists d'. split; [exact E|]. split.
  - rewrite (swap_cells_length _ _ _ _ E). exact Hl.
  - intros r c Hr Hcc. rewrite (rd_swap_cells _ _ _ _ _ E) by nia.
    destruct (Z.eqb_spec (r * size + c) (r2 * size + c2)) as [E2|E2].
    { apply cell_index_inj in E2 as [-> ->]; try assumption. split.
      - intros _. rewrite S3, S4. apply (Hc r1 c1); assumption.
      - intros H. elim H. auto. }
    destruct (Z.eqb_spec (r * size + c) (r1 * size + c1)) as [E1|E1].
    { apply cell_index_inj in E1 as [-> ->]; try assumption. split.
      - intros _. rewrite S1, S2. apply (Hc r2 c2); assumption.
      - intros H. elim H. auto. }
    destruct (Hc r c Hr Hcc) as [H1 H2]. split.
    + intros [HD|[[-> ->]|[-> ->]]]; [now apply H1|congruence|congruence].
    + intros H. apply H2. tauto.
Qed.

End Swaps.

(* ===================================================================== *)
(** * The quadrant swap *)
(* ===================================================================== *)

(** The row (or column) [t] is exchanged with: the one half a block away,
    inside the block of [2 * half] rows. *)
Definition shift_coordinate (half t : Z) : Z :=
  if t <? half then t + half else t - half.

Definition shift_row (half r c : Z) : Z :=
  if (r <? 2 * half) && (c <? 2 * half) then shift_coordinate half r else r.

Definition shift_column (half r c : Z) : Z :=
  if (r <? 2 * half) && (c <? 2 * half) then shift_coordinate half c else c.

Lemma quot2_bounds (size : Z) :
  0 < size ->
  0 <= Z.quot size 2 /\ 2 * Z.quot size 2 <= size /\ size <= 2 * Z.quot size 2 + 1.
Proof.
  intros H. rewrite Z.quot_div_nonneg by lia.
  pose proof (Z.div_mod size 2 ltac:(lia)).
  pose proof (Z.mod_pos_bound size 2 ltac:(lia)). lia.
Qed.

Section Shift.

Variables (data : list float) (size : Z).
Hypothesis Hsize : 0 < size.
Hypothesis Hlen : size * size <= Z.of_nat (length data).

Let half := Z.quot size 2.

Lemma half_bounds : 0 <= half /\ 2 * half <= size /\ size <= 2 * half + 1.
Proof. exact (quot2_bounds size Hsize). Qed.

(** The cells the loops have been through when the outer one is at [i] and
    the inner one at [j]. *)
Definition shifted_until (i j r c : Z) : Prop :=
  r < 2 * half /\ c < 2 * half
  /\ ((r < i \/ half <= r < half + i)
      \/ ((r = i \/ r = half + i) /\ (c < j \/ half <= c < half + j))).

Lemma fft_shift_cell_step (i j : Z) (d : list float) :
  0 <= i < half -> 0 <= j < half ->
  swapped data size (shift_row half) (shift_column half) (shifted_until i j) d ->
  exists d',
    fft_shift_cell size half i j d = Some d'
    /\ swapped data size (shift_row half) (shift_column half)
               (shifted_until i (j + 1)) d'.
Proof.
  intros Hi Hj Hd. pose proof half_bounds as Hh. unfold fft_shift_cell.
  assert (Hs : forall r c, 0 <= r < 2 * half -> 0 <= c < 2 * half ->
                 shift_row half r c = shift_coordinate half r
                 /\ shift_column half r c = shift_coordinate half c).
  { intros r c Hr Hc. unfold shift_row, shift_column.
    destruct (Z.ltb_spec r (2 * half)); [|lia].
    destruct (Z.ltb_spec c (2 * half)); [|lia]. auto. }
  assert (Hlo : forall t, 0 <= t < half -> shift_coordinate half t = t + half).
  { intros t Ht. unfold shift_coordinate. destruct (Z.ltb_spec t half); lia. }
  assert (Hhi : forall t, 0 <= t < half ->
                  shift_coordinate half (t + half) = t).
  { intros t Ht. unfold shift_coordinate.
    destruct (Z.ltb_spec (t + half) half); lia. }
  destruct (swap_step data size Hsize (shift_row half) (shift_column half)
                      _ d i j (i + half) (j + half) Hd)
    as (d1 & E1 & Hd1); try lia; try nia.
  { unfold shifted_until. lia. }
  { unfold shifted_until. lia. }
  { rewrite (proj1 (Hs i j ltac:(lia) ltac:(lia))). now apply Hlo. }
  { rewrite (proj2 (Hs i j ltac:(lia) ltac:(lia))). now apply Hlo. }
  { rewrite (proj1 (Hs (i + half) (j + half) ltac:(lia) ltac:(lia))). now apply Hhi. }
  { rewrite (proj2 (Hs (i + half) (j + half) ltac:(lia) ltac:(lia))). now apply Hhi. }
  rewrite E1.
  destruct (swap_step data size Hsize (shift_row half) (shift_column half)
                      _ d1 i (j + half) (i + half) j Hd1)
    as (d2 & E2 & Hd2); try lia; try nia.
  { unfold shifted_until. lia. }
  { unfold shifted_until. lia. }
  { rewrite (proj1 (Hs i (j + half) ltac:(lia) ltac:(lia))). now apply Hlo. }
  { rewrite (proj2 (Hs i (j + half) ltac:(lia) ltac:(lia))). now apply Hhi. }
  { rewrite (proj1 (Hs (i + half) j ltac:(lia) ltac:(lia))). now apply Hhi. }
  { rewrite (proj2 (Hs (i + half) j ltac:(lia) ltac:(lia))). now apply Hlo. }
  exists d2. split; [exact E2|].
  eapply swapped_weaken; [|exact Hd2].
  intros r c Hr Hc. unfold shifted_until. lia.
Qed.

Lemma fft_shift_spec :
  exists out,
    fft_shift data size = Some out
    /\ swapped data size (shift_row half) (shift_column half)
               (fun r c => r < 2 * half /\ c < 2 * half) out.
Proof.
  pose proof half_bounds as Hh. unfold fft_shift. fold half.
  destruct (for_loop_invariant
              (fun i d => swapped data size (shift_row half) (shift_column half)
                                  (shifted_until i 0) d)
              (fun i d => for_loop 0 half (fft_shift_cell size half i) d)
              0 half data ltac:(lia)) as (out & Hrun & Hout).
  - split; [reflexivity|]. intros r c Hr Hc. split; [|reflexivity].
    unfold shifted_until. lia.
  - intros i d Hi Hd.
    destruct (for_loop_invariant
                (fun j t => swapped data size (shift_row half) (shift_column half)
                                    (shifted_until i j) t)
                (fft_shift_cell size half i) 0 half d ltac:(lia))
      as (t & Hrun & Ht).
    + exact Hd.
    + intros j t Hj Ht. apply fft_shift_cell_step; [lia|lia|exact Ht].
    + exists t. split; [exact Hrun|].
      eapply swapped_weaken; [|exact Ht].
      intros r c Hr Hc. unfold shifted_until. lia.
  - exists out. split; [exact Hrun|].
    eapply swapped_weaken; [|exact Hout].
    intros r c Hr Hc. unfold shifted_until. lia.
Qed.

End Shift.

(** The cell of [data] that [fft_shift] moves to index [x]. *)
Definition shift_source (size x : Z) : Z :=
  let half := Z.quot size 2 in
  let r := x / size in
  let c := x mod size in
  shift_row half r c * size + shift_column half r c.

Lemma shift_source_cell (size r c : Z) :
  0 <= c < size ->
  shift_source size (r * size + c)
  = shift_row (Z.quot size 2) r c * size + shift_column (Z.quot size 2) r c.
Proof.
  intros Hc. unfold shift_source. cbv zeta.
  assert (E1 : (r * size + c) / size = r).
  { rewrite Z.div_add_l by lia. rewrite Z.div_small by lia. lia. }
  assert (E2 : (r * size + c) mod size = c).
  { rewrite Z.add_comm, Z.mod_add by lia. apply Z.mod_small. lia. }
  now rewrite E1, E2.
Qed.

Lemma fft_shift_cells_all (data : list float) (size : Z) :
  0 <= size -> size * size <= Z.of_nat (length data) ->
  exists out,
    fft_shift data size = Some out
    /\ length out = length data
    /\ forall x, 0 <= x -> rd out x = rd data (shift_source size x).
Proof.
  intros H0 Hl. destruct (Z.eq_dec size 0) as [->|Hn].
  { exists data. split; [reflexivity|]. split; [reflexivity|].
    intros x Hx. unfold shift_source. cbv zeta.
    rewrite Z.div_0_r, Z.mod_0_r. cbn. f_equal; lia. }
  destruct (fft_shift_spec data size ltac:(lia) Hl) as (out & E & Hl' & Hc).
  exists out. split; [exact E|]. split; [exact Hl'|].
  intros x Hx.
  pose proof (Z.div_mod x size ltac:(lia)) as Dm.
  pose proof (Z.mod_pos_bound x size ltac:(lia)) as Mb.
  assert (Hr : 0 <= x / size) by (apply Z.div_pos; lia).
  replace x with (x / size * size + x mod size) at 1 2 by lia.
  rewrite shift_source_cell by lia.
  destruct (Hc (x / size) (x mod size) Hr Mb) as [H1 H2].
  set (half := Z.quot size 2) in *.
  destruct (Z.ltb_spec (x / size) (2 * half)) as [Hrr|Hrr];
    destruct (Z.ltb_spec (x mod size) (2 * half)) as [Hcc|Hcc];
    try (rewrite H1 by lia; reflexivity);
    rewrite H2 by lia; unfold shift_row, shift_column;
    destruct (Z.ltb_spec (x / size) (2 * half));
    destruct (Z.ltb_spec (x mod size) (2 * half)); try lia; reflexivity.
Qed.

Lemma shift_source_involutive (size x : Z) :
  0 <= size -> 0 <= x -> shift_source size (shift_source size x) = x.
Proof.
  intros H0 Hx. destruct (Z.eq_dec size 0) as [->|Hn].
  { unfold shift_source. cbv zeta. rewrite !Z.div_0_r, !Z.mod_0_r. cbn. lia. }
  pose proof (Z.div_mod x size ltac:(lia)) as Dm.
  pose proof (Z.mod_pos_bound x size ltac:(lia)) as Mb.
  assert (Hr : 0 <= x / size) by (apply Z.div_pos; lia).
  pose proof (quot2_bounds size ltac:(lia)) as Hh.
  unfold shift_source at 2. cbv zeta.
  set (half := Z.quot size 2) in *. set (r := x / size) in *.
  set (c := x mod size) in *.
  assert (Hc' : 0 <= shift_column half r c < size).
  { unfold shift_column, shift_coordinate.
    destruct (Z.ltb_spec r (2 * half)); destruct (Z.ltb_spec c (2 * half));
      cbn [andb]; try lia. destruct (Z.ltb_spec c half); lia. }
  rewrite shift_source_cell by exact Hc'. fold half.
  unfold shift_row, shift_column, shift_coordinate.
  destruct (Z.ltb_spec r (2 * half)); destruct (Z.ltb_spec c (2 * half));
    cbn [andb];
    repeat (match goal with
            | |- context [?a <? ?b] => destruct (Z.ltb_spec a b)
            end; cbn [andb]); try lia; nia.
Qed.

(** On an array of [size * size] cells, [fft_shift] exchanges the quadrants
    diagonally: with [half = size / 2], the cell at row [i] and column [j]
    of the first quadrant changes places with the cell at row [i + half]
    and column [j + half], and the cell at row [i], column [j + half] with
    the one at row [i + half], column [j] (the cell of index 0 moves to the
    centre).  Every other cell (the last row and the last column of an odd
    [size], and what lies beyond [size * size]) stays where it is. *)
Theorem fft_shift_exchanges_quadrants (data : list float) (size : Z) :
  0 <= size -> size * size <= INT_MAX ->
  size * size <= Z.of_nat (length data) ->
  exists out,
    fft_shift data size = Some out
    /\ length out = length data
    /\ (forall i j, 0 <= i < Z.quot size 2 -> 0 <= j < Z.quot size 2 ->
          rd out (i * size + j)
          = rd data ((i + Z.quot size 2) * size + (j + Z.quot size 2))
          /\ rd out ((i + Z.quot size 2) * size + (j + Z.quot size 2))
             = rd data (i * size + j)
          /\ rd out (i * size + (j + Z.quot size 2))
             = rd data ((i + Z.quot size 2) * size + j)
          /\ rd out ((i + Z.quot size 2) * size + j)
             = rd data (i * size + (j + Z.quot size 2)))
    /\ (forall r c, 0 <= r -> 0 <= c < size ->
          2 * Z.quot size 2 <= r \/ 2 * Z.quot size 2 <= c ->
          rd out (r * size + c) = rd data (r * size + c)).
Proof.
  intros H0 _ Hl.
  destruct (fft_shift_cells_all data size H0 Hl) as (out & E & Hl' & Hc).
  exists out. split; [exact E|]. split; [exact Hl'|].
  destruct (Z.eq_dec size 0) as [->|Hn].
  { split; [intros i j Hi; cbn in Hi; lia|intros; lia]. }
  pose proof (quot2_bounds size ltac:(lia)) as Hh.
  set (half := Z.quot size 2) in *.
  assert (Hsrc : forall r c, 0 <= r -> 0 <= c < size ->
            rd out (r * size + c)
            = rd data (shift_row half r c * size + shift_column half r c)).
  { intros r c Hr Hcc. rewrite Hc by nia. now rewrite shift_source_cell. }
  split.
  - intros i j Hi Hj. rewrite !Hsrc by lia.
    unfold shift_row, shift_column, shift_coordinate.
    repeat match goal with
           | |- context [?a <? ?b] => destruct (Z.ltb_spec a b); try lia
           end; cbn [andb].
    replace (i + half - half) with i by lia.
    replace (j + half - half) with j by lia. auto.
  - intros r c Hr Hcc Hout. rewrite Hsrc by lia.
    unfold shift_row, shift_column.
    destruct (Z.ltb_spec r (2 * half)); destruct (Z.ltb_spec c (2 * half));
      cbn [andb]; try lia; reflexivity.
Qed.

Lemma fft_shift_exchanges_quadrants_witness :
  exists out,
    fft_shift [1; 2; 3; 4; 5; 6; 7; 8; 9]%float 3 = Some out
    /\ length out = length [1; 2; 3; 4; 5; 6; 7; 8; 9]%float
    /\ (forall i j, 0 <= i < Z.quot 3 2 -> 0 <= j < Z.quot 3 2 ->
          rd out (i * 3 + j)
          = rd [1; 2; 3; 4; 5; 6; 7; 8; 9]%float
               ((i + Z.quot 3 2) * 3 + (j + Z.quot 3 2))
          /\ rd out ((i + Z.quot 3 2) * 3 + (j + Z.quot 3 2))
             = rd [1; 2; 3; 4; 5; 6; 7; 8; 9]%float (i * 3 + j)
          /\ rd out (i * 3 + (j + Z.quot 3 2))
             = rd [1; 2; 3; 4; 5; 6; 7; 8; 9]%float ((i + Z.quot 3 2) * 3 + j)
          /\ rd out ((i + Z.quot 3 2) * 3 + j)
             = rd [1; 2; 3; 4; 5; 6; 7; 8; 9]%float (i * 3 + (j + Z.quot 3 2)))
    /\ (forall r c, 0 <= r -> 0 <= c < 3 ->
          2 * Z.quot 3 2 <= r \/ 2 * Z.quot 3 2 <= c ->
          rd out (r * 3 + c) = rd [1; 2; 3; 4; 5; 6; 7; 8; 9]%float (r * 3 + c)).
Proof.
  apply (fft_shift_exchanges_quadrants [1; 2; 3; 4; 5; 6; 7; 8; 9]%float 3);
    unfold INT_MAX; simpl; lia.
Defined.

(** [fft_shift] undoes itself: applied to its own result, on an array of
    [size * size] cells or more, it gives the array it started from. *)
Theorem fft_shift_involutive (data : list float) (size : Z) :
  0 <= size -> size * size <= INT_MAX ->
  size * size <= Z.of_nat (length data) ->
  exists out, fft_shift data size = Some out /\ fft_shift out size = Some data.
Proof.
  intros H0 _ Hl.
  destruct (fft_shift_cells_all data size H0 Hl) as (out & E & Hl' & Hc).
  exists out. split; [exact E|].
  destruct (fft_shift_cells_all out size H0 ltac:(lia)) as (back & E' & Hl'' & Hc').
  rewrite E'. f_equal. apply list_eq_of_rd; [lia|].
  intros x Hx. rewrite Hc' by lia. rewrite Hc.
  - now rewrite shift_source_involutive by lia.
  - unfold shift_source. cbv zeta.
    destruct (Z.eq_dec size 0) as [->|Hn].
    { rewrite Z.div_0_r, Z.mod_0_r. cbn. lia. }
    pose proof (Z.mod_pos_bound x size ltac:(lia)).
    assert (0 <= x / size) by (apply Z.div_pos; lia).
    pose proof (quot2_bounds size ltac:(lia)) as Hh.
    unfold shift_row, shift_column, shift_coordinate.
    repeat match goal with
           | |- context [?a <? ?b] => destruct (Z.ltb_spec a b)
           end; cbn [andb]; nia.
Qed.

Lemma fft_shift_involutive_witness :
  exists out,
    fft_shift [1; 2; 3; 4]%float 2 = Some out
    /\ fft_shift out 2 = Some [1; 2; 3; 4]%float.
Proof.
  apply (fft_shift_involutive [1; 2; 3; 4]%float 2); unfold INT_MAX; simpl; lia.
Defined.

(* ===================================================================== *)
(** * The two transpositions *)
(* ===================================================================== *)

Section TransposeCells.

Variables (src dst0 : list Complex) (width height : Z).
Hypothesis Hw : 0 <= width.
Hypothesis Hh : 0 <= height.
Hypothesis Hsrc : width * height <= Z.of_nat (length src).
Hypothesis Hdst : width * height <= Z.of_nat (length dst0).

(** The cells of the destination that the region [R] of the source maps to
    hold the cells of the source; what lies beyond the matrix is as it
    was. *)
Definition copied (R : Z -> Z -> Prop) (dst : list Complex) : Prop :=
  length dst = length dst0
  /\ (forall ii jj, 0 <= ii < height -> 0 <= jj < width -> R ii jj ->
        rd dst (jj * height + ii) = rd src (ii * width + jj))
  /\ (forall x, width * height <= x -> rd dst x = rd dst0 x).

Lemma transpose_cell_copied (R : Z -> Z -> Prop) (ii jj : Z) (dst : list Complex) :
  copied R dst -> 0 <= ii < height -> 0 <= jj < width ->
  exists dst', transpose_cell src width height ii jj dst = Some dst'
               /\ copied (fun a b => R a b \/ (a = ii /\ b = jj)) dst'.
Proof.
  intros (Hl & HR & Hf) Hi Hj. unfold transpose_cell.
  destruct (rd_in_range src (ii * width + jj) ltac:(nia)) as [c Ec]. rewrite Ec.
  pose proof (wr_in_range dst (jj * height + ii) c ltac:(rewrite Hl; nia)) as W.
  rewrite W. eexists. split; [reflexivity|]. split; [|split].
  - rewrite length_upd_nat. exact Hl.
  - intros a b Ha Hb Hab. rewrite (rd_wr _ _ _ _ _ W) by nia.
    destruct (Z.eqb_spec (b * height + a) (jj * height + ii)) as [E|N].
    + apply cell_index_inj in E as [-> ->]; [|lia|lia]. now rewrite Ec.
    + destruct Hab as [Hab|[-> ->]]; [now apply HR|contradiction].
  - intros x Hx. rewrite (rd_wr _ _ _ _ _ W) by nia.
    destruct (Z.eqb_spec x (jj * height + ii)); [nia|]. now apply Hf.
Qed.

Lemma copied_weaken (R R' : Z -> Z -> Prop) (dst : list Complex) :
  (forall a b, 0 <= a < height -> 0 <= b < width -> R' a b -> R a b) ->
  copied R dst -> copied R' dst.
Proof.
  intros H (Hl & HR & Hf). split; [exact Hl|]. split; [|exact Hf].
  intros a b Ha Hb Hab. apply HR; auto.
Qed.

Lemma transpose_row_copied (R : Z -> Z -> Prop) (ii j max_j : Z) (dst : list Complex) :
  copied R dst -> 0 <= ii < height -> 0 <= j <= max_j -> max_j <= width ->
  exists dst',
    for_loop j max_j (transpose_cell src width height ii) dst = Some dst'
    /\ copied (fun a b => R a b \/ (a = ii /\ j <= b < max_j)) dst'.
Proof.
  intros HR Hi Hj Hm.
  destruct (for_loop_invariant
              (fun jj d => copied (fun a b => R a b \/ (a = ii /\ j <= b < jj)) d)
              (transpose_cell src width height ii) j max_j dst ltac:(lia))
    as (d & Hrun & Hd).
  - eapply copied_weaken; [|exact HR]. intros a b _ _ [H|[_ H]]; [exact H|lia].
  - intros jj d Hjj Hd.
    destruct (transpose_cell_copied _ ii jj d Hd Hi ltac:(lia)) as (d' & E & Hd').
    exists d'. split; [exact E|].
    eapply copied_weaken; [|exact Hd'].
    intros a b _ _ [H|[Ha Hb]]; [auto|].
    destruct (Z.eq_dec b jj) as [->|]; [auto|]. left. right. lia.
  - eauto.
Qed.

Lemma transpose_block_copied (R : Z -> Z -> Prop) (BS i j : Z) (dst : list Complex) :
  copied R dst -> 0 < BS -> 0 <= i < height -> 0 <= j < width ->
  exists dst',
    transpose_block src width height BS i j dst = Some dst'
    /\ copied (fun a b => R a b \/ (i <= a < i + BS /\ j <= b < j + BS)) dst'.
Proof.
  intros HR HB Hi Hj. unfold transpose_block.
  set (max_i := if i + BS <? height then i + BS else height).
  set (max_j := if j + BS <? width then j + BS else width).
  assert (Hmi : i <= max_i <= height /\ (max_i = i + BS \/ max_i = height)).
  { unfold max_i. destruct (Z.ltb_spec (i + BS) height); lia. }
  assert (Hmj : j <= max_j <= width /\ (max_j = j + BS \/ max_j = width)).
  { unfold max_j. destruct (Z.ltb_spec (j + BS) width); lia. }
  destruct (for_loop_invariant
              (fun ii d => copied
                             (fun a b => R a b \/ (i <= a < ii /\ j <= b < max_j)) d)
              (fun ii d => for_loop j max_j (transpose_cell src width height ii) d)
              i max_i dst ltac:(lia)) as (d & Hrun & Hd).
  - eapply copied_weaken; [|exact HR]. intros a b _ _ [H|[H _]]; [exact H|lia].
  - intros ii d Hii Hd.
    destruct (transpose_row_copied _ ii j max_j d Hd ltac:(lia) ltac:(lia) ltac:(lia))
      as (d' & E & Hd').
    exists d'. split; [exact E|].
    eapply copied_weaken; [|exact Hd'].
    intros a b _ _ [H|[Ha Hb]]; [auto|].
    destruct (Z.eq_dec a ii) as [->|]; [auto|]. left. right. lia.
  - exists d. split; [exact Hrun|].
    eapply copied_weaken; [|exact Hd].
    intros a b Ha Hb [H|[Ha' Hb']]; [auto|]. right. lia.
Qed.

Lemma transpose_complex_copied :
  exists dst', transpose_complex src dst0 width height = Some dst'
               /\ copied (fun _ _ => True) dst'.
Proof.
  unfold transpose_complex.
  set (BS := if (width >=? 256) && (height >=? 256) then 64 else 32).
  assert (HB : 0 < BS) by (unfold BS; destruct (_ && _); lia).
  destruct (for_step_invariant
              (fun i d => copied (fun a b => a < i) d)
              (fun i d => for_step (Z.to_nat width) 0 width BS
                            (transpose_block src width height BS i) d)
              BS height (Z.to_nat height) 0 dst0 HB)
    as (d & x & Hrun & Hx & Hd).
  - split; [reflexivity|]. split; [intros a b Ha Hb Hab; lia|reflexivity].
  - intros i d Hi Hd.
    destruct (for_step_invariant
                (fun j d => copied (fun a b => a < i \/ (i <= a < i + BS /\ b < j)) d)
                (transpose_block src width height BS i)
                BS width (Z.to_nat width) 0 d HB)
      as (d' & y & Hrun & Hy & Hd').
    + eapply copied_weaken; [|exact Hd]. intros a b _ Hb [H|[_ H]]; [exact H|lia].
    + intros j t Hj Ht.
      destruct (transpose_block_copied _ BS i j t Ht HB ltac:(lia) ltac:(lia))
        as (t' & E & Ht').
      exists t'. split; [exact E|].
      eapply copied_weaken; [|exact Ht'].
      intros a b _ _ [H|[Ha Hb]]; [auto|].
      destruct (Z.lt_ge_cases b j); [left; right; lia|right; lia].
    + lia.
    + exists d'. split; [exact Hrun|].
      eapply copied_weaken; [|exact Hd'].
      intros a b _ Hb Hab.
      destruct (Z.lt_ge_cases a i); [left; lia|right; lia].
  - lia.
  - exists d. split; [exact Hrun|].
    eapply copied_weaken; [|exact Hd]. intros a b Ha _ _. cbv beta. lia.
Qed.

End TransposeCells.

(** [transpose_complex] returns, whatever the block size it picks, with the
    destination holding the transposed matrix: the cell at row [jj] and
    column [ii] of [dst] is the cell at row [ii] and column [jj] of [src].
    The cells of [dst] beyond the matrix are left as they were.  (Source
    and destination do not overlap, and each holds [width * height] cells
    at least.) *)
Theorem transpose_complex_cells (src dst : list Complex) (width height : Z) :
  0 <= width -> 0 <= height ->
  width + 64 <= INT_MAX -> height + 64 <= INT_MAX -> width * height <= INT_MAX ->
  width * height <= Z.of_nat (length src) ->
  width * height <= Z.of_nat (length dst) ->
  exists dst',
    transpose_complex src dst width height = Some dst'
    /\ length dst' = length dst
    /\ (forall ii jj, 0 <= ii < height -> 0 <= jj < width ->
          rd dst' (jj * height + ii) = rd src (ii * width + jj))
    /\ (forall x, width * height <= x -> rd dst' x = rd dst x).
Proof.
  intros Hw Hh _ _ _ Hs Hd.
  destruct (transpose_complex_copied src dst width height Hw Hh Hs Hd)
    as (dst' & E & Hl & Hc & Hf).
  exists dst'. split; [exact E|]. split; [exact Hl|]. split; [|exact Hf].
  intros ii jj Hi Hj. now apply Hc.
Qed.

Lemma transpose_complex_cells_witness :
  exists dst',
    transpose_complex
      [mkComplex 1 0; mkComplex 2 0; mkComplex 3 0;
       mkComplex 4 0; mkComplex 5 0; mkComplex 6 0]
      (repeat czero 7) 3 2 = Some dst'
    /\ length dst' = length (repeat czero 7)
    /\ (forall ii jj, 0 <= ii < 2 -> 0 <= jj < 3 ->
          rd dst' (jj * 2 + ii)
          = rd [mkComplex 1 0; mkComplex 2 0; mkComplex 3 0;
                mkComplex 4 0; mkComplex 5 0; mkComplex 6 0] (ii * 3 + jj))
    /\ (forall x, 3 * 2 <= x -> rd dst' x = rd (repeat czero 7) x).
Proof.
  apply (transpose_complex_cells
           [mkComplex 1 0; mkComplex 2 0; mkComplex 3 0;
            mkComplex 4 0; mkComplex 5 0; mkComplex 6 0]
           (repeat czero 7) 3 2); unfold INT_MAX; simpl; lia.
Defined.

(** Transposing a [height] by [width] matrix into a scratch array and the
    scratch array back, as [fft_2d] does around its second pass, gives the
    matrix back: the first [width * height] cells of the final array are
    those of the source. *)
Theorem transpose_complex_round_trip (src tmp dst : list Complex) (width height : Z) :
  0 <= width -> 0 <= height ->
  width + 64 <= INT_MAX -> height + 64 <= INT_MAX -> width * height <= INT_MAX ->
  width * height <= Z.of_nat (length src) ->
  width * height <= Z.of_nat (length tmp) ->
  width * height <= Z.of_nat (length dst) ->
  exists t d,
    transpose_complex src tmp width height = Some t
    /\ transpose_complex t dst height width = Some d
    /\ length d = length dst
    /\ forall x, 0 <= x < width * height -> rd d x = rd src x.
Proof.
  intros Hw Hh _ _ _ Hs Ht Hd.
  destruct (transpose_complex_copied src tmp width height Hw Hh Hs Ht)
    as (t & E1 & Hl1 & Hc1 & _).
  destruct (transpose_complex_copied t dst height width Hh Hw
              ltac:(rewrite Hl1; lia) ltac:(lia))
    as (d & E2 & Hl2 & Hc2 & _).
  exists t, d. split; [exact E1|]. split; [exact E2|]. split; [exact Hl2|].
  intros x Hx.
  assert (Hpos : 0 < width) by nia.
  pose proof (Z.div_mod x width ltac:(lia)) as Dm.
  pose proof (Z.mod_pos_bound x width ltac:(lia)) as Mb.
  assert (Hq : 0 <= x / width < height).
  { split; [apply Z.div_pos; lia|apply Z.div_lt_upper_bound; nia]. }
  replace x with ((x / width) * width + x mod width) by lia.
  rewrite (Hc2 (x mod width) (x / width) ltac:(lia) ltac:(lia) I).
  exact (Hc1 (x / width) (x mod width) ltac:(lia) ltac:(lia) I).
Qed.

Lemma transpose_complex_round_trip_witness :
  exists t d,
    transpose_complex
      [mkComplex 1 0; mkComplex 2 0; mkComplex 3 0;
       mkComplex 4 0; mkComplex 5 0; mkComplex 6 0]
      (repeat czero 6) 3 2 = Some t
    /\ transpose_complex t (repeat czero 6) 2 3 = Some d
    /\ length d = length (repeat czero 6)
    /\ forall x, 0 <= x < 3 * 2 ->
         rd d x = rd [mkComplex 1 0; mkComplex 2 0; mkComplex 3 0;
                      mkComplex 4 0; mkComplex 5 0; mkComplex 6 0] x.
Proof.
  apply (transpose_complex_round_trip
           [mkComplex 1 0; mkComplex 2 0; mkComplex 3 0;
            mkComplex 4 0; mkComplex 5 0; mkComplex 6 0]
           (repeat czero 6) (repeat czero 6) 3 2); unfold INT_MAX; simpl; lia.
Defined.

(** ** In place *)

Definition transpose_row (size r c : Z) : Z := if r <? size then c else r.
Definition transpose_column (size r c : Z) : Z := if r <? size then r else c.

(** The cells the in-place transposition has exchanged when its outer loop
    is at [i] and its inner loop at [j]. *)
Definition transposed_until (size i j r c : Z) : Prop :=
  r < size /\ r <> c
  /\ ((r < i \/ c < i) \/ ((r = i /\ c < j) \/ (c = i /\ r < j))).

Lemma transpose_complex_inplace_spec (data : list Complex) (size : Z) :
  0 < size -> size * size <= Z.of_nat (length data) ->
  exists out,
    transpose_complex_inplace data size = Some out
    /\ swapped data size (transpose_row size) (transpose_column size)
               (fun r c => r < size /\ r <> c) out.
Proof.
  intros Hsize Hlen. unfold transpose_complex_inplace.
  assert (Hs : forall r c, 0 <= r < size ->
                 transpose_row size r c = c /\ transpose_column size r c = r).
  { intros r c Hr. unfold transpose_row, transpose_column.
    destruct (Z.ltb_spec r size); [auto|lia]. }
  destruct (for_loop_invariant
              (fun i d => swapped data size (transpose_row size) (transpose_column size)
                                  (transposed_until size i (i + 1)) d)
              (fun i d =>
                 for_loop (i + 1) size
                   (fun j d' => swap_cells d' (i * size + j) (j * size + i)) d)
              0 size data ltac:(lia)) as (out & Hrun & Hout).
  - split; [reflexivity|]. intros r c Hr Hc. split; [|reflexivity].
    unfold transposed_until. lia.
  - intros i d Hi Hd.
    destruct (for_loop_invariant
                (fun j t => swapped data size (transpose_row size)
                                    (transpose_column size)
                                    (transposed_until size i j) t)
                (fun j d' => swap_cells d' (i * size + j) (j * size + i))
                (i + 1) size d ltac:(lia)) as (t & Hrun & Ht).
    + exact Hd.
    + intros j t Hj Ht.
      destruct (swap_step data size Hsize (transpose_row size) (transpose_column size)
                          _ t i j j i Ht) as (t' & E & Ht'); try lia; try nia.
      { unfold transposed_until. lia. }
      { unfold transposed_until. lia. }
      { apply (Hs i j). lia. }
      { apply (Hs i j). lia. }
      { apply (Hs j i). lia. }
      { apply (Hs j i). lia. }
      exists t'. split; [exact E|].
      eapply swapped_weaken; [|exact Ht'].
      intros r c Hr Hc. unfold transposed_until. lia.
    + exists t. split; [exact Hrun|].
      eapply swapped_weaken; [|exact Ht].
      intros r c Hr Hc. unfold transposed_until. lia.
  - exists out. split; [exact Hrun|].
    eapply swapped_weaken; [|exact Hout].
    intros r c Hr Hc. unfold transposed_until. lia.
Qed.

(** [transpose_complex_inplace] transposes the [size] by [size] matrix at
    the head of [data] where it stands: the cell at row [r] and column [c]
    of the result is the cell at row [c] and column [r] of [data], and what
    lies beyond the matrix is left as it was.  Applied twice it is the
    identity. *)
Theorem transpose_complex_inplace_cells (data : list Complex) (size : Z) :
  0 <= size -> size * size <= INT_MAX ->
  size * size <= Z.of_nat (length data) ->
  exists out,
    transpose_complex_inplace data size = Some out
    /\ length out = length data
    /\ (forall r c, 0 <= r < size -> 0 <= c < size ->
          rd out (r * size + c) = rd data (c * size + r))
    /\ (forall x, size * size <= x -> rd out x = rd data x)
    /\ transpose_complex_inplace out size = Some data.
Proof.
  intros H0 _ Hl. destruct (Z.eq_dec size 0) as [->|Hn].
  { exists data. split; [reflexivity|]. split; [reflexivity|].
    split; [intros; lia|]. split; [reflexivity|reflexivity]. }
  assert (Hcells : forall d, size * size <= Z.of_nat (length d) ->
            exists out,
              transpose_complex_inplace d size = Some out
              /\ length out = length d
              /\ (forall r c, 0 <= r < size -> 0 <= c < size ->
                    rd out (r * size + c) = rd d (c * size + r))
              /\ (forall x, size * size <= x -> rd out x = rd d x)).
  { intros d Hd.
    destruct (transpose_complex_inplace_spec d size ltac:(lia) Hd)
      as (out & E & Hl' & Hc).
    exists out. split; [exact E|]. split; [exact Hl'|]. split.
    - intros r c Hr Hcc. destruct (Hc r c ltac:(lia) Hcc) as [H1 H2].
      destruct (Z.eq_dec r c) as [->|Hne].
      + apply H2. lia.
      + rewrite H1 by lia. unfold transpose_row, transpose_column.
        destruct (Z.ltb_spec r size); [reflexivity|lia].
    - intros x Hx.
      pose proof (Z.div_mod x size ltac:(lia)) as Dm.
      pose proof (Z.mod_pos_bound x size ltac:(lia)) as Mb.
      assert (Hq : size <= x / size).
      { apply Z.div_le_lower_bound; lia. }
      replace x with ((x / size) * size + x mod size) by lia.
      apply (Hc (x / size) (x mod size)); lia. }
  destruct (Hcells data Hl) as (out & E & Hl' & Hc & Hf).
  exists out. split; [exact E|]. split; [exact Hl'|]. split; [exact Hc|].
  split; [exact Hf|].
  destruct (Hcells out ltac:(lia)) as (back & E' & Hl'' & Hc' & Hf').
  rewrite E'. f_equal. apply list_eq_of_rd; [lia|].
  intros x Hx. destruct (Z.lt_ge_cases x (size * size)) as [Hin|Hout].
  - pose proof (Z.div_mod x size ltac:(lia)) as Dm.
    pose proof (Z.mod_pos_bound x size ltac:(lia)) as Mb.
    assert (Hq : 0 <= x / size < size).
    { split; [apply Z.div_pos; lia|apply Z.div_lt_upper_bound; nia]. }
    replace x with ((x / size) * size + x mod size) by lia.
    rewrite Hc' by lia. apply Hc; lia.
  - rewrite Hf' by lia. apply Hf. lia.
Qed.

Lemma transpose_complex_inplace_cells_witness :
  exists out,
    transpose_complex_inplace
      [mkComplex 1 0; mkComplex 2 0; mkComplex 3 0; mkComplex 4 0; mkComplex 9 9] 2
    = Some out
    /\ length out
       = length [mkComplex 1 0; mkComplex 2 0; mkComplex 3 0; mkComplex 4 0;
                 mkComplex 9 9]
    /\ (forall r c, 0 <= r < 2 -> 0 <= c < 2 ->
          rd out (r * 2 + c)
          = rd [mkComplex 1 0; mkComplex 2 0; mkComplex 3 0; mkComplex 4 0;
                mkComplex 9 9] (c * 2 + r))
    /\ (forall x, 2 * 2 <= x ->
          rd out x = rd [mkComplex 1 0; mkComplex 2 0; mkComplex 3 0; mkComplex 4 0;
                         mkComplex 9 9] x)
    /\ transpose_complex_inplace out 2
       = Some [mkComplex 1 0; mkComplex 2 0; mkComplex 3 0; mkComplex 4 0;
               mkComplex 9 9].
Proof.
  apply (transpose_complex_inplace_cells
           [mkComplex 1 0; mkComplex 2 0; mkComplex 3 0; mkComplex 4 0;
            mkComplex 9 9] 2); unfold INT_MAX; simpl; lia.
Defined.

(* ===================================================================== *)
(** * The reference [fmod] stays within its divisor *)
(* ===================================================================== *)

Local Open Scope Z_scope.

Lemma SFabs_inject (s : bool) (V : Z) : SFabs (inject s V) = inject false V.
Proof.
  unfold inject. destruct (V =? 0); [reflexivity|]. cbv zeta.
  destruct (cexp V <=? 971); reflexivity.
Qed.

(** The remainder the reference [fmod] computes, as a double: its magnitude
    is the rounding of a value below the divisor. *)
Lemma reference_remainder (sx : bool) (r e0 : Z) :
  0 <= r -> 0 <= e0 + B ->
  binary_normalize prec emax (if sx then - r else r) e0 sx
  = inject sx (RND (r * unit_of e0) 1).
Proof.
  intros Hr He. destruct r as [|p|p]; try lia.
  - assert (E : (if sx then - 0 else 0) = 0) by (destruct sx; reflexivity).
    rewrite E. cbn [binary_normalize Z.mul].
    rewrite (RND1_exact 0 representable_0). reflexivity.
  - destruct sx; cbn [Z.opp binary_normalize]; apply binary_round_correct; exact He.
Qed.

Lemma reference_fmod_in_range : libm_fmod RefLibm.libm.
Proof.
  intros x Fx. unfold fmod_in_range, fabs. cbn [c_fmod RefLibm.libm].
  rewrite leb_spec, abs_spec. unfold RefLibm.fmod.
  change (Prim2SF (2 * M_PI)%float) with (S754_finite false 7074237752028440 (-50)).
  rewrite isfinite_SF in Fx. pose proof (Prim2SF_valid x) as Vx.
  destruct (Prim2SF x) as [s|s| |sx m e] eqn:Ex; try discriminate.
  - rewrite Ex. reflexivity.
  - cbn [valid_binary] in Vx. destruct (bounded_inv _ _ Vx) as [He _].
    set (e0 := Z.min e (-50)).
    set (D := Z.shiftl 7074237752028440 (-50 - e0)).
    set (r := Z.shiftl (Zpos m) (e - e0) mod D).
    assert (HD : 0 < D).
    { unfold D. rewrite Z.shiftl_mul_pow2 by (unfold e0; lia).
      assert (0 < 2 ^ (-50 - e0)) by (apply Z.pow_pos_nonneg; unfold e0; lia). lia. }
    pose proof (Z.mod_pos_bound (Z.shiftl (Zpos m) (e - e0)) D HD) as Hr. fold r in Hr.
    assert (HB : 0 <= e0 + B) by (unfold e0, B; lia).
    rewrite (reference_remainder sx r e0 ltac:(lia) HB).
    pose proof (unit_of_pos e0 HB) as HU.
    assert (Rr : representable (RND (r * unit_of e0) 1))
      by (apply RND_representable; nia).
    rewrite Prim2SF_SF2Prim by (now apply inject_valid).
    rewrite SFabs_inject.
    assert (V2 : bounded prec emax 7074237752028440 (-50) = true) by reflexivity.
    rewrite SFleb_ev; [|now apply inject_nn|split; [reflexivity|exact V2]].
    cbn [ev]. rewrite ev_inject by exact Rr. apply Z.leb_le.
    assert (Hlt : r * unit_of e0 <= val 7074237752028440 (-50)).
    { unfold val. rewrite (unit_of_split e0 (-50) HB ltac:(unfold e0; lia)).
      unfold D in Hr. rewrite Z.shiftl_mul_pow2 in Hr by (unfold e0; lia). nia. }
    assert (H0 : 0 <= r * unit_of e0) by nia.
    pose proof (RND1_mono _ _ H0 Hlt) as Hm.
    rewrite (RND1_exact _ (bounded_representable _ _ V2)) in Hm. lia.
Qed.

(* ===================================================================== *)
(** * The FFT stays inside its window *)
(* ===================================================================== *)

Local Open Scope Z_scope.

(** The array [d] has the length of [data] and agrees with it outside of
    the window of [n] cells that starts at [off]. *)
Definition kept_outside (off n : Z) (data d : list Complex) : Prop :=
  length d = length data
  /\ forall x, 0 <= x -> x < off \/ off + n <= x -> rd d x = rd data x.

Lemma kept_outside_refl (off n : Z) (data : list Complex) :
  kept_outside off n data data.
Proof. split; reflexivity. Qed.

Lemma kept_outside_trans (off n off' n' : Z) (data d d' : list Complex) :
  kept_outside off n data d -> kept_outside off' n' d d' ->
  off <= off' -> off' + n' <= off + n ->
  kept_outside off n data d'.
Proof.
  intros [L1 H1] [L2 H2] Ho Hn. split; [congruence|].
  intros x Hx Hout. rewrite H2 by lia. apply H1; lia.
Qed.

Lemma wr_kept (data : list Complex) (off n : Z) (d : list Complex) (j : Z)
      (v : Complex) :
  0 <= off -> off + n <= Z.of_nat (length data) ->
  kept_outside off n data d -> off <= j < off + n ->
  exists d', wr d j v = Some d' /\ kept_outside off n data d'.
Proof.
  intros Hoff Hfit [Hl Hk] Hj.
  pose proof (wr_in_range d j v ltac:(rewrite Hl; lia)) as W.
  eexists. split; [exact W|]. split.
  - rewrite length_upd_nat. exact Hl.
  - intros x Hx Hout. rewrite (rd_wr _ _ _ _ _ W Hx).
    destruct (Z.eqb_spec x j); [lia|]. now apply Hk.
Qed.

Lemma rd_kept (data : list Complex) (off n : Z) (d : list Complex) (j : Z) :
  0 <= off -> off + n <= Z.of_nat (length data) ->
  kept_outside off n data d -> off <= j < off + n -> exists c, rd d j = Some c.
Proof. intros Hoff Hfit [Hl _] Hj. apply rd_in_range. rewrite Hl. lia. Qed.

Lemma swap_cells_kept (data : list Complex) (off n : Z) (d : list Complex) (i j : Z) :
  0 <= off -> off + n <= Z.of_nat (length data) ->
  kept_outside off n data d -> off <= i < off + n -> off <= j < off + n ->
  exists d', swap_cells d i j = Some d' /\ kept_outside off n data d'.
Proof.
  intros Hoff Hfit Hd Hi Hj. unfold swap_cells.
  destruct (rd_kept data off n d i Hoff Hfit Hd Hi) as [a ->].
  destruct (rd_kept data off n d j Hoff Hfit Hd Hj) as [b ->].
  destruct (wr_kept data off n d i b Hoff Hfit Hd Hi) as (d1 & -> & Hd1).
  exact (wr_kept data off n d1 j a Hoff Hfit Hd1 Hj).
Qed.

Lemma bit_reverse_kept (k off : Z) (data : list Complex) :
  1 <= k -> 0 <= off -> off + 2 ^ k <= Z.of_nat (length data) ->
  exists data', bit_reverse off (2 ^ k) data = Some data'
                /\ kept_outside off (2 ^ k) data data'.
Proof.
  intros Hk Hoff Hfit. unfold bit_reverse.
  assert (Hn : 1 <= 2 ^ k).
  { change 1 with (2 ^ 0) at 1. apply Z.pow_le_mono_r; lia. }
  destruct (for_loop_invariant
              (fun _ (s : Z * list Complex) =>
                 0 <= fst s < 2 ^ k /\ kept_outside off (2 ^ k) data (snd s))
              (bit_reverse_body off (2 ^ k)) 1 (2 ^ k) (0, data) Hn)
    as (s & Hrun & Hj & Hs).
  - cbn [fst snd]. split; [lia|apply kept_outside_refl].
  - intros i [j d] Hi (Hj & Hd). cbn [fst snd] in *.
    unfold bit_reverse_body.
    assert (Hbit : 0 <= Z.shiftr (2 ^ k) 1 < 2 ^ k).
    { rewrite Z.shiftr_div_pow2 by lia. change (2 ^ 1) with 2.
      split; [apply Z.div_pos; lia|apply Z.div_lt; lia]. }
    pose proof (rev_while_bound k j (Z.shiftr (2 ^ k) 1) ltac:(lia) Hj Hbit) as [B1 B2].
    destruct (rev_while j (Z.shiftr (2 ^ k) 1)) as [j1 bit1]. cbn [fst snd] in *.
    pose proof (lxor_bound j1 bit1 k ltac:(lia) B1 B2) as B3.
    destruct (i <? Z.lxor j1 bit1).
    + destruct (swap_cells_kept data off (2 ^ k) d (off + i)
                                (off + Z.lxor j1 bit1) Hoff Hfit Hd
                                ltac:(lia) ltac:(lia))
        as (d' & -> & Hd').
      eexists. split; [reflexivity|]. cbn [fst snd]. split; [lia|exact Hd'].
    + eexists. split; [reflexivity|]. cbn [fst snd]. auto.
  - rewrite Hrun. eauto.
Qed.

Section WindowButterflies.

Variables (tbl data : list Complex) (k off : Z) (inverse : bool).
Hypothesis Hk : 1 <= k.
Hypothesis Hoff : 0 <= off.
Hypothesis Hfit : off + 2 ^ k <= Z.of_nat (length data).
Hypothesis Htbl : 2 ^ k <= Z.of_nat (length tbl).

Lemma butterfly_kept (len step i j : Z) (d : list Complex) :
  kept_outside off (2 ^ k) data d ->
  0 <= i -> 0 <= j < Z.quot len 2 -> i + j + Z.quot len 2 < 2 ^ k ->
  0 <= j * step < 2 ^ k ->
  exists d', butterfly tbl off (2 ^ k) len step i inverse j d = Some d'
             /\ kept_outside off (2 ^ k) data d'.
Proof.
  intros Hd Hi Hj Hr Hs. unfold butterfly. cbv zeta.
  assert (Hn : 0 < 2 ^ k) by (apply Z.pow_pos_nonneg; lia).
  pose proof (twiddle_index_range (2 ^ k) step j inverse Hn Hs) as Ht.
  destruct (rd_in_range tbl (twiddle_index (2 ^ k) step j inverse) ltac:(lia))
    as [w ->].
  destruct (rd_kept data off (2 ^ k) d (off + (i + j)) Hoff Hfit Hd ltac:(lia))
    as [u ->].
  destruct (rd_kept data off (2 ^ k) d (off + (i + j + Z.quot len 2)) Hoff Hfit Hd
                    ltac:(lia)) as [x ->].
  match goal with
  | |- context [wr d ?a ?v] =>
      destruct (wr_kept data off (2 ^ k) d a v Hoff Hfit Hd ltac:(lia))
        as (d1 & -> & Hd1)
  end.
  match goal with
  | |- context [wr d1 ?a ?v] =>
      exact (wr_kept data off (2 ^ k) d1 a v Hoff Hfit Hd1 ltac:(lia))
  end.
Qed.

Lemma group_kept (a i : Z) (d : list Complex) :
  1 <= a <= k ->
  kept_outside off (2 ^ k) data d -> 0 <= i -> i + 2 ^ a <= 2 ^ k ->
  exists d',
    for_loop 0 (Z.quot (2 ^ a) 2)
             (butterfly tbl off (2 ^ k) (2 ^ a) (2 ^ (k - a)) i inverse) d
    = Some d'
    /\ kept_outside off (2 ^ k) data d'.
Proof.
  intros Ha Hd Hi Hr.
  destruct (stage_sizes k Hk a Ha) as (Eh & El & Ph & Ps & Ens & Hhs).
  destruct (for_loop_invariant
              (fun _ t => kept_outside off (2 ^ k) data t)
              (butterfly tbl off (2 ^ k) (2 ^ a) (2 ^ (k - a)) i inverse)
              0 (Z.quot (2 ^ a) 2) d ltac:(lia) Hd)
    as (t & Hrun & Ht).
  - intros j t Hj Ht.
    apply (butterfly_kept (2 ^ a) (2 ^ (k - a)) i j t Ht Hi Hj); [lia|].
    rewrite Eh in Hj. nia.
  - eauto.
Qed.

Lemma groups_kept (a : Z) (fuel : nat) (c : Z) (d : list Complex) :
  1 <= a <= k ->
  kept_outside off (2 ^ k) data d ->
  0 <= c <= 2 ^ (k - a) -> 2 ^ (k - a) - c <= Z.of_nat fuel ->
  exists d',
    groups tbl off (2 ^ k) (2 ^ a) (2 ^ (k - a)) inverse fuel (c * 2 ^ a) d = Some d'
    /\ kept_outside off (2 ^ k) data d'.
Proof.
  intros Ha. destruct (stage_sizes k Hk a Ha) as (Eh & El & Ph & Ps & Ens & Hhs).
  revert c d. induction fuel as [|fuel IH]; intros c d Hd Hc Hf.
  - assert (c = 2 ^ (k - a)) by lia. subst c. cbn [groups].
    destruct (Z.ltb_spec (2 ^ (k - a) * 2 ^ a) (2 ^ k)); [nia|]. eauto.
  - cbn [groups]. destruct (Z.ltb_spec (c * 2 ^ a) (2 ^ k)) as [Hlt|Hge]; [|eauto].
    assert (c < 2 ^ (k - a)) by nia.
    destruct (group_kept a (c * 2 ^ a) d Ha Hd ltac:(nia) ltac:(nia)) as (t & -> & Ht).
    replace (c * 2 ^ a + 2 ^ a) with ((c + 1) * 2 ^ a) by ring.
    exact (IH (c + 1) t Ht ltac:(lia) ltac:(lia)).
Qed.

Lemma stages_kept (fuel : nat) (a : Z) (d : list Complex) :
  kept_outside off (2 ^ k) data d ->
  1 <= a <= k + 1 -> k + 1 - a <= Z.of_nat fuel ->
  exists d',
    stages tbl off (2 ^ k) inverse fuel (2 ^ a) d = Some d'
    /\ kept_outside off (2 ^ k) data d'.
Proof.
  revert a d. induction fuel as [|fuel IH]; intros a d Hd Ha Hf.
  - assert (a = k + 1) by lia. subst a. cbn [stages].
    destruct (Z.leb_spec (2 ^ (k + 1)) (2 ^ k)) as [Hle|]; [|eauto].
    apply Z.pow_le_mono_r_iff in Hle; lia.
  - cbn [stages]. destruct (Z.leb_spec (2 ^ a) (2 ^ k)) as [Hle|Hgt]; [|eauto].
    apply Z.pow_le_mono_r_iff in Hle; [|lia|lia].
    assert (Hal : 1 <= a <= k) by lia.
    assert (Eq : Z.quot (2 ^ k) (2 ^ a) = 2 ^ (k - a)).
    { rewrite Z.quot_div_nonneg by (try apply Z.pow_pos_nonneg; try apply Z.pow_nonneg; lia).
      symmetry. apply Z.pow_sub_r; lia. }
    cbv zeta. rewrite Eq.
    destruct (stage_sizes k Hk a Hal) as (Eh & El & Ph & Ps & Ens & Hhs).
    pose proof (groups_kept a (Z.to_nat (2 ^ k)) 0 d Hal Hd) as G.
    cbn [Z.mul] in G.
    destruct G as (t & -> & Ht).
    { lia. }
    { assert (0 < 2 ^ a) by (apply Z.pow_pos_nonneg; lia).
      assert (2 ^ (k - a) <= 2 ^ k) by (apply Z.pow_le_mono_r; lia).
      lia. }
    replace (Z.shiftl (2 ^ a) 1) with (2 ^ (a + 1)).
    + exact (IH (a + 1) t Ht ltac:(lia) ltac:(lia)).
    + rewrite Z.shiftl_mul_pow2 by lia. rewrite Z.pow_add_r by lia. reflexivity.
Qed.

Lemma normalize_kept (d : list Complex) :
  kept_outside off (2 ^ k) data d ->
  exists d', normalize off (2 ^ k) inverse d = Some d'
             /\ kept_outside off (2 ^ k) data d'.
Proof.
  intros Hd. unfold normalize. destruct inverse; [|eauto].
  assert (Hn : 0 <= 2 ^ k) by (apply Z.pow_nonneg; lia).
  destruct (for_loop_invariant
              (fun _ t => kept_outside off (2 ^ k) data t)
              (scale_body off (1 / of_int (2 ^ k))) 0 (2 ^ k) d Hn Hd)
    as (t & Hrun & Ht).
  - intros i t Hi Ht. unfold scale_body.
    destruct (rd_kept data off (2 ^ k) t (off + i) Hoff Hfit Ht ltac:(lia)) as [c ->].
    exact (wr_kept data off (2 ^ k) t (off + i) _ Hoff Hfit Ht ltac:(lia)).
  - eauto.
Qed.

End WindowButterflies.

(** The 1D FFT of a window of [2 ^ k] cells, given the table it finds or
    builds. *)
Lemma fft_1d_kept (L : Libm) (st st2 : state) (tbl data : list Complex)
      (k off : Z) (inverse : bool) :
  1 <= k -> 0 <= off -> off + 2 ^ k <= Z.of_nat (length data) ->
  ensure_twiddle_table L (2 ^ k) st = Some st2 ->
  twiddle_table st2 = Some tbl ->
  2 ^ k <= Z.of_nat (length tbl) ->
  exists data', fft_1d L st data off (2 ^ k) inverse = Some (st2, data')
                /\ kept_outside off (2 ^ k) data data'.
Proof.
  intros Hk Hoff Hfit He Ht Hl. unfold fft_1d.
  assert (H2 : 2 ^ 1 <= 2 ^ k) by (apply Z.pow_le_mono_r; lia).
  change (2 ^ 1) with 2 in H2.
  destruct (Z.leb_spec (2 ^ k) 1); [lia|].
  rewrite He, Ht.
  destruct (bit_reverse_kept k off data Hk Hoff Hfit) as (d1 & -> & Hd1).
  pose proof (Z.pow_gt_lin_r 2 k ltac:(lia) ltac:(lia)) as Hlin.
  destruct (stages_kept tbl data k off inverse Hk Hoff Hfit Hl
                        (Z.to_nat (2 ^ k)) 1 d1 Hd1 ltac:(lia) ltac:(lia))
    as (d2 & E2 & Hd2).
  change (2 ^ 1) with 2 in E2. rewrite E2.
  destruct (normalize_kept tbl data k off inverse Hoff Hfit d2 Hd2) as (d3 & -> & Hd3).
  eauto.
Qed.

(** ** The table the FFT finds or builds *)

(** The twiddle table, when present, has the cells its size says. *)
Definition twiddles_wf (st : state) : Prop :=
  forall t, twiddle_table st = Some t -> Z.of_nat (length t) = twiddle_table_size st.

Lemma ensure_twiddle_table_available (L : Libm) (n : Z) (st : state) :
  libm_fmod L -> trig_tables_ok st -> twiddles_wf st -> 0 <= n ->
  exists st2 tbl,
    ensure_twiddle_table L n st = Some st2
    /\ twiddle_table st2 = Some tbl
    /\ n <= Z.of_nat (length tbl)
    /\ trig_tables_ok st2 /\ twiddles_wf st2.
Proof.
  intros Lf Hok Hwf Hn.
  assert (Hinit : exists st2 tbl,
             init_twiddle_table L n st = Some st2
             /\ twiddle_table st2 = Some tbl
             /\ n <= Z.of_nat (length tbl)
             /\ trig_tables_ok st2 /\ twiddles_wf st2).
  { destruct (init_twiddle_table_returns L st n Hok)
      as (st2 & tbl & E & Et & Es & Hl & _).
    { intros i Hi _ Hf. now apply Lf. }
    exists st2, tbl. split; [exact E|]. split; [exact Et|]. split; [lia|].
    unfold init_twiddle_table in E.
    destruct (twiddle_entries L st n (indices n)); [|discriminate].
    injection E as <-. split.
    - exact Hok.
    - intros t Ht. cbn in Ht, Et. rewrite Et in Ht. injection Ht as <-.
      cbn. lia. }
  unfold ensure_twiddle_table.
  destruct (twiddle_table st) as [t|] eqn:Et; [|exact Hinit].
  destruct (Z.ltb_spec (twiddle_table_size st) n) as [Hlt|Hge]; [exact Hinit|].
  exists st, t. split; [reflexivity|]. split; [exact Et|].
  split; [rewrite (Hwf t Et); lia|]. auto.
Qed.

(** What the rows of a pass keep: the cells beyond the rows, the trig
    tables, the scratch buffer, and a twiddle table of the right shape. *)
Definition pass_keeps (L : Libm) (st : state) (total : Z) (data : list Complex)
           (s : state * list Complex) : Prop :=
  kept_outside 0 total data (snd s)
  /\ trig_tables_ok (fst s) /\ twiddles_wf (fst s)
  /\ fft_temp_buffer (fst s) = fft_temp_buffer st
  /\ fft_temp_capacity (fst s) = fft_temp_capacity st.

Lemma fft_rows_kept (L : Libm) (st : state) (data : list Complex)
      (k rows : Z) (inverse : bool) :
  libm_fmod L -> trig_tables_ok st -> twiddles_wf st ->
  0 <= k -> 0 <= rows -> rows * 2 ^ k <= Z.of_nat (length data) ->
  exists s', fft_rows L rows (2 ^ k) inverse (st, data) = Some s'
             /\ pass_keeps L st (rows * 2 ^ k) data s'.
Proof.
  intros Lf Hok Hwf Hk Hrows Hfit. unfold fft_rows.
  assert (Hn : 0 < 2 ^ k) by (apply Z.pow_pos_nonneg; lia).
  destruct (for_loop_invariant
              (fun _ (s : state * list Complex) =>
                 pass_keeps L st (rows * 2 ^ k) data s)
              (fun i s => fft_1d L (fst s) (snd s) (i * 2 ^ k) (2 ^ k) inverse)
              0 rows (st, data) Hrows) as (s' & Hrun & Hs').
  - unfold pass_keeps. cbn [fst snd]. split; [apply kept_outside_refl|auto].
  - intros i [s d] Hi (Hd & Ho & Hw & Hb & Hc). cbn [fst snd] in *.
    destruct (Z.eq_dec k 0) as [E0|N0].
    + subst k. unfold fft_1d. cbn. eexists. split; [reflexivity|].
      unfold pass_keeps. cbn [fst snd]. auto.
    + destruct (ensure_twiddle_table_available L (2 ^ k) s Lf Ho Hw ltac:(lia))
        as (st2 & tbl & E & Et & Hl & Ho2 & Hw2).
      destruct (ensure_twiddle_table_frame L _ _ _ E) as (_ & _ & _ & F4 & F5).
      destruct Hd as [Ld Hd].
      destruct (fft_1d_kept L s st2 tbl d k (i * 2 ^ k) inverse
                            ltac:(lia) ltac:(nia) ltac:(rewrite Ld; nia) E Et Hl)
        as (d' & E' & Hd').
      exists (st2, d'). split; [exact E'|]. unfold pass_keeps. cbn [fst snd].
      split.
      * eapply (kept_outside_trans 0 (rows * 2 ^ k) (i * 2 ^ k) (2 ^ k) data d d');
          [split; assumption|exact Hd'|nia|nia].
      * split; [exact Ho2|]. split; [exact Hw2|]. split; congruence.
  - exists s'. split; [exact Hrun|exact Hs'].
Qed.

Lemma scratch_ok_ensure (malloc : block Complex) (need : Z) (st : state) :
  0 <= need -> scratch_ok st -> scratch_ok (ensure_fft_temp_buffer malloc need st).
Proof.
  intros Hn Hs. unfold ensure_fft_temp_buffer.
  destruct (fft_temp_capacity st <? need); [|exact Hs].
  unfold scratch_ok.
  destruct malloc as [g|], (fft_temp_buffer st); cbn; intros b E;
    try discriminate; injection E as <-; apply length_cells; exact Hn.
Qed.

(** For a length [2 ^ k] whose double is an [int] (the stage loop doubles
    its counter once past the length), a window that lies inside the array
    and an [fmod] as the C standard has it, [fft_1d] returns, in either
    direction: every access it makes is inside the window or inside the
    twiddle table.  The array it hands back has the length of the one it
    was given and agrees with it outside of the window. *)
Theorem fft_1d_stays_in_window (L : Libm) (st : state) (data : list Complex)
        (k off : Z) (inverse : bool) :
  0 <= k -> 2 * 2 ^ k <= INT_MAX ->
  0 <= off -> off + 2 ^ k <= Z.of_nat (length data) ->
  libm_fmod L -> trig_tables_ok st -> twiddles_wf st ->
  exists st' data',
    fft_1d L st data off (2 ^ k) inverse = Some (st', data')
    /\ length data' = length data
    /\ (forall x, 0 <= x -> x < off \/ off + 2 ^ k <= x -> rd data' x = rd data x)
    /\ trig_tables_ok st' /\ twiddles_wf st'.
Proof.
  intros Hk _ Hoff Hfit Lf Hok Hwf.
  destruct (Z.eq_dec k 0) as [->|Hn].
  { exists st, data. unfold fft_1d. cbn. auto 6. }
  assert (Hp : 0 <= 2 ^ k) by (apply Z.pow_nonneg; lia).
  destruct (ensure_twiddle_table_available L (2 ^ k) st Lf Hok Hwf Hp)
    as (st2 & tbl & E & Et & Hl & Ho2 & Hw2).
  destruct (fft_1d_kept L st st2 tbl data k off inverse ltac:(lia) Hoff Hfit E Et Hl)
    as (d' & E' & Ld & Hd).
  exists st2, d'. auto 6.
Qed.

Lemma fft_1d_stays_in_window_witness :
  exists st' data',
    fft_1d RefLibm.libm initial_state
           [mkComplex 9 9; mkComplex 1 0; mkComplex 2 0; mkComplex 3 0;
            mkComplex 4 0; mkComplex 8 8]
           1 (2 ^ 2) true
    = Some (st', data')
    /\ length data'
       = length [mkComplex 9 9; mkComplex 1 0; mkComplex 2 0; mkComplex 3 0;
                 mkComplex 4 0; mkComplex 8 8]
    /\ (forall x, 0 <= x -> x < 1 \/ 1 + 2 ^ 2 <= x ->
          rd data' x
          = rd [mkComplex 9 9; mkComplex 1 0; mkComplex 2 0; mkComplex 3 0;
                mkComplex 4 0; mkComplex 8 8] x)
    /\ trig_tables_ok st' /\ twiddles_wf st'.
Proof.
  apply (fft_1d_stays_in_window RefLibm.libm initial_state
           [mkComplex 9 9; mkComplex 1 0; mkComplex 2 0; mkComplex 3 0;
            mkComplex 4 0; mkComplex 8 8] 2 1 true).
  - lia.
  - unfold INT_MAX. simpl. lia.
  - lia.
  - simpl. lia.
  - exact reference_fmod_in_range.
  - split; intros t E; discriminate E.
  - intros t E. discriminate E.
Defined.

(** For a width and a height that are powers of two, with doubles and a
    product that are [int]s, an array that holds the matrix and an [fmod] as
    the C standard has it, [fft_2d] returns, in either direction and whether
    or not the scratch buffer can grow: no access leaves the matrix, the
    scratch buffer or the twiddle table.  The array it hands back has the length of the one
    it was given and agrees with it beyond the matrix, and the caches are
    left in a shape that lets the next call do the same. *)
Theorem fft_2d_stays_in_bounds (L : Libm) (malloc : block Complex) (st : state)
        (data : list Complex) (a b : Z) (inverse : bool) :
  0 <= a -> 0 <= b ->
  2 * 2 ^ a <= INT_MAX -> 2 * 2 ^ b <= INT_MAX -> 2 ^ a * 2 ^ b <= INT_MAX ->
  2 ^ a * 2 ^ b <= Z.of_nat (length data) ->
  libm_fmod L -> trig_tables_ok st -> twiddles_wf st -> scratch_ok st ->
  exists st' data',
    fft_2d L malloc st data (2 ^ a) (2 ^ b) inverse = Some (st', data')
    /\ length data' = length data
    /\ (forall x, 2 ^ a * 2 ^ b <= x -> rd data' x = rd data x)
    /\ trig_tables_ok st' /\ twiddles_wf st' /\ scratch_ok st'.
Proof.
  intros Ha Hb _ _ _ Hfit Lf Hok Hwf Hsc. unfold fft_2d. cbv zeta.
  assert (Pa : 0 < 2 ^ a) by (apply Z.pow_pos_nonneg; lia).
  assert (Pb : 0 < 2 ^ b) by (apply Z.pow_pos_nonneg; lia).
  destruct (ensure_fft_temp_buffer_tables malloc (2 ^ a * 2 ^ b) st)
    as (Et & Ets & Es & Ec & Ez).
  pose proof (scratch_ok_ensure malloc (2 ^ a * 2 ^ b) st ltac:(nia) Hsc) as Hsc1.
  pose proof (ensure_fft_temp_buffer_length malloc (2 ^ a * 2 ^ b) st) as Hlen.
  set (st1 := ensure_fft_temp_buffer malloc (2 ^ a * 2 ^ b) st) in *.
  assert (Hok1 : trig_tables_ok st1).
  { unfold trig_tables_ok in *. rewrite Es, Ec, Ez. exact Hok. }
  assert (Hwf1 : twiddles_wf st1).
  { unfold twiddles_wf in *. rewrite Et, Ets. exact Hwf. }
  destruct (fft_temp_buffer st1) as [tmp|] eqn:Etmp.
  2:{ exists st1, data. split; [reflexivity|]. split; [reflexivity|].
      split; [reflexivity|]. auto. }
  specialize (Hlen tmp ltac:(nia) Hsc eq_refl).
  destruct (fft_rows_kept L st1 data a (2 ^ b) inverse Lf Hok1 Hwf1 Ha ltac:(lia)
                          ltac:(nia))
    as (s1 & E1 & (L1 & K1) & Ho1 & Hw1 & B1 & C1).
  rewrite E1.
  destruct (transpose_complex_copied (snd s1) tmp (2 ^ a) (2 ^ b) ltac:(lia) ltac:(lia)
                                     ltac:(rewrite L1; lia) Hlen)
    as (tmp1 & E2 & L2 & _ & _).
  rewrite E2.
  destruct (fft_rows_kept L (fst s1) tmp1 b (2 ^ a) inverse Lf Ho1 Hw1 Hb ltac:(lia)
                          ltac:(rewrite L2; lia))
    as (s2 & E3 & (L3 & _) & Ho2 & Hw2 & B2 & C2).
  rewrite E3.
  destruct (transpose_complex_copied (snd s2) (snd s1) (2 ^ b) (2 ^ a)
                                     ltac:(lia) ltac:(lia)
                                     ltac:(rewrite L3, L2; lia) ltac:(rewrite L1; lia))
    as (d' & E4 & L4 & _ & F4).
  rewrite E4.
  eexists _, d'. split; [reflexivity|]. split; [congruence|]. split.
  { intros x Hx. rewrite F4 by lia. apply K1; nia. }
  split; [exact Ho2|]. split; [exact Hw2|].
  unfold scratch_ok. cbn. intros bb Eb. injection Eb as <-.
  rewrite L3, L2, C2, C1. exact (Hsc1 tmp Etmp).
Qed.

Lemma fft_2d_stays_in_bounds_witness :
  exists st' data',
    fft_2d RefLibm.libm (Some (fun _ => czero)) initial_state
           [mkComplex 1 0; mkComplex 2 0; mkComplex 3 0; mkComplex 4 0;
            mkComplex 5 0; mkComplex 6 0; mkComplex 7 0; mkComplex 8 0;
            mkComplex 9 9]
           (2 ^ 2) (2 ^ 1) false
    = Some (st', data')
    /\ length data'
       = length [mkComplex 1 0; mkComplex 2 0; mkComplex 3 0; mkComplex 4 0;
                 mkComplex 5 0; mkComplex 6 0; mkComplex 7 0; mkComplex 8 0;
                 mkComplex 9 9]
    /\ (forall x, 2 ^ 2 * 2 ^ 1 <= x ->
          rd data' x
          = rd [mkComplex 1 0; mkComplex 2 0; mkComplex 3 0; mkComplex 4 0;
                mkComplex 5 0; mkComplex 6 0; mkComplex 7 0; mkComplex 8 0;
                mkComplex 9 9] x)
    /\ trig_tables_ok st' /\ twiddles_wf st' /\ scratch_ok st'.
Proof.
  apply (fft_2d_stays_in_bounds RefLibm.libm (Some (fun _ => czero)) initial_state
           [mkComplex 1 0; mkComplex 2 0; mkComplex 3 0; mkComplex 4 0;
            mkComplex 5 0; mkComplex 6 0; mkComplex 7 0; mkComplex 8 0;
            mkComplex 9 9] 2 1 false).
  - lia.
  - lia.
  - unfold INT_MAX. simpl. lia.
  - unfold INT_MAX. simpl. lia.
  - unfold INT_MAX. simpl. lia.
  - simpl. lia.
  - exact reference_fmod_in_range.
  - split; intros t E; discriminate E.
  - intros t E. discriminate E.
  - intros t E. discriminate E.
Defined.

(** ** The nearest-neighbour search of the interpolation *)

Local Open Scope float_scope.

(** The squared distance that the search computes for ray [k] and the grid
    point ([grid_x], [grid_y]). *)
Definition ray_dist_sq (ray_x ray_y : list float) (grid_x grid_y : float) (k : Z)
  : float :=
  let dx := nth (Z.to_nat k) ray_x 0 - grid_x in
  let dy := nth (Z.to_nat k) ray_y 0 - grid_y in
  dx * dx + dy * dy.

(** A NaN, or a double that is not negative. *)
Definition nan_or_nn (d : float) : Prop :=
  is_nan d = true \/ nn (Prim2SF d).

Lemma SFadd_notnan_inv (a b : spec_float) :
  sf_nan (SFadd prec emax a b) = false -> sf_nan a = false /\ sf_nan b = false.
Proof.
  destruct a as [sa|sa| |sa ma ea], b as [sb|sb| |sb mb eb]; simpl; auto;
    try discriminate; destruct sa, sb; simpl; auto; discriminate.
Qed.

Lemma SFmul_notnan_inv (a b : spec_float) :
  sf_nan (SFmul prec emax a b) = false -> sf_nan a = false /\ sf_nan b = false.
Proof.
  destruct a as [sa|sa| |sa ma ea], b as [sb|sb| |sb mb eb]; simpl; auto;
    discriminate.
Qed.

Lemma square_sum_class (a b : float) : nan_or_nn (a * a + b * b).
Proof.
  unfold nan_or_nn. destruct (is_nan (a * a + b * b)) eqn:E; [now left|right].
  split; [|apply Prim2SF_valid].
  rewrite is_nan_SF in E. rewrite add_spec, !mul_spec in *.
  unfold SF64add, SF64mul in *.
  apply SFadd_notnan_inv in E as [Ea Eb].
  apply SFmul_notnan_inv in Ea as [Ea _]. apply SFmul_notnan_inv in Eb as [Eb _].
  apply SFadd_nonneg; now apply SFmul_square_nonneg.
Qed.

Lemma ray_dist_sq_class (ray_x ray_y : list float) (grid_x grid_y : float) (k : Z) :
  nan_or_nn (ray_dist_sq ray_x ray_y grid_x grid_y k).
Proof. apply square_sum_class. Qed.

Lemma ltb_nan_l (a b : float) : is_nan a = true -> (a <? b) = false.
Proof.
  rewrite is_nan_SF, ltb_spec. unfold SFltb.
  now destruct (Prim2SF a) as [sa|sa| |sa ma ea].
Qed.

Lemma ltb_nan_r (a b : float) : is_nan b = true -> (a <? b) = false.
Proof.
  rewrite is_nan_SF, ltb_spec. unfold SFltb.
  destruct (Prim2SF b) as [sb|sb| |sb mb eb]; try discriminate.
  now destruct (Prim2SF a) as [sa|sa| |sa ma ea].
Qed.

Lemma ltb_nn (a b : float) :
  nn (Prim2SF a) -> nn (Prim2SF b) ->
  (a <? b) = (ev (Prim2SF a) <? ev (Prim2SF b))%Z.
Proof. intros Ha Hb. rewrite ltb_spec. now apply SFltb_ev. Qed.

Lemma ltb_true_nn (a b : float) :
  nan_or_nn a -> nan_or_nn b -> (a <? b) = true ->
  nn (Prim2SF a) /\ nn (Prim2SF b) /\ (ev (Prim2SF a) < ev (Prim2SF b))%Z.
Proof.
  intros [Ha|Ha] Hb H; [rewrite (ltb_nan_l a b Ha) in H; discriminate|].
  destruct Hb as [Hb|Hb]; [rewrite (ltb_nan_r a b Hb) in H; discriminate|].
  rewrite (ltb_nn a b Ha Hb) in H. apply Z.ltb_lt in H. auto.
Qed.

Lemma ltb_false_nn (a b : float) :
  nn (Prim2SF a) -> nn (Prim2SF b) -> (a <? b) = false ->
  (ev (Prim2SF b) <= ev (Prim2SF a))%Z.
Proof. intros Ha Hb H. rewrite (ltb_nn a b Ha Hb) in H. apply Z.ltb_ge in H. exact H. Qed.

Lemma ltb_of_lt (a b : float) :
  nn (Prim2SF a) -> nn (Prim2SF b) ->
  (ev (Prim2SF a) < ev (Prim2SF b))%Z -> (a <? b) = true.
Proof. intros Ha Hb H. rewrite (ltb_nn a b Ha Hb). now apply Z.ltb_lt. Qed.

Lemma ltb_of_le (a b : float) :
  nan_or_nn a -> nn (Prim2SF b) ->
  (is_nan a = false -> ev (Prim2SF b) <= ev (Prim2SF a))%Z -> (a <? b) = false.
Proof.
  intros [Ha|Ha] Hb H; [now apply ltb_nan_l|].
  rewrite (ltb_nn a b Ha Hb). apply Z.ltb_ge, H.
  rewrite is_nan_SF. apply sf_nonneg_notnan, Ha.
Qed.

Lemma nn_literal (x : float) :
  sf_nonneg (Prim2SF x) = true -> nn (Prim2SF x).
Proof. intros H. split; [exact H|apply Prim2SF_valid]. Qed.

Lemma nn_notnan (a : float) : nn (Prim2SF a) -> is_nan a = false.
Proof. intros [H _]. rewrite is_nan_SF. now apply sf_nonneg_notnan. Qed.

Section Search.

Variables ray_x ray_y ray_opd : list float.
Variables grid_x grid_y : float.
Variable ray_count : Z.

Hypothesis Hcount : (0 <= ray_count)%Z.
Hypothesis Hx : (ray_count <= Z.of_nat (length ray_x))%Z.
Hypothesis Hy : (ray_count <= Z.of_nat (length ray_y))%Z.
Hypothesis Ho : (ray_count <= Z.of_nat (length ray_opd))%Z.

Abbreviation d := (ray_dist_sq ray_x ray_y grid_x grid_y).

(** What the search returns: the OPD of the first ray nearer than the
    threshold; or, when there is none, the OPD of the first of the nearest
    rays, if it is nearer than [LARGE_NUMBER], and zero otherwise. *)
Definition search_result (v : float) : Prop :=
  (exists k, (0 <= k < ray_count)%Z
             /\ (d k <? 1e-8) = true
             /\ (forall j, (0 <= j < k)%Z -> (d j <? 1e-8) = false)
             /\ rd ray_opd k = Some v)
  \/ ((forall j, (0 <= j < ray_count)%Z -> (d j <? 1e-8) = false)
      /\ (((forall j, (0 <= j < ray_count)%Z -> (d j <? LARGE_NUMBER) = false)
           /\ v = 0)
          \/ exists k, (0 <= k < ray_count)%Z
                       /\ (d k <? LARGE_NUMBER) = true
                       /\ (forall j, (0 <= j < ray_count)%Z -> (d j <? d k) = false)
                       /\ (forall j, (0 <= j < k)%Z ->
                                     (d k <? d j) = true \/ is_nan (d j) = true)
                       /\ rd ray_opd k = Some v)).

(** The state of the loop before ray [k]. *)
Definition searching (k : Z) (m o : float) : Prop :=
  nn (Prim2SF m)
  /\ (m <? 1e-8) = false
  /\ (forall j, (0 <= j < k)%Z -> (d j <? m) = false)
  /\ ((m = LARGE_NUMBER /\ o = 0)
      \/ exists i, (0 <= i < k)%Z /\ m = d i /\ rd ray_opd i = Some o
                   /\ (d i <? LARGE_NUMBER) = true
                   /\ forall j, (0 <= j < i)%Z ->
                                (d i <? d j) = true \/ is_nan (d j) = true).

Lemma searching_far (k : Z) (m o : float) :
  searching k m o -> forall j, (0 <= j < k)%Z -> (d j <? 1e-8) = false.
Proof.
  intros (Hm & Hth & Hall & _) j Hj.
  assert (N8 : nn (Prim2SF 1e-8)) by (apply nn_literal; reflexivity).
  apply ltb_of_le; [apply ray_dist_sq_class|exact N8|]. intros Hn.
  assert (Hd : nn (Prim2SF (d j))).
  { destruct (ray_dist_sq_class ray_x ray_y grid_x grid_y j) as [E|E]; [|exact E].
    congruence. }
  pose proof (ltb_false_nn _ _ Hd Hm (Hall j Hj)).
  pose proof (ltb_false_nn _ _ Hm N8 Hth). lia.
Qed.

Lemma searching_done (m o : float) :
  searching ray_count m o -> search_result o.
Proof.
  intros H. pose proof (searching_far _ _ _ H) as Hfar.
  destruct H as (Hm & Hth & Hall & [[-> ->]|(i & Hi & -> & Hr & Hl & Hfirst)]).
  - right. split; [exact Hfar|]. left. split; [exact Hall|reflexivity].
  - right. split; [exact Hfar|]. right. exists i. auto.
Qed.

Lemma nearest_ray_from (n : nat) :
  forall (k : Z) (m o : float),
    (k + Z.of_nat n = ray_count)%Z -> (0 <= k)%Z -> searching k m o ->
    exists v, nearest_ray ray_x ray_y ray_opd grid_x grid_y n k m o = Some v
              /\ search_result v.
Proof.
  induction n as [|n IH]; intros k m o Hk Hk0 Hinv.
  - exists o. split; [reflexivity|]. apply (searching_done m o).
    replace ray_count with k by lia. exact Hinv.
  - cbn [nearest_ray].
    rewrite (rd_nth ray_x k 0) by lia. rewrite (rd_nth ray_y k 0) by lia.
    cbv zeta. fold (ray_dist_sq ray_x ray_y grid_x grid_y k).
    pose proof (searching_far _ _ _ Hinv) as Hfar.
    destruct Hinv as (Hm & Hth & Hall & Hcur).
    assert (N10 : nn (Prim2SF LARGE_NUMBER)) by (apply nn_literal; reflexivity).
    assert (Hcl : forall j, nan_or_nn (d j)) by (intros j; apply ray_dist_sq_class).
    destruct (d k <? m) eqn:Elt.
    + destruct (ltb_true_nn _ _ (Hcl k) (or_intror Hm) Elt) as (Hd & _ & Hlt).
      destruct (rd_in_range ray_opd k ltac:(lia)) as [ok Hok]. rewrite Hok.
      destruct (d k <? 1e-8) eqn:Eth.
      * exists ok. split; [reflexivity|]. left. exists k.
        split; [lia|]. split; [exact Eth|]. split; [exact Hfar|exact Hok].
      * apply IH; [lia|lia|].
        assert (Hothers : forall j, (0 <= j < k)%Z ->
                    (d k <? d j) = true \/ is_nan (d j) = true).
        { intros j Hj. destruct (Hcl j) as [E|E]; [now right|left].
          apply ltb_of_lt; [exact Hd|exact E|].
          pose proof (ltb_false_nn _ _ E Hm (Hall j Hj)). lia. }
        split; [exact Hd|]. split; [exact Eth|]. split.
        -- intros j Hj. destruct (Z.eq_dec j k) as [->|Hne].
           ++ rewrite (ltb_nn _ _ Hd Hd). apply Z.ltb_irrefl.
           ++ destruct (Hothers j ltac:(lia)) as [E|E]; [|now apply ltb_nan_l].
              destruct (ltb_true_nn _ _ (Hcl k) (Hcl j) E) as (_ & Hj' & Hlt').
              apply ltb_of_le; [apply Hcl|exact Hd|]. intros _. lia.
        -- right. exists k. split; [lia|]. split; [reflexivity|].
           split; [exact Hok|]. split; [|exact Hothers].
           destruct Hcur as [[-> _]|(i & Hi & -> & _ & Hl & _)]; [exact Elt|].
           destruct (ltb_true_nn _ _ (Hcl i) (or_intror N10) Hl) as (_ & _ & Hlt').
           apply ltb_of_lt; [exact Hd|exact N10|lia].
    + apply IH; [lia|lia|].
      split; [exact Hm|]. split; [exact Hth|]. split.
      * intros j Hj. destruct (Z.eq_dec j k) as [->|Hne]; [exact Elt|].
        apply Hall. lia.
      * destruct Hcur as [Hc|(i & Hi & Hrest)]; [now left|].
        right. exists i. split; [lia|exact Hrest].
Qed.

End Search.

(** The search of [interpolate_opd_grid] over [ray_count] rays that the
    three arrays hold, with [d k] the squared distance computed for ray [k]:
    it stops at the first ray with [d k < 1e-8] and returns its OPD, whether
    or not a later ray is nearer; when no ray is that near it returns the
    OPD of the first ray whose [d] no other ray is below, provided that
    [d k < 1e10]; and when no ray is nearer than that (no ray at all, or
    distances that are NaN or 1e10 and more) it returns zero. *)
Theorem nearest_ray_result (ray_x ray_y ray_opd : list float)
        (grid_x grid_y : float) (ray_count : Z) :
  (0 <= ray_count)%Z ->
  (ray_count <= Z.of_nat (length ray_x))%Z ->
  (ray_count <= Z.of_nat (length ray_y))%Z ->
  (ray_count <= Z.of_nat (length ray_opd))%Z ->
  exists v,
    nearest_ray ray_x ray_y ray_opd grid_x grid_y (Z.to_nat ray_count) 0
                LARGE_NUMBER 0 = Some v
    /\ search_result ray_x ray_y ray_opd grid_x grid_y ray_count v.
Proof.
  intros Hc Hx Hy Ho.
  apply (nearest_ray_from ray_x ray_y ray_opd grid_x grid_y ray_count Hx Hy Ho);
    [lia|lia|].
  split; [apply nn_literal; reflexivity|]. split; [reflexivity|].
  split; [intros j Hj; lia|]. left. split; reflexivity.
Qed.

(** Three rays around the grid point (0, 0), the second one on it. *)
Lemma nearest_ray_result_witness :
  exists v,
    nearest_ray [1; 0; 0.5]%float [0; 0; 0]%float [10; 20; 30]%float 0 0
                (Z.to_nat 3) 0 LARGE_NUMBER 0 = Some v
    /\ search_result [1; 0; 0.5]%float [0; 0; 0]%float [10; 20; 30]%float 0 0 3 v.
Proof.
  apply (nearest_ray_result [1; 0; 0.5]%float [0; 0; 0]%float [10; 20; 30]%float
                            0 0 3); simpl; lia.
Defined.

(** ** The grid of the interpolation *)

Section Interpolation.

Variables ray_x ray_y ray_opd : list float.
Variables ray_count grid_size : Z.
Variables min_x max_x min_y max_y : float.
Variable grid_opd0 : list float.
Variable pupil_mask0 : list Z.

Hypothesis Hcount : (0 <= ray_count)%Z.
Hypothesis Hx : (ray_count <= Z.of_nat (length ray_x))%Z.
Hypothesis Hy : (ray_count <= Z.of_nat (length ray_y))%Z.
Hypothesis Ho : (ray_count <= Z.of_nat (length ray_opd))%Z.
Hypothesis Hsize : (0 <= grid_size)%Z.
Hypothesis Hopd : (grid_size * grid_size <= Z.of_nat (length grid_opd0))%Z.
Hypothesis Hmask : (grid_size * grid_size <= Z.of_nat (length pupil_mask0))%Z.

(** What [interpolate_opd_grid] leaves in the cell of row [i] and column
    [j]: inside the circle the mask 1 and the result of the search, outside
    the mask 0 and the OPD 0. *)
Definition cell_filled (i j : Z) (s : list float * list Z) : Prop :=
  let inv := 1 / of_int (grid_size - 1) in
  let gx := grid_coordinate min_x (max_x - min_x) inv i in
  let gy := grid_coordinate min_y (max_y - min_y) inv j in
  let max_radius := C.fmax (fabs max_x) (fabs max_y) in
  if gx * gx + gy * gy <=? max_radius * max_radius then
    rd (snd s) (i * grid_size + j)%Z = Some 1%Z
    /\ exists v, rd (fst s) (i * grid_size + j)%Z = Some v
                 /\ search_result ray_x ray_y ray_opd gx gy ray_count v
  else
    rd (snd s) (i * grid_size + j)%Z = Some 0%Z
    /\ rd (fst s) (i * grid_size + j)%Z = Some 0.

(** The two arrays while the loops run: the cells that [R] holds of are
    filled, and nothing beyond the grid has changed. *)
Definition filled (R : Z -> Z -> Prop) (s : list float * list Z) : Prop :=
  length (fst s) = length grid_opd0
  /\ length (snd s) = length pupil_mask0
  /\ (forall i j, (0 <= i < grid_size)%Z -> (0 <= j < grid_size)%Z -> R i j ->
                  cell_filled i j s)
  /\ (forall x, (grid_size * grid_size <= x)%Z ->
                rd (fst s) x = rd grid_opd0 x /\ rd (snd s) x = rd pupil_mask0 x).

Lemma filled_weaken (R R' : Z -> Z -> Prop) (s : list float * list Z) :
  (forall a b, (0 <= a < grid_size)%Z -> (0 <= b < grid_size)%Z -> R' a b -> R a b) ->
  filled R s -> filled R' s.
Proof.
  intros H (Hl1 & Hl2 & HR & Hf). split; [exact Hl1|]. split; [exact Hl2|].
  split; [|exact Hf]. intros a b Ha Hb Hab. apply HR; auto.
Qed.

Lemma interpolate_cell_filled (R : Z -> Z -> Prop) (i j : Z) (s : list float * list Z) :
  filled R s -> (0 <= i < grid_size)%Z -> (0 <= j < grid_size)%Z ->
  exists s',
    interpolate_cell ray_x ray_y ray_opd ray_count grid_size
                     min_y (max_y - min_y) (1 / of_int (grid_size - 1))
                     (C.fmax (fabs max_x) (fabs max_y) * C.fmax (fabs max_x) (fabs max_y))
                     i (grid_coordinate min_x (max_x - min_x)
                                        (1 / of_int (grid_size - 1)) i) j s
    = Some s'
    /\ filled (fun a b => R a b \/ (a = i /\ b = j)) s'.
Proof.
  destruct s as [g m]. intros (Hl1 & Hl2 & HR & Hf) Hi Hj.
  cbn [fst snd] in Hl1, Hl2.
  assert (Hidx : (0 <= i * grid_size + j < grid_size * grid_size)%Z) by nia.
  unfold interpolate_cell. cbv zeta.
  set (gx := grid_coordinate min_x (max_x - min_x) (1 / of_int (grid_size - 1)) i).
  set (gy := grid_coordinate min_y (max_y - min_y) (1 / of_int (grid_size - 1)) j).
  set (R2 := C.fmax (fabs max_x) (fabs max_y) * C.fmax (fabs max_x) (fabs max_y)).
  assert (Hkeep : forall g' m' a b,
             (0 <= a < grid_size)%Z -> (0 <= b < grid_size)%Z ->
             (a * grid_size + b <> i * grid_size + j)%Z ->
             rd g' (a * grid_size + b)%Z = rd g (a * grid_size + b)%Z ->
             rd m' (a * grid_size + b)%Z = rd m (a * grid_size + b)%Z ->
             cell_filled a b (g, m) -> cell_filled a b (g', m')).
  { intros g' m' a b Ha Hb Hne Eg Em. unfold cell_filled. cbv zeta. cbn [fst snd].
    rewrite Eg, Em. auto. }
  destruct (gx * gx + gy * gy <=? R2) eqn:Ein.
  - pose proof (wr_in_range m (i * grid_size + j) 1%Z ltac:(lia)) as Wm.
    rewrite Wm.
    destruct (nearest_ray_from ray_x ray_y ray_opd gx gy ray_count Hx Hy Ho
                (Z.to_nat ray_count) 0%Z LARGE_NUMBER 0 ltac:(lia) ltac:(lia))
      as (v & Ev & Hv).
    { split; [apply nn_literal; reflexivity|]. split; [reflexivity|].
      split; [intros k Hk; lia|]. left. split; reflexivity. }
    rewrite Ev.
    pose proof (wr_in_range g (i * grid_size + j) v ltac:(lia)) as Wg.
    rewrite Wg. eexists. split; [reflexivity|].
    split; [cbn [fst]; rewrite length_upd_nat; exact Hl1|].
    split; [cbn [snd]; rewrite length_upd_nat; exact Hl2|]. split.
    + intros a b Ha Hb Hab.
      destruct (Z.eq_dec (a * grid_size + b) (i * grid_size + j)) as [E|N].
      * apply cell_index_inj in E as [-> ->]; [|lia|lia].
        unfold cell_filled. cbv zeta. fold gx gy R2. rewrite Ein. cbn [fst snd].
        rewrite (rd_wr _ _ _ _ _ Wm) by lia. rewrite (rd_wr _ _ _ _ _ Wg) by lia.
        rewrite Z.eqb_refl. split; [reflexivity|]. exists v. auto.
      * apply Hkeep; try assumption.
        -- rewrite (rd_wr _ _ _ _ _ Wg) by nia.
           destruct (Z.eqb_spec (a * grid_size + b) (i * grid_size + j)); [lia|reflexivity].
        -- rewrite (rd_wr _ _ _ _ _ Wm) by nia.
           destruct (Z.eqb_spec (a * grid_size + b) (i * grid_size + j)); [lia|reflexivity].
        -- destruct Hab as [Hab|[-> ->]]; [now apply HR|contradiction].
    + intros x Hx'. cbn [fst snd].
      rewrite (rd_wr _ _ _ _ _ Wm) by nia. rewrite (rd_wr _ _ _ _ _ Wg) by nia.
      destruct (Z.eqb_spec x (i * grid_size + j)); [lia|]. now apply Hf.
  - pose proof (wr_in_range m (i * grid_size + j) 0%Z ltac:(lia)) as Wm.
    rewrite Wm.
    pose proof (wr_in_range g (i * grid_size + j) 0 ltac:(lia)) as Wg.
    rewrite Wg. eexists. split; [reflexivity|].
    split; [cbn [fst]; rewrite length_upd_nat; exact Hl1|].
    split; [cbn [snd]; rewrite length_upd_nat; exact Hl2|]. split.
    + intros a b Ha Hb Hab.
      destruct (Z.eq_dec (a * grid_size + b) (i * grid_size + j)) as [E|N].
      * apply cell_index_inj in E as [-> ->]; [|lia|lia].
        unfold cell_filled. cbv zeta. fold gx gy R2. rewrite Ein. cbn [fst snd].
        rewrite (rd_wr _ _ _ _ _ Wm) by lia. rewrite (rd_wr _ _ _ _ _ Wg) by lia.
        rewrite Z.eqb_refl. split; reflexivity.
      * apply Hkeep; try assumption.
        -- rewrite (rd_wr _ _ _ _ _ Wg) by nia.
           destruct (Z.eqb_spec (a * grid_size + b) (i * grid_size + j)); [lia|reflexivity].
        -- rewrite (rd_wr _ _ _ _ _ Wm) by nia.
           destruct (Z.eqb_spec (a * grid_size + b) (i * grid_size + j)); [lia|reflexivity].
        -- destruct Hab as [Hab|[-> ->]]; [now apply HR|contradiction].
    + intros x Hx'. cbn [fst snd].
      rewrite (rd_wr _ _ _ _ _ Wm) by nia. rewrite (rd_wr _ _ _ _ _ Wg) by nia.
      destruct (Z.eqb_spec x (i * grid_size + j)); [lia|]. now apply Hf.
Qed.

Lemma interpolate_opd_grid_filled :
  exists s,
    interpolate_opd_grid ray_x ray_y ray_opd ray_count grid_opd0 pupil_mask0
                         grid_size min_x max_x min_y max_y = Some s
    /\ filled (fun _ _ => True) s.
Proof.
  unfold interpolate_opd_grid. cbv zeta.
  destruct (for_loop_invariant
              (fun i s => filled (fun a b => (a < i)%Z) s)
              (fun i s =>
                 for_loop 0 grid_size
                   (interpolate_cell ray_x ray_y ray_opd ray_count grid_size
                      min_y (max_y - min_y) (1 / of_int (grid_size - 1))
                      (C.fmax (fabs max_x) (fabs max_y) * C.fmax (fabs max_x) (fabs max_y))
                      i (grid_coordinate min_x (max_x - min_x)
                                         (1 / of_int (grid_size - 1)) i)) s)
              0%Z grid_size (grid_opd0, pupil_mask0) Hsize)
    as (s & Hrun & Hs).
  - split; [reflexivity|]. split; [reflexivity|].
    split; [intros a b Ha Hb Hab; lia|]. intros x _. split; reflexivity.
  - intros i s Hi Hs.
    destruct (for_loop_invariant
                (fun j t => filled (fun a b => (a < i)%Z \/ (a = i /\ (b < j)%Z)) t)
                (interpolate_cell ray_x ray_y ray_opd ray_count grid_size
                   min_y (max_y - min_y) (1 / of_int (grid_size - 1))
                   (C.fmax (fabs max_x) (fabs max_y) * C.fmax (fabs max_x) (fabs max_y))
                   i (grid_coordinate min_x (max_x - min_x)
                                      (1 / of_int (grid_size - 1)) i))
                0%Z grid_size s Hsize)
      as (t & Hrun & Ht).
    + eapply filled_weaken; [|exact Hs]. intros a b _ Hb [H|[_ H]]; [exact H|lia].
    + intros j t Hj Ht.
      destruct (interpolate_cell_filled _ i j t Ht ltac:(lia) ltac:(lia))
        as (t' & E & Ht').
      exists t'. split; [exact E|].
      eapply filled_weaken; [|exact Ht'].
      intros a b _ _ [H|[Ha Hb]]; [auto|].
      destruct (Z.lt_ge_cases b j); [left; right; lia|right; lia].
    + exists t. split; [exact Hrun|].
      eapply filled_weaken; [|exact Ht].
      intros a b _ Hb Hab.
      destruct (Z.lt_ge_cases a i); [left; lia|right; lia].
  - exists s. split; [exact Hrun|].
    eapply filled_weaken; [|exact Hs]. intros a b Ha _ _. cbv beta. lia.
Qed.

End Interpolation.

(** For [ray_count] rays that the three ray arrays hold and a grid that the
    two output arrays hold, [interpolate_opd_grid] returns with every cell of
    the grid written once: the cell of row [i] and column [j], whose point is
    ([grid_coordinate min_x .. i], [grid_coordinate min_y .. j]), gets the
    mask 1 and the OPD that the search finds for its point when the point
    lies in the circle of radius [fmax |max_x| |max_y|] around the origin,
    and the mask 0 and the OPD 0 when it does not (as for a point with a NaN
    coordinate).  What the arrays hold beyond the grid is left as it was. *)
Theorem interpolate_opd_grid_cells (ray_x ray_y ray_opd : list float)
        (ray_count : Z) (grid_opd : list float) (pupil_mask : list Z)
        (grid_size : Z) (min_x max_x min_y max_y : float) :
  (0 <= ray_count)%Z ->
  (ray_count <= Z.of_nat (length ray_x))%Z ->
  (ray_count <= Z.of_nat (length ray_y))%Z ->
  (ray_count <= Z.of_nat (length ray_opd))%Z ->
  (0 <= grid_size)%Z ->
  (grid_size * grid_size <= INT_MAX)%Z ->
  (grid_size * grid_size <= Z.of_nat (length grid_opd))%Z ->
  (grid_size * grid_size <= Z.of_nat (length pupil_mask))%Z ->
  exists g m,
    interpolate_opd_grid ray_x ray_y ray_opd ray_count grid_opd pupil_mask
                         grid_size min_x max_x min_y max_y = Some (g, m)
    /\ length g = length grid_opd
    /\ length m = length pupil_mask
    /\ (forall i j, (0 <= i < grid_size)%Z -> (0 <= j < grid_size)%Z ->
          let inv := 1 / of_int (grid_size - 1) in
          let gx := grid_coordinate min_x (max_x - min_x) inv i in
          let gy := grid_coordinate min_y (max_y - min_y) inv j in
          let max_radius := C.fmax (fabs max_x) (fabs max_y) in
          if gx * gx + gy * gy <=? max_radius * max_radius then
            rd m (i * grid_size + j)%Z = Some 1%Z
            /\ exists v, rd g (i * grid_size + j)%Z = Some v
                         /\ search_result ray_x ray_y ray_opd gx gy ray_count v
          else
            rd m (i * grid_size + j)%Z = Some 0%Z
            /\ rd g (i * grid_size + j)%Z = Some 0)
    /\ (forall x, (grid_size * grid_size <= x)%Z ->
          rd g x = rd grid_opd x /\ rd m x = rd pupil_mask x).
Proof.
  intros Hc Hx Hy Ho Hs _ Hg Hm.
  destruct (interpolate_opd_grid_filled ray_x ray_y ray_opd ray_count grid_size
              min_x max_x min_y max_y grid_opd pupil_mask Hc Hx Hy Ho Hs Hg Hm)
    as ([g m] & E & Hl1 & Hl2 & Hcells & Hf).
  exists g, m. split; [exact E|]. split; [exact Hl1|]. split; [exact Hl2|].
  split; [|exact Hf]. intros i j Hi Hj. exact (Hcells i j Hi Hj I).
Qed.

(** Two rays on opposite corners of a 2 x 2 grid over [0, 1] x [0, 1],
    whose fourth corner lies outside the circle. *)
Lemma interpolate_opd_grid_cells_witness :
  exists g m,
    interpolate_opd_grid [0; 1]%float [0; 1]%float [0.25; 0.5]%float 2
                         [9; 9; 9; 9; 9]%float [7; 7; 7; 7; 7]%Z
                         2 0 1 0 1 = Some (g, m)
    /\ length g = length [9; 9; 9; 9; 9]%float
    /\ length m = length [7; 7; 7; 7; 7]%Z
    /\ (forall i j, (0 <= i < 2)%Z -> (0 <= j < 2)%Z ->
          let inv := 1 / of_int (2 - 1) in
          let gx := grid_coordinate 0 (1 - 0) inv i in
          let gy := grid_coordinate 0 (1 - 0) inv j in
          let max_radius := C.fmax (fabs 1) (fabs 1) in
          if gx * gx + gy * gy <=? max_radius * max_radius then
            rd m (i * 2 + j)%Z = Some 1%Z
            /\ exists v, rd g (i * 2 + j)%Z = Some v
                         /\ search_result [0; 1]%float [0; 1]%float [0.25; 0.5]%float
                                          gx gy 2 v
          else
            rd m (i * 2 + j)%Z = Some 0%Z
            /\ rd g (i * 2 + j)%Z = Some 0)
    /\ (forall x, (2 * 2 <= x)%Z ->
          rd g x = rd [9; 9; 9; 9; 9]%float x /\ rd m x = rd [7; 7; 7; 7; 7]%Z x).
Proof.
  apply (interpolate_opd_grid_cells [0; 1]%float [0; 1]%float [0.25; 0.5]%float 2
           [9; 9; 9; 9; 9]%float [7; 7; 7; 7; 7]%Z 2 0 1 0 1);
    unfold INT_MAX; simpl; lia.
Defined.

(** On a grid of one cell the coordinate of the only grid line is a NaN
    ([1.0 / (grid_size - 1)] is a division by zero, and zero times infinity
    follows), whatever the bounds. *)
Lemma grid_coordinate_one (lo range : float) :
  grid_coordinate lo range (1 / of_int (1 - 1)) 0 = nan.
Proof.
  unfold grid_coordinate. apply Prim2SF_inj.
  rewrite add_spec, !mul_spec.
  change (Prim2SF (of_int 0)) with (S754_zero false).
  change (Prim2SF (1 / of_int (1 - 1))) with (S754_infinity false).
  change (Prim2SF nan) with S754_nan.
  unfold SF64add, SF64mul.
  destruct (Prim2SF range) as [sr|sr| |sr mr er], (Prim2SF lo) as [sl|sl| |sl ml el];
    reflexivity.
Qed.

(** On a grid of one cell [interpolate_opd_grid] masks the cell out,
    whatever the rays and the bounds are: it writes the mask 0 and the OPD 0
    and does not look at the rays. *)
Theorem interpolate_single_cell_masked (ray_x ray_y ray_opd : list float)
        (ray_count : Z) (o : float) (grid_opd : list float)
        (k : Z) (pupil_mask : list Z) (min_x max_x min_y max_y : float) :
  interpolate_opd_grid ray_x ray_y ray_opd ray_count
                       (o :: grid_opd) (k :: pupil_mask) 1 min_x max_x min_y max_y
  = Some (0 :: grid_opd, 0%Z :: pupil_mask).
Proof.
  unfold interpolate_opd_grid. cbv zeta.
  change (for_loop 0 1) with (@for_range (list float * list Z) 1 0%Z).
  cbn [for_range]. unfold interpolate_cell at 1.
  rewrite !grid_coordinate_one. cbv zeta.
  replace ((nan * nan + nan * nan)
           <=? C.fmax (fabs max_x) (fabs max_y) * C.fmax (fabs max_x) (fabs max_y))
    with false; [reflexivity|].
  symmetry. rewrite leb_spec.
  change (Prim2SF (nan * nan + nan * nan)) with S754_nan. reflexivity.
Qed.

(** ** The ray-sample entry point and the grid entry point *)

Local Open Scope Z_scope.

Lemma phase_constant_of_negated (wavelength : float) :
  (-2 * M_PI / - wavelength = 2 * M_PI / wavelength)%float.
Proof.
  apply Prim2SF_inj. rewrite !div_spec, opp_spec.
  change (Prim2SF (-2 * M_PI)%float) with (S754_finite true 7074237752028440 (-50)).
  change (Prim2SF (2 * M_PI)%float) with (S754_finite false 7074237752028440 (-50)).
  unfold SF64div.
  destruct (Prim2SF wavelength) as [s|s| |s m e]; try reflexivity;
    destruct s; reflexivity.
Qed.

Lemma uniform_amplitude (ga : nat -> float) (total_size : Z) :
  0 <= total_size ->
  exists amplitude,
    for_loop 0 total_size (fun i a => wr a i 1%float) (cells ga total_size)
    = Some amplitude
    /\ forall i, 0 <= i < total_size -> rd amplitude i = Some 1%float.
Proof.
  intros Hn.
  destruct (for_loop_invariant
              (fun k (a : list float) =>
                 Z.of_nat (length a) = total_size
                 /\ forall i, 0 <= i < k -> rd a i = Some 1%float)
              (fun i a => wr a i 1%float) 0 total_size (cells ga total_size) Hn)
    as (a & Hrun & _ & Ha).
  - split; [now apply length_cells|]. intros i Hi. lia.
  - intros k a Hk [Hl Ha].
    pose proof (wr_in_range a k 1%float ltac:(lia)) as W.
    rewrite W. eexists. split; [reflexivity|].
    split; [rewrite length_upd_nat; exact Hl|].
    intros i Hi. rewrite (rd_wr _ _ _ _ _ W) by lia.
    destruct (Z.eqb_spec i k); [reflexivity|]. apply Ha. lia.
  - exists a. split; [exact Hrun|exact Ha].
Qed.

Lemma cells_zeroed {A : Type} (c : A) (n : Z) :
  map (fun _ => c) (cells (fun _ => c) n) = cells (fun _ => c) n.
Proof. unfold cells. rewrite map_map. reflexivity. Qed.

(** On the grid that [interpolate_opd_grid] makes of the rays,
    [calculate_psf_wasm] returns what [calculate_psf_grid_wasm] returns for
    that grid and its mask with a NULL [amplitude] (every amplitude is 1)
    and the wavelength negated, and leaves the caches in the same state: the
    ray-sample form takes the phase [2 pi opd / wavelength] where the grid
    form takes [-2 pi opd / wavelength]. *)
Theorem calculate_psf_wasm_as_grid (L : Libm)
        (calloc_ok : bool) (ga : nat -> float) (malloc_psf : block float)
        (malloc_tmp : block Complex) (st : state)
        (ray_x ray_y ray_opd : list float) (ray_count grid_size : Z)
        (wavelength min_x max_x min_y max_y : float)
        (grid_opd : list float) (pupil_mask : list Z) :
  interpolate_opd_grid ray_x ray_y ray_opd ray_count
                       (cells (fun _ => 0%float) (grid_size * grid_size))
                       (cells (fun _ => 0%Z) (grid_size * grid_size))
                       grid_size min_x max_x min_y max_y
  = Some (grid_opd, pupil_mask) ->
  calculate_psf_wasm L calloc_ok (Some ga) malloc_psf malloc_tmp st
                     ray_x ray_y ray_opd ray_count grid_size wavelength
                     min_x max_x min_y max_y
  = calculate_psf_grid_wasm L calloc_ok malloc_psf malloc_tmp st
                            (Some grid_opd) None (Some pupil_mask)
                            grid_size (- wavelength).
Proof.
  intros Hgrid. unfold calculate_psf_wasm, calculate_psf_grid_wasm. cbv zeta.
  destruct calloc_ok; [|reflexivity]. destruct malloc_psf as [g|]; [|reflexivity].
  set (total := grid_size * grid_size).
  assert (Ht : 0 <= total) by (unfold total; nia).
  destruct (uniform_amplitude ga total Ht) as (amp & Eamp & Hone).
  rewrite Eamp. fold total in Hgrid. rewrite Hgrid. cbn [fst snd].
  unfold calculate_complex_amplitude, grid_pupil. cbv zeta. fold total.
  rewrite (prepare_trig_tables_again L st total total Ht (Z.le_refl _)).
  rewrite phase_constant_of_negated, cells_zeroed.
  rewrite (for_loop_ext
             (complex_amplitude_cell L (prepare_trig_tables L total st)
                                     (2 * M_PI / wavelength) grid_opd amp pupil_mask)
             (grid_pupil_cell L (prepare_trig_tables L total st)
                              (2 * M_PI / wavelength) (Some grid_opd) None
                              (Some pupil_mask))).
  - destruct (for_loop 0 total (grid_pupil_cell _ _ _ _ _ _) _); reflexivity.
  - intros k t Hk. unfold complex_amplitude_cell, grid_pupil_cell.
    destruct (rd pupil_mask k) as [mk|]; [|reflexivity].
    destruct (mk =? 0); [reflexivity|].
    destruct (rd grid_opd k) as [o|]; [|reflexivity].
    now rewrite (Hone k Hk).
Qed.

(** Two rays on opposite corners of a 2 x 2 grid over [0, 1] x [0, 1]. *)
Lemma calculate_psf_wasm_as_grid_witness :
  calculate_psf_wasm RefLibm.libm true (Some (fun _ => 0%float))
                     (Some (fun _ => 0%float)) (Some (fun _ => czero)) initial_state
                     [0; 1]%float [0; 1]%float [0.25; 0.5]%float 2 2 0.5%float
                     0%float 1%float 0%float 1%float
  = calculate_psf_grid_wasm RefLibm.libm true (Some (fun _ => 0%float))
                            (Some (fun _ => czero)) initial_state
                            (Some [0.25; 0.25; 0.25; 0]%float) None (Some [1; 1; 1; 0])
                            2 (- 0.5)%float.
Proof.
  apply (calculate_psf_wasm_as_grid RefLibm.libm true (fun _ => 0%float)
           (Some (fun _ => 0%float)) (Some (fun _ => czero)) initial_state
           [0; 1]%float [0; 1]%float [0.25; 0.5]%float 2 2 0.5%float
           0%float 1%float 0%float 1%float
           [0.25; 0.25; 0.25; 0]%float [1; 1; 1; 0]).
  vm_compute. reflexivity.
Defined.

(** ** The ten-coefficient sag against the four-coefficient sag *)

Local Open Scope Z_scope.

(** A double with a clear sign bit: plus zero, a positive number or plus
    infinity. *)
Definition sf_plus (s : spec_float) : bool :=
  match s with
  | S754_zero false | S754_finite false _ _ | S754_infinity false => true
  | _ => false
  end.

Lemma signed_as_plus (s : spec_float) : signed_as false s -> sf_plus s = true.
Proof. intros [->|[(m & e & ->)| ->]]; reflexivity. Qed.

Lemma sf_plus_notnan (s : spec_float) : sf_plus s = true -> sf_nan s = false.
Proof. now destruct s as [[]|[]| |[] m e]. Qed.

Lemma SFmul_square_plus (a : spec_float) :
  sf_nan a = false -> sf_plus (SFmul prec emax a a) = true.
Proof.
  destruct a as [sa|sa| |sa ma ea]; cbn [SFmul sf_nan sf_plus]; try discriminate;
    intros _; try (destruct sa; reflexivity).
  apply signed_as_plus. replace false with (xorb sa sa) by (now destruct sa).
  apply binary_round_aux_signed. lia.
Qed.

Lemma SFmul_plus (a b : spec_float) :
  sf_plus a = true -> sf_plus b = true ->
  sf_finite a = true -> sf_finite b = true ->
  sf_plus (SFmul prec emax a b) = true.
Proof.
  destruct a as [[]|[]| |[] ma ea], b as [[]|[]| |[] mb eb];
    cbn [SFmul sf_plus sf_finite xorb]; try discriminate; intros _ _ _ _;
    try reflexivity.
  apply signed_as_plus, binary_round_aux_signed. lia.
Qed.

Lemma sf_plus_nn (s : spec_float) :
  sf_plus s = true -> valid_binary s = true -> nn s.
Proof. intros H V. split; [|exact V]. now destruct s as [[]|[]| |[] m e]. Qed.

Lemma nn_finite_lt (s : spec_float) : nn s -> sf_finite s = true -> ev s < TOP.
Proof.
  intros [H V] F. pose proof TOP_pos.
  destruct s as [sx|sx| |sx m e]; try discriminate; cbn [ev]; [lia|].
  apply bounded_lt_TOP, V.
Qed.

Lemma nn_lt_finite (s : spec_float) : nn s -> ev s < TOP -> sf_finite s = true.
Proof.
  intros H L. destruct (nn_finite_cases s H L) as [[x ->]|(m & e & -> & _)];
    reflexivity.
Qed.

(** The magnitude of a product of two magnitudes, in units. *)
Definition mul_units (a b : Z) : Z := Z.min (RND (a * b) (unit_of 0)) TOP.

Lemma SFmul_nn_finite (a b : spec_float) :
  nn a -> nn b -> ev a < TOP -> ev b < TOP ->
  nn (SFmul prec emax a b)
  /\ ev (SFmul prec emax a b) = mul_units (ev a) (ev b).
Proof.
  intros Ha Hb La Lb. pose proof TOP_pos as HT.
  pose proof (unit_of_pos 0 ltac:(unfold B; lia)) as HU.
  unfold mul_units.
  destruct (nn_finite_cases a Ha La) as [[sa ->]|(ma & ea & -> & Va)];
    destruct (nn_finite_cases b Hb Lb) as [[sb ->]|(mb & eb & -> & Vb)].
  - cbn [SFmul ev]. rewrite Z.mul_0_l, RND_0 by exact HU.
    split; [split; reflexivity|lia].
  - cbn [SFmul ev]. rewrite Z.mul_0_l, RND_0 by exact HU.
    split; [split; reflexivity|lia].
  - cbn [SFmul ev]. rewrite Z.mul_0_r, RND_0 by exact HU.
    split; [split; reflexivity|lia].
  - rewrite SFmul_finite by assumption. cbn [xorb ev].
    pose proof (bounded_val_pos _ _ Va). pose proof (bounded_val_pos _ _ Vb).
    assert (R : representable (RND (val ma ea * val mb eb) (unit_of 0)))
      by (apply RND_representable; nia).
    split; [now apply inject_nn|now apply ev_inject].
Qed.

Lemma mul_units_mono (a b a' b' : Z) :
  0 <= a <= a' -> 0 <= b <= b' -> mul_units a b <= mul_units a' b'.
Proof.
  intros Ha Hb. unfold mul_units.
  pose proof (unit_of_pos 0 ltac:(unfold B; lia)) as HU.
  assert (Hab : a * b <= a' * b') by (apply Z.mul_le_mono_nonneg; lia).
  assert (RND (a * b) (unit_of 0) <= RND (a' * b') (unit_of 0)).
  { apply RND_mono; [nia|exact HU|exact HU|].
    apply Z.mul_le_mono_nonneg_r; lia. }
  lia.
Qed.

Lemma mul_units_one (a : Z) :
  representable a -> a < TOP -> mul_units a (unit_of 0) = a.
Proof.
  intros R L. unfold mul_units.
  rewrite RND_exact by (try exact R; apply unit_of_pos; unfold B; lia). lia.
Qed.

Lemma mul_units_representable (a b : Z) :
  0 <= a -> 0 <= b -> representable (mul_units a b).
Proof.
  intros Ha Hb. unfold mul_units.
  pose proof (unit_of_pos 0 ltac:(unfold B; lia)) as HU.
  destruct (Z.min_spec (RND (a * b) (unit_of 0)) TOP) as [[_ ->]|[_ ->]].
  - apply RND_representable; nia.
  - apply representable_TOP.
Qed.

Lemma mul_units_nonneg (a b : Z) : 0 <= a -> 0 <= b -> 0 <= mul_units a b.
Proof. intros Ha Hb. now destruct (mul_units_representable a b Ha Hb). Qed.

Lemma unit_lt_TOP : unit_of 0 < TOP.
Proof. unfold TOP, unit_of. apply Z.pow_lt_mono_r; unfold B; lia. Qed.

(** When the powers 2, 4, 8, 10, 20 and 22 of the chain of products are in
    range, the powers 6, 12, 14, 16 and 18 are. *)
Lemma power_chain (e2 : Z) :
  representable e2 -> e2 < TOP ->
  let e4 := mul_units e2 e2 in
  let e8 := mul_units e4 e4 in
  let e10 := mul_units e8 e2 in
  let e20 := mul_units e10 e10 in
  let e22 := mul_units e20 e2 in
  let e6 := mul_units e4 e2 in
  let e12 := mul_units e6 e6 in
  let e14 := mul_units e12 e2 in
  let e16 := mul_units e8 e8 in
  let e18 := mul_units e16 e2 in
  e4 < TOP -> e8 < TOP -> e10 < TOP -> e20 < TOP -> e22 < TOP ->
  e6 < TOP /\ e12 < TOP /\ e14 < TOP /\ e16 < TOP /\ e18 < TOP.
Proof.
  intros R2 L2 e4 e8 e10 e20 e22 e6 e12 e14 e16 e18 L4 L8 L10 L20 L22.
  pose proof unit_lt_TOP as HU.
  pose proof (unit_of_pos 0 ltac:(unfold B; lia)) as HU0.
  assert (P2 : 0 <= e2) by (now destruct R2).
  assert (P4 : 0 <= e4) by (now apply mul_units_nonneg).
  assert (P8 : 0 <= e8) by (now apply mul_units_nonneg).
  assert (P10 : 0 <= e10) by (now apply mul_units_nonneg).
  assert (P20 : 0 <= e20) by (now apply mul_units_nonneg).
  assert (P6 : 0 <= e6) by (now apply mul_units_nonneg).
  assert (P12 : 0 <= e12) by (now apply mul_units_nonneg).
  assert (P16 : 0 <= e16) by (now apply mul_units_nonneg).
  destruct (Z.le_gt_cases (unit_of 0) e2) as [Hge|Hlt].
  - assert (H24 : e2 <= e4).
    { rewrite <- (mul_units_one e2 R2 L2) at 1. apply mul_units_mono; lia. }
    assert (H68 : e6 <= e8) by (apply mul_units_mono; lia).
    assert (H810 : e8 <= e10).
    { rewrite <- (mul_units_one e8 (mul_units_representable _ _ P4 P4) L8) at 1.
      apply mul_units_mono; lia. }
    assert (H1620 : e16 <= e20) by (apply mul_units_mono; lia).
    assert (H1216 : e12 <= e16) by (apply mul_units_mono; lia).
    assert (H1422 : e14 <= e22) by (apply mul_units_mono; lia).
    assert (H1822 : e18 <= e22) by (apply mul_units_mono; lia).
    lia.
  - assert (Hone : mul_units (unit_of 0) (unit_of 0) = unit_of 0)
      by (apply mul_units_one; [apply representable_unit; lia|exact HU]).
    assert (Hsmall : forall a b, 0 <= a <= unit_of 0 -> 0 <= b <= unit_of 0 ->
                                 mul_units a b <= unit_of 0).
    { intros a b Ha Hb. rewrite <- Hone. now apply mul_units_mono. }
    assert (S4 : e4 <= unit_of 0) by (apply Hsmall; lia).
    assert (S8 : e8 <= unit_of 0) by (apply Hsmall; lia).
    assert (S6 : e6 <= unit_of 0) by (apply Hsmall; lia).
    assert (S12 : e12 <= unit_of 0) by (apply Hsmall; lia).
    assert (S14 : e14 <= unit_of 0) by (apply Hsmall; lia).
    assert (S16 : e16 <= unit_of 0) by (apply Hsmall; lia).
    assert (S18 : e18 <= unit_of 0) by (apply Hsmall; lia).
    lia.
Qed.

(** A double that is finite and has a clear sign bit. *)
Definition plus_finite (x : float) : Prop :=
  sf_plus (Prim2SF x) = true /\ isfinite x = true.

Lemma plus_finite_Fnn (x : float) : plus_finite x -> Fnn x /\ fev x < TOP.
Proof.
  intros [P F].
  assert (N : Fnn x) by (apply sf_plus_nn; [exact P|apply Prim2SF_valid]).
  split; [exact N|]. apply nn_finite_lt; [exact N|]. now rewrite <- isfinite_SF.
Qed.

Lemma mul_plus_finite (a b : float) :
  plus_finite a -> plus_finite b ->
  sf_plus (Prim2SF (a * b)) = true
  /\ Fnn (a * b)%float
  /\ fev (a * b)%float = mul_units (fev a) (fev b).
Proof.
  intros Ha Hb.
  destruct (plus_finite_Fnn a Ha) as [Na La]. destruct (plus_finite_Fnn b Hb) as [Nb Lb].
  destruct Ha as [Pa Fa], Hb as [Pb Fb]. rewrite isfinite_SF in Fa, Fb.
  unfold Fnn, fev. rewrite mul_spec. unfold SF64mul.
  split; [now apply SFmul_plus|]. now apply SFmul_nn_finite.
Qed.

Lemma plus_finite_of (x : float) :
  sf_plus (Prim2SF x) = true -> Fnn x -> fev x < TOP -> plus_finite x.
Proof.
  intros P N L. split; [exact P|]. rewrite isfinite_SF. now apply nn_lt_finite.
Qed.

(** [r^22] as [aspheric_sag10] computes it. *)
Definition r_pow22 (r : float) : float :=
  let r2 := (r * r)%float in
  let r4 := (r2 * r2)%float in
  let r8 := (r4 * r4)%float in
  let r10 := (r8 * r2)%float in
  let r20 := (r10 * r10)%float in
  (r20 * r2)%float.

Lemma high_powers_finite (r : float) :
  isfinite (r_pow22 r) = true ->
  let r2 := (r * r)%float in
  let r4 := (r2 * r2)%float in
  let r6 := (r4 * r2)%float in
  let r8 := (r4 * r4)%float in
  let r10 := (r8 * r2)%float in
  let r12 := (r6 * r6)%float in
  let r14 := (r12 * r2)%float in
  let r16 := (r8 * r8)%float in
  let r18 := (r16 * r2)%float in
  let r20 := (r10 * r10)%float in
  let r22 := (r20 * r2)%float in
  plus_finite r12 /\ plus_finite r14 /\ plus_finite r16 /\ plus_finite r18
  /\ plus_finite r20 /\ plus_finite r22.
Proof.
  unfold r_pow22. cbv zeta. intros F22.
  set (r2 := (r * r)%float) in *. set (r4 := (r2 * r2)%float) in *.
  set (r8 := (r4 * r4)%float) in *. set (r10 := (r8 * r2)%float) in *.
  set (r20 := (r10 * r10)%float) in *.
  set (r6 := (r4 * r2)%float). set (r12 := (r6 * r6)%float).
  set (r16 := (r8 * r8)%float).
  destruct (mul_finite_inv _ _ F22) as [F20 F2].
  destruct (mul_finite_inv _ _ F20) as [F10 _].
  destruct (mul_finite_inv _ _ F10) as [F8 _].
  destruct (mul_finite_inv _ _ F8) as [F4 _].
  destruct (mul_finite_inv _ _ F2) as [Fr _].
  assert (Q2 : plus_finite r2).
  { split; [|exact F2]. unfold r2. rewrite mul_spec. apply SFmul_square_plus.
    rewrite isfinite_SF in Fr. now apply sf_finite_notnan. }
  destruct (mul_plus_finite r2 r2 Q2 Q2) as (S4 & N4 & E4). fold r4 in S4, N4, E4.
  assert (Q4 : plus_finite r4) by (split; assumption).
  destruct (mul_plus_finite r4 r4 Q4 Q4) as (S8 & N8 & E8). fold r8 in S8, N8, E8.
  assert (Q8 : plus_finite r8) by (split; assumption).
  destruct (mul_plus_finite r8 r2 Q8 Q2) as (S10 & N10 & E10).
  fold r10 in S10, N10, E10.
  assert (Q10 : plus_finite r10) by (split; assumption).
  destruct (mul_plus_finite r10 r10 Q10 Q10) as (S20 & N20 & E20).
  fold r20 in S20, N20, E20.
  assert (Q20 : plus_finite r20) by (split; assumption).
  destruct (mul_plus_finite r20 r2 Q20 Q2) as (S22 & N22 & E22).
  assert (Q22 : plus_finite (r20 * r2)%float) by (split; assumption).
  destruct (plus_finite_Fnn _ Q2) as [N2 L2].
  destruct (plus_finite_Fnn _ Q4) as [_ L4]. destruct (plus_finite_Fnn _ Q8) as [_ L8].
  destruct (plus_finite_Fnn _ Q10) as [_ L10].
  destruct (plus_finite_Fnn _ Q20) as [_ L20].
  destruct (plus_finite_Fnn _ Q22) as [_ L22].
  destruct (mul_plus_finite r4 r2 Q4 Q2) as (S6 & N6 & E6). fold r6 in S6, N6, E6.
  destruct (power_chain (fev r2) (ev_representable _ N2) L2) as (L6 & L12 & L14 & L16 & L18);
    try (rewrite <- ?E4, <- ?E8, <- ?E10, <- ?E20, <- ?E22; assumption).
  rewrite <- E4, <- E6 in L6.
  assert (Q6 : plus_finite r6) by (now apply plus_finite_of).
  destruct (mul_plus_finite r6 r6 Q6 Q6) as (S12 & N12 & E12).
  fold r12 in S12, N12, E12.
  rewrite <- E4, <- E6, <- E12 in L12.
  assert (Q12 : plus_finite r12) by (now apply plus_finite_of).
  destruct (mul_plus_finite r12 r2 Q12 Q2) as (S14 & N14 & E14).
  rewrite <- E4, <- E6, <- E12, <- E14 in L14.
  assert (Q14 : plus_finite (r12 * r2)%float) by (now apply plus_finite_of).
  destruct (mul_plus_finite r8 r8 Q8 Q8) as (S16 & N16 & E16).
  fold r16 in S16, N16, E16.
  rewrite <- E4, <- E8, <- E16 in L16.
  assert (Q16 : plus_finite r16) by (now apply plus_finite_of).
  destruct (mul_plus_finite r16 r2 Q16 Q2) as (S18 & N18 & E18).
  rewrite <- E4, <- E8, <- E16, <- E18 in L18.
  assert (Q18 : plus_finite (r16 * r2)%float) by (now apply plus_finite_of).
  auto 10.
Qed.

Lemma zero_mul_plus (x : float) : plus_finite x -> (0 * x)%float = 0%float.
Proof.
  intros [P F]. rewrite isfinite_SF in F. apply Prim2SF_inj.
  rewrite mul_spec. change (Prim2SF 0%float) with (S754_zero false).
  unfold SF64mul.
  destruct (Prim2SF x) as [[]|[]| |[] m e]; try discriminate; reflexivity.
Qed.

Lemma add_zero_absorb (x : float) : (x + 0 + 0)%float = (x + 0)%float.
Proof.
  apply Prim2SF_inj. rewrite !add_spec. change (Prim2SF 0%float) with (S754_zero false).
  unfold SF64add.
  destruct (Prim2SF x) as [[]|[]| |[] m e]; reflexivity.
Qed.

(** Equal as C compares doubles with [==], or both a NaN. *)
Definition same_number (x y : float) : Prop :=
  (x =? y)%float = true \/ (is_nan x = true /\ is_nan y = true).

Lemma same_sf (X : spec_float) :
  SFeqb X X = true \/ (sf_nan X = true /\ sf_nan X = true).
Proof.
  unfold SFeqb. rewrite SFcompare_refl. destruct (sf_nan X); auto.
Qed.

Lemma sum_with_zero (b t : float) : same_number (b + (t + 0)) (b + t).
Proof.
  unfold same_number. rewrite eqb_spec, !is_nan_SF, !add_spec.
  change (Prim2SF 0%float) with (S754_zero false). unfold SF64add.
  destruct (Prim2SF t) as [st|st| |st mt et].
  - replace (SFadd prec emax (S754_zero st) (S754_zero false)) with (S754_zero false)
      by (now destruct st).
    destruct (Prim2SF b) as [sb|sb| |sb mb eb].
    + destruct sb, st; left; reflexivity.
    + cbn [SFadd]. apply same_sf.
    + right. split; reflexivity.
    + cbn [SFadd]. apply same_sf.
  - replace (SFadd prec emax (S754_infinity st) (S754_zero false))
      with (S754_infinity st) by reflexivity.
    apply same_sf.
  - replace (SFadd prec emax S754_nan (S754_zero false)) with S754_nan by reflexivity.
    apply same_sf.
  - replace (SFadd prec emax (S754_finite st mt et) (S754_zero false))
      with (S754_finite st mt et) by reflexivity.
    apply same_sf.
Qed.

(** With the six higher coefficients zero, [aspheric_sag10] returns the
    number that [aspheric_sag] returns (equal under [==], or a NaN where
    [aspheric_sag] gives a NaN), provided that [r^22], as the function
    computes it, has not overflowed; the products [0 * r^n] are then zeros
    and not NaNs. *)
Theorem aspheric_sag10_extends_sag (r c k a4 a6 a8 a10 : float) :
  isfinite (r_pow22 r) = true ->
  same_number (aspheric_sag10 r c k a4 a6 a8 a10 0 0 0 0 0 0)
              (aspheric_sag r c k a4 a6 a8 a10).
Proof.
  intros F. unfold aspheric_sag10, aspheric_sag.
  destruct (r =? 0)%float; [left; reflexivity|]. cbv zeta.
  destruct (_ <=? 0)%float; [left; reflexivity|].
  pose proof (high_powers_finite r F) as H. cbv zeta in H.
  destruct H as (Q12 & Q14 & Q16 & Q18 & Q20 & Q22).
  rewrite (zero_mul_plus _ Q12), (zero_mul_plus _ Q14), (zero_mul_plus _ Q16),
    (zero_mul_plus _ Q18), (zero_mul_plus _ Q20), (zero_mul_plus _ Q22).
  rewrite !add_zero_absorb. apply sum_with_zero.
Qed.

Lemma aspheric_sag10_extends_sag_witness :
  same_number (aspheric_sag10 2 0.01 (-1) 1e-3 1e-4 1e-5 1e-6 0 0 0 0 0 0)
              (aspheric_sag 2 0.01 (-1) 1e-3 1e-4 1e-5 1e-6).
Proof.
  apply (aspheric_sag10_extends_sag 2 0.01 (-1) 1e-3 1e-4 1e-5 1e-6). reflexivity.
Defined.

(* ===================================================================== *)
(** * ray-tracing-wasm.c: the pure conic sag, inside and outside the range *)
(* ===================================================================== *)

(** ** Rounding is to the nearest double *)

Local Open Scope Z_scope.

Lemma rne_nearest (n D : Z) : 0 < D -> 2 * Z.abs (rne n D * D - n) <= D.
Proof.
  intros HD. unfold rne. cbv zeta.
  pose proof (Z.div_mod n D ltac:(lia)) as E.
  pose proof (Z.mod_pos_bound n D HD) as Hr.
  set (q := n / D) in *. set (r := n mod D) in *.
  destruct (Z.compare_spec (2 * r) D) as [C|C|C]; try destruct (Z.even q); nia.
Qed.

(** The rounded value of [n / d] is within half a unit of it. *)
Lemma RND_nearest (n d : Z) :
  0 < d -> 2 * Z.abs (RND n d * d - n) <= d * unit_of (cexp (n / d)).
Proof.
  intros Hd. unfold RND. cbv zeta.
  pose proof (unit_of_pos _ (cexp_B (n / d))) as HU.
  set (u := unit_of (cexp (n / d))) in *.
  pose proof (rne_nearest n (d * u) ltac:(nia)) as H.
  replace (rne n (d * u) * u * d - n) with (rne n (d * u) * (d * u) - n) by ring.
  exact H.
Qed.

(** A value in the range of the normal doubles has 53 digits in units of its
    exponent. *)
Lemma cexp_normal (q : Z) : unit_of (-1022) <= q -> 2 ^ 52 * unit_of (cexp q) <= q.
Proof.
  intros Hq.
  pose proof (unit_of_pos (-1022) ltac:(unfold B; lia)) as HN.
  assert (Hl : B - 1022 <= Z.log2 q).
  { apply Z.log2_le_pow2; [lia|]. exact Hq. }
  unfold cexp.
  replace (Z.max (Z.log2 q + 1 - 53 - B) (-1074)) with (Z.log2 q - 52 - B) by lia.
  unfold unit_of. replace (Z.log2 q - 52 - B + B) with (Z.log2 q - 52) by lia.
  rewrite <- Z.pow_add_r by (unfold B in *; lia).
  replace (52 + (Z.log2 q - 52)) with (Z.log2 q) by lia.
  apply Z.log2_spec. lia.
Qed.

Lemma cexp_subnormal (q : Z) : q < unit_of (-1022) -> cexp q = -1074.
Proof.
  intros Hq. unfold cexp.
  destruct (Z.le_gt_cases q 0) as [H0|H0].
  - rewrite Z.log2_nonpos by exact H0. unfold B. lia.
  - assert (Z.log2 q < B - 1022).
    { apply Z.log2_lt_pow2; [exact H0|]. exact Hq. }
    lia.
Qed.

Lemma cexp_one (q : Z) : unit_of 0 <= q < 2 * unit_of 0 -> cexp q = -52.
Proof.
  intros [H1 H2]. unfold cexp.
  assert (E : Z.log2 q = B).
  { apply Z.log2_unique; [unfold B; lia|].
    unfold unit_of in *. rewrite Z.add_0_l in *.
    rewrite Z.pow_succ_r by (unfold B; lia). lia. }
  rewrite E. unfold B. lia.
Qed.

(** A representable value is a multiple of the unit of every value below
    it: the next double above [b] is [b] plus the unit of [b]. *)
Lemma representable_gap (a b : Z) :
  representable a -> representable b -> b < a ->
  b + unit_of (cexp b) <= a.
Proof.
  intros [Ha Ma] [Hb Mb] Hlt.
  pose proof (cexp_mono b a ltac:(lia)) as Hc.
  pose proof (unit_of_pos _ (cexp_B b)) as Ub.
  pose proof (unit_of_split (cexp b) (cexp a) (cexp_B b) Hc) as Es.
  assert (P2 : 0 < 2 ^ (cexp a - cexp b)) by (apply Z.pow_pos_nonneg; lia).
  set (ua := unit_of (cexp a)) in *. set (ub := unit_of (cexp b)) in *.
  pose proof (Z.div_mod a ua ltac:(nia)) as Da. rewrite Ma, Z.add_0_r in Da.
  pose proof (Z.div_mod b ub ltac:(lia)) as Db. rewrite Mb, Z.add_0_r in Db.
  set (ka := a / ua) in *. set (kb := b / ub) in *.
  set (P := 2 ^ (cexp a - cexp b)) in *.
  assert (E : a = (P * ka) * ub) by nia.
  set (k := P * ka) in *.
  assert (kb < k) by nia.
  nia.
Qed.

Lemma representable_below (b : Z) :
  representable b -> 0 < b -> b + unit_of (cexp b) <= 2 ^ 53 * unit_of (cexp b).
Proof.
  intros [Hb Mb] Hpos.
  pose proof (unit_of_pos _ (cexp_B b)) as Ub.
  pose proof (cexp_small b) as Hs.
  set (ub := unit_of (cexp b)) in *.
  pose proof (Z.div_mod b ub ltac:(lia)) as Db. rewrite Mb, Z.add_0_r in Db.
  set (kb := b / ub) in *.
  assert (kb < 2 ^ 53) by nia. nia.
Qed.

(** The squares of two doubles [b < a] round to two doubles, when the
    smaller square is in the range of the normal doubles. *)
Lemma RND_square_strict (a b : Z) :
  representable a -> representable b -> 0 < b -> b < a ->
  unit_of (-1022) <= b * b / unit_of 0 ->
  RND (b * b) (unit_of 0) < RND (a * a) (unit_of 0).
Proof.
  intros Ra Rb Hb Hlt Hn.
  pose proof (unit_of_pos 0 ltac:(unfold B; lia)) as HU.
  pose proof (representable_gap a b Ra Rb Hlt) as Hgap.
  pose proof (representable_below b Rb Hb) as Hbelow.
  pose proof (unit_of_pos _ (cexp_B b)) as Ub.
  set (u := unit_of (cexp b)) in *.
  set (a' := b + u).
  assert (Hmono : RND (a' * a') (unit_of 0) <= RND (a * a) (unit_of 0)).
  { apply RND_mono; [nia|exact HU|exact HU|].
    apply Z.mul_le_mono_nonneg_r; [lia|]. unfold a'. nia. }
  apply Z.lt_le_trans with (RND (a' * a') (unit_of 0)); [|exact Hmono].
  destruct (Z.lt_ge_cases (RND (b * b) (unit_of 0)) (RND (a' * a') (unit_of 0)))
    as [|Hge]; [assumption|exfalso].
  pose proof (RND_nearest (b * b) (unit_of 0) HU) as Nx.
  pose proof (RND_nearest (a' * a') (unit_of 0) HU) as Ny.
  assert (Hq : b * b / unit_of 0 <= a' * a' / unit_of 0).
  { apply Z.div_le_mono; [exact HU|]. unfold a'. nia. }
  pose proof (cexp_normal _ Hn) as Cx.
  pose proof (cexp_normal (a' * a' / unit_of 0) ltac:(lia)) as Cy.
  pose proof (Z.mul_div_le (b * b) (unit_of 0) HU) as Fx.
  pose proof (Z.mul_div_le (a' * a') (unit_of 0) HU) as Fy.
  pose proof (unit_of_pos _ (cexp_B (b * b / unit_of 0))) as Ux.
  pose proof (unit_of_pos _ (cexp_B (a' * a' / unit_of 0))) as Uy.
  set (ux := unit_of (cexp (b * b / unit_of 0))) in *.
  set (uy := unit_of (cexp (a' * a' / unit_of 0))) in *.
  set (vx := RND (b * b) (unit_of 0)) in *.
  set (vy := RND (a' * a') (unit_of 0)) in *.
  set (U := unit_of 0) in *.
  assert (S1 : 2 * (a' * a' - b * b) <= U * (ux + uy)) by nia.
  assert (S2 : 2 ^ 52 * (U * (ux + uy)) <= b * b + a' * a') by nia.
  assert (S3 : 2 ^ 53 * (a' * a' - b * b) <= b * b + a' * a') by nia.
  assert (S4 : a' * a' - b * b = u * (2 * b + u)) by (unfold a'; ring).
  assert (S5 : (b + u) * (2 * b + u) <= 2 ^ 53 * u * (2 * b + u)).
  { apply Z.mul_le_mono_nonneg_r; lia. }
  assert (S6 : b * b + a' * a' < (b + u) * (2 * b + u)) by (unfold a'; nia).
  rewrite S4 in S3. nia.
Qed.

(** The quotient of two doubles [d < c] rounds to a double above 1. *)
Lemma RND_quotient_strict (c d : Z) :
  representable c -> representable d -> 0 < d -> d < c ->
  unit_of 0 < RND (c * unit_of 0) d.
Proof.
  intros Rc Rd Hd Hlt.
  pose proof (unit_of_pos 0 ltac:(unfold B; lia)) as HU.
  pose proof (representable_gap c d Rc Rd Hlt) as Hgap.
  pose proof (cexp_small d) as Hs.
  pose proof (unit_of_pos _ (cexp_B d)) as Ud.
  set (u := unit_of (cexp d)) in *.
  destruct (Z.le_gt_cases (2 * d) c) as [H2|H2].
  - apply Z.lt_le_trans with (2 * unit_of 0); [lia|].
    rewrite <- (RND_exact (2 * unit_of 0) d (representable_int 2 ltac:(lia)) Hd).
    apply RND_mono; [nia|exact Hd|exact Hd|].
    apply Z.mul_le_mono_nonneg_r; [lia|]. nia.
  - destruct (Z.lt_ge_cases (unit_of 0) (RND (c * unit_of 0) d)) as [|Hle];
      [assumption|exfalso].
    assert (Hq : unit_of 0 <= c * unit_of 0 / d < 2 * unit_of 0).
    { split.
      - apply Z.div_le_lower_bound; [exact Hd|]. nia.
      - apply Z.div_lt_upper_bound; [exact Hd|]. nia. }
    pose proof (RND_nearest (c * unit_of 0) d Hd) as Nq.
    rewrite (cexp_one _ Hq) in Nq.
    assert (E52 : unit_of 0 = 2 ^ 52 * unit_of (-52)).
    { rewrite (unit_of_split (-52) 0) by (unfold B; lia). reflexivity. }
    pose proof (unit_of_pos (-52) ltac:(unfold B; lia)) as U52.
    set (w := unit_of (-52)) in *. set (v := RND (c * unit_of 0) d) in *.
    set (U := unit_of 0) in *.
    assert (S1 : 2 * (c * U - U * d) <= d * w) by nia.
    assert (S2 : 2 ^ 53 * (c - d) * w <= d * w) by (rewrite E52 in S1; nia).
    assert (S3 : 2 ^ 53 * (c - d) <= d) by nia.
    nia.
Qed.

Lemma representable_unit_any (e : Z) : -1022 <= e -> representable (unit_of e).
Proof.
  intros He. pose proof (unit_of_pos e ltac:(unfold B; lia)) as HU.
  split; [lia|]. rewrite cexp_unit by exact He.
  rewrite (unit_of_split (e - 52) e) by (unfold B; lia).
  apply Z.mod_mul. pose proof (unit_of_pos (e - 52) ltac:(unfold B; lia)). lia.
Qed.

(** A double whose square rounds into the range of the normal doubles has
    its exact square there: no double lies between [2^-511 (1 - 2^-54)] and
    [2^-511]. *)
Lemma square_normal (b : Z) :
  representable b -> 0 < b ->
  unit_of (-1022) <= RND (b * b) (unit_of 0) ->
  unit_of (-1022) <= b * b / unit_of 0.
Proof.
  intros Rb Hb Hv.
  pose proof (unit_of_pos 0 ltac:(unfold B; lia)) as HU.
  destruct (Z.le_gt_cases (unit_of (-1022)) (b * b / unit_of 0)) as [|Hlt];
    [assumption|exfalso].
  assert (Epp : unit_of (-511) * unit_of (-511) = unit_of (-1022) * unit_of 0)
    by (vm_compute; reflexivity).
  assert (Epw : 2 * (unit_of (-511) * unit_of (-564)) = unit_of 0 * unit_of (-1074))
    by (vm_compute; reflexivity).
  assert (Eww : 2 * (unit_of (-564) * unit_of (-564)) < unit_of 0 * unit_of (-1074))
    by (vm_compute; reflexivity).
  assert (Ep : unit_of (-511) = 2 ^ 53 * unit_of (-564)) by (vm_compute; reflexivity).
  assert (Eh : 2 ^ 53 * unit_of (-565) = unit_of (-512)) by (vm_compute; reflexivity).
  assert (Eh2 : unit_of (-511) = 2 * unit_of (-512)) by (vm_compute; reflexivity).
  pose proof (unit_of_pos (-511) ltac:(unfold B; lia)) as Pp.
  pose proof (unit_of_pos (-564) ltac:(unfold B; lia)) as Pw.
  pose proof (unit_of_pos (-1074) ltac:(unfold B; lia)) as P0.
  pose proof (unit_of_pos (-1022) ltac:(unfold B; lia)) as PN.
  (* the square is below N U, so b is below p *)
  assert (HX : b * b < unit_of (-1022) * unit_of 0).
  { pose proof (Z.div_mod (b * b) (unit_of 0) ltac:(lia)) as E.
    pose proof (Z.mod_pos_bound (b * b) (unit_of 0) HU). nia. }
  assert (Hbp : b < unit_of (-511)) by nia.
  pose proof (representable_gap _ _ (representable_unit_any (-511) ltac:(lia)) Rb Hbp)
    as Hgap.
  assert (Hbw : b <= unit_of (-511) - unit_of (-564)).
  { destruct (Z.le_gt_cases (-564) (cexp b)) as [Hc|Hc].
    - pose proof (unit_of_le (-564) (cexp b) ltac:(unfold B; lia) Hc). lia.
    - pose proof (cexp_small b) as Hs.
      pose proof (unit_of_le (cexp b) (-565) (cexp_B b) ltac:(lia)) as Hu.
      assert (b < unit_of (-512)) by nia. nia. }
  (* the rounding of the square *)
  pose proof (RND_nearest (b * b) (unit_of 0) HU) as Nx.
  rewrite (cexp_subnormal _ Hlt) in Nx.
  set (p := unit_of (-511)) in *. set (w := unit_of (-564)) in *.
  set (U := unit_of 0) in *. set (u0 := unit_of (-1074)) in *.
  set (N := unit_of (-1022)) in *. set (v := RND (b * b) U) in *.
  assert (S1 : b * b <= (p - w) * (p - w)) by nia.
  assert (S2 : 2 * (N * U - b * b) <= U * u0) by nia.
  nia.
Qed.

(** One minus a double above one is negative. *)
Lemma one_minus_above (mq : positive) (eq : Z) :
  bounded prec emax mq eq = true -> unit_of 0 < val mq eq ->
  SFltb (SFsub prec emax (Prim2SF 1%float) (S754_finite false mq eq)) (S754_zero false)
  = true.
Proof.
  intros Vq Hq.
  pose proof Fnn_one as N1. unfold Fnn in N1.
  assert (Nq : nn (S754_finite false mq eq)) by (split; [reflexivity|exact Vq]).
  destruct (SFsub_nn_le (S754_finite false mq eq) (Prim2SF 1%float) Nq N1)
    as [ND ED].
  { rewrite Prim2SF_one_val. cbn [ev]. lia. }
  { cbn [ev]. now apply bounded_lt_TOP. }
  rewrite Prim2SF_one_val in ED. cbn [ev] in ED.
  assert (Hpos : 0 < ev (SFsub prec emax (S754_finite false mq eq) (Prim2SF 1%float))).
  { rewrite ED.
    pose proof (representable_gap _ _ (bounded_representable _ _ Vq)
                                  (representable_unit 0 ltac:(lia)) Hq) as Hgap.
    rewrite (cexp_unit 0 ltac:(lia)) in Hgap. change (0 - 52) with (-52) in Hgap.
    pose proof (unit_of_pos (-52) ltac:(unfold B; lia)) as Pw.
    apply Z.lt_le_trans with (unit_of (-52)); [exact Pw|].
    rewrite <- (RND1_exact (unit_of (-52)) (representable_unit_any (-52) ltac:(lia))).
    apply RND1_mono; lia. }
  destruct (SFsub_antisym (S754_finite false mq eq) (Prim2SF 1%float)) as [E|[_ E]].
  - rewrite E. destruct ND as [Hs _].
    destruct (SFsub prec emax (S754_finite false mq eq) (Prim2SF 1%float))
      as [s|s| |s m e]; cbn [ev] in Hpos; try lia; try discriminate Hs;
      destruct s; try discriminate Hs; reflexivity.
  - rewrite E in Hpos. cbn [ev] in Hpos. lia.
Qed.

Lemma Prim2SF_min_normal :
  Prim2SF 0x1p-1022%float = S754_finite false 4503599627370496 (-1074).
Proof. vm_compute. reflexivity. Qed.

(** Outside the range: when [|R| < |r|] and the square of [R] is at least
    the smallest normal double (an overflowing square included), the
    discriminant is negative, infinite or a NaN. *)
Lemma conic_outside (r R : float) :
  (fabs R <? fabs r)%float = true -> (0x1p-1022 <=? R * R)%float = true ->
  isfinite (conic_discriminant r R) = false
  \/ (conic_discriminant r R <? 0)%float = true.
Proof.
  intros Hlt HN.
  pose proof (unit_of_pos 0 ltac:(unfold B; lia)) as HU0.
  pose proof TOP_pos as HT.
  pose proof (Prim2SF_valid R) as VR. pose proof (Prim2SF_valid r) as Vr.
  unfold conic_discriminant.
  rewrite isfinite_SF, ltb_spec, sub_spec, div_spec, !mul_spec, Prim2SF_zero.
  rewrite leb_spec, mul_spec, Prim2SF_min_normal in HN.
  unfold fabs in Hlt. rewrite ltb_spec, !abs_spec in Hlt.
  unfold SF64mul, SF64div, SF64sub in *.
  rewrite Prim2SF_one.
  destruct (Prim2SF R) as [sR|sR| |sR mR eR] eqn:ER.
  - exfalso. destruct sR; vm_compute in HN; discriminate.
  - exfalso. destruct (Prim2SF r) as [sr|sr| |sr mr er]; cbn in Hlt; discriminate.
  - exfalso. cbn in Hlt. discriminate.
  - cbn [valid_binary] in VR.
    pose proof (bounded_val_pos _ _ VR) as PR.
    rewrite SFmul_finite in HN |- * by assumption.
    replace (xorb sR sR) with false in * by (destruct sR; reflexivity).
    set (VRR := RND (val mR eR * val mR eR) (unit_of 0)) in *.
    assert (RRR : representable VRR) by (apply RND_representable; nia).
    assert (NN : nn (S754_finite false 4503599627370496 (-1074)))
      by (split; reflexivity).
    rewrite SFleb_ev in HN by (try exact NN; now apply inject_nn).
    rewrite ev_inject in HN by exact RRR. cbn [ev] in HN. apply Z.leb_le in HN.
    assert (EN : val 4503599627370496 (-1074) = unit_of (-1022))
      by (vm_compute; reflexivity).
    rewrite EN in HN.
    pose proof (unit_of_pos (-1022) ltac:(unfold B; lia)) as PN.
    assert (NT : unit_of (-1022) < TOP) by (vm_compute; reflexivity).
    assert (HN' : unit_of (-1022) <= VRR) by lia.
    destruct (Prim2SF r) as [sr|sr| |sr mr er] eqn:Er.
    + exfalso. cbn in Hlt. discriminate.
    + left. cbn [SFmul].
      destruct (inject_shape false VRR RRR)
        as [[E0 Ei]|[(Hrange & mRR & eRR & Ei & VmRR & EvRR)|[_ Ei]]];
        rewrite Ei; [lia| |]; destruct sr; reflexivity.
    + exfalso. cbn in Hlt. discriminate.
    + cbn [valid_binary] in Vr.
      pose proof (bounded_val_pos _ _ Vr) as Pr.
      cbn [SFabs] in Hlt.
      rewrite SFltb_ev in Hlt by (split; [reflexivity|assumption]).
      cbn [ev] in Hlt. apply Z.ltb_lt in Hlt.
      rewrite SFmul_finite by assumption.
      replace (xorb sr sr) with false by (destruct sr; reflexivity).
      set (Vrr := RND (val mr er * val mr er) (unit_of 0)) in *.
      assert (Rrr : representable Vrr) by (apply RND_representable; nia).
      assert (Hsq : VRR < Vrr).
      { apply RND_square_strict;
          [now apply bounded_representable|now apply bounded_representable
          |exact PR|exact Hlt|].
        apply square_normal; [now apply bounded_representable|exact PR|exact HN']. }
      destruct (inject_shape false VRR RRR)
        as [[E0 Ei]|[(Hrange & mRR & eRR & Ei & VmRR & EvRR)|[Hinf Ei]]];
        rewrite Ei; [lia| |].
      * destruct (inject_shape false Vrr Rrr)
          as [[E0 Ej]|[(Hrange' & mrr & err & Ej & Vmrr & Evrr)|[Hinf Ej]]];
          rewrite Ej; [lia| |left; reflexivity].
        rewrite SFdiv_finite by assumption. cbn [xorb].
        rewrite Evrr, EvRR.
        set (Q := RND (Vrr * unit_of 0) VRR).
        assert (RQ : representable Q) by (apply RND_representable; nia).
        assert (HQ : unit_of 0 < Q)
          by (apply RND_quotient_strict; [exact Rrr|exact RRR|lia|exact Hsq]).
        destruct (inject_shape false Q RQ)
          as [[E0 Ek]|[(_ & mq & eq & Ek & Vmq & Evq)|[_ Ek]]];
          rewrite Ek; [lia| |left; reflexivity].
        right. rewrite <- Prim2SF_one. apply one_minus_above; [exact Vmq|lia].
      * left.
        destruct (inject_shape false Vrr Rrr)
          as [[E0 Ej]|[(Hrange' & mrr & err & Ej & Vmrr & Evrr)|[_ Ej]]];
          rewrite Ej; [lia|lia|reflexivity].
Qed.

Local Open Scope float_scope.

(** C4, as the code has it.  For every [r] and every [R] other than 0, with
    conic 0 and the ten coefficients 0 and either mode flag: when the
    discriminant [T = 1 - r^2/R^2], evaluated in double arithmetic, is finite
    and not negative and the quotient [r^2 / (R (1 + sqrt T))] is finite,
    [aspheric_sag_rt10] returns that quotient (the same number; a quotient
    -0 is returned as +0); in every other case it returns 0.  The first case
    is the one at hand whenever [|r| <= |R|] and the square of [R] is finite
    and not 0 in double arithmetic.  Outside the range the function returns
    0, as claimed, whenever [|r| > |R|] and the square of [R], in double
    arithmetic, is at least [2^-1022], the smallest normal double: the
    discriminant is then negative, infinite or a NaN. *)
Theorem pure_conic_sag (r R : float) (modeOdd : Z) :
  (R =? 0) = false ->
  (isfinite (conic_discriminant r R) = true ->
   (conic_discriminant r R <? 0) = false ->
   isfinite (conic_sag r R) = true ->
   pure_conic_sag_rt10 r R modeOdd = conic_sag r R + 0
   /\ (pure_conic_sag_rt10 r R modeOdd =? conic_sag r R) = true)
  /\
  (isfinite (conic_discriminant r R) && negb (conic_discriminant r R <? 0)
   && isfinite (conic_sag r R) = false ->
   pure_conic_sag_rt10 r R modeOdd = 0)
  /\
  ((fabs r <=? fabs R) = true ->
   isfinite (R * R) = true -> (R * R =? 0) = false ->
   pure_conic_sag_rt10 r R modeOdd = conic_sag r R + 0
   /\ (pure_conic_sag_rt10 r R modeOdd =? conic_sag r R) = true)
  /\
  ((fabs R <? fabs r) = true -> (0x1p-1022 <=? R * R) = true ->
   pure_conic_sag_rt10 r R modeOdd = 0).
Proof.
  intros HR.
  assert (In : isfinite (conic_discriminant r R) = true ->
               (conic_discriminant r R <? 0) = false ->
               isfinite (conic_sag r R) = true ->
               pure_conic_sag_rt10 r R modeOdd = conic_sag r R + 0
               /\ (pure_conic_sag_rt10 r R modeOdd =? conic_sag r R) = true).
  { intros HT HT0 Hq. rewrite pure_conic_unfold, HR, add_0_r_finite, HT, HT0, Hq.
    cbn [negb orb]. split; [reflexivity|]. now apply add_0_r_eqb. }
  split; [exact In|]. split; [|split].
  - rewrite pure_conic_unfold, HR, add_0_r_finite.
    destruct (isfinite (conic_discriminant r R)); cbn [negb orb andb]; [|reflexivity].
    destruct (conic_discriminant r R <? 0); cbn [negb orb andb]; [reflexivity|].
    now intros ->.
  - intros Hle HRR HRR0.
    destruct (conic_inside r R Hle HRR HRR0) as (HT & HT0 & Hq). now apply In.
  - intros Hlt HN. rewrite pure_conic_unfold, HR.
    destruct (conic_outside r R Hlt HN) as [E|E]; rewrite E;
      [reflexivity|apply orb_true_r || (now rewrite orb_true_r)].
Qed.

Lemma pure_conic_sag_witness :
  (isfinite (conic_discriminant 1 10) = true ->
   (conic_discriminant 1 10 <? 0) = false ->
   isfinite (conic_sag 1 10) = true ->
   pure_conic_sag_rt10 1 10 0 = conic_sag 1 10 + 0
   /\ (pure_conic_sag_rt10 1 10 0 =? conic_sag 1 10) = true)
  /\
  (isfinite (conic_discriminant 1 10) && negb (conic_discriminant 1 10 <? 0)
   && isfinite (conic_sag 1 10) = false ->
   pure_conic_sag_rt10 1 10 0 = 0)
  /\
  ((fabs 1 <=? fabs 10) = true ->
   isfinite (10 * 10) = true -> (10 * 10 =? 0) = false ->
   pure_conic_sag_rt10 1 10 0 = conic_sag 1 10 + 0
   /\ (pure_conic_sag_rt10 1 10 0 =? conic_sag 1 10) = true)
  /\
  ((fabs 10 <? fabs 1) = true -> (0x1p-1022 <=? 10 * 10) = true ->
   pure_conic_sag_rt10 1 10 0 = 0).
Proof. apply (pure_conic_sag 1 10 0). reflexivity. Defined.

(** C4 as stated fails at both ends of the range of a double.  With
    [r = R = 1e200] the squares overflow, [|r| <= |R|] holds and the code
    returns 0, which is not the claimed value.  With
    [r = 2.1e-162 > R = 2e-162] both squares round to the smallest
    subnormal, the discriminant is 0 and the code returns 2.47e-162 where
    the claim has 0. *)
Lemma pure_conic_sag_out_of_range :
  ((1e200 =? 0) = false
   /\ (abs 1e200 <=? abs 1e200) = true
   /\ pure_conic_sag_rt10 1e200 1e200 0 = 0
   /\ (pure_conic_sag_rt10 1e200 1e200 0 =? conic_sag 1e200 1e200) = false)
  /\
  ((2e-162 =? 0) = false
   /\ (abs 2.1e-162 <=? abs 2e-162) = false
   /\ (pure_conic_sag_rt10 2.1e-162 2e-162 0 =? 0) = false).
Proof. vm_compute. repeat split; reflexivity. Qed.

(** The two hypotheses of the last case at [r = 2], [R = 1]. *)
Example pure_conic_sag_outside_example :
  (2 =? 0) = false /\ (fabs 1 <? fabs 2) = true /\ (0x1p-1022 <=? 1 * 1) = true
  /\ pure_conic_sag_rt10 2 1 0 = 0.
Proof. vm_compute. repeat split; reflexivity. Qed.

(* ===================================================================== *)
(** * psf-wasm.c: the twiddle table behind a trig table *)
(* ===================================================================== *)

Local Open Scope Z_scope.

(** ** The twiddle table of a 16 x 16 PSF *)

(** The angle of cell [j] of a trig table of [size] cells, and the pair of
    the cosine and the sine the table holds there. *)
Definition trig_angle (size j : Z) : float :=
  (2 * M_PI * of_int j / of_int size)%float.

Definition sampled (L : Libm) (size j : Z) : Complex :=
  mkComplex (c_cos L (trig_angle size j)) (c_sin L (trig_angle size j)).

(** The entry C2 claims at index [i] of a table of length [n]. *)
Definition claimed_twiddle (L : Libm) (n i : Z) : Complex :=
  mkComplex (c_cos L (twiddle_angle n i)) (c_sin L (twiddle_angle n i)).

(** The state in which the first PSF of a 16 x 16 grid runs its FFT: trig
    tables of 4 * 256 cells, no twiddle table yet. *)
Definition psf_16_state (L : Libm) : state :=
  prepare_trig_tables L (16 * 16) initial_state.

(** The cells of the trig table that the sixteen entries are read from.
    Entry [i] stands for the angle [2 pi (16 - i) / 16], which is the angle
    of cell [64 (16 - i)]: the entries 1, 5 and 13 come from the cell
    before. *)
Definition twiddle_cells_16 : list Z :=
  [0; 959; 896; 832; 768; 703; 640; 576; 512; 448; 384; 320; 256; 191; 128; 64].

(** [fmod(x, 2 pi)] is [x] itself for the sixteen angles, all within 2 pi of
    zero, as the C standard has it. *)
Definition fmod_of_sixteenths (L : Libm) : Prop :=
  forall i, 0 <= i < 16 ->
            c_fmod L (twiddle_angle 16 i) (2 * M_PI) = twiddle_angle 16 i.

(** The C library returns the correctly rounded cosine and sine at the
    angles of the entries 1, 5 and 13, at the angles of the cells 959, 703
    and 191 that the code reads, and at those of the cells 960, 704 and 192
    that hold the angles of the entries. *)
Definition sixteenth_values (L : Libm) : Prop :=
  map (claimed_twiddle L 16) [1; 5; 13]
  = [mkComplex 0x1.d906bcf328d46p-1 (-0x1.87de2a6aea963p-2);
     mkComplex (-0x1.87de2a6aea962p-2) (-0x1.d906bcf328d46p-1);
     mkComplex 0x1.87de2a6aea967p-2 0x1.d906bcf328d45p-1]%float
  /\ map (sampled L 1024) [959; 703; 191]
     = [mkComplex 0x1.d7d0b02b8ecf8p-1 (-0x1.8daa52ec8a4b7p-2);
        mkComplex (-0x1.8daa52ec8a4b6p-2) (-0x1.d7d0b02b8ecf8p-1);
        mkComplex 0x1.8daa52ec8a4b0p-2 0x1.d7d0b02b8ecf9p-1]%float
  /\ map (sampled L 1024) [960; 704; 192]
     = [mkComplex 0x1.d906bcf328d44p-1 (-0x1.87de2a6aea96ep-2);
        mkComplex (-0x1.87de2a6aea96dp-2) (-0x1.d906bcf328d44p-1);
        mkComplex 0x1.87de2a6aea964p-2 0x1.d906bcf328d46p-1]%float.

Lemma rd_map_indices {A : Type} (f : Z -> A) (n j : Z) :
  0 <= j < n -> rd (map f (indices n)) j = Some (f j).
Proof.
  intros Hj. pose proof (rd_indices n j Hj) as H. unfold rd in *.
  destruct (Z.ltb_spec j 0); [lia|].
  rewrite nth_error_map, H. reflexivity.
Qed.

Lemma sixteen_cases (i : Z) :
  0 <= i < 16 ->
  i = 0 \/ i = 1 \/ i = 2 \/ i = 3 \/ i = 4 \/ i = 5 \/ i = 6 \/ i = 7
  \/ i = 8 \/ i = 9 \/ i = 10 \/ i = 11 \/ i = 12 \/ i = 13 \/ i = 14 \/ i = 15.
Proof. lia. Qed.

(** The index that [fast_cos] and [fast_sin] compute for the angle of entry
    [i]: the quotient [x / (2 pi)] times 1024 falls short of the integer for
    the entries 1, 5 and 13, and the conversion to [int] truncates it. *)
Lemma twiddle_cell_16 (L : Libm) (i : Z) :
  fmod_of_sixteenths L -> 0 <= i < 16 ->
  trig_index L (psf_16_state L) (twiddle_angle 16 i) = nth (Z.to_nat i) twiddle_cells_16 0
  /\ isfinite (twiddle_angle 16 i) = true
  /\ 0 <= nth (Z.to_nat i) twiddle_cells_16 0 < 1024.
Proof.
  intros Hf Hi. unfold trig_index. cbv zeta. rewrite (Hf i Hi).
  change (trig_table_size (psf_16_state L)) with 1024.
  destruct (sixteen_cases i Hi)
    as [->|[->|[->|[->|[->|[->|[->|[->|[->|[->|[->|[->|[->|[->|[->| ->]]]]]]]]]]]]]]];
    (split; [vm_compute; reflexivity|split; [vm_compute; reflexivity|]]);
    unfold twiddle_cells_16; simpl; lia.
Qed.

Lemma twiddle_entry_16 (L : Libm) (i : Z) :
  fmod_of_sixteenths L -> 0 <= i < 16 ->
  twiddle_entry L (psf_16_state L) 16 i
  = Some (sampled L 1024 (nth (Z.to_nat i) twiddle_cells_16 0)).
Proof.
  intros Hf Hi. destruct (twiddle_cell_16 L i Hf Hi) as (Ec & Efin & Hc).
  unfold twiddle_entry, fast_cos, fast_sin.
  change (cos_table (psf_16_state L))
    with (Some (map (fun j => c_cos L (trig_angle 1024 j)) (indices 1024))).
  change (sin_table (psf_16_state L))
    with (Some (map (fun j => c_sin L (trig_angle 1024 j)) (indices 1024))).
  rewrite Efin, Ec. cbn [negb].
  rewrite (rd_map_indices (fun j => c_cos L (trig_angle 1024 j)) 1024 _ Hc).
  rewrite (rd_map_indices (fun j => c_sin L (trig_angle 1024 j)) 1024 _ Hc).
  reflexivity.
Qed.

(** The twiddle table the sixteen cells make. *)
Definition twiddles_of_cells (L : Libm) : list Complex :=
  map (sampled L 1024) twiddle_cells_16.

Lemma twiddle_entries_16 (L : Libm) :
  fmod_of_sixteenths L ->
  twiddle_entries L (psf_16_state L) 16 (indices 16) = Some (twiddles_of_cells L).
Proof.
  intros Hf.
  change (indices 16) with [0; 1; 2; 3; 4; 5; 6; 7; 8; 9; 10; 11; 12; 13; 14; 15].
  cbn [twiddle_entries].
  rewrite !(twiddle_entry_16 L _ Hf) by lia. reflexivity.
Qed.

(** The state of the FFT inside a 16 x 16 PSF: the trig tables of
    [psf_16_state], and either no twiddle table yet or the one of the sixteen
    cells. *)
Definition in_psf_16 (L : Libm) (st : state) : Prop :=
  same_tables (psf_16_state L) st
  \/ (twiddle_table st = Some (twiddles_of_cells L) /\ twiddle_table_size st = 16
      /\ sin_table st = sin_table (psf_16_state L)
      /\ cos_table st = cos_table (psf_16_state L)
      /\ trig_table_size st = trig_table_size (psf_16_state L)).

Definition has_twiddles_16 (L : Libm) (st : state) : Prop :=
  twiddle_table st = Some (twiddles_of_cells L) /\ twiddle_table_size st = 16
  /\ sin_table st = sin_table (psf_16_state L)
  /\ cos_table st = cos_table (psf_16_state L)
  /\ trig_table_size st = trig_table_size (psf_16_state L).

Lemma fft_1d_16_table (L : Libm) (st st2 : state) (data d : list Complex)
      (off : Z) (inverse : bool) :
  fmod_of_sixteenths L -> in_psf_16 L st ->
  fft_1d L st data off 16 inverse = Some (st2, d) ->
  has_twiddles_16 L st2.
Proof.
  intros Hf Hin Hfft. apply fft_1d_effect in Hfft as [_ [[Hn _]|[_ He]]]; [lia|].
  destruct Hin as [Hs|(Ht & Hz & Es & Ec & En)].
  - pose proof (twiddle_entries_same L _ st 16 (indices 16) Hs) as Hent.
    rewrite (twiddle_entries_16 L Hf) in Hent.
    destruct Hs as (Ht & Hz & Es & Ec & En).
    unfold ensure_twiddle_table, init_twiddle_table in He.
    rewrite Ht, Hent in He. change (twiddle_table (psf_16_state L)) with (@None (list Complex)) in He.
    cbv iota in He. injection He as <-. unfold has_twiddles_16. cbn. auto.
  - unfold ensure_twiddle_table in He. rewrite Ht, Hz in He.
    change (16 <? 16) with false in He. cbv iota in He. injection He as <-.
    unfold has_twiddles_16. auto.
Qed.

Lemma fft_rows_16_table (L : Libm) (rows : Z) (inverse : bool)
      (s s' : state * list Complex) :
  fmod_of_sixteenths L -> 1 <= rows -> in_psf_16 L (fst s) ->
  fft_rows L rows 16 inverse s = Some s' ->
  has_twiddles_16 L (fst s').
Proof.
  intros Hf Hrows Hin. unfold fft_rows, for_loop.
  replace (Z.to_nat (rows - 0)) with (S (Z.to_nat (rows - 1))) by lia.
  cbn [for_range].
  destruct (fft_1d L (fst s) (snd s) (0 * 16) 16 inverse) as [[st1 d1]|] eqn:E1;
    [|discriminate].
  pose proof (fft_1d_16_table L _ _ _ _ _ _ Hf Hin E1) as H1.
  intros Hrest.
  eapply (for_range_preserves (fun t => has_twiddles_16 L (fst t))); [|exact Hrest|exact H1].
  intros k t [st3 d3] Hb Ht. cbn [fst].
  apply (fft_1d_16_table L (fst t) st3 (snd t) d3 (k * 16) inverse Hf); [|exact Hb].
  right. exact Ht.
Qed.

Lemma fft_2d_16_table (L : Libm) (b : nat -> Complex) (data d : list Complex)
      (inverse : bool) (st2 : state) :
  fmod_of_sixteenths L ->
  fft_2d L (Some b) (psf_16_state L) data 16 16 inverse = Some (st2, d) ->
  twiddle_table st2 = Some (twiddles_of_cells L).
Proof.
  intros Hf. unfold fft_2d. cbv zeta.
  pose proof (ensure_fft_temp_buffer_tables (Some b) (16 * 16) (psf_16_state L)) as Hs.
  assert (Hbuf : fft_temp_buffer (ensure_fft_temp_buffer (Some b) (16 * 16) (psf_16_state L))
                 = Some (cells b (16 * 16))) by reflexivity.
  set (st1 := ensure_fft_temp_buffer (Some b) (16 * 16) (psf_16_state L)) in *.
  rewrite Hbuf.
  destruct (fft_rows L 16 16 inverse (st1, data)) as [s1|] eqn:E1; [|discriminate].
  pose proof (fft_rows_16_table L 16 inverse (st1, data) s1 Hf ltac:(lia)
                                (or_introl Hs) E1) as H1.
  destruct (transpose_complex (snd s1) _ 16 16) as [tmp1|]; [|discriminate].
  destruct (fft_rows L 16 16 inverse (fst s1, tmp1)) as [s2|] eqn:E3; [|discriminate].
  pose proof (fft_rows_16_table L 16 inverse (fst s1, tmp1) s2 Hf ltac:(lia)
                                (or_intror H1) E3) as H2.
  destruct (transpose_complex (snd s2) (snd s1) 16 16); [|discriminate].
  intros E. injection E as <- _. exact (proj1 H2).
Qed.

(** C2 on the code.  In the state in which the first PSF of a 16 x 16 grid
    runs its FFT (trig tables of 1024 cells built, no twiddle table),
    [init_twiddle_table(16)], and any FFT of length 16, builds the twiddle
    table from the trig tables: entry [i] is the cell of
    [twiddle_cells_16].  For the entries 1, 5 and 13 that is the cell
    before the one that holds the entry's angle (959, 703 and 191 for 960,
    704 and 192): the quotient [x / (2 pi) * 1024] comes out just below the
    integer and [(int)] truncates it.  These three entries are off the
    claimed [(cos(-2 pi i/16), sin(-2 pi i/16))] by more than 5e-3, where
    the cells that hold their angles are within 1e-15 of it. *)
Theorem twiddle_table_reads_cell_before (L : Libm) :
  fmod_of_sixteenths L -> sixteenth_values L ->
  exists st' tbl,
    init_twiddle_table L 16 (psf_16_state L) = Some st'
    /\ twiddle_table st' = Some tbl
    /\ (forall data off inverse st2 d,
          fft_1d L (psf_16_state L) data off 16 inverse = Some (st2, d) ->
          twiddle_table st2 = Some tbl)
    /\ (forall calloc_ok malloc_psf b grid_opd amplitude pupil_mask wavelength st2 r,
          calculate_psf_grid_wasm L calloc_ok malloc_psf (Some b) initial_state
                                  grid_opd amplitude pupil_mask 16 wavelength
          = Some (st2, Some r) ->
          twiddle_table st2 = Some tbl)
    /\ tbl = map (sampled L 1024) twiddle_cells_16
    /\ (forall i, 0 <= i < 16 ->
          trig_index L (psf_16_state L) (twiddle_angle 16 i)
          = nth (Z.to_nat i) twiddle_cells_16 0)
    /\ ((twiddle_angle 16 1 + 2 * M_PI) / (2 * M_PI) * 1024
        = 0x1.dffffffffffffp+9)%float
    /\ to_int 0x1.dffffffffffffp+9 = 959
    /\ nth 1 tbl czero
       = mkComplex 0x1.d7d0b02b8ecf8p-1 (-0x1.8daa52ec8a4b7p-2)
    /\ claimed_twiddle L 16 1
       = mkComplex 0x1.d906bcf328d46p-1 (-0x1.87de2a6aea963p-2)
    /\ PrimFloat.ltb 5e-3%float
                      (max_abs_error (map (claimed_twiddle L 16) [1; 5; 13])
                                     (map (fun i => nth i tbl czero) [1; 5; 13]%nat))
       = true
    /\ PrimFloat.ltb (max_abs_error (map (claimed_twiddle L 16) [1; 5; 13])
                                    (map (sampled L 1024) [960; 704; 192]))
                      1e-15%float
       = true.
Proof.
  intros Hf (Hclaimed & Hread & Hright).
  pose proof (twiddle_entries_16 L Hf) as Htbl. unfold twiddles_of_cells in Htbl.
  assert (Hinit : init_twiddle_table L 16 (psf_16_state L)
                  = Some (set_twiddle (psf_16_state L)
                                      (Some (map (sampled L 1024) twiddle_cells_16)) 16)).
  { unfold init_twiddle_table. now rewrite Htbl. }
  eexists _, _. split; [exact Hinit|]. split; [reflexivity|]. split.
  { intros data off inverse st2 d Hfft. unfold fft_1d, ensure_twiddle_table in Hfft.
    change (16 <=? 1) with false in Hfft.
    change (twiddle_table (psf_16_state L)) with (@None (list Complex)) in Hfft.
    cbv iota in Hfft. rewrite Hinit in Hfft.
    destruct (twiddle_table _) in Hfft; [|discriminate].
    destruct (bit_reverse off 16 data); [|discriminate].
    destruct (stages _ off 16 inverse _ 2 _); [|discriminate].
    destruct (normalize off 16 inverse _); [|discriminate].
    now injection Hfft as <- _. }
  split.
  { intros calloc_ok malloc_psf b grid_opd amplitude pupil_mask wavelength st2 r.
    unfold calculate_psf_grid_wasm. cbv zeta.
    change (prepare_trig_tables L (16 * 16) initial_state) with (psf_16_state L).
    destruct calloc_ok; [|discriminate].
    destruct malloc_psf as [g|]; [|discriminate].
    destruct (grid_pupil L _ _ _ _ _ _) as [field|]; [|discriminate].
    destruct (fft_2d L (Some b) (psf_16_state L) field 16 16 false)
      as [[st3 d3]|] eqn:E2; [|discriminate].
    destruct (for_loop 0 _ (intensity_cell _) _); [|discriminate].
    destruct (fft_shift _ 16); [|discriminate].
    intros E. injection E as <- _. cbn [fst].
    exact (fft_2d_16_table L b field d3 false st3 Hf E2). }
  split; [reflexivity|]. split.
  { intros i Hi. exact (proj1 (twiddle_cell_16 L i Hf Hi)). }
  split; [vm_compute; reflexivity|]. split; [vm_compute; reflexivity|].
  assert (Hgot : map (fun i => nth i (map (sampled L 1024) twiddle_cells_16) czero)
                     [1; 5; 13]%nat
                 = map (sampled L 1024) [959; 703; 191]) by reflexivity.
  split.
  { exact (f_equal (fun l => nth 0 l czero) Hread). }
  split.
  { exact (f_equal (fun l => nth 0 l czero) Hclaimed). }
  split.
  - rewrite Hgot, Hclaimed, Hread. vm_compute. reflexivity.
  - rewrite Hclaimed, Hright. vm_compute. reflexivity.
Qed.

Lemma reference_fmod_of_sixteenths : fmod_of_sixteenths RefLibm.libm.
Proof.
  intros i Hi.
  destruct (sixteen_cases i Hi)
    as [->|[->|[->|[->|[->|[->|[->|[->|[->|[->|[->|[->|[->|[->|[->| ->]]]]]]]]]]]]]]];
    vm_compute; reflexivity.
Qed.

Lemma reference_sixteenth_values : sixteenth_values RefLibm.libm.
Proof. repeat split; vm_compute; reflexivity. Qed.

Lemma twiddle_table_reads_cell_before_witness :
  exists st' tbl,
    init_twiddle_table RefLibm.libm 16 (psf_16_state RefLibm.libm) = Some st'
    /\ twiddle_table st' = Some tbl
    /\ (forall data off inverse st2 d,
          fft_1d RefLibm.libm (psf_16_state RefLibm.libm) data off 16 inverse
          = Some (st2, d) ->
          twiddle_table st2 = Some tbl)
    /\ (forall calloc_ok malloc_psf b grid_opd amplitude pupil_mask wavelength st2 r,
          calculate_psf_grid_wasm RefLibm.libm calloc_ok malloc_psf (Some b)
                                  initial_state
                                  grid_opd amplitude pupil_mask 16 wavelength
          = Some (st2, Some r) ->
          twiddle_table st2 = Some tbl)
    /\ tbl = map (sampled RefLibm.libm 1024) twiddle_cells_16
    /\ (forall i, 0 <= i < 16 ->
          trig_index RefLibm.libm (psf_16_state RefLibm.libm) (twiddle_angle 16 i)
          = nth (Z.to_nat i) twiddle_cells_16 0)
    /\ ((twiddle_angle 16 1 + 2 * M_PI) / (2 * M_PI) * 1024
        = 0x1.dffffffffffffp+9)%float
    /\ to_int 0x1.dffffffffffffp+9 = 959
    /\ nth 1 tbl czero
       = mkComplex 0x1.d7d0b02b8ecf8p-1 (-0x1.8daa52ec8a4b7p-2)
    /\ claimed_twiddle RefLibm.libm 16 1
       = mkComplex 0x1.d906bcf328d46p-1 (-0x1.87de2a6aea963p-2)
    /\ PrimFloat.ltb 5e-3%float
                      (max_abs_error (map (claimed_twiddle RefLibm.libm 16) [1; 5; 13])
                                     (map (fun i => nth i tbl czero) [1; 5; 13]%nat))
       = true
    /\ PrimFloat.ltb (max_abs_error (map (claimed_twiddle RefLibm.libm 16) [1; 5; 13])
                                    (map (sampled RefLibm.libm 1024) [960; 704; 192]))
                      1e-15%float
       = true.
Proof.
  exact (twiddle_table_reads_cell_before RefLibm.libm reference_fmod_of_sixteenths
                                         reference_sixteenth_values).
Defined.
